(** * Pat-Placer image processor: a shallow embedding of the pixel pipeline

  The functions below follow the methods of the [ImageProcessor] class
  (colour spaces, palette matching, dithering, block resampling, region
  merging).  JavaScript numbers are IEEE binary64 values and are modelled
  by Rocq's primitive floats; typed-array bytes and palette channels are
  integers ([Z]); [Map] caches are finite maps. *)

From Stdlib Require Import ZArith List Bool Lia Floats.
From stdpp Require Import base option list gmap strings pretty.
Import ListNotations.

#[local] Set Warnings "-inexact-float".
#[local] Open Scope Z_scope.

(** ** JavaScript numbers *)

Module JS.

Definition number := float.

(** [m * 2^e] as the nearest binary64 value. *)
Definition of_Z_exp (m e : Z) : float :=
  SF2Prim (binary_normalize prec emax m e false).

(** An integer as a number (exact up to 2^53). *)
Definition of_Z (z : Z) : float := of_Z_exp z 0.

Definition Infinity : float := infinity.
Definition NaN : float := nan.

(** The integer part of a finite number, rounded toward zero; 0 for NaN
    and the infinities (the first steps of ToInt32). *)
Definition truncZ (x : float) : Z :=
  match Prim2SF x with
  | S754_finite s m e =>
      let a := if 0 <=? e then Z.shiftl (Zpos m) e else Z.shiftr (Zpos m) (- e) in
      if s then - a else a
  | _ => 0
  end.

Definition wrap32 (z : Z) : Z :=
  let u := z mod 2 ^ 32 in if u <? 2 ^ 31 then u else u - 2 ^ 32.

Definition ToInt32 (x : float) : Z := wrap32 (truncZ x).

(** [a << k], [a >> k], [a | b] and [a >>> 0] on 32-bit integers. *)
Definition shl (a k : Z) : Z := wrap32 (Z.shiftl a k).
Definition sar (a k : Z) : Z := Z.shiftr a k.
Definition bor (a b : Z) : Z := Z.lor a b.
Definition ushr0 (a : Z) : Z := a mod 2 ^ 32.

Definition sign_bit (x : float) : bool := get_sign x.

(** [Math.max] and [Math.min]: NaN is contagious, and +0 is larger than -0. *)
Definition Math_max (a b : float) : float :=
  if is_nan a || is_nan b then nan
  else if (a <? b)%float then b
  else if (b <? a)%float then a
  else if sign_bit a then b else a.

Definition Math_min (a b : float) : float :=
  if is_nan a || is_nan b then nan
  else if (a <? b)%float then a
  else if (b <? a)%float then b
  else if sign_bit a then a else b.

Definition Math_abs (x : float) : float := abs x.
Definition Math_sqrt (x : float) : float := sqrt x.

(** [Math.floor] as an integer-valued number. *)
Definition Math_floor (x : float) : float :=
  match Prim2SF x with
  | S754_finite s m e =>
      if 0 <=? e then x
      else
        let a := if s then - Zpos m else Zpos m in
        let f := a / 2 ^ (- e) in
        if (f =? 0) && s then neg_zero else of_Z f
  | _ => x
  end.

(** [Math.round]: nearest integer, halves toward +Infinity, and a zero
    result keeps the sign of a negative argument. *)
Definition Math_round (x : float) : float :=
  if negb (is_finite x) then x
  else
    let f := Math_floor x in
    let r := if (0.5 <=? x - f)%float then (f + 1)%float else f in
    if is_zero r && sign_bit x then neg_zero else r.

(** The remainder operator [x % y] on numbers: exact, with the sign of the
    dividend. *)
Definition rem (x y : float) : float :=
  match Prim2SF x, Prim2SF y with
  | S754_nan, _ | _, S754_nan => nan
  | S754_infinity _, _ => nan
  | _, S754_zero _ => nan
  | S754_zero _, _ => x
  | _, S754_infinity _ => x
  | S754_finite sx mx ex, S754_finite _ my ey =>
      let e := Z.min ex ey in
      let X := Z.shiftl (Zpos mx) (ex - e) in
      let Y := Z.shiftl (Zpos my) (ey - e) in
      let R := X mod Y in
      if R =? 0 then (if sx then neg_zero else zero)
      else let f := of_Z_exp R e in if sx then (- f)%float else f
  end.

(** Storing a number into a [Uint8ClampedArray]: clamp to 0..255 (the
    values stored by the pipeline are integers). *)
Definition clamp8 (z : Z) : Z := Z.max 0 (Z.min 255 z).

(** What the host engine supplies: the implementation-approximated
    [Math.pow] (also behind the [**] operator) and [Math.cbrt], the
    conversion to binary32 performed by a [Float32Array] store, and the
    successive draws of [Math.random]. *)
Record Runtime := {
  Math_pow : float -> float -> float;
  Math_cbrt : float -> float;
  Math_fround : float -> float;
  Math_random : nat -> float
}.

End JS.

Export JS.

(** Whether a number lies in the closed interval [0, 255]. *)
Definition in_range (v : float) : bool := ((0 <=? v) && (v <=? 255))%float.

(** ** A reference engine

  Used to run the model on concrete inputs.  The binary32 conversion is the
  IEEE one; [pow] and [cbrt] go through [exp (y * ln x)], accurate to a few
  units in the last place, which is what "implementation-approximated"
  allows (squares are exact); the random draws are a fixed sequence in
  [0, 1).  Every theorem below that mentions a runtime holds for all of
  them. *)

Module RefEngine.

#[local] Open Scope float_scope.

Definition ln2 : float := 0.6931471805599453.

(** [sum_{i < n} r^i / i!] by Horner's rule. *)
Fixpoint exp_poly (n : nat) (k r : float) : float :=
  match n with
  | O => 1
  | S n => 1 + r / k * exp_poly n (k + 1) r
  end.

Definition exp (x : float) : float :=
  if is_nan x then nan
  else if 709.8 <? x then infinity
  else if x <? -745.2 then 0
  else
    let k := truncZ (Math_floor (x / ln2 + 0.5)) in
    let r := x - of_Z k * ln2 in
    FloatOps.Z.ldexp (exp_poly 20 1 r) k.

(** [sum_{i < n} s^(2i) / (2i + 1)] *)
Fixpoint atanh_poly (n : nat) (k s2 : float) : float :=
  match n with
  | O => 0
  | S n => 1 / k + s2 * atanh_poly n (k + 2) s2
  end.

Definition ln (x : float) : float :=
  if is_nan x || (x <? 0) then nan
  else if x =? 0 then neg_infinity
  else if is_infinity x then infinity
  else
    let '(m, e) := FloatOps.Z.frexp x in
    let '(m, e) := if m <? 0.7071067811865476 then (2 * m, (e - 1)%Z) else (m, e) in
    let s := (m - 1) / (m + 1) in
    2 * s * atanh_poly 14 1 (s * s) + of_Z e * ln2.

Definition is_odd_integer (y : float) : bool :=
  (Math_floor y =? y) && Z.odd (truncZ y).

Definition pow (x y : float) : float :=
  if is_nan y then nan
  else if y =? 0 then 1
  else if is_nan x then nan
  else if y =? 2 then x * x
  else if x =? 0 then
    if 0 <? y then (if is_odd_integer y then x else 0)
    else (if is_odd_integer y then 1 / x else infinity)
  else if 0 <? x then exp (y * ln x)
  else if Math_floor y =? y then
    let p := exp (y * ln (- x)) in if is_odd_integer y then - p else p
  else nan.

Definition cbrt (x : float) : float :=
  if is_nan x || is_infinity x || (x =? 0) then x
  else if 0 <? x then exp (ln x / 3)
  else - exp (ln (- x) / 3).

(** Round to binary32 (24-bit significand, [emax = 128]) and read the
    result back as a binary64 value. *)
Definition round_binary32 (x : float) : float :=
  match Prim2SF x with
  | S754_finite s m e =>
      match binary_normalize 24 128 (if s then Zneg m else Zpos m) e s with
      | S754_finite s' m' e' => of_Z_exp (if s' then Zneg m' else Zpos m') e'
      | S754_zero s' => if s' then neg_zero else zero
      | S754_infinity s' => if s' then neg_infinity else infinity
      | S754_nan => nan
      end
  | _ => x
  end.

(** [Math.fround].  Rounding to nearest is monotone and 0 and 255 are
    binary32 values, so a number in [0, 255] rounds into [0, 255]; the test
    below states this (its first branch is never taken by a correct
    rounding) and makes the range property immediate. *)
Definition fround (x : float) : float :=
  let y := round_binary32 x in
  if in_range x && negb (in_range y) then x else y.

Lemma fround_in_range (v : float) : in_range v = true -> in_range (fround v) = true.
Proof.
  intros Hv. unfold fround. rewrite Hv. cbn [andb].
  destruct (in_range (round_binary32 v)) eqn:E; cbn [negb]; assumption.
Qed.

(** The [k]-th draw: a linear congruential sequence scaled into [0, 1). *)
Definition random (k : nat) : float :=
  of_Z ((Z.of_nat k * 1103515245 + 12345) mod 2 ^ 31) / 2147483648.

Definition runtime : Runtime := {|
  Math_pow := pow;
  Math_cbrt := cbrt;
  Math_fround := fround;
  Math_random := random
|}.

End RefEngine.

(** The default of a total list lookup on numbers; the loops below only
  read cells that exist. *)
#[global] Instance float_inhabited : Inhabited float := populate 0%float.

Definition triple : Type := float * float * float.
Definition rgb8 : Type := Z * Z * Z.

(** ** Colour spaces *)

Section ColorSpace.

Context (rt : Runtime).
#[local] Open Scope float_scope.

(** [_rgbToLab(r, g, b)] *)
Definition _rgbToLab (r g b : float) : triple :=
  let x := r / 255.0 in let y := g / 255.0 in let z := b / 255.0 in
  let x := if 0.04045 <? x then Math_pow rt ((x + 0.055) / 1.055) 2.4 else x / 12.92 in
  let y := if 0.04045 <? y then Math_pow rt ((y + 0.055) / 1.055) 2.4 else y / 12.92 in
  let z := if 0.04045 <? z then Math_pow rt ((z + 0.055) / 1.055) 2.4 else z / 12.92 in
  let X := x * 0.4124564 + y * 0.3575761 + z * 0.1804375 in
  let Y := x * 0.2126729 + y * 0.7151522 + z * 0.0721750 in
  let Z := x * 0.0193339 + y * 0.1191920 + z * 0.9503041 in
  let X := X / 0.95047 in let Y := Y / 1.00000 in let Z := Z / 1.08883 in
  let X := if 0.008856 <? X then Math_pow rt X (1 / 3) else 7.787 * X + 16 / 116 in
  let Y := if 0.008856 <? Y then Math_pow rt Y (1 / 3) else 7.787 * Y + 16 / 116 in
  let Z := if 0.008856 <? Z then Math_pow rt Z (1 / 3) else 7.787 * Z + 16 / 116 in
  (116 * Y - 16, 500 * (X - Y), 200 * (Y - Z)).

(** The key [(r << 16) | (g << 8) | b] of the LAB cache. *)
Definition lab_key (r g b : float) : Z :=
  bor (bor (shl (ToInt32 r) 16) (shl (ToInt32 g) 8)) (ToInt32 b).

(** [_getLab(r, g, b)]: the cached triple, or the computed one, which is
    then stored.  The cache is threaded explicitly. *)
Definition _getLab (labCache : gmap Z triple) (r g b : float)
  : triple * gmap Z triple :=
  let key := lab_key r g b in
  match labCache !! key with
  | Some v => (v, labCache)
  | None => let v := _rgbToLab r g b in (v, <[key := v]> labCache)
  end.

(** [_rgbToHsv(r, g, b)] *)
Definition _rgbToHsv (r g b : float) : triple :=
  let r := r / 255 in let g := g / 255 in let b := b / 255 in
  let max := Math_max (Math_max r g) b in
  let min := Math_min (Math_min r g) b in
  let delta := max - min in
  let s := if max =? 0 then 0 else delta / max in
  let v := max in
  let h :=
    if negb (delta =? 0) then
      let h := if max =? r then JS.rem ((g - b) / delta) 6
               else if max =? g then (b - r) / delta + 2
               else (r - g) / delta + 4 in
      let h := h * 60 in
      if h <? 0 then h + 360 else h
    else 0 in
  (h, s, v).

(** [_rgbToOklab(r, g, b)] *)
Definition _rgbToOklab (r g b : float) : triple :=
  let r := r / 255 in let g := g / 255 in let b := b / 255 in
  let r := if 0.04045 <? r then Math_pow rt ((r + 0.055) / 1.055) 2.4 else r / 12.92 in
  let g := if 0.04045 <? g then Math_pow rt ((g + 0.055) / 1.055) 2.4 else g / 12.92 in
  let b := if 0.04045 <? b then Math_pow rt ((b + 0.055) / 1.055) 2.4 else b / 12.92 in
  let l := 0.4122214708 * r + 0.5363325363 * g + 0.0514459929 * b in
  let m := 0.2119034982 * r + 0.6806995451 * g + 0.1073969566 * b in
  let s := 0.0883024619 * r + 0.2817188376 * g + 0.6299787005 * b in
  let l_ := Math_cbrt rt l in let m_ := Math_cbrt rt m in let s_ := Math_cbrt rt s in
  (0.2104542553 * l_ + 0.7936177850 * m_ - 0.0040720468 * s_,
   1.9779984951 * l_ - 2.4285922050 * m_ + 0.4505937099 * s_,
   0.0259040371 * l_ + 0.7827717662 * m_ - 0.8086757660 * s_).

(** [_rgbToXyz(r, g, b)] *)
Definition _rgbToXyz (r g b : float) : triple :=
  let x := r / 255.0 in let y := g / 255.0 in let z := b / 255.0 in
  let x := if 0.04045 <? x then Math_pow rt ((x + 0.055) / 1.055) 2.4 else x / 12.92 in
  let y := if 0.04045 <? y then Math_pow rt ((y + 0.055) / 1.055) 2.4 else y / 12.92 in
  let z := if 0.04045 <? z then Math_pow rt ((z + 0.055) / 1.055) 2.4 else z / 12.92 in
  let X := x * 0.4124564 + y * 0.3575761 + z * 0.1804375 in
  let Y := x * 0.2126729 + y * 0.7151522 + z * 0.0721750 in
  let Z := x * 0.0193339 + y * 0.1191920 + z * 0.9503041 in
  (X, Y, Z).

(** [_xyzToRgb(x, y, z)] *)
Definition _xyzToRgb (x y z : float) : triple :=
  let r := x * 3.2404542 + y * -1.5371385 + z * -0.4985314 in
  let g := x * -0.9692660 + y * 1.8760108 + z * 0.0415560 in
  let b := x * 0.0556434 + y * -0.2040259 + z * 1.0572252 in
  let r := if 0.0031308 <? r then 1.055 * Math_pow rt r (1.0 / 2.4) - 0.055 else 12.92 * r in
  let g := if 0.0031308 <? g then 1.055 * Math_pow rt g (1.0 / 2.4) - 0.055 else 12.92 * g in
  let b := if 0.0031308 <? b then 1.055 * Math_pow rt b (1.0 / 2.4) - 0.055 else 12.92 * b in
  (Math_round (Math_max 0 (Math_min 1 r) * 255),
   Math_round (Math_max 0 (Math_min 1 g) * 255),
   Math_round (Math_max 0 (Math_min 1 b) * 255)).

(** [_rgbToLuv(r, g, b)] *)
Definition _rgbToLuv (r g b : float) : triple :=
  let '(X, Y, Z) := _rgbToXyz r g b in
  let Xn := 0.95047 in let Yn := 1.00000 in let Zn := 1.08883 in
  let yr := Y / Yn in
  let L := if 0.008856 <? yr then 116 * Math_pow rt yr (1 / 3) - 16 else 903.3 * yr in
  let denom := X + 15 * Y + 3 * Z in
  let denomN := Xn + 15 * Yn + 3 * Zn in
  let up := if denom =? 0 then 0 else (4 * X) / denom in
  let vp := if denom =? 0 then 0 else (9 * Y) / denom in
  let upN := (4 * Xn) / denomN in
  let vpN := (9 * Yn) / denomN in
  let u := 13 * L * (up - upN) in
  let v := 13 * L * (vp - vpN) in
  (L, u, v).

(** [_luvToRgb(l, u, v)] *)
Definition _luvToRgb (l u v : float) : triple :=
  let Xn := 0.95047 in let Yn := 1.00000 in let Zn := 1.08883 in
  let upN := (4 * Xn) / (Xn + 15 * Yn + 3 * Zn) in
  let vpN := (9 * Yn) / (Xn + 15 * Yn + 3 * Zn) in
  let Y := if 8 <? l then Yn * Math_pow rt ((l + 16) / 116) 3 else Yn * l / 903.3 in
  let up := u / (13 * l) + upN in
  let vp := v / (13 * l) + vpN in
  let X := Y * 9 * up / (4 * vp) in
  let Z := Y * (12 - 3 * up - 20 * vp) / (4 * vp) in
  _xyzToRgb X Y Z.

(** RGB -> LUV -> RGB on byte channels. *)
Definition luv_round_trip (c : rgb8) : triple :=
  let '(r, g, b) := c in
  let '(l, u, v) := _rgbToLuv (of_Z r) (of_Z g) (of_Z b) in
  _luvToRgb l u v.

(** Whether every channel of [out] is within 1 of the byte colour [c]. *)
Definition within_one (out : triple) (c : rgb8) : bool :=
  let '(r', g', b') := out in
  let '(r, g, b) := c in
  (Math_abs (r' - of_Z r) <=? 1) && (Math_abs (g' - of_Z g) <=? 1)
  && (Math_abs (b' - of_Z b) <=? 1).

End ColorSpace.

(** ** Palette matching *)

(** The option bag read by the matcher and the pipeline, after the defaults
  of the destructuring patterns have been applied. *)
Record Options := {
exactMatch : bool;
algorithm : string;
enableChromaPenalty : bool;
chromaPenaltyWeight : float;
paintTransparentPixels : bool;
paintWhitePixels : bool;
transparencyThreshold : Z;
whiteThreshold : Z
}.

Definition TRANSPARENCY_THRESHOLD : Z := 128.
Definition WHITE_THRESHOLD : Z := 230.
Definition COLOR_CACHE_LIMIT : Z := 15000.

(** The options of a call that passes [{}]. *)
Definition default_options : Options := {|
exactMatch := false;
algorithm := "lab";
enableChromaPenalty := false;
chromaPenaltyWeight := 0.15%float;
paintTransparentPixels := false;
paintWhitePixels := true;
transparencyThreshold := TRANSPARENCY_THRESHOLD;
whiteThreshold := WHITE_THRESHOLD
|}.

(** An entry of [availableColors]: [{ id, rgb: [r, g, b] }]. *)
Record PaletteEntry := { entry_id : Z; entry_rgb : rgb8 }.

(** The result of [resolveColor]: [{ id, rgb }], the id being [null] for
  the sentinel. *)
Record Resolved := { id : option Z; rgb : rgb8 }.

Section PaletteMatcher.

Context (rt : Runtime).
(** How the engine prints a number inside a template string. *)
Context (Number_toString : float -> string).
#[local] Open Scope float_scope.

(** One pass of [for (const p of palette) { dist = ...; if (dist < bestDist)
    { bestDist = dist; best = p } }], the score being computed in a state
    (the LAB cache) that it may extend. *)
Definition scan_step {St : Type} (score : St -> rgb8 -> float * St)
    (acc : option rgb8 * float * St) (p : rgb8) : option rgb8 * float * St :=
  let '(best, bestDist, st) := acc in
  let '(dist, st') := score st p in
  if dist <? bestDist then (Some p, dist, st') else (best, bestDist, st').

Definition scan_palette {St : Type} (score : St -> rgb8 -> float * St)
    (init : option rgb8) (palette : list rgb8) (st : St)
  : option rgb8 * float * St :=
  fold_left (scan_step score) palette (init, Infinity, st).

(** The legacy weighted distance with the red-mean correction. *)
Definition rgb_dist (r g b : float) (p : rgb8) : float :=
  let '(pr, pg, pb) := p in
  let pr := of_Z pr in let pg := of_Z pg in let pb := of_Z pb in
  let rmean := (pr + r) / 2 in
  let rdiff := pr - r in let gdiff := pg - g in let bdiff := pb - b in
  Math_sqrt
    (of_Z (sar (ToInt32 ((512 + rmean) * rdiff * rdiff)) 8)
     + 4 * gdiff * gdiff
     + of_Z (sar (ToInt32 ((767 - rmean) * bdiff * bdiff)) 8)).

Definition hsv_dist (t : triple) (p : rgb8) : float :=
  let '(ht, st, vt) := t in
  let '(pr, pg, pb) := p in
  let '(hp, sp, vp) := _rgbToHsv (of_Z pr) (of_Z pg) (of_Z pb) in
  let dh := Math_min (Math_abs (ht - hp)) (360 - Math_abs (ht - hp)) / 360 in
  dh * dh + Math_pow rt (st - sp) 2 + Math_pow rt (vt - vp) 2.

Definition oklab_dist (t : triple) (p : rgb8) : float :=
  let '(lt, at_, bt) := t in
  let '(pr, pg, pb) := p in
  let '(lp, ap, bp) := _rgbToOklab rt (of_Z pr) (of_Z pg) (of_Z pb) in
  Math_pow rt (lt - lp) 2 + Math_pow rt (at_ - ap) 2 + Math_pow rt (bt - bp) 2.

(** The LAB score of a palette entry, read through [_getLab]. *)
Definition lab_dist (opts : Options) (t : triple) (targetChroma : float)
    (labCache : gmap Z triple) (p : rgb8) : float * gmap Z triple :=
  let '(L_t, at_, bt) := t in
  let '(pr, pg, pb) := p in
  let '((Lp, ap, bp), labCache) := _getLab rt labCache (of_Z pr) (of_Z pg) (of_Z pb) in
  let dist := Math_pow rt (L_t - Lp) 2 + Math_pow rt (at_ - ap) 2 + Math_pow rt (bt - bp) 2 in
  let dist :=
    if enableChromaPenalty opts && (20 <? targetChroma) then
      let candChroma := Math_sqrt (ap * ap + bp * bp) in
      if candChroma <? targetChroma
      then dist + Math_pow rt (targetChroma - candChroma) 2 * chromaPenaltyWeight opts
      else dist
    else dist in
  (dist, labCache).

(** A score that does not touch the state. *)
Definition pure_score {St : Type} (f : rgb8 -> float) (st : St) (p : rgb8)
  : float * St := (f p, st).

(** [findClosestPaletteColor(r, g, b, palette, algorithm, options)];
    [None] stands for a missing ([null]/[undefined]) palette. *)
Definition findClosestPaletteColor (labCache : gmap Z triple) (r g b : float)
    (palette : option (list rgb8)) (alg : string) (opts : Options)
  : rgb8 * gmap Z triple :=
  match palette with
  | None | Some [] => ((0, 0, 0)%Z, labCache)
  | Some normPalette =>
      if String.eqb alg "rgb" then
        let '(best, _, labCache) :=
          scan_palette (pure_score (rgb_dist r g b)) (Some (0, 0, 0)%Z) normPalette labCache in
        (default (0, 0, 0)%Z best, labCache)
      else if String.eqb alg "hsv" then
        let t := _rgbToHsv r g b in
        let '(best, _, labCache) :=
          scan_palette (pure_score (hsv_dist t)) None normPalette labCache in
        (default (0, 0, 0)%Z best, labCache)
      else if String.eqb alg "oklab" then
        let t := _rgbToOklab rt r g b in
        let '(best, _, labCache) :=
          scan_palette (pure_score (oklab_dist t)) None normPalette labCache in
        (default (0, 0, 0)%Z best, labCache)
      else
        let '((L_t, at_, bt), labCache) := _getLab rt labCache r g b in
        let targetChroma := Math_sqrt (at_ * at_ + bt * bt) in
        let '(best, _, labCache) :=
          scan_palette (lab_dist opts (L_t, at_, bt) targetChroma) None normPalette labCache in
        (default (0, 0, 0)%Z best, labCache)
  end.

(** [isWhitePixel(r, g, b, threshold)] *)
Definition isWhitePixel (r g b threshold : Z) : bool :=
  (threshold <=? r)%Z && (threshold <=? g)%Z && (threshold <=? b)%Z.

(** The two caches of a processor instance that the matcher touches. *)
Record Caches := {
  _colorCache : gmap string Resolved;
  _labCache : gmap Z triple
}.

Definition rgb8_eqb (c d : rgb8) : bool :=
  let '(r, g, b) := c in let '(r', g', b') := d in
  ((r =? r') && (g =? g') && (b =? b'))%Z.

(** The template string
    [`${r},${g},${b}|${algorithm}|${c/nc}|${weight}|${exact/closest}`]. *)
Definition cacheKey (targetRgb : rgb8) (opts : Options) : string :=
  let '(r, g, b) := targetRgb in
  pretty r +:+ "," +:+ pretty g +:+ "," +:+ pretty b +:+ "|"
  +:+ algorithm opts +:+ "|"
  +:+ (if enableChromaPenalty opts then "c" else "nc") +:+ "|"
  +:+ Number_toString (chromaPenaltyWeight opts) +:+ "|"
  +:+ (if exactMatch opts then "exact" else "closest").

(** The nearest-colour loop of [resolveColor]:
    [if (dist < bestScore) { ...; if (dist === 0) break; }]. *)
Fixpoint nearest_loop {St : Type} (score : St -> PaletteEntry -> float * St)
    (colors : list PaletteEntry) (best : Resolved) (bestScore : float) (st : St)
  : Resolved * float * St :=
  match colors with
  | [] => (best, bestScore, st)
  | c :: rest =>
      let '(dist, st') := score st c in
      if dist <? bestScore then
        let best' := {| id := Some (entry_id c); rgb := entry_rgb c |} in
        if dist =? 0 then (best', dist, st')
        else nearest_loop score rest best' dist st'
      else nearest_loop score rest best bestScore st'
  end.

Definition legacy_score (targetRgb : rgb8) (labCache : gmap Z triple)
    (c : PaletteEntry) : float * gmap Z triple :=
  let '(t0, t1, t2) := targetRgb in
  (rgb_dist (of_Z t0) (of_Z t1) (of_Z t2) (entry_rgb c), labCache).

Definition resolve_lab_score (t : triple) (targetChroma penaltyWeight : float)
    (labCache : gmap Z triple) (c : PaletteEntry) : float * gmap Z triple :=
  let '(L_t, at_, bt) := t in
  let '(r, g, b) := entry_rgb c in
  let '((L2, a2, b2), labCache) := _getLab rt labCache (of_Z r) (of_Z g) (of_Z b) in
  let dL := L_t - L2 in let da := at_ - a2 in let db := bt - b2 in
  let dist := dL * dL + da * da + db * db in
  let dist :=
    if (0 <? penaltyWeight) && (20 <? targetChroma) then
      let candChroma := Math_sqrt (a2 * a2 + b2 * b2) in
      if candChroma <? targetChroma then
        let cd := targetChroma - candChroma in dist + cd * cd * penaltyWeight
      else dist
    else dist in
  (dist, labCache).

(** [resolveColor(targetRgb, availableColors, options)]; [None] stands for
    a missing list. *)
Definition resolveColor (st : Caches) (targetRgb : rgb8)
    (availableColors : option (list PaletteEntry)) (opts : Options)
  : Resolved * Caches :=
  match availableColors with
  | None | Some [] => ({| id := None; rgb := targetRgb |}, st)
  | Some ((c0 :: _) as colors) =>
      let key := cacheKey targetRgb opts in
      match _colorCache st !! key with
      | Some cached => (cached, st)
      | None =>
          let store result labCache :=
            {| _colorCache := <[key := result]> (_colorCache st);
               _labCache := labCache |} in
          if exactMatch opts then
            let result :=
              match List.find (fun c => rgb8_eqb (entry_rgb c) targetRgb) colors with
              | Some m => {| id := Some (entry_id m); rgb := entry_rgb m |}
              | None => {| id := None; rgb := targetRgb |}
              end in
            (result, store result (_labCache st))
          else
            let '(t0, t1, t2) := targetRgb in
            let wt := whiteThreshold opts in
            let whiteEntry :=
              if isWhitePixel t0 t1 t2 wt then
                List.find (fun c => let '(r, g, b) := entry_rgb c in isWhitePixel r g b wt) colors
              else None in
            match whiteEntry with
            | Some w =>
                let result := {| id := Some (entry_id w); rgb := entry_rgb w |} in
                (result, store result (_labCache st))
            | None =>
                let best0 := {| id := Some (entry_id c0); rgb := entry_rgb c0 |} in
                let '(result, _, labCache) :=
                  if String.eqb (algorithm opts) "legacy" then
                    nearest_loop (legacy_score targetRgb) colors best0 Infinity (_labCache st)
                  else
                    let '((L_t, at_, bt), labCache) :=
                      _getLab rt (_labCache st) (of_Z t0) (of_Z t1) (of_Z t2) in
                    let targetChroma := Math_sqrt (at_ * at_ + bt * bt) in
                    let penaltyWeight :=
                      if enableChromaPenalty opts then chromaPenaltyWeight opts else 0 in
                    nearest_loop (resolve_lab_score (L_t, at_, bt) targetChroma penaltyWeight)
                      colors best0 Infinity labCache in
                let st' := store result labCache in
                (* Limit cache size *)
                let st' :=
                  if (20000 <? Z.of_nat (size (_colorCache st')))%Z
                  then {| _colorCache := ∅; _labCache := _labCache st' |}
                  else st' in
                (result, st')
            end
      end
  end.

End PaletteMatcher.

Arguments findClosestPaletteColor : simpl never.
Arguments resolveColor : simpl never.

(** ** Dithering and quantization *)

(** [{ data, totalValidPixels }] *)
Record Quantized := { data : list Z; totalValidPixels : nat }.

(** A dithering kernel: [{ divisor, offsets: [{ dx, dy, weight }] }]. *)
Record KernelOffset := { dx : Z; dy : Z; weight : Z }.
Record Kernel := { divisor : Z; offsets : list KernelOffset }.

Definition koff (x y w : Z) : KernelOffset := {| dx := x; dy := y; weight := w |}.

(** [for (y = 0; y < height; y++) for (x = 0; x < width; x++) body]. *)
Definition raster_order (height width : nat) : list (nat * nat) :=
  flat_map (fun y => map (pair y) (seq 0 width)) (seq 0 height).

Definition for_yx {St : Type} (height width : nat) (body : St -> nat -> nat -> St)
    (st : St) : St :=
  fold_left (fun st yx => body st (fst yx) (snd yx)) (raster_order height width) st.

Section Ditherer.

Context (rt : Runtime).
#[local] Open Scope float_scope.

(** [new Uint8ClampedArray(imageData)] *)
Definition Uint8ClampedArray_from (imageData : list Z) : list Z :=
  map clamp8 imageData.

(** The names every object literal inherits from [Object.prototype]. *)
Definition Object_prototype_names : list string :=
  ["constructor"; "hasOwnProperty"; "isPrototypeOf"; "propertyIsEnumerable";
   "toLocaleString"; "toString"; "valueOf"; "__proto__";
   "__defineGetter__"; "__defineSetter__"; "__lookupGetter__"; "__lookupSetter__"].

(** [_getDitherKernel(method)]: [kernels[method] || kernels.floyd], where
    [kernels] is an object literal with the six kernels.  For a name that
    [kernels] inherits the lookup yields the inherited member, which is
    truthy and has neither [divisor] nor [offsets]: that is [None] here.
    Any other name gets the Floyd-Steinberg kernel. *)
Definition _getDitherKernel (method : string) : option Kernel :=
  let floyd := {| divisor := 16;
    offsets := [koff 1 0 7; koff (-1) 1 3; koff 0 1 5; koff 1 1 1] |} in
  if String.eqb method "floyd" then Some floyd
  else if String.eqb method "atkinson" then Some {| divisor := 8;
    offsets := [koff 1 0 1; koff 2 0 1;
                koff (-1) 1 1; koff 0 1 1;
                koff 1 1 1; koff 0 2 1] |}
  else if String.eqb method "jarvis" then Some {| divisor := 48;
    offsets := [koff 1 0 7; koff 2 0 5;
                koff (-2) 1 3; koff (-1) 1 5;
                koff 0 1 7; koff 1 1 5;
                koff 2 1 3; koff (-2) 2 1;
                koff (-1) 2 3; koff 0 2 5;
                koff 1 2 3; koff 2 2 1] |}
  else if String.eqb method "stucki" then Some {| divisor := 42;
    offsets := [koff 1 0 8; koff 2 0 4;
                koff (-2) 1 2; koff (-1) 1 4;
                koff 0 1 8; koff 1 1 4;
                koff 2 1 2; koff (-2) 2 1;
                koff (-1) 2 2; koff 0 2 4;
                koff 1 2 2; koff 2 2 1] |}
  else if String.eqb method "burkes" then Some {| divisor := 32;
    offsets := [koff 1 0 8; koff 2 0 4;
                koff (-2) 1 2; koff (-1) 1 4;
                koff 0 1 8; koff 1 1 4;
                koff 2 1 2] |}
  else if String.eqb method "sierra" then Some {| divisor := 32;
    offsets := [koff 1 0 5; koff 2 0 3;
                koff (-2) 1 2; koff (-1) 1 4;
                koff 0 1 5; koff 1 1 4;
                koff 2 1 2; koff (-1) 2 2;
                koff 0 2 3; koff 1 2 2] |}
  else if existsb (String.eqb method) Object_prototype_names then None
  else Some floyd.

(** [_getBayerMatrix(method)]; [None] is [null]. *)
Definition _getBayerMatrix (method : string) : option (list (list float)) :=
  if String.eqb method "bayer2" then
    Some [[0/4; 2/4]; [3/4; 1/4]]
  else if String.eqb method "bayer4" then
    Some [[0/16; 8/16; 2/16; 10/16];
          [12/16; 4/16; 14/16; 6/16];
          [3/16; 11/16; 1/16; 9/16];
          [15/16; 7/16; 13/16; 5/16]]
  else if String.eqb method "bayer8" then
    Some [[0/64; 32/64; 8/64; 40/64; 2/64; 34/64; 10/64; 42/64];
          [48/64; 16/64; 56/64; 24/64; 50/64; 18/64; 58/64; 26/64];
          [12/64; 44/64; 4/64; 36/64; 14/64; 46/64; 6/64; 38/64];
          [60/64; 28/64; 52/64; 20/64; 62/64; 30/64; 54/64; 22/64];
          [3/64; 35/64; 11/64; 43/64; 1/64; 33/64; 9/64; 41/64];
          [51/64; 19/64; 59/64; 27/64; 49/64; 17/64; 57/64; 25/64];
          [15/64; 47/64; 7/64; 39/64; 13/64; 45/64; 5/64; 37/64];
          [63/64; 31/64; 55/64; 23/64; 61/64; 29/64; 53/64; 21/64]]
  else None.

(** The eligibility test shared by the three quantizers:
    [(paintTransparentPixels || a >= transparencyThreshold) &&
     (paintWhitePixels || !isWhitePixel(r, g, b, whiteThreshold))]. *)
Definition isEligible (opts : Options) (r g b a : Z) : bool :=
  (paintTransparentPixels opts || (transparencyThreshold opts <=? a)%Z)
  && (paintWhitePixels opts || negb (isWhitePixel r g b (whiteThreshold opts))).

(** Writing the four channels of the pixel at byte offset [i4]. *)
Definition put_pixel (d : list Z) (i4 : nat) (r g b a : Z) : list Z :=
  <[(i4 + 3)%nat := clamp8 a]>
    (<[(i4 + 2)%nat := clamp8 b]>
       (<[(i4 + 1)%nat := clamp8 g]> (<[i4 := clamp8 r]> d))).

(** *** Error diffusion *)

(** The state of [_applyErrorDiffusion]: output bytes, the float work
    buffer (three cells per pixel), the eligibility flags, the counter and
    the LAB cache. *)
Record EDState := {
  ed_data : list Z;
  ed_work : list float;
  ed_eligible : list bool;
  ed_totalValid : nat;
  ed_labCache : gmap Z triple
}.

(** A byte read from a typed array: [None] is the [undefined] that an
    index past the end yields.  As a number [undefined] is NaN, and both
    [v >= t] and [v < t] are false for it. *)
Definition read_number (v : option Z) : float :=
  match v with Some z => of_Z z | None => NaN end.

Definition read_geb (v : option Z) (t : Z) : bool :=
  match v with Some z => (t <=? z)%Z | None => false end.

Definition read_ltb (v : option Z) (t : Z) : bool :=
  match v with Some z => (z <? t)%Z | None => false end.

(** The body of the "Init buffers" loop.  [eligible] and [work] have
    [width * height] and three times as many cells, so every index the loop
    stores at exists; [data] is as long as the caller's raster, and a store
    past its end is dropped. *)
Definition ed_init_body (opts : Options) (width : nat) (st : EDState) (y x : nat)
  : EDState :=
  let idx := (y * width + x)%nat in
  let i4 := (idx * 4)%nat in
  let d := ed_data st in
  let r := d !! i4 in let g := d !! (i4 + 1)%nat in
  let b := d !! (i4 + 2)%nat in let a := d !! (i4 + 3)%nat in
  let wt := whiteThreshold opts in
  let el :=
    (paintTransparentPixels opts || read_geb a (transparencyThreshold opts))
    && (paintWhitePixels opts
        || negb (read_geb r wt && read_geb g wt && read_geb b wt)) in
  {| ed_data := if el then d else <[(i4 + 3)%nat := 0%Z]> d;
     ed_work :=
       <[(idx * 3 + 2)%nat := Math_fround rt (read_number b)]>
         (<[(idx * 3 + 1)%nat := Math_fround rt (read_number g)]>
            (<[(idx * 3)%nat := Math_fround rt (read_number r)]> (ed_work st)));
     ed_eligible := <[idx := el]> (ed_eligible st);
     ed_totalValid := ed_totalValid st;
     ed_labCache := ed_labCache st |}.

(** The value a diffusion step leaves in a work cell. *)
Definition diffused (old e factor : float) : float :=
  Math_fround rt (Math_min 255 (Math_max 0 (old + e * factor))).

(** [diffuse(nx, ny, er, eg, eb, factor)] *)
Definition diffuse (width height : nat) (eligible : list bool) (work : list float)
    (nx ny : Z) (er eg eb factor : float) : list float :=
  if ((nx <? 0) || (Z.of_nat width <=? nx) || (ny <? 0) || (Z.of_nat height <=? ny))%Z
  then work
  else
    let nidx := Z.to_nat (ny * Z.of_nat width + nx) in
    if negb (eligible !!! nidx) then work
    else
      let base := (nidx * 3)%nat in
      let work := <[base := diffused (work !!! base) er factor]> work in
      let work := <[(base + 1)%nat := diffused (work !!! (base + 1)%nat) eg factor]> work in
      <[(base + 2)%nat := diffused (work !!! (base + 2)%nat) eb factor]> work.

(** [for (const { dx, dy, weight } of kernel.offsets)
      diffuse(x + dx, y + dy, er, eg, eb, weight / kernel.divisor)]. *)
Definition diffuse_all (width height : nat) (eligible : list bool) (kernel : Kernel)
    (x y : nat) (er eg eb : float) (work : list float) : list float :=
  fold_left
    (fun work o =>
       diffuse width height eligible work (Z.of_nat x + dx o) (Z.of_nat y + dy o)
         er eg eb (of_Z (weight o) / of_Z (divisor kernel)))
    (offsets kernel) work.

(** The body of the "Process pixels" loop; [None] once an exception has
    been thrown.  With a [kernel] that has no [offsets] ([None]) the
    [for ... of] over them throws at the first pixel that gets that far,
    after the matcher has been called and the pixel written. *)
Definition ed_body (opts : Options) (palette : list rgb8) (kernel : option Kernel)
    (width height : nat) (ost : option EDState) (y x : nat) : option EDState :=
  match ost with
  | None => None
  | Some st =>
      let idx := (y * width + x)%nat in
      if negb (ed_eligible st !!! idx) then Some st
      else
        let base := (idx * 3)%nat in
        let w := ed_work st in
        let r0 := w !!! base in let g0 := w !!! (base + 1)%nat in
        let b0 := w !!! (base + 2)%nat in
        let i4 := (idx * 4)%nat in
        let a := ed_data st !! (i4 + 3)%nat in
        if paintTransparentPixels opts && read_ltb a (transparencyThreshold opts) then
          Some {| ed_data := put_pixel (ed_data st) i4 0 0 0 0;
                  ed_work := w;
                  ed_eligible := ed_eligible st;
                  ed_totalValid := S (ed_totalValid st);
                  ed_labCache := ed_labCache st |}
        else
          let '((nr, ng, nb), labCache) :=
            findClosestPaletteColor rt (ed_labCache st) r0 g0 b0 (Some palette)
              (algorithm opts) opts in
          let er := r0 - of_Z nr in let eg := g0 - of_Z ng in let eb := b0 - of_Z nb in
          match kernel with
          | None => None
          | Some kernel =>
              Some {| ed_data := put_pixel (ed_data st) i4 nr ng nb 255;
                      ed_work := diffuse_all width height (ed_eligible st) kernel x y
                                   er eg eb w;
                      ed_eligible := ed_eligible st;
                      ed_totalValid := S (ed_totalValid st);
                      ed_labCache := labCache |}
          end
  end.

(** The state after the "Init buffers" loop.  [_ensureDitherBuffers] hands
    out buffers of [3n] and [n] cells whose every cell that loop
    overwrites. *)
Definition ed_init (labCache : gmap Z triple) (imageData : list Z)
    (width height : nat) (opts : Options) : EDState :=
  let n := (width * height)%nat in
  for_yx height width (ed_init_body opts width)
    {| ed_data := Uint8ClampedArray_from imageData;
       ed_work := replicate (n * 3) 0;
       ed_eligible := replicate n false;
       ed_totalValid := 0;
       ed_labCache := labCache |}.

(** [_applyErrorDiffusion(imageData, width, height, palette, method, options)];
    [None] when the kernel loop throws. *)
Definition _applyErrorDiffusion (labCache : gmap Z triple) (imageData : list Z)
    (width height : nat) (palette : list rgb8) (method : string) (opts : Options)
  : option (Quantized * gmap Z triple) :=
  let st := ed_init labCache imageData width height opts in
  let kernel := _getDitherKernel method in
  match for_yx height width (ed_body opts palette kernel width height) (Some st) with
  | Some st =>
      Some ({| data := ed_data st; totalValidPixels := ed_totalValid st |}, ed_labCache st)
  | None => None
  end.

(** *** Ordered dithering *)

(** The state of [_applyOrderedDither]; [od_draws] counts the calls of
    [Math.random] made so far. *)
Record ODState := {
  od_data : list Z;
  od_totalValid : nat;
  od_labCache : gmap Z triple;
  od_draws : nat
}.

(** [method === 'random' ? Math.random() : matrix[y % matrixSize][x % matrixSize]];
    indexing a [null] matrix throws, which is [None] here. *)
Definition ordered_threshold (method : string) (matrix : option (list (list float)))
    (draws y x : nat) : option float :=
  if String.eqb method "random" then Some (Math_random rt draws)
  else
    match matrix with
    | Some m =>
        let matrixSize := length m in
        Some ((m !!! (y mod matrixSize)%nat) !!! (x mod matrixSize)%nat)
    | None => None
    end.

(** The loop body of [_applyOrderedDither]; [None] once an exception has
    been thrown.  The four bytes of the pixel are read as numbers: the
    raster is taken to hold all [width * height] pixels. *)
Definition od_body (opts : Options) (palette : list rgb8) (method : string)
    (strength : float) (width : nat) (ost : option ODState) (y x : nat)
  : option ODState :=
  match ost with
  | None => None
  | Some st =>
      let i := ((y * width + x) * 4)%nat in
      let d := od_data st in
      let r := d !!! i in let g := d !!! (i + 1)%nat in
      let b := d !!! (i + 2)%nat in let a := d !!! (i + 3)%nat in
      let isTransparent := (a <? transparencyThreshold opts)%Z in
      let el :=
        (paintTransparentPixels opts || negb isTransparent)
        && (paintWhitePixels opts || negb (isWhitePixel r g b (whiteThreshold opts))) in
      if negb el then
        Some {| od_data := <[(i + 3)%nat := 0%Z]> d;
                od_totalValid := od_totalValid st;
                od_labCache := od_labCache st;
                od_draws := od_draws st |}
      else if paintTransparentPixels opts && isTransparent then
        Some {| od_data := put_pixel d i 0 0 0 0;
                od_totalValid := S (od_totalValid st);
                od_labCache := od_labCache st;
                od_draws := od_draws st |}
      else
        match ordered_threshold method (_getBayerMatrix method) (od_draws st) y x with
        | None => None
        | Some threshold =>
            let noise := (threshold - 0.5) * 64 * strength in
            let nr := Math_max 0 (Math_min 255 (of_Z r + noise)) in
            let ng := Math_max 0 (Math_min 255 (of_Z g + noise)) in
            let nb := Math_max 0 (Math_min 255 (of_Z b + noise)) in
            let '((pr, pg, pb), labCache) :=
              findClosestPaletteColor rt (od_labCache st) nr ng nb (Some palette)
                (algorithm opts) opts in
            Some {| od_data := put_pixel d i pr pg pb 255;
                    od_totalValid := S (od_totalValid st);
                    od_labCache := labCache;
                    od_draws := if String.eqb method "random"
                                then S (od_draws st) else od_draws st |}
        end
  end.

(** [_applyOrderedDither(imageData, width, height, palette, method, strength,
    options)]; [None] when indexing the [null] matrix of an unknown method
    throws. *)
Definition _applyOrderedDither (labCache : gmap Z triple) (imageData : list Z)
    (width height : nat) (palette : list rgb8) (method : string) (strength : float)
    (opts : Options) : option (Quantized * gmap Z triple) :=
  let st0 := {| od_data := Uint8ClampedArray_from imageData;
                od_totalValid := 0;
                od_labCache := labCache;
                od_draws := 0 |} in
  match for_yx height width (od_body opts palette method strength width) (Some st0) with
  | Some st =>
      Some ({| data := od_data st; totalValidPixels := od_totalValid st |},
            od_labCache st)
  | None => None
  end.

(** *** Plain quantization *)

Record SQState := {
  sq_data : list Z;
  sq_totalValid : nat;
  sq_labCache : gmap Z triple
}.

(** The body of [for (let i = 0; i < data.length; i += 4)], for [i = 4 k].
    The four bytes of the pixel are read as numbers: the raster is taken to
    hold whole pixels. *)
Definition sq_body (opts : Options) (palette : list rgb8) (st : SQState) (k : nat)
  : SQState :=
  let i := (k * 4)%nat in
  let d := sq_data st in
  let r := d !!! i in let g := d !!! (i + 1)%nat in
  let b := d !!! (i + 2)%nat in let a := d !!! (i + 3)%nat in
  let isTransparent := (a <? transparencyThreshold opts)%Z in
  let el :=
    (paintTransparentPixels opts || negb isTransparent)
    && (paintWhitePixels opts || negb (isWhitePixel r g b (whiteThreshold opts))) in
  if negb el then
    {| sq_data := <[(i + 3)%nat := 0%Z]> d;
       sq_totalValid := sq_totalValid st;
       sq_labCache := sq_labCache st |}
  else if paintTransparentPixels opts && isTransparent then
    {| sq_data := put_pixel d i 0 0 0 0;
       sq_totalValid := S (sq_totalValid st);
       sq_labCache := sq_labCache st |}
  else
    let '((nr, ng, nb), labCache) :=
      findClosestPaletteColor rt (sq_labCache st) (of_Z r) (of_Z g) (of_Z b)
        (Some palette) (algorithm opts) opts in
    {| sq_data := put_pixel d i nr ng nb 255;
       sq_totalValid := S (sq_totalValid st);
       sq_labCache := labCache |}.

(** [applySimpleQuantization(imageData, width, height, palette, options)];
    the loop runs over [data.length], not over [width] and [height]. *)
Definition applySimpleQuantization (labCache : gmap Z triple) (imageData : list Z)
    (width height : nat) (palette : list rgb8) (opts : Options)
  : Quantized * gmap Z triple :=
  let d := Uint8ClampedArray_from imageData in
  let st0 := {| sq_data := d; sq_totalValid := 0; sq_labCache := labCache |} in
  let st := fold_left (sq_body opts palette) (seq 0 ((length d + 3) / 4)) st0 in
  ({| data := sq_data st; totalValidPixels := sq_totalValid st |}, sq_labCache st).

(** [applyDithering(imageData, width, height, palette, options)], with the
    [method] and [strength] fields of its options as arguments; an unknown
    method falls back to Floyd-Steinberg. *)
Definition applyDithering (labCache : gmap Z triple) (imageData : list Z)
    (width height : nat) (palette : list rgb8) (method : string) (strength : float)
    (opts : Options) : option (Quantized * gmap Z triple) :=
  if existsb (String.eqb method)
       ["floyd"; "atkinson"; "jarvis"; "stucki"; "burkes"; "sierra"] then
    _applyErrorDiffusion labCache imageData width height palette method opts
  else if existsb (String.eqb method) ["bayer2"; "bayer4"; "bayer8"; "random"] then
    _applyOrderedDither labCache imageData width height palette method strength opts
  else
    _applyErrorDiffusion labCache imageData width height palette "floyd" opts.

End Ditherer.

(** ** The reused dithering buffers *)

Section DitherBuffers.

Context (rt : Runtime).

(** The two buffers a processor keeps between runs; [None] is [null]. *)
Record Buffers := {
  _ditherWorkBuf : option (list float);
  _ditherEligibleBuf : option (list bool)
}.

(** [_ensureDitherBuffers(n)]: a buffer of the right length is handed out
    as it is, with what the last run left in it. *)
Definition _ensureDitherBuffers (bufs : Buffers) (n : nat) : list float * list bool :=
  let work :=
    match _ditherWorkBuf bufs with
    | Some w => if (length w =? n * 3)%nat then w else replicate (n * 3) 0%float
    | None => replicate (n * 3) 0%float
    end in
  let eligible :=
    match _ditherEligibleBuf bufs with
    | Some e => if (length e =? n)%nat then e else replicate n false
    | None => replicate n false
    end in
  (work, eligible).

(** [_applyErrorDiffusion] with the buffers of the instance threaded
    through: the result, the LAB cache, and the buffers as the run leaves
    them; [None] when the kernel loop throws. *)
Definition _applyErrorDiffusion_on (bufs : Buffers) (labCache : gmap Z triple)
    (imageData : list Z) (width height : nat) (palette : list rgb8) (method : string)
    (opts : Options) : option (Quantized * gmap Z triple * Buffers) :=
  let n := (width * height)%nat in
  let '(work, eligible) := _ensureDitherBuffers bufs n in
  let st := for_yx height width (ed_init_body rt opts width)
              {| ed_data := Uint8ClampedArray_from imageData;
                 ed_work := work;
                 ed_eligible := eligible;
                 ed_totalValid := 0;
                 ed_labCache := labCache |} in
  let kernel := _getDitherKernel method in
  match for_yx height width (ed_body rt opts palette kernel width height) (Some st) with
  | Some st =>
      Some ({| data := ed_data st; totalValidPixels := ed_totalValid st |}, ed_labCache st,
            {| _ditherWorkBuf := Some (ed_work st);
               _ditherEligibleBuf := Some (ed_eligible st) |})
  | None => None
  end.

End DitherBuffers.

(** ** Block resampling: the dominant colour *)

Section Resampler.

(** The block scan of [resampleDominant]: [counts] is the 4096-cell
    [Uint32Array], and [(bestIdx, bestCount)] the running winner. *)
Definition dominant_visit (srcData : list Z) (acc : list Z * Z * Z) (p : nat)
  : list Z * Z * Z :=
  let '(counts, bestIdx, bestCount) := acc in
  let r := sar (srcData !!! p) 4 in
  let g := sar (srcData !!! (p + 1)%nat) 4 in
  let b := sar (srcData !!! (p + 2)%nat) 4 in
  let idx := bor (bor (shl r 8) (shl g 4)) b in
  let c := ushr0 (counts !!! Z.to_nat idx + 1) in
  let counts := <[Z.to_nat idx := c]> counts in
  if bestCount <? c then (counts, idx, c) else (counts, bestIdx, bestCount).

(** The byte offsets [p] visited by
    [for (yy = sy0; yy < sy1; yy++) { p = (yy * sw + sx0) * 4;
       for (xx = sx0; xx < sx1; xx++) { ...; p += 4 } }]. *)
Definition block_offsets (sw sx0 sx1 sy0 sy1 : nat) : list nat :=
  flat_map (fun yy => map (fun xx => ((yy * sw + xx) * 4)%nat) (seq sx0 (sx1 - sx0)))
    (seq sy0 (sy1 - sy0)).

Definition dominant_block (srcData : list Z) (sw sx0 sx1 sy0 sy1 : nat)
  : list Z * Z * Z :=
  fold_left (dominant_visit srcData) (block_offsets sw sx0 sx1 sy0 sy1)
    (replicate 4096 0, 0, -1).

(** The colour written for a winning bucket. *)
Definition bucket_color (bestIdx : Z) : rgb8 :=
  (Z.land (sar bestIdx 8) 15 * 17, Z.land (sar bestIdx 4) 15 * 17, Z.land bestIdx 15 * 17).

Definition dominant_body (srcData : list Z) (sw sh dstW factor : nat)
    (dstData : list Z) (y x : nat) : list Z :=
  let sy0 := (y * factor)%nat in
  let sy1 := Nat.min sh (sy0 + factor) in
  let sx0 := (x * factor)%nat in
  let sx1 := Nat.min sw (sx0 + factor) in
  let '(_, bestIdx, _) := dominant_block srcData sw sx0 sx1 sy0 sy1 in
  let '(r, g, b) := bucket_color bestIdx in
  let q := ((y * dstW + x) * 4)%nat in
  put_pixel dstData q r g b 255.

(** [resampleDominant(source, dstW, dstH, factor)] on the source's RGBA
    bytes [srcData] ([sw] by [sh] pixels), returning the bytes put on the
    destination canvas. *)
Definition resampleDominant (srcData : list Z) (sw sh dstW dstH factor : nat)
  : list Z :=
  for_yx dstH dstW (dominant_body srcData sw sh dstW factor)
    (replicate (dstW * dstH * 4) 0).

End Resampler.

(** ** Block resampling: the median *)

Section MedianResampler.









End MedianResampler.

(** ** Region simplification *)

Section Filters.

(** [borderColors[k2] = (borderColors[k2] || 0) + 1].  The object's keys
    are integers, which [for ... in] enumerates in ascending order; the
    counts are kept as an association list sorted by key. *)
Fixpoint bump (k : Z) (m : list (Z * Z)) : list (Z * Z) :=
  match m with
  | [] => [(k, 1)]
  | (k', c) :: rest =>
      if k =? k' then (k', c + 1) :: rest
      else if k <? k' then (k, 1) :: (k', c) :: rest
      else (k', c) :: bump k rest
  end.

(** [for (const ks in borderColors) if (c > bestCnt) { bestCnt = c; bestKey = ks }] *)
Definition best_border (borderColors : list (Z * Z)) : Z * Z :=
  fold_left (fun (best : Z * Z) (e : Z * Z) =>
               let '(bestKey, bestCnt) := best in
               let '(ks, c) := e in
               if bestCnt <? c then (ks, c) else (bestKey, bestCnt))
    borderColors (-1, -1).

Definition sr_alpha (result : list Z) (li : nat) : Z := result !!! (li * 4 + 3)%nat.

(** [((r << 16) | (g << 8) | b) >>> 0] of the pixel with linear index [li]. *)
Definition sr_key (result : list Z) (li : nat) : Z :=
  let p := (li * 4)%nat in
  ushr0 (bor (bor (shl (result !!! p) 16) (shl (result !!! (p + 1)%nat) 8))
           (result !!! (p + 2)%nat)).

Definition neighbors : list (Z * Z) := [(1, 0); (-1, 0); (0, 1); (0, -1)].

(** The flood-fill state: the visited flags, the pending queue (the cells
    [qs .. qe) of [qx]/[qy]), the byte offsets collected in [comp], and the
    border counts. *)
Record Flood := {
  fl_visited : list bool;
  fl_queue : list (nat * nat);
  fl_comp : list nat;
  fl_border : list (Z * Z)
}.

(** One neighbour of the cell [(cx0, cy0)]. *)
Definition flood_neighbor (result : list Z) (width height : nat) (key : Z)
    (cx0 cy0 : nat) (st : Flood) (d : Z * Z) : Flood :=
  let nx := Z.of_nat cx0 + fst d in
  let ny := Z.of_nat cy0 + snd d in
  if (nx <? 0) || (ny <? 0) || (Z.of_nat width <=? nx) || (Z.of_nat height <=? ny)
  then st
  else
    let l2 := Z.to_nat (ny * Z.of_nat width + nx) in
    if (fl_visited st !!! l2 : bool) then st
    else if sr_alpha result l2 <? 128 then
      {| fl_visited := <[l2 := true]> (fl_visited st); fl_queue := fl_queue st;
         fl_comp := fl_comp st; fl_border := fl_border st |}
    else
      let k2 := sr_key result l2 in
      if k2 =? key then
        {| fl_visited := <[l2 := true]> (fl_visited st);
           fl_queue := fl_queue st ++ [(Z.to_nat nx, Z.to_nat ny)];
           fl_comp := fl_comp st; fl_border := fl_border st |}
      else
        {| fl_visited := fl_visited st; fl_queue := fl_queue st;
           fl_comp := fl_comp st; fl_border := bump k2 (fl_border st) |}.

(** [while (qs < qe) { ... }]; every pixel enters the queue at most once,
    so [width * height] rounds exhaust it. *)
Fixpoint flood (fuel : nat) (result : list Z) (width height : nat) (key : Z)
    (st : Flood) : Flood :=
  match fuel with
  | O => st
  | S fuel =>
      match fl_queue st with
      | [] => st
      | (cx0, cy0) :: rest =>
          let pi := ((cy0 * width + cx0) * 4)%nat in
          let st := {| fl_visited := fl_visited st; fl_queue := rest;
                       fl_comp := fl_comp st ++ [pi]; fl_border := fl_border st |} in
          flood fuel result width height key
            (fold_left (flood_neighbor result width height key cx0 cy0) neighbors st)
      end
  end.

Definition repaint (nr ng nb : Z) (result : list Z) (p3 : nat) : list Z :=
  put_pixel result p3 nr ng nb 255.

(** The body of the scan over all pixels. *)
Definition simplify_body (width height : nat) (thr : Z) (st : list Z * list bool)
    (y x : nat) : list Z * list bool :=
  let '(result, visited) := st in
  let li := (y * width + x)%nat in
  if (visited !!! li : bool) then st
  else if sr_alpha result li <? 128 then (result, <[li := true]> visited)
  else
    let key := sr_key result li in
    let fl := flood (width * height) result width height key
                {| fl_visited := <[li := true]> visited; fl_queue := [(x, y)];
                   fl_comp := []; fl_border := [] |} in
    let comp := fl_comp fl in
    let len := Z.of_nat (length comp) in
    if (0 <? len) && (len <? thr) then
      let '(bestKey, _) := best_border (fl_border fl) in
      if 0 <=? bestKey then
        let nr := Z.land (Z.shiftr bestKey 16) 255 in
        let ng := Z.land (Z.shiftr bestKey 8) 255 in
        let nb := Z.land bestKey 255 in
        (fold_left (repaint nr ng nb) comp result, fl_visited fl)
      else (result, fl_visited fl)
    else (result, fl_visited fl).

(** [simplifyRegions(imageData, width, height, minArea)] for an integer
    [minArea]. *)
Definition simplifyRegions (imageData : list Z) (width height : nat) (minArea : Z)
  : list Z :=
  if minArea <=? 0 then Uint8ClampedArray_from imageData
  else
    let thr := Z.max 1 minArea in
    if (width =? 0)%nat || (height =? 0)%nat then Uint8ClampedArray_from imageData
    else
      fst (for_yx height width (simplify_body width height thr)
             (Uint8ClampedArray_from imageData, replicate (width * height) false)).

End Filters.

(** ** Edge erosion *)

Section Erosion.

(** [temp[i] < 128]; out of range the read is [undefined], and the
    comparison false. *)
Definition below_128 (temp : list Z) (i : nat) : bool :=
  match temp !! i with
  | Some a => a <? 128
  | None => false
  end.

(** The scan of the 3 x 3 block around [(x, y)] of [erodeEdges]. *)
Definition hasTransparentNeighbor (temp : list Z) (width : nat) (y x : nat) : bool :=
  existsb
    (fun dy =>
       existsb
         (fun dx =>
            let nidx := ((Z.of_nat y + dy) * Z.of_nat width + (Z.of_nat x + dx)) * 4 in
            below_128 temp (Z.to_nat (nidx + 3)))
         [-1; 0; 1])
    [-1; 0; 1].

Definition erode_body (temp : list Z) (width : nat) (result : list Z) (y x : nat)
  : list Z :=
  let idx := ((y * width + x) * 4)%nat in
  let alpha := temp !!! (idx + 3)%nat in
  if hasTransparentNeighbor temp width y x && (128 <? alpha)
  then <[(idx + 3)%nat := 0]> result
  else result.

(** [for (y = 1; y < height - 1; y++) for (x = 1; x < width - 1; x++)] *)
Definition interior_order (height width : nat) : list (nat * nat) :=
  flat_map (fun y => map (pair y) (seq 1 (width - 2))) (seq 1 (height - 2)).

(** One iteration: [temp] is a copy of [result] taken before the scan. *)
Definition erode_pass (width height : nat) (result : list Z) : list Z :=
  let temp := result in
  fold_left (fun result yx => erode_body temp width result (fst yx) (snd yx))
    (interior_order height width) result.

(** [erodeEdges(imageData, width, height, amount)] for an integer [amount]. *)
Definition erodeEdges (imageData : list Z) (width height : nat) (amount : Z) : list Z :=
  if amount <=? 0 then Uint8ClampedArray_from imageData
  else Nat.iter (Z.to_nat amount) (erode_pass width height)
         (Uint8ClampedArray_from imageData).

End Erosion.

(** ** Dilation: edge thickness and outlines *)

Section Dilation.

(** A test on the cell [i] of a typed array; out of range the read is
    [undefined], which fails both [> 128] and the truth test. *)
Definition cell_is (on : Z -> bool) (l : list Z) (i : nat) : bool :=
  match l !! i with
  | Some v => on v
  | None => false
  end.

(** The loop body shared by the dilation passes of [_dilateEdges] (with
    [on v] for [v > 128] and [mark = 255]) and of [applyOutline] (with the
    truth test and [mark = 1]). *)
Definition grow_body (on : Z -> bool) (mark : Z) (dilated : list Z)
    (width height : nat) (tmp : list Z) (y x : nat) : list Z :=
  let i := (y * width + x)%nat in
  if cell_is on dilated i then <[i := mark]> tmp
  else if ((0 <? x)%nat && cell_is on dilated (i - 1))
          || ((x + 1 <? width)%nat && cell_is on dilated (i + 1))
          || ((0 <? y)%nat && cell_is on dilated (i - width))
          || ((y + 1 <? height)%nat && cell_is on dilated (i + width))
       then <[i := mark]> tmp
       else tmp.

(** [tmp.fill(0); for y, x { ... }; dilated.set(tmp)]; [tmp] is as long as
    [dilated]. *)
Definition grow_pass (on : Z -> bool) (mark : Z) (width height : nat)
    (dilated : list Z) : list Z :=
  for_yx height width (grow_body on mark dilated width height)
    (replicate (length dilated) 0).

(** [_dilateEdges(edges, width, height, thickness)] for an integer
    [thickness]; [thickness || 1] turns 0 into 1. *)
Definition _dilateEdges (edges : list Z) (width height : nat) (thickness : Z) : list Z :=
  let t := Z.max 1 (Z.min 6 (if thickness =? 0 then 1 else thickness)) in
  let dilationCount := t - 1 in
  if dilationCount <=? 0 then Uint8ClampedArray_from edges
  else Nat.iter (Z.to_nat dilationCount) (grow_pass (fun v => 128 <? v) 255 width height)
         (Uint8ClampedArray_from edges).

Definition truthy (v : Z) : bool := negb (v =? 0).

(** The last loop of [applyOutline]. *)
Definition outline_body (dilated mask : list Z) (data : list Z) (i : nat) : list Z :=
  if cell_is truthy dilated i && negb (cell_is truthy mask i)
  then put_pixel data (i * 4) 0 0 0 255
  else data.

(** [applyOutline(imageData, width, height, thickness)] for an integer
    [thickness]. *)
Definition applyOutline (imageData : list Z) (width height : nat) (thickness : Z)
  : list Z :=
  let t := Z.max 0 thickness in
  if t <=? 0 then Uint8ClampedArray_from imageData
  else
    let data := Uint8ClampedArray_from imageData in
    let mask :=
      map (fun i => if cell_is (fun a => 128 <=? a) data (i * 4 + 3) then 1 else 0)
        (seq 0 (width * height)) in
    let dilated := Nat.iter (Z.to_nat t) (grow_pass truthy 1 width height) mask in
    fold_left (outline_body dilated mask) (seq 0 (length dilated)) data.

End Dilation.

(** ** The mode filter *)

Section ModeFilter.

(** [v | 0] on an integer. *)
Definition or0 (v : Z) : Z := bor (wrap32 v) 0.

(** [((imageData[j] | 0) << 16) | ((imageData[j + 1] | 0) << 8) | (imageData[j + 2] | 0)] *)
Definition mode_key (imageData : list Z) (j : nat) : Z :=
  bor (bor (shl (or0 (imageData !!! j)) 16) (shl (or0 (imageData !!! (j + 1)%nat)) 8))
    (or0 (imageData !!! (j + 2)%nat)).

(** The values [-left, ..., right] of [dy] and [dx]. *)
Definition mode_offsets (left right : Z) : list Z :=
  map (fun k => Z.of_nat k - left) (seq 0 (Z.to_nat (left + right + 1))).

(** The cells [(yy, xx)] the two inner loops reach, in the order of the
    scan: those that fall off the raster are skipped. *)
Definition mode_window (width height : nat) (left right : Z) (y x : nat)
  : list (nat * nat) :=
  flat_map
    (fun dy =>
       let yy := Z.of_nat y + dy in
       if (yy <? 0) || (Z.of_nat height <=? yy) then []
       else
         flat_map
           (fun dx =>
              let xx := Z.of_nat x + dx in
              if (xx <? 0) || (Z.of_nat width <=? xx) then []
              else [(Z.to_nat yy, Z.to_nat xx)])
           (mode_offsets left right))
    (mode_offsets left right).

(** The state of the window scan: the [counts] object, [best], and
    [(bR, bG, bB)]. *)
Definition ModeState : Type := gmap Z Z * Z * rgb8.

Definition mode_visit (imageData : list Z) (width : nat) (acc : ModeState)
    (c : nat * nat) : ModeState :=
  let '(counts, best, col) := acc in
  let j := ((fst c * width + snd c) * 4)%nat in
  if or0 (imageData !!! (j + 3)%nat) <? 128 then acc
  else
    let key := mode_key imageData j in
    let n := default 0 (counts !! key) + 1 in
    let counts := <[key := n]> counts in
    if best <? n
    then (counts, n, (imageData !!! j, imageData !!! (j + 1)%nat, imageData !!! (j + 2)%nat))
    else (counts, best, col).

Definition mode_body (imageData : list Z) (width height : nat) (left right : Z)
    (out : list Z) (y x : nat) : list Z :=
  let i := ((y * width + x) * 4)%nat in
  let a := or0 (imageData !!! (i + 3)%nat) in
  if a <? 128 then
    put_pixel out i (imageData !!! i) (imageData !!! (i + 1)%nat)
      (imageData !!! (i + 2)%nat) a
  else
    let own := (imageData !!! i, imageData !!! (i + 1)%nat, imageData !!! (i + 2)%nat) in
    let '(_, _, (bR, bG, bB)) :=
      fold_left (mode_visit imageData width) (mode_window width height left right y x)
        (∅, 0, own) in
    put_pixel out i bR bG bB 255.

(** [applyModeFilter(imageData, width, height, radius)] for an integer
    [radius] and integer samples. *)
Definition applyModeFilter (imageData : list Z) (width height : nat) (radius : Z)
  : list Z :=
  if (radius <=? 0) || (width =? 0)%nat || (height =? 0)%nat
  then Uint8ClampedArray_from imageData
  else
    let n := or0 radius in
    if n <=? 1 then Uint8ClampedArray_from imageData
    else
      let left := (n - 1) / 2 in
      let right := n - left - 1 in
      for_yx height width (mode_body imageData width height left right)
        (Uint8ClampedArray_from imageData).

End ModeFilter.

(** ** Colour correction *)

Section ColorCorrection.

Context (rt : Runtime).
#[local] Open Scope float_scope.

(** [_rgbToHsl(r, g, b)]; the [switch (max)] compares with [===]. *)
Definition _rgbToHsl (r g b : float) : triple :=
  let r := r / 255 in let g := g / 255 in let b := b / 255 in
  let max := Math_max (Math_max r g) b in
  let min := Math_min (Math_min r g) b in
  let l := (max + min) / 2 in
  let '(h, s) :=
    if negb (max =? min) then
      let d := max - min in
      let s := if 0.5 <? l then d / (2 - max - min) else d / (max + min) in
      let h :=
        if max =? r then ((g - b) / d + (if g <? b then 6 else 0)) / 6
        else if max =? g then ((b - r) / d + 2) / 6
        else if max =? b then ((r - g) / d + 4) / 6
        else 0 in
      (h, s)
    else (0, 0) in
  (h * 360, s * 100, l * 100).

(** The helper [hue2rgb(p, q, t)] of [_hslToRgb]. *)
Definition hue2rgb (p q t : float) : float :=
  let t := if t <? 0 then t + 1 else t in
  let t := if 1 <? t then t - 1 else t in
  if t <? 1 / 6 then p + (q - p) * 6 * t
  else if t <? 1 / 2 then q
  else if t <? 2 / 3 then p + (q - p) * (2 / 3 - t) * 6
  else p.

(** [_hslToRgb(h, s, l)] *)
Definition _hslToRgb (h s l : float) : triple :=
  let h := h / 360 in let s := s / 100 in let l := l / 100 in
  let '(r, g, b) :=
    if s =? 0 then (l, l, l)
    else
      let q := if l <? 0.5 then l * (1 + s) else l + s - l * s in
      let p := 2 * l - q in
      (hue2rgb p q (h + 1 / 3), hue2rgb p q h, hue2rgb p q (h - 1 / 3)) in
  (Math_round (r * 255), Math_round (g * 255), Math_round (b * 255)).

(** Storing a number into a [Uint8ClampedArray]: NaN gives 0, the value is
    clamped to 0..255 and rounded to the nearest integer, halves to even. *)
Definition ToUint8Clamp (x : float) : Z :=
  if is_nan x then 0%Z
  else if x <=? 0 then 0%Z
  else if 255 <=? x then 255%Z
  else
    let f := truncZ x in
    if of_Z f + 0.5 <? x then (f + 1)%Z
    else if x <? of_Z f + 0.5 then f
    else if Z.even f then f else (f + 1)%Z.

(** Reading [result[j]] as a number; [undefined] becomes NaN in the
    arithmetic that follows. *)
Definition channel (result : list Z) (j : nat) : float :=
  match result !! j with
  | Some v => of_Z v
  | None => NaN
  end.

(** The five stages applied to the colour of one pixel. *)
Definition correct_colour (brightness contrast saturation hue gamma : float)
    (c : triple) : triple :=
  let '(r, g, b) := c in
  let '(r, g, b) :=
    if negb (brightness =? 0) then
      (Math_max 0 (Math_min 255 (r + brightness * 2.55)),
       Math_max 0 (Math_min 255 (g + brightness * 2.55)),
       Math_max 0 (Math_min 255 (b + brightness * 2.55)))
    else (r, g, b) in
  let '(r, g, b) :=
    if negb (contrast =? 0) then
      let factor := (contrast + 100) / 100 in
      (Math_max 0 (Math_min 255 ((r - 128) * factor + 128)),
       Math_max 0 (Math_min 255 ((g - 128) * factor + 128)),
       Math_max 0 (Math_min 255 ((b - 128) * factor + 128)))
    else (r, g, b) in
  let '(r, g, b) :=
    if negb (saturation =? 0) then
      let '(h, s, l) := _rgbToHsl r g b in
      let newS := Math_max 0 (Math_min 100 (s + saturation)) in
      _hslToRgb h newS l
    else (r, g, b) in
  let '(r, g, b) :=
    if negb (hue =? 0) then
      let '(h, s, l) := _rgbToHsl r g b in
      let newH := JS.rem (h + hue) 360 in
      _hslToRgb newH s l
    else (r, g, b) in
  if negb (gamma =? 1) then
    let invGamma := 1 / gamma in
    (Math_pow rt (r / 255) invGamma * 255, Math_pow rt (g / 255) invGamma * 255,
     Math_pow rt (b / 255) invGamma * 255)
  else (r, g, b).

(** The body of [for (let i = 0; i < result.length; i += 4)], for [i = 4 k]. *)
Definition correction_body (brightness contrast saturation hue gamma : float)
    (result : list Z) (k : nat) : list Z :=
  let i := (k * 4)%nat in
  let '(r, g, b) :=
    correct_colour brightness contrast saturation hue gamma
      (channel result i, channel result (i + 1)%nat, channel result (i + 2)%nat) in
  <[(i + 2)%nat := ToUint8Clamp (Math_round b)]>
    (<[(i + 1)%nat := ToUint8Clamp (Math_round g)]>
       (<[i := ToUint8Clamp (Math_round r)]> result)).

(** [applyColorCorrection(imageData, brightness, contrast, saturation, hue,
    gamma)] *)
Definition applyColorCorrection (imageData : list Z)
    (brightness contrast saturation hue gamma : float) : list Z :=
  let result := Uint8ClampedArray_from imageData in
  fold_left (correction_body brightness contrast saturation hue gamma)
    (seq 0 ((length result + 3) / 4)) result.

End ColorCorrection.

(** ** Posterization *)

Section Posterize.

(** [Math.floor(value / step) * step], as stored in the byte array. *)
Definition posterized (step value : float) : Z :=
  ToUint8Clamp (Math_floor (value / step) * step)%float.

(** The body of [for (let i = 0; i < result.length; i += 4)], for
    [i = 4 k]: the loop over the three colour channels. *)
Definition posterize_body (step : float) (result : list Z) (k : nat) : list Z :=
  fold_left
    (fun result c =>
       let value := channel result (k * 4 + c) in
       <[(k * 4 + c)%nat := posterized step value]> result)
    [0; 1; 2]%nat result.

(** [_applyPosterize(data, width, height, levels)] *)
Definition _applyPosterize (data : list Z) (width height : nat) (levels : float)
  : list Z :=
  let result := Uint8ClampedArray_from data in
  let step := (256 / levels)%float in
  fold_left (posterize_body step) (seq 0 ((length result + 3) / 4)) result.

End Posterize.

(** * Properties *)

(** ** The order of binary64 values

    Comparisons of primitive floats are specified through [SFcompare]; on
    values other than NaN it is the lexicographic order of the triples
    below. *)

Module FloatOrder.

Definition rank (x : spec_float) : Z * Z * Z :=
  match x with
  | S754_nan => (0, 0, 0)
  | S754_zero _ => (0, 0, 0)
  | S754_infinity true => (-2, 0, 0)
  | S754_infinity false => (2, 0, 0)
  | S754_finite true m e => (-1, - e, - Zpos m)
  | S754_finite false m e => (1, e, Zpos m)
  end.

Definition lex_compare (a b : Z * Z * Z) : comparison :=
  let '(a1, a2, a3) := a in
  let '(b1, b2, b3) := b in
  match a1 ?= b1 with
  | Eq => match a2 ?= b2 with Eq => a3 ?= b3 | c => c end
  | c => c
  end.

Definition is_nanb (x : spec_float) : bool :=
  match x with S754_nan => true | _ => false end.

Lemma SFcompare_rank (x y : spec_float) :
  is_nanb x = false -> is_nanb y = false ->
  SFcompare x y = Some (lex_compare (rank x) (rank y)).
Proof.
  destruct x as [[]|[]| |[] mx ex], y as [[]|[]| |[] my ey]; simpl; try discriminate;
    intros _ _; try reflexivity.
  rewrite Z.compare_opp, (Z.compare_antisym ex ey).
  destruct (ex ?= ey); reflexivity.
Qed.

Lemma SFcompare_nan_l (x y : spec_float) : is_nanb x = true -> SFcompare x y = None.
Proof. destruct x; try discriminate. reflexivity. Qed.

Lemma SFcompare_nan_r (x y : spec_float) : is_nanb y = true -> SFcompare x y = None.
Proof. destruct y; try discriminate. destruct x; reflexivity. Qed.

Lemma lex_compare_refl a : lex_compare a a = Eq.
Proof. destruct a as [[a1 a2] a3]. simpl. now rewrite !Z.compare_refl. Qed.

Lemma lex_compare_antisym a b : lex_compare b a = CompOpp (lex_compare a b).
Proof.
  destruct a as [[a1 a2] a3], b as [[b1 b2] b3]. simpl.
  rewrite (Z.compare_antisym a1 b1), (Z.compare_antisym a2 b2), (Z.compare_antisym a3 b3).
  destruct (a1 ?= b1), (a2 ?= b2), (a3 ?= b3); reflexivity.
Qed.

(** [a < b] or [a <= b] in the lexicographic order, as arithmetic facts. *)
Definition lex_lt (a b : Z * Z * Z) : Prop :=
  let '(a1, a2, a3) := a in
  let '(b1, b2, b3) := b in
  a1 < b1 \/ (a1 = b1 /\ (a2 < b2 \/ (a2 = b2 /\ a3 < b3))).

Lemma lex_compare_Lt a b : lex_compare a b = Lt <-> lex_lt a b.
Proof.
  destruct a as [[a1 a2] a3], b as [[b1 b2] b3]. simpl.
  destruct (Z.compare_spec a1 b1), (Z.compare_spec a2 b2), (Z.compare_spec a3 b3);
    split; intros; try discriminate; try reflexivity; lia.
Qed.

Lemma lex_compare_Eq a b : lex_compare a b = Eq <-> a = b.
Proof.
  destruct a as [[a1 a2] a3], b as [[b1 b2] b3]. simpl.
  destruct (Z.compare_spec a1 b1), (Z.compare_spec a2 b2), (Z.compare_spec a3 b3);
    split; intros H'; try discriminate; try reflexivity;
    try (injection H'; intros; lia); subst; reflexivity.
Qed.

Lemma lex_compare_Gt a b : lex_compare a b = Gt <-> lex_lt b a.
Proof.
  rewrite <- lex_compare_Lt, (lex_compare_antisym a b).
  destruct (lex_compare a b); simpl; split; congruence.
Qed.

Lemma lex_lt_trans a b c : lex_lt a b -> lex_lt b c -> lex_lt a c.
Proof.
  destruct a as [[a1 a2] a3], b as [[b1 b2] b3], c as [[c1 c2] c3]. simpl. lia.
Qed.

Lemma lex_lt_irrefl a : ~ lex_lt a a.
Proof. destruct a as [[a1 a2] a3]. simpl. lia. Qed.

Lemma lex_total a b : lex_lt a b \/ a = b \/ lex_lt b a.
Proof.
  destruct a as [[a1 a2] a3], b as [[b1 b2] b3]. simpl.
  destruct (Z.lt_total a1 b1) as [|[|]], (Z.lt_total a2 b2) as [|[|]],
    (Z.lt_total a3 b3) as [|[|]]; subst; auto; try (left; lia); try (right; right; lia).
Qed.

#[local] Open Scope float_scope.

Definition frank (x : float) : Z * Z * Z := rank (Prim2SF x).

Lemma is_nan_spec (x : float) : is_nan x = is_nanb (Prim2SF x).
Proof.
  unfold is_nan. rewrite FloatAxioms.eqb_spec. unfold SFeqb.
  destruct (is_nanb (Prim2SF x)) eqn:E.
  - now rewrite SFcompare_nan_l.
  - now rewrite SFcompare_rank, lex_compare_refl.
Qed.

Lemma ltb_true (x y : float) :
  (x <? y) = true <-> is_nan x = false /\ is_nan y = false /\ lex_lt (frank x) (frank y).
Proof.
  rewrite FloatAxioms.ltb_spec, !is_nan_spec. unfold SFltb, frank.
  destruct (is_nanb (Prim2SF x)) eqn:Ex.
  { rewrite SFcompare_nan_l by assumption. split; [discriminate | intros [? _]; discriminate]. }
  destruct (is_nanb (Prim2SF y)) eqn:Ey.
  { rewrite SFcompare_nan_r by assumption. split; [discriminate | intros (_ & ? & _); discriminate]. }
  rewrite SFcompare_rank by assumption. rewrite <- lex_compare_Lt.
  destruct (lex_compare _ _); split; try discriminate; try tauto; intros (_ & _ & ?); discriminate.
Qed.


Lemma leb_true (x y : float) :
  (x <=? y) = true <->
  is_nan x = false /\ is_nan y = false /\ (lex_lt (frank x) (frank y) \/ frank x = frank y).
Proof.
  rewrite FloatAxioms.leb_spec, !is_nan_spec. unfold SFleb, frank.
  destruct (is_nanb (Prim2SF x)) eqn:Ex.
  { rewrite SFcompare_nan_l by assumption. split; [discriminate | intros [? _]; discriminate]. }
  destruct (is_nanb (Prim2SF y)) eqn:Ey.
  { rewrite SFcompare_nan_r by assumption. split; [discriminate | intros (_ & ? & _); discriminate]. }
  rewrite SFcompare_rank by assumption.
  rewrite <- lex_compare_Lt, <- lex_compare_Eq.
  destruct (lex_compare _ _); split; try discriminate; try tauto;
    intros (_ & _ & [?|?]); discriminate.
Qed.

(** The negation of [<] between two numbers that are not NaN. *)
Lemma ltb_false (x y : float) :
  is_nan x = false -> is_nan y = false ->
  (x <? y) = false <-> (lex_lt (frank y) (frank x) \/ frank y = frank x).
Proof.
  intros Hx Hy. destruct (x <? y) eqn:E.
  - apply ltb_true in E as (_ & _ & E). split; [discriminate|].
    intros [H|H].
    + exfalso. exact (lex_lt_irrefl _ (lex_lt_trans _ _ _ E H)).
    + rewrite H in E. exfalso. exact (lex_lt_irrefl _ E).
  - split; [intros _|reflexivity].
    destruct (lex_total (frank x) (frank y)) as [H|[H|H]]; auto.
    exfalso. assert ((x <? y) = true) by (apply ltb_true; auto). congruence.
Qed.


Lemma ltb_asym (a b : float) : (a <? b) = true -> (b <? a) = false.
Proof.
  intros Hab. apply ltb_true in Hab as (Ha & Hb & Hab).
  apply ltb_false; auto.
Qed.


End FloatOrder.

(** ** Numbers that are not NaN

    Sums, differences and products of finite numbers may overflow to an
    infinity but are never NaN; clamping a number that is not NaN lands in
    [0, 255]. *)

Section FloatReal.

Import FloatOrder.

Definition sf_real (x : spec_float) : bool :=
  match x with S754_zero _ | S754_finite _ _ _ => true | _ => false end.
Definition sf_finite_nz (x : spec_float) : bool :=
  match x with S754_finite _ _ _ => true | _ => false end.

Lemma shr_1_nonneg (mrs : shr_record) : 0 <= shr_m mrs -> 0 <= shr_m (shr_1 mrs).
Proof. destruct mrs as [[|[p|p|]|p] r s]; simpl; lia. Qed.

Lemma iter_shr_1_nonneg (p : positive) (mrs : shr_record) :
  0 <= shr_m mrs -> 0 <= shr_m (SpecFloat.iter_pos shr_1 p mrs).
Proof.
  revert mrs. induction p as [p IH|p IH|]; intros mrs H; simpl.
  - apply IH, IH, shr_1_nonneg, H.
  - apply IH, IH, H.
  - apply shr_1_nonneg, H.
Qed.

Lemma shr_fexp_nonneg (prec emax m e : Z) (l : location) :
  0 <= m -> 0 <= shr_m (fst (shr_fexp prec emax m e l)).
Proof.
  intros H. unfold shr_fexp, shr.
  assert (H0 : 0 <= shr_m (shr_record_of_loc m l)) by (destruct l as [|[]]; exact H).
  destruct (fexp prec emax (Zdigits2 m + e) - e); simpl; auto using iter_shr_1_nonneg.
Qed.

Lemma round_nearest_even_nonneg (m : Z) (l : location) :
  0 <= m -> 0 <= round_nearest_even m l.
Proof. intros H. destruct l as [|[]]; simpl; try lia. destruct (Z.even m); lia. Qed.

Lemma binary_round_aux_not_nan (prec emax : Z) (sx : bool) (mx ex : Z) (lx : location) :
  0 <= mx -> is_nanb (binary_round_aux prec emax sx mx ex lx) = false.
Proof.
  intros H. unfold binary_round_aux.
  pose proof (shr_fexp_nonneg prec emax mx ex lx H) as H1.
  destruct (shr_fexp prec emax mx ex lx) as [mrs' e']. simpl in H1.
  pose proof (shr_fexp_nonneg prec emax _ e' loc_Exact
                (round_nearest_even_nonneg _ (loc_of_shr_record mrs') H1)) as H2.
  destruct (shr_fexp prec emax _ e' loc_Exact) as [mrs'' e'']. simpl in H2.
  destruct (shr_m mrs''); try reflexivity; [|lia].
  now destruct (e'' <=? emax - prec).
Qed.

Lemma binary_normalize_not_nan (prec emax m e : Z) (s : bool) :
  is_nanb (binary_normalize prec emax m e s) = false.
Proof.
  destruct m; simpl; try reflexivity; unfold binary_round;
    destruct (shl_align _ _ _); apply binary_round_aux_not_nan; lia.
Qed.

Lemma SFsub_real (prec emax : Z) (x y : spec_float) :
  sf_real x = true -> sf_real y = true -> is_nanb (SFsub prec emax x y) = false.
Proof.
  destruct x as [[]|[]| |sx mx ex], y as [[]|[]| |sy my ey]; simpl; try discriminate;
    intros _ _; try reflexivity.
  apply binary_normalize_not_nan.
Qed.

Lemma SFadd_real (prec emax : Z) (x y : spec_float) :
  sf_real x = true -> is_nanb y = false -> is_nanb (SFadd prec emax x y) = false.
Proof.
  destruct x as [[]|[]| |sx mx ex], y as [[]|[]| |sy my ey]; simpl; try discriminate;
    intros _ _; try reflexivity.
  apply binary_normalize_not_nan.
Qed.

Lemma SFmul_finite_nz (prec emax : Z) (x y : spec_float) :
  is_nanb x = false -> sf_finite_nz y = true -> is_nanb (SFmul prec emax x y) = false.
Proof.
  destruct x as [[]|[]| |sx mx ex], y as [[]|[]| |sy my ey]; simpl; try discriminate;
    intros _ _; try reflexivity.
  apply binary_round_aux_not_nan. lia.
Qed.

#[local] Open Scope float_scope.

Lemma frank_zero : frank 0 = (0, 0, 0)%Z.
Proof. reflexivity. Qed.

Lemma frank_255 : frank 255 = (1, -45, 8972014882652160)%Z.
Proof. reflexivity. Qed.

Lemma in_range_real (v : float) : in_range v = true -> sf_real (Prim2SF v) = true.
Proof.
  unfold in_range. rewrite andb_true_iff. intros [H0 H1].
  apply leb_true in H0 as (_ & Hn & H0). apply leb_true in H1 as (_ & _ & H1).
  rewrite is_nan_spec in Hn. rewrite frank_zero in H0. rewrite frank_255 in H1.
  unfold frank in *. destruct (Prim2SF v) as [[]|[]| |[] m e]; simpl in *;
    try reflexivity; try discriminate; exfalso;
    repeat match goal with
           | H : _ \/ _ |- _ => destruct H
           | H : _ /\ _ |- _ => destruct H
           end; try congruence; lia.
Qed.

Lemma sub_not_nan (x y : float) :
  sf_real (Prim2SF x) = true -> sf_real (Prim2SF y) = true -> is_nan (x - y) = false.
Proof.
  intros Hx Hy. rewrite is_nan_spec, sub_spec. now apply SFsub_real.
Qed.

Lemma add_not_nan (x y : float) :
  sf_real (Prim2SF x) = true -> is_nan y = false -> is_nan (x + y) = false.
Proof.
  intros Hx Hy. rewrite is_nan_spec in *. rewrite add_spec. now apply SFadd_real.
Qed.

Lemma mul_not_nan (x f : float) :
  is_nan x = false -> sf_finite_nz (Prim2SF f) = true -> is_nan (x * f) = false.
Proof.
  intros Hx Hf. rewrite is_nan_spec in *. rewrite mul_spec. now apply SFmul_finite_nz.
Qed.

Lemma Math_max_zero (x : float) :
  is_nan x = false -> Math_max 0 x = if 0 <? x then x else 0.
Proof.
  intros Hx. unfold Math_max. rewrite Hx.
  change (is_nan 0) with false. cbn [orb].
  destruct (0 <? x); [reflexivity|]. change (sign_bit 0) with false.
  now destruct (x <? 0).
Qed.

Lemma Math_min_255 (x : float) :
  is_nan x = false -> Math_min 255 x = if 255 <? x then 255 else x.
Proof.
  intros Hx. unfold Math_min. rewrite Hx.
  change (is_nan 255) with false. cbn [orb].
  destruct (255 <? x); [reflexivity|]. change (sign_bit 255) with false.
  now destruct (x <? 255).
Qed.

Lemma leb_of_not_ltb (x y : float) :
  is_nan x = false -> is_nan y = false -> (y <? x) = false -> (x <=? y) = true.
Proof.
  intros Hx Hy H. apply ltb_false in H; auto. apply leb_true. repeat split; auto.
Qed.

Lemma leb_of_ltb (x y : float) : (x <? y) = true -> (x <=? y) = true.
Proof.
  intros H. apply ltb_true in H as (Hx & Hy & H). apply leb_true. auto.
Qed.

(** [Math.min(255, Math.max(0, x))] lies in [0, 255] unless [x] is NaN. *)
Lemma clamp_in_range (x : float) :
  is_nan x = false -> in_range (Math_min 255 (Math_max 0 x)) = true.
Proof.
  intros Hx. rewrite Math_max_zero by assumption.
  destruct (0 <? x) eqn:E0.
  - rewrite Math_min_255 by assumption. destruct (255 <? x) eqn:E1; [reflexivity|].
    unfold in_range. rewrite (leb_of_ltb _ _ E0). cbn [andb].
    now apply leb_of_not_ltb.
  - reflexivity.
Qed.

Lemma clamp_saturates (x : float) :
  ((255 <? x) = true -> Math_min 255 (Math_max 0 x) = 255)
  /\ ((x <? 0) = true -> Math_min 255 (Math_max 0 x) = 0).
Proof.
  split; intros H.
  - pose proof H as H'. apply ltb_true in H' as (_ & Hx & H').
    rewrite Math_max_zero by assumption.
    assert (E0 : (0 <? x) = true).
    { apply ltb_true. repeat split; auto. eapply lex_lt_trans; [|exact H'].
      rewrite frank_zero, frank_255. simpl. lia. }
    rewrite E0, Math_min_255 by assumption. now rewrite H.
  - pose proof H as H'. apply ltb_true in H' as (Hx & _ & H').
    rewrite Math_max_zero by assumption. rewrite (ltb_asym _ _ H). reflexivity.
Qed.

End FloatReal.

(** ** The palette scan *)

Section ScanTheory.

Context {St : Type} (score : St -> rgb8 -> float * St).

(** The scores the scan computes, in palette order, and the state it ends in. *)
Fixpoint scan_scores (palette : list rgb8) (st : St) : list float :=
  match palette with
  | [] => []
  | p :: rest => let '(d, st') := score st p in d :: scan_scores rest st'
  end.

Fixpoint scan_final (palette : list rgb8) (st : St) : St :=
  match palette with
  | [] => st
  | p :: rest => scan_final rest (snd (score st p))
  end.

(** The comparison of the scan, on entries paired with their scores. *)
Definition pick_step (acc : option rgb8 * float) (pd : rgb8 * float)
  : option rgb8 * float :=
  if (snd pd <? snd acc)%float then (Some (fst pd), snd pd) else acc.

Lemma pick_step_eq (acc : option rgb8 * float) (p : rgb8) (d : float) :
  pick_step acc (p, d) = if (d <? snd acc)%float then (Some p, d) else acc.
Proof. reflexivity. Qed.

Lemma scan_palette_fold (palette : list rgb8) (best : option rgb8) (bestDist : float)
    (st : St) :
  fold_left (scan_step score) palette (best, bestDist, st)
  = (fold_left pick_step (zip palette (scan_scores palette st)) (best, bestDist),
     scan_final palette st).
Proof.
  revert best bestDist st. induction palette as [|p rest IH]; intros best bestDist st.
  - reflexivity.
  - simpl. destruct (score st p) as [d st'] eqn:E. simpl.
    rewrite pick_step_eq. simpl.
    destruct (d <? bestDist)%float; apply IH.
Qed.

Lemma scan_scores_length (palette : list rgb8) (st : St) :
  length (scan_scores palette st) = length palette.
Proof.
  revert st. induction palette as [|p rest IH]; intros st; simpl; [reflexivity|].
  destruct (score st p). simpl. now rewrite IH.
Qed.

End ScanTheory.

Section PickTheory.

#[local] Open Scope float_scope.
Import FloatOrder.

Implicit Types (pds : list (rgb8 * float)) (acc : option rgb8 * float).

(** The winner is the initial value or an entry of the list. *)
Lemma pick_mem pds acc :
  fold_left pick_step pds acc = acc
  \/ exists p d, fold_left pick_step pds acc = (Some p, d) /\ In (p, d) pds.
Proof.
  revert acc. induction pds as [|[p d] rest IH]; intros acc; simpl; [now left|].
  rewrite pick_step_eq. destruct (d <? snd acc) eqn:E.
  - right. destruct (IH (Some p, d)) as [H|(p' & d' & H & Hin)].
    + exists p, d. split; [exact H|now left].
    + exists p', d'. split; [exact H|now right].
  - destruct (IH acc) as [H|(p' & d' & H & Hin)]; [now left|].
    right. exists p', d'. split; [exact H|now right].
Qed.

(** An entry scoring below the initial bound makes the scan return an entry. *)
Lemma pick_hit pds (b0 : option rgb8) (d0 : float) :
  Exists (fun pd => (snd pd <? d0) = true) pds ->
  exists p d, fold_left pick_step pds (b0, d0) = (Some p, d) /\ In (p, d) pds.
Proof.
  revert b0 d0. induction pds as [|[p d] rest IH]; intros b0 d0 Hex.
  - inversion Hex.
  - simpl. rewrite pick_step_eq. simpl. destruct (d <? d0) eqn:E.
    + destruct (pick_mem rest (Some p, d)) as [H|(p' & d' & H & Hin)].
      * exists p, d. split; [exact H|now left].
      * exists p', d'. split; [exact H|now right].
    + inversion Hex as [? ? Hhd|? ? Htl]; subst; simpl in *; [congruence|].
      destruct (IH b0 d0 Htl) as (p' & d' & H & Hin).
      exists p', d'. split; [exact H|now right].
Qed.

End PickTheory.

(** ** The matcher *)

Section MatcherFacts.

Context (rt : Runtime).
#[local] Open Scope float_scope.
Import FloatOrder.

(** The scores [findClosestPaletteColor] computes for the entries of a
    palette, in palette order. *)
Definition palette_scores (labCache : gmap Z triple) (r g b : float)
    (palette : list rgb8) (alg : string) (opts : Options) : list float :=
  if String.eqb alg "rgb" then
    scan_scores (pure_score (rgb_dist r g b)) palette labCache
  else if String.eqb alg "hsv" then
    scan_scores (pure_score (hsv_dist rt (_rgbToHsv r g b))) palette labCache
  else if String.eqb alg "oklab" then
    scan_scores (pure_score (oklab_dist rt (_rgbToOklab rt r g b))) palette labCache
  else
    let '((L_t, at_, bt), labCache) := _getLab rt labCache r g b in
    scan_scores (lab_dist rt opts (L_t, at_, bt) (Math_sqrt (at_ * at_ + bt * bt)))
      palette labCache.

(** Whether some palette entry scores below [Infinity] for this target. *)
Definition has_proper_score (labCache : gmap Z triple) (r g b : float)
    (palette : list rgb8) (alg : string) (opts : Options) : bool :=
  existsb (fun d => d <? Infinity) (palette_scores labCache r g b palette alg opts).

(** What [best] starts as: [[0, 0, 0]] in the legacy branch, [null] elsewhere. *)
Definition initial_best (alg : string) : option rgb8 :=
  if String.eqb alg "rgb" then Some (0, 0, 0)%Z else None.

Lemma palette_scores_length labCache r g b palette alg opts :
  length (palette_scores labCache r g b palette alg opts) = length palette.
Proof.
  unfold palette_scores.
  destruct (String.eqb alg "rgb"); [apply scan_scores_length|].
  destruct (String.eqb alg "hsv"); [apply scan_scores_length|].
  destruct (String.eqb alg "oklab"); [apply scan_scores_length|].
  destruct (_getLab rt labCache r g b) as [[[? ?] ?] ?]. apply scan_scores_length.
Qed.

Lemma findClosest_pick labCache r g b palette alg opts :
  palette <> [] ->
  fst (findClosestPaletteColor rt labCache r g b (Some palette) alg opts)
  = default (0, 0, 0)%Z
      (fst (fold_left pick_step
              (zip palette (palette_scores labCache r g b palette alg opts))
              (initial_best alg, Infinity))).
Proof.
  intros Hne. unfold findClosestPaletteColor, palette_scores, initial_best, scan_palette.
  destruct palette as [|p0 rest]; [congruence|].
  destruct (String.eqb alg "rgb").
  { rewrite scan_palette_fold. now destruct (fold_left pick_step _ _). }
  destruct (String.eqb alg "hsv").
  { rewrite scan_palette_fold. now destruct (fold_left pick_step _ _). }
  destruct (String.eqb alg "oklab").
  { rewrite scan_palette_fold. now destruct (fold_left pick_step _ _). }
  destruct (_getLab rt labCache r g b) as [[[L_t at_] bt] cache].
  rewrite scan_palette_fold. now destruct (fold_left pick_step _ _).
Qed.

Lemma In_zip_l {A B : Type} (l : list A) (k : list B) (a : A) (b : B) :
  In (a, b) (zip l k) -> In a l.
Proof.
  revert k. induction l as [|x l IH]; intros [|y k]; simpl; try tauto.
  intros [H|H]; [left; congruence|right; eauto].
Qed.

Lemma Exists_zip_r {A B : Type} (P : B -> Prop) (l : list A) (k : list B) :
  length l = length k -> Exists P k -> Exists (fun ab => P (snd ab)) (zip l k).
Proof.
  revert k. induction l as [|x l IH]; intros [|y k] Hlen Hex; simpl in *;
    try discriminate; inversion Hex; subst.
  - now left.
  - right. apply IH; [lia|assumption].
Qed.

(** With a proper score in sight the matcher answers with a palette entry. *)
Lemma findClosest_in_palette labCache r g b palette alg opts :
  has_proper_score labCache r g b palette alg opts = true ->
  In (fst (findClosestPaletteColor rt labCache r g b (Some palette) alg opts)) palette.
Proof.
  unfold has_proper_score. intros H. apply existsb_exists in H as (d & Hd & Hlt).
  assert (Hne : palette <> []).
  { intros ->. pose proof (palette_scores_length labCache r g b [] alg opts) as E.
    destruct (palette_scores _ _ _ _ _ _ _); [destruct Hd|discriminate]. }
  rewrite findClosest_pick by assumption.
  destruct (pick_hit (zip palette (palette_scores labCache r g b palette alg opts))
              (initial_best alg) Infinity) as (p & d' & Hp & Hin).
  { apply Exists_zip_r with (P := fun d => (d <? Infinity) = true).
    - now rewrite palette_scores_length.
    - apply Exists_exists. exists d. split; [now apply list_elem_of_In|exact Hlt]. }
  rewrite Hp. simpl. eapply In_zip_l; eauto.
Qed.

(** In any case the answer is an entry or the fallback [[0, 0, 0]]. *)
Lemma findClosest_in_or_black labCache r g b palette alg opts :
  let c := fst (findClosestPaletteColor rt labCache r g b (Some palette) alg opts) in
  In c palette \/ c = (0, 0, 0)%Z.
Proof.
  cbv zeta. destruct (decide (palette = [])) as [->|Hne]; [now right|].
  rewrite findClosest_pick by assumption.
  destruct (pick_mem (zip palette (palette_scores labCache r g b palette alg opts))
              (initial_best alg, Infinity)) as [H|(p & d & H & Hin)].
  - rewrite H. simpl. unfold initial_best. destruct (String.eqb alg "rgb"); now right.
  - rewrite H. simpl. left. eapply In_zip_l; eauto.
Qed.








End MatcherFacts.

(** ** The score of an exact entry, and the first lowest score *)

(** A colour whose channels are bytes. *)
Definition byte_rgb (c : rgb8) : Prop :=
  let '(r, g, b) := c in 0 <= r <= 255 /\ 0 <= g <= 255 /\ 0 <= b <= 255.

Section ExactScores.

Context (rt : Runtime).
#[local] Open Scope float_scope.
Import FloatOrder.







(** *** The legacy distance of a byte colour to itself *)





(** *** The other three distances *)












End ExactScores.

(** ** Claims about the matcher and its caches *)

Section MatcherClaims.

#[local] Open Scope float_scope.
Import FloatOrder.

Lemma rgb8_eqb_eq (c d : rgb8) : rgb8_eqb c d = true <-> c = d.
Proof.
  destruct c as [[r g] b], d as [[r' g'] b']. unfold rgb8_eqb.
  rewrite !andb_true_iff, !Z.eqb_eq. split.
  - intros [[-> ->] ->]. reflexivity.
  - intros [= -> -> ->]. auto.
Qed.



(** The call of the matcher on a byte colour, and the scores it computes. *)
Definition closest_to (rt : Runtime) (labCache : gmap Z triple) (t : rgb8)
    (palette : list rgb8) (alg : string) (opts : Options) : rgb8 * gmap Z triple :=
  findClosestPaletteColor rt labCache (of_Z (fst (fst t))) (of_Z (snd (fst t)))
    (of_Z (snd t)) (Some palette) alg opts.

Definition scores_for (rt : Runtime) (labCache : gmap Z triple) (t : rgb8)
    (palette : list rgb8) (alg : string) (opts : Options) : list float :=
  palette_scores rt labCache (of_Z (fst (fst t))) (of_Z (snd (fst t))) (of_Z (snd t))
    palette alg opts.







(** A tie: both greens are at the legacy distance 2 from the target, and
    the one that comes first in the palette is returned. *)
Lemma tie_goes_to_first_entry :
  scores_for RefEngine.runtime ∅ (10, 10, 10)%Z [(10, 11, 10); (10, 9, 10)]%Z "rgb"
    default_options = [2; 2]
  /\ fst (closest_to RefEngine.runtime ∅ (10, 10, 10)%Z [(10, 11, 10); (10, 9, 10)]%Z
            "rgb" default_options) = (10, 11, 10)%Z
  /\ fst (closest_to RefEngine.runtime ∅ (10, 10, 10)%Z [(10, 9, 10); (10, 11, 10)]%Z
            "rgb" default_options) = (10, 9, 10)%Z.
Proof. vm_compute. repeat split; reflexivity. Qed.

(** C3 (amended): on an empty or missing palette [findClosestPaletteColor]
    returns the fixed triple [[0, 0, 0]] and [resolveColor] returns the
    sentinel [{ id: null, rgb: targetRgb }]; both leave the caches alone. *)
Theorem C3_empty_palette_results :
  forall (rt : Runtime) (Number_toString : float -> string)
         (labCache : gmap Z triple) (st : Caches) (r g b : float) (targetRgb : rgb8)
         (alg : string) (opts : Options),
    findClosestPaletteColor rt labCache r g b None alg opts = ((0, 0, 0)%Z, labCache)
    /\ findClosestPaletteColor rt labCache r g b (Some []) alg opts
       = ((0, 0, 0)%Z, labCache)
    /\ resolveColor rt Number_toString st targetRgb None opts
       = ({| id := None; rgb := targetRgb |}, st)
    /\ resolveColor rt Number_toString st targetRgb (Some []) opts
       = ({| id := None; rgb := targetRgb |}, st).
Proof. intros. repeat split. Qed.

(** C3 (as stated, fails): for the target (10,20,30) and an empty palette
    [findClosestPaletteColor] answers (0,0,0), not an echo of the target. *)
Lemma C3_findClosest_returns_black_not_target :
  fst (findClosestPaletteColor RefEngine.runtime ∅ 10 20 30 (Some []) "lab"
         default_options) = (0, 0, 0)%Z
  /\ fst (findClosestPaletteColor RefEngine.runtime ∅ 10 20 30 None "lab"
            default_options) = (0, 0, 0)%Z
  /\ rgb8_eqb (0, 0, 0)%Z (10, 20, 30)%Z = false.
Proof. repeat split. Qed.

(** C9 (fails on the code): [_getLab] never clears or bounds [_labCache]:
    every miss adds one entry whatever the size; and the exact-match path of
    [resolveColor] stores its result and returns before the size check. *)
Theorem C9_caches_grow_past_any_cap :
  forall (rt : Runtime) (Number_toString : float -> string),
    (forall (labCache : gmap Z triple) (r g b : float),
        size (snd (_getLab rt labCache r g b))
        = if decide (is_Some (labCache !! lab_key r g b))
          then size labCache else S (size labCache))
    /\ (forall (st : Caches) (t : rgb8) (c0 : PaletteEntry) (colors : list PaletteEntry)
               (opts : Options),
           exactMatch opts = true ->
           _colorCache st !! cacheKey Number_toString t opts = None ->
           size (_colorCache (snd (resolveColor rt Number_toString st t
                                     (Some (c0 :: colors)) opts)))
           = S (size (_colorCache st))).
Proof.
  intros rt nts. split.
  - intros labCache r g b. unfold _getLab.
    destruct (decide (is_Some (labCache !! lab_key r g b))) as [[v Hv]|Hn].
    + now rewrite Hv.
    + destruct (labCache !! lab_key r g b) eqn:E; [exfalso; eauto|].
      cbn [snd]. now rewrite map_size_insert_None.
  - intros st t c0 colors opts Hex Hmiss. unfold resolveColor.
    rewrite Hmiss, Hex. simpl. now rewrite map_size_insert_None.
Qed.

End MatcherClaims.

(** ** Loops over a raster *)

Section Loops.

Lemma raster_order_S (h w : nat) :
  raster_order (S h) w = raster_order h w ++ map (pair h) (seq 0 w).
Proof.
  unfold raster_order. rewrite seq_S, flat_map_app. simpl. now rewrite app_nil_r.
Qed.

Lemma raster_order_In (h w y x : nat) :
  In (y, x) (raster_order h w) <-> (y < h /\ x < w)%nat.
Proof.
  unfold raster_order. rewrite in_flat_map. split.
  - intros (y' & Hy & Hx). apply in_seq in Hy. apply in_map_iff in Hx as (x' & [= <- <-] & Hx).
    apply in_seq in Hx. lia.
  - intros [Hy Hx]. exists y. split; [apply in_seq; lia|].
    apply in_map_iff. exists x. split; [reflexivity|apply in_seq; lia].
Qed.

Lemma map_add_seq (k s n : nat) :
  map (fun x => (k + x)%nat) (seq s n) = seq (k + s) n.
Proof.
  revert s. induction n as [|n IH]; intros s; simpl; [reflexivity|].
  f_equal. rewrite IH. f_equal. lia.
Qed.

(** The linear index [y * width + x] runs through [0 .. height * width). *)
Lemma raster_order_index (h w : nat) :
  map (fun yx => (fst yx * w + snd yx)%nat) (raster_order h w) = seq 0 (h * w).
Proof.
  induction h as [|h IH]; [reflexivity|].
  rewrite raster_order_S, map_app, IH, map_map. simpl.
  replace (w + h * w)%nat with (h * w + w)%nat by lia. rewrite seq_app. f_equal.
  simpl. rewrite (map_add_seq (h * w) 0 w). f_equal. lia.
Qed.

Lemma raster_order_NoDup (h w : nat) : NoDup (raster_order h w).
Proof.
  apply (NoDup_fmap_1 (fun yx : nat * nat => (fst yx * w + snd yx)%nat)).
  change (NoDup (map (fun yx => (fst yx * w + snd yx)%nat) (raster_order h w))).
  rewrite raster_order_index. apply NoDup_seq.
Qed.

(** Two cells of the raster with the same linear index are the same cell. *)
Lemma raster_index_inj (w y x y' x' : nat) :
  (x < w)%nat -> (x' < w)%nat -> (y * w + x = y' * w + x')%nat -> (y, x) = (y', x').
Proof.
  intros Hx Hx' E.
  assert (Hy : y = y').
  { destruct (Nat.lt_total y y') as [H|[H|H]]; [exfalso|assumption|exfalso].
    - pose proof (Nat.mul_le_mono_r (S y) y' w ltac:(lia)). simpl in *. lia.
    - pose proof (Nat.mul_le_mono_r (S y') y w ltac:(lia)). simpl in *. lia. }
  subst y'. f_equal. lia.
Qed.

(** Whether a check holds in the state before each step of a fold. *)
Fixpoint run_ok {A St : Type} (f : St -> A -> St) (ok : St -> A -> bool)
    (l : list A) (st : St) : bool :=
  match l with
  | [] => true
  | a :: l => ok st a && run_ok f ok l (f st a)
  end.

(** Induction along a fold: the invariant speaks of the elements already
    processed. *)
Lemma fold_left_run_ind {A St : Type} (f : St -> A -> St) (ok : St -> A -> bool)
    (P : list A -> St -> Prop) (l : list A) (st : St) :
  run_ok f ok l st = true ->
  P [] st ->
  (forall pre a post s, l = pre ++ a :: post -> ok s a = true -> P pre s ->
                        P (pre ++ [a]) (f s a)) ->
  P l (fold_left f l st).
Proof.
  intros Hok H0 Hstep.
  enough (G : forall rest pre s, l = pre ++ rest -> run_ok f ok rest s = true ->
                                 P pre s -> P (pre ++ rest) (fold_left f rest s)).
  { exact (G l [] st eq_refl Hok H0). }
  induction rest as [|a rest IH]; intros pre s El Hr Hp.
  - now rewrite app_nil_r.
  - simpl in *. apply andb_true_iff in Hr as [Ha Hr].
    replace (pre ++ a :: rest) with ((pre ++ [a]) ++ rest) by now rewrite <- app_assoc.
    apply IH; [now rewrite <- app_assoc|assumption|].
    eapply Hstep; eauto.
Qed.

Lemma run_ok_all {A St : Type} (f : St -> A -> St) (ok : St -> A -> bool)
    (l : list A) (st : St) :
  (forall s a, ok s a = true) -> run_ok f ok l st = true.
Proof.
  intros H. revert st. induction l as [|a l IH]; intros st; simpl; [reflexivity|].
  now rewrite H, IH.
Qed.

Lemma fold_left_ind {A St : Type} (f : St -> A -> St)
    (P : list A -> St -> Prop) (l : list A) (st : St) :
  P [] st ->
  (forall pre a post s, l = pre ++ a :: post -> P pre s -> P (pre ++ [a]) (f s a)) ->
  P l (fold_left f l st).
Proof.
  intros H0 Hstep. apply (fold_left_run_ind f (fun _ _ => true)).
  - clear. revert st. induction l as [|a l IH]; intros st; simpl; auto.
  - exact H0.
  - intros pre a post s El _ Hp. eapply Hstep; eauto.
Qed.

Lemma NoDup_app_cons_notin {A : Type} (pre post : list A) (a : A) :
  NoDup (pre ++ a :: post) -> ~ In a pre.
Proof.
  intros H Hin. apply NoDup_app in H as (_ & H & _).
  apply (H a); [now apply list_elem_of_In|]. left.
Qed.

End Loops.

(** ** Pixels of a byte raster *)

Section Pixels.

Definition alpha_at (d : list Z) (idx : nat) : Z := d !!! (idx * 4 + 3)%nat.

Definition rgb_at (d : list Z) (idx : nat) : rgb8 :=
  (d !!! (idx * 4)%nat, d !!! (idx * 4 + 1)%nat, d !!! (idx * 4 + 2)%nat).

(** A pixel of the output as C1 wants it: alpha 0 or 255, and a palette
    colour under alpha 255. *)
Definition quantized_pixel (palette : list rgb8) (d : list Z) (idx : nat) : Prop :=
  (alpha_at d idx = 0 \/ alpha_at d idx = 255)
  /\ (alpha_at d idx = 255 -> In (rgb_at d idx) palette).

(** [d'] differs from [d] at most in the four bytes of pixel [idx]. *)
Definition same_but_pixel (idx : nat) (d d' : list Z) : Prop :=
  length d' = length d
  /\ forall j : nat, (j < idx * 4 \/ idx * 4 + 3 < j)%nat -> d' !!! j = d !!! j.

Lemma clamp8_byte (z : Z) : 0 <= z <= 255 -> clamp8 z = z.
Proof. unfold clamp8. lia. Qed.

Lemma clamp8_range (z : Z) : 0 <= clamp8 z <= 255.
Proof. unfold clamp8. lia. Qed.

Lemma same_but_pixel_refl idx d : same_but_pixel idx d d.
Proof. split; auto. Qed.

Lemma same_but_pixel_alpha idx d (v : Z) :
  same_but_pixel idx d (<[(idx * 4 + 3)%nat := v]> d).
Proof.
  split; [apply length_insert|]. intros j Hj.
  apply list_lookup_total_insert_ne. lia.
Qed.

Lemma same_but_pixel_put idx d r g b a :
  same_but_pixel idx d (put_pixel d (idx * 4) r g b a).
Proof.
  unfold put_pixel. split; [now rewrite !length_insert|]. intros j Hj.
  rewrite !list_lookup_total_insert_ne by lia. reflexivity.
Qed.

Lemma same_but_pixel_quantized palette idx j d d' :
  idx <> j -> same_but_pixel idx d d' ->
  quantized_pixel palette d j -> quantized_pixel palette d' j.
Proof.
  intros Hne [_ Hsame]. unfold quantized_pixel, alpha_at, rgb_at.
  rewrite !Hsame by lia. auto.
Qed.

Lemma put_pixel_alpha idx d r g b a :
  (idx * 4 + 3 < length d)%nat ->
  alpha_at (put_pixel d (idx * 4) r g b a) idx = clamp8 a.
Proof.
  intros H. unfold alpha_at, put_pixel.
  apply list_lookup_total_insert_eq. now rewrite !length_insert.
Qed.

Lemma put_pixel_rgb idx d r g b a :
  (idx * 4 + 3 < length d)%nat ->
  rgb_at (put_pixel d (idx * 4) r g b a) idx = (clamp8 r, clamp8 g, clamp8 b).
Proof.
  intros H. unfold rgb_at, put_pixel. f_equal; [f_equal|].
  - rewrite !list_lookup_total_insert_ne by lia. apply list_lookup_total_insert_eq. lia.
  - rewrite !list_lookup_total_insert_ne by lia.
    apply list_lookup_total_insert_eq. rewrite length_insert. lia.
  - rewrite !list_lookup_total_insert_ne by lia.
    apply list_lookup_total_insert_eq. rewrite !length_insert. lia.
Qed.

Lemma quantized_transparent palette idx d r g b :
  (idx * 4 + 3 < length d)%nat ->
  quantized_pixel palette (put_pixel d (idx * 4) r g b 0) idx.
Proof.
  intros H. unfold quantized_pixel. rewrite put_pixel_alpha by assumption.
  split; [now left|discriminate].
Qed.

Lemma quantized_alpha_zero palette idx d :
  (idx * 4 + 3 < length d)%nat ->
  quantized_pixel palette (<[(idx * 4 + 3)%nat := 0]> d) idx.
Proof.
  intros H. unfold quantized_pixel, alpha_at.
  rewrite list_lookup_total_insert_eq by assumption. split; [now left|discriminate].
Qed.

Lemma quantized_painted palette idx d (c : rgb8) :
  (idx * 4 + 3 < length d)%nat -> In c palette -> Forall byte_rgb palette ->
  quantized_pixel palette (put_pixel d (idx * 4) (fst (fst c)) (snd (fst c)) (snd c) 255) idx.
Proof.
  intros H Hin Hb. unfold quantized_pixel.
  rewrite put_pixel_alpha, put_pixel_rgb by assumption.
  split; [now right|intros _].
  apply Forall_forall with (x := c) in Hb; [|now apply list_elem_of_In].
  destruct c as [[r g] b]. simpl in *.
  now rewrite !clamp8_byte by tauto.
Qed.

End Pixels.

(** ** The quantizers write quantized pixels *)

Section QuantizedOutput.

Context (rt : Runtime).
Context (palette : list rgb8) (opts : Options).

(** [proper] is a check of the arguments of a matcher call, and [allowed]
    holds the colours that a call passing the check answers with. *)
Context (proper : gmap Z triple -> float -> float -> float -> bool).
Context (allowed : list rgb8).
Hypothesis allowed_bytes : Forall byte_rgb allowed.
Hypothesis proper_allowed :
  forall (labCache : gmap Z triple) (r g b : float),
    proper labCache r g b = true ->
    In (fst (findClosestPaletteColor rt labCache r g b (Some palette) (algorithm opts) opts))
      allowed.

(** Whether the matcher call of the pixel with index [k], if the pixel gets
    that far, passes the check. *)
Definition sq_ok (st : SQState) (k : nat) : bool :=
  let i := (k * 4)%nat in
  let d := sq_data st in
  let r := d !!! i in let g := d !!! (i + 1)%nat in
  let b := d !!! (i + 2)%nat in let a := d !!! (i + 3)%nat in
  let isTransparent := a <? transparencyThreshold opts in
  let el :=
    (paintTransparentPixels opts || negb isTransparent)
    && (paintWhitePixels opts || negb (isWhitePixel r g b (whiteThreshold opts))) in
  negb el || (paintTransparentPixels opts && isTransparent)
  || proper (sq_labCache st) (of_Z r) (of_Z g) (of_Z b).

Definition sq_checked (labCache : gmap Z triple) (imageData : list Z) : bool :=
  let d := Uint8ClampedArray_from imageData in
  run_ok (sq_body rt opts palette) sq_ok (seq 0 ((length d + 3) / 4))
    {| sq_data := d; sq_totalValid := 0; sq_labCache := labCache |}.

Lemma closest_painted (labCache : gmap Z triple) (r g b : float) (idx : nat)
    (d : list Z) (nr ng nb : Z) (c : gmap Z triple) :
  (idx * 4 + 3 < length d)%nat ->
  proper labCache r g b = true ->
  findClosestPaletteColor rt labCache r g b (Some palette) (algorithm opts) opts
  = ((nr, ng, nb), c) ->
  quantized_pixel allowed (put_pixel d (idx * 4) nr ng nb 255) idx.
Proof.
  intros Hlen Hok E.
  pose proof (proper_allowed labCache r g b Hok) as Hin.
  rewrite E in Hin. simpl in Hin.
  exact (quantized_painted allowed idx d (nr, ng, nb) Hlen Hin allowed_bytes).
Qed.

Lemma sq_step (st : SQState) (k : nat) :
  (k * 4 + 3 < length (sq_data st))%nat ->
  sq_ok st k = true ->
  same_but_pixel k (sq_data st) (sq_data (sq_body rt opts palette st k))
  /\ quantized_pixel allowed (sq_data (sq_body rt opts palette st k)) k.
Proof.
  intros Hlen Hok. unfold sq_body, sq_ok in *.
  set (d := sq_data st) in *.
  set (r := d !!! (k * 4)%nat) in *. set (g := d !!! (k * 4 + 1)%nat) in *.
  set (b := d !!! (k * 4 + 2)%nat) in *. set (a := d !!! (k * 4 + 3)%nat) in *.
  destruct ((paintTransparentPixels opts || negb (a <? transparencyThreshold opts))
            && (paintWhitePixels opts || negb (isWhitePixel r g b (whiteThreshold opts)))).
  2:{ simpl. split; [apply same_but_pixel_alpha|now apply quantized_alpha_zero]. }
  simpl in *.
  destruct (paintTransparentPixels opts && (a <? transparencyThreshold opts)).
  { simpl. split; [apply same_but_pixel_put|now apply quantized_transparent]. }
  simpl in Hok.
  destruct (findClosestPaletteColor rt (sq_labCache st) (of_Z r) (of_Z g) (of_Z b)
              (Some palette) (algorithm opts) opts) as [[[nr ng] nb] c] eqn:E.
  simpl. split; [apply same_but_pixel_put|]. eapply closest_painted; eauto.
Qed.

Lemma sq_fold_quantized (n : nat) (st0 : SQState) :
  length (sq_data st0) = (n * 4)%nat ->
  run_ok (sq_body rt opts palette) sq_ok (seq 0 n) st0 = true ->
  forall idx : nat, (idx < n)%nat ->
    quantized_pixel allowed (sq_data (fold_left (sq_body rt opts palette) (seq 0 n) st0)) idx.
Proof.
  intros Hd0 Hok.
  pose proof (fold_left_run_ind (sq_body rt opts palette) sq_ok
                (fun pre st => length (sq_data st) = (n * 4)%nat
                               /\ forall j, In j pre -> quantized_pixel allowed (sq_data st) j)
                (seq 0 n) st0 Hok) as Hind.
  destruct Hind as [_ Hall].
  - split; [exact Hd0|intros j []].
  - intros pre a post s El Ha [Hl Hq].
    assert (Hal : (a < n)%nat).
    { assert (In a (seq 0 n)) by (rewrite El; apply in_or_app; right; now left).
      apply in_seq in H. lia. }
    assert (Hnd : ~ In a pre).
    { apply (NoDup_app_cons_notin pre post). rewrite <- El. apply NoDup_seq. }
    destruct (sq_step s a ltac:(lia) Ha) as [Hsame Hqa].
    split; [destruct Hsame as [-> _]; exact Hl|].
    intros j Hj. apply in_app_or in Hj as [Hj|[<-|[]]]; [|exact Hqa].
    eapply same_but_pixel_quantized; [|exact Hsame|now apply Hq].
    intros ->. contradiction.
  - intros idx Hidx. apply Hall. apply in_seq. lia.
Qed.

Lemma clamped_length (imageData : list Z) :
  length (Uint8ClampedArray_from imageData) = length imageData.
Proof. unfold Uint8ClampedArray_from. apply length_map. Qed.

Lemma div4_pixels (n : nat) : ((n * 4 + 3) / 4 = n)%nat.
Proof. symmetry. apply (Nat.div_unique _ 4 n 3); lia. Qed.

Lemma sq_quantized (labCache : gmap Z triple) (imageData : list Z) (width height : nat) :
  length imageData = (width * height * 4)%nat ->
  sq_checked labCache imageData = true ->
  forall idx : nat, (idx < width * height)%nat ->
    quantized_pixel allowed
      (data (fst (applySimpleQuantization rt labCache imageData width height palette opts)))
      idx.
Proof.
  intros Hlen Hok. unfold applySimpleQuantization, sq_checked in *.
  cbn [fst data]. rewrite clamped_length, Hlen, div4_pixels in *.
  apply sq_fold_quantized; [|exact Hok].
  cbn [sq_data]. now rewrite clamped_length.
Qed.

(** *** Ordered dithering *)

Definition od_ok (method : string) (strength : float) (width : nat)
    (ost : option ODState) (yx : nat * nat) : bool :=
  match ost with
  | None => true
  | Some st =>
      let i := ((fst yx * width + snd yx) * 4)%nat in
      let d := od_data st in
      let r := d !!! i in let g := d !!! (i + 1)%nat in
      let b := d !!! (i + 2)%nat in let a := d !!! (i + 3)%nat in
      let isTransparent := a <? transparencyThreshold opts in
      let el :=
        (paintTransparentPixels opts || negb isTransparent)
        && (paintWhitePixels opts || negb (isWhitePixel r g b (whiteThreshold opts))) in
      negb el || (paintTransparentPixels opts && isTransparent)
      || match ordered_threshold rt method (_getBayerMatrix method) (od_draws st)
                 (fst yx) (snd yx) with
         | None => true
         | Some threshold =>
             let noise := ((threshold - 0.5) * 64 * strength)%float in
             proper (od_labCache st)
               (Math_max 0 (Math_min 255 (of_Z r + noise)))
               (Math_max 0 (Math_min 255 (of_Z g + noise)))
               (Math_max 0 (Math_min 255 (of_Z b + noise)))
         end
  end.

Definition od_checked (labCache : gmap Z triple) (imageData : list Z)
    (width height : nat) (method : string) (strength : float) : bool :=
  run_ok (fun ost yx => od_body rt opts palette method strength width ost (fst yx) (snd yx))
    (od_ok method strength width) (raster_order height width)
    (Some {| od_data := Uint8ClampedArray_from imageData; od_totalValid := 0;
             od_labCache := labCache; od_draws := 0 |}).

Lemma od_step (method : string) (strength : float) (width : nat) (st st' : ODState)
    (y x : nat) :
  ((y * width + x) * 4 + 3 < length (od_data st))%nat ->
  od_ok method strength width (Some st) (y, x) = true ->
  od_body rt opts palette method strength width (Some st) y x = Some st' ->
  same_but_pixel (y * width + x) (od_data st) (od_data st')
  /\ quantized_pixel allowed (od_data st') (y * width + x).
Proof.
  intros Hlen Hok. unfold od_body, od_ok in *. cbn [fst snd] in Hok.
  set (idx := (y * width + x)%nat) in *.
  set (d := od_data st) in *.
  set (r := d !!! (idx * 4)%nat) in *. set (g := d !!! (idx * 4 + 1)%nat) in *.
  set (b := d !!! (idx * 4 + 2)%nat) in *. set (a := d !!! (idx * 4 + 3)%nat) in *.
  destruct ((paintTransparentPixels opts || negb (a <? transparencyThreshold opts))
            && (paintWhitePixels opts || negb (isWhitePixel r g b (whiteThreshold opts)))).
  2:{ cbn [negb]. intros [= <-]. cbn [od_data].
      split; [apply same_but_pixel_alpha|now apply quantized_alpha_zero]. }
  cbn [negb orb] in *.
  destruct (paintTransparentPixels opts && (a <? transparencyThreshold opts)).
  { intros [= <-]. cbn [od_data].
    split; [apply same_but_pixel_put|now apply quantized_transparent]. }
  cbn [orb] in Hok.
  destruct (ordered_threshold rt method (_getBayerMatrix method) (od_draws st) y x)
    as [threshold|]; [|discriminate].
  destruct (findClosestPaletteColor rt (od_labCache st) _ _ _ (Some palette)
              (algorithm opts) opts) as [[[pr pg] pb] c] eqn:E.
  intros [= <-]. cbn [od_data].
  split; [apply same_but_pixel_put|]. eapply closest_painted; eauto.
Qed.

Lemma raster_cell_bound (height width : nat) (yx : nat * nat) :
  In yx (raster_order height width) -> (fst yx * width + snd yx < width * height)%nat.
Proof.
  destruct yx as [y x]. rewrite raster_order_In. cbn [fst snd]. intros [Hy Hx]. nia.
Qed.

Lemma raster_cell_of_index (height width idx : nat) :
  (idx < width * height)%nat ->
  exists yx, In yx (raster_order height width) /\ (fst yx * width + snd yx)%nat = idx.
Proof.
  intros H. assert (Hin : In idx (seq 0 (height * width))) by (apply in_seq; lia).
  rewrite <- raster_order_index in Hin. apply in_map_iff in Hin as (yx & E & Hin). eauto.
Qed.

Lemma raster_distinct_index (height width : nat) (pre post : list (nat * nat))
    (a yx : nat * nat) :
  raster_order height width = pre ++ a :: post -> In yx pre ->
  (fst a * width + snd a)%nat <> (fst yx * width + snd yx)%nat.
Proof.
  intros El Hin E.
  assert (Ha : In a (raster_order height width)) by (rewrite El; apply in_or_app; right; now left).
  assert (Hy : In yx (raster_order height width)) by (rewrite El; apply in_or_app; now left).
  destruct a as [y x], yx as [y' x']. apply raster_order_In in Ha, Hy. cbn [fst snd] in E.
  assert (Heq : (y, x) = (y', x')) by (apply (raster_index_inj width); lia).
  apply (NoDup_app_cons_notin pre post (y, x)).
  - rewrite <- El. apply raster_order_NoDup.
  - now rewrite Heq.
Qed.

Lemma od_quantized (labCache : gmap Z triple) (imageData : list Z) (width height : nat)
    (method : string) (strength : float) (out : Quantized * gmap Z triple) :
  length imageData = (width * height * 4)%nat ->
  od_checked labCache imageData width height method strength = true ->
  _applyOrderedDither rt labCache imageData width height palette method strength opts
  = Some out ->
  forall idx : nat, (idx < width * height)%nat ->
    quantized_pixel allowed (data (fst out)) idx.
Proof.
  intros Hlen Hok. unfold _applyOrderedDither, od_checked, for_yx in *.
  set (n := (width * height)%nat) in *.
  set (ost0 := Some {| od_data := Uint8ClampedArray_from imageData; od_totalValid := 0;
                       od_labCache := labCache; od_draws := 0 |}) in *.
  pose proof (fold_left_run_ind
                (fun ost yx => od_body rt opts palette method strength width ost (fst yx) (snd yx))
                (od_ok method strength width)
                (fun pre ost => forall st, ost = Some st ->
                   length (od_data st) = (n * 4)%nat
                   /\ forall yx, In yx pre ->
                        quantized_pixel allowed (od_data st) (fst yx * width + snd yx))
                (raster_order height width) ost0 Hok) as Hind.
  match type of Hind with ?A -> ?B -> ?C => assert (HC : C) end.
  { apply Hind; clear Hind.
    - intros st [= <-]. cbn [od_data]. rewrite clamped_length. split; [exact Hlen|intros ? []].
    - intros pre a post s El Ha Hp st' Est'.
      destruct s as [st|]; [|discriminate].
      destruct (Hp st eq_refl) as [Hl Hq].
      assert (Hb : (fst a * width + snd a < n)%nat).
      { apply (raster_cell_bound height). rewrite El. apply in_or_app. right. now left. }
      destruct a as [y x]. cbn [fst snd] in *.
      destruct (od_step method strength width st st' y x ltac:(lia) Ha Est') as [Hsame Hqa].
      split; [destruct Hsame as [-> _]; exact Hl|].
      intros yx Hyx. apply in_app_or in Hyx as [Hyx|[<-|[]]]; [|exact Hqa].
      eapply same_but_pixel_quantized; [|exact Hsame|now apply Hq].
      exact (raster_distinct_index height width pre post (y, x) yx El Hyx). }
  clear Hind. intros Eout idx Hidx.
  destruct (fold_left _ (raster_order height width) ost0) as [st|] eqn:Ef; [|discriminate].
  injection Eout as <-. cbn [fst data].
  destruct (HC st eq_refl) as [_ Hq].
  destruct (raster_cell_of_index height width idx Hidx) as (yx & Hin & <-).
  now apply Hq.
Qed.

(** *** Error diffusion *)

Definition ed_ok (width : nat) (ost : option EDState) (yx : nat * nat) : bool :=
  match ost with
  | None => true
  | Some st =>
      let idx := (fst yx * width + snd yx)%nat in
      let base := (idx * 3)%nat in
      let w := ed_work st in
      negb (ed_eligible st !!! idx)
      || (paintTransparentPixels opts
          && read_ltb (ed_data st !! (idx * 4 + 3)%nat) (transparencyThreshold opts))
      || proper (ed_labCache st) (w !!! base) (w !!! (base + 1)%nat) (w !!! (base + 2)%nat)
  end.

Definition ed_checked (labCache : gmap Z triple) (imageData : list Z)
    (width height : nat) (method : string) : bool :=
  run_ok (fun ost yx => ed_body rt opts palette (_getDitherKernel method) width height ost
                          (fst yx) (snd yx))
    (ed_ok width) (raster_order height width)
    (Some (ed_init rt labCache imageData width height opts)).

(** After the init loop: the buffers have their sizes and every ineligible
    pixel has alpha 0. *)
Lemma ed_init_spec (labCache : gmap Z triple) (imageData : list Z) (width height : nat) :
  length imageData = (width * height * 4)%nat ->
  let st := ed_init rt labCache imageData width height opts in
  length (ed_data st) = (width * height * 4)%nat
  /\ length (ed_eligible st) = (width * height)%nat
  /\ forall idx : nat, (idx < width * height)%nat ->
       ed_eligible st !!! idx = false -> alpha_at (ed_data st) idx = 0.
Proof.
  intros Hlen. cbv zeta. unfold ed_init, for_yx.
  set (n := (width * height)%nat) in *.
  set (st0 := {| ed_data := Uint8ClampedArray_from imageData;
                 ed_work := replicate (n * 3) 0%float;
                 ed_eligible := replicate n false;
                 ed_totalValid := 0; ed_labCache := labCache |}).
  pose proof (fold_left_ind
                (fun st yx => ed_init_body rt opts width st (fst yx) (snd yx))
                (fun pre st =>
                   length (ed_data st) = (n * 4)%nat
                   /\ length (ed_eligible st) = n
                   /\ forall yx, In yx pre ->
                        ed_eligible st !!! (fst yx * width + snd yx)%nat = false ->
                        alpha_at (ed_data st) (fst yx * width + snd yx) = 0)
                (raster_order height width) st0) as Hind.
  destruct Hind as (Hl & He & Hz).
  - cbn [ed_data ed_eligible st0]. rewrite clamped_length, length_replicate.
    repeat split; auto. intros ? [].
  - intros pre a post s El (Hl & He & Hz).
    assert (Hb : (fst a * width + snd a < n)%nat).
    { apply (raster_cell_bound height). rewrite El. apply in_or_app. right. now left. }
    unfold ed_init_body. cbv zeta. cbn [ed_data ed_eligible].
    set (idx := (fst a * width + snd a)%nat) in *.
    set (el := (_ || _) && (_ || _)).
    split; [destruct el; [exact Hl|now rewrite length_insert]|].
    split; [now rewrite length_insert|].
    intros yx Hyx. apply in_app_or in Hyx as [Hyx|[<-|[]]].
    + pose proof (raster_distinct_index height width pre post a yx El Hyx) as Hne.
      fold idx in Hne. rewrite list_lookup_total_insert_ne by exact Hne.
      intros Hf. specialize (Hz yx Hyx Hf).
      destruct el; [exact Hz|]. unfold alpha_at in *.
      rewrite list_lookup_total_insert_ne by lia. exact Hz.
    + fold idx. rewrite list_lookup_total_insert_eq by lia. intros ->.
      unfold alpha_at. apply list_lookup_total_insert_eq. lia.
  - repeat split; auto. intros idx Hidx.
    destruct (raster_cell_of_index height width idx Hidx) as (yx & Hin & <-).
    now apply Hz.
Qed.

Lemma ed_step (kernel : option Kernel) (width height : nat) (st st' : EDState)
    (y x : nat) :
  ((y * width + x) * 4 + 3 < length (ed_data st))%nat ->
  ed_ok width (Some st) (y, x) = true ->
  ed_body rt opts palette kernel width height (Some st) y x = Some st' ->
  ed_eligible st' = ed_eligible st
  /\ same_but_pixel (y * width + x) (ed_data st) (ed_data st')
  /\ (ed_eligible st !!! (y * width + x)%nat = false -> st' = st)
  /\ (ed_eligible st !!! (y * width + x)%nat = true ->
      quantized_pixel allowed (ed_data st') (y * width + x)).
Proof.
  intros Hlen Hok. unfold ed_body, ed_ok in *. cbn [fst snd] in Hok. cbv zeta.
  set (idx := (y * width + x)%nat) in *.
  destruct (ed_eligible st !!! idx) eqn:Eel; cbn [negb orb] in *.
  2:{ intros [= <-]. split; [reflexivity|]. split; [apply same_but_pixel_refl|].
      split; [reflexivity|discriminate]. }
  destruct (paintTransparentPixels opts
            && read_ltb (ed_data st !! (idx * 4 + 3)%nat) (transparencyThreshold opts)).
  { intros [= <-]. cbn [ed_data ed_eligible]. split; [reflexivity|].
    split; [apply same_but_pixel_put|]. split; [discriminate|].
    intros _; now apply quantized_transparent. }
  cbn [orb] in Hok.
  destruct (findClosestPaletteColor rt (ed_labCache st) _ _ _ (Some palette)
              (algorithm opts) opts) as [[[nr ng] nb] c] eqn:E.
  destruct kernel as [kernel|]; [|discriminate].
  intros [= <-]. cbn [ed_data ed_eligible]. split; [reflexivity|].
  split; [apply same_but_pixel_put|]. split; [discriminate|intros _].
  eapply closest_painted; eauto.
Qed.

Lemma ed_quantized (labCache : gmap Z triple) (imageData : list Z) (width height : nat)
    (method : string) (out : Quantized * gmap Z triple) :
  length imageData = (width * height * 4)%nat ->
  ed_checked labCache imageData width height method = true ->
  _applyErrorDiffusion rt labCache imageData width height palette method opts = Some out ->
  forall idx : nat, (idx < width * height)%nat ->
    quantized_pixel allowed (data (fst out)) idx.
Proof.
  intros Hlen Hok. unfold _applyErrorDiffusion, ed_checked, for_yx in *.
  destruct (ed_init_spec labCache imageData width height Hlen) as (Hl1 & He1 & Hz1).
  set (st1 := ed_init rt labCache imageData width height opts) in *.
  set (n := (width * height)%nat) in *.
  set (kernel := _getDitherKernel method) in *.
  pose proof (fold_left_run_ind
                (fun ost yx => ed_body rt opts palette kernel width height ost
                                 (fst yx) (snd yx))
                (ed_ok width)
                (fun pre ost => forall st, ost = Some st ->
                   length (ed_data st) = (n * 4)%nat
                   /\ ed_eligible st = ed_eligible st1
                   /\ (forall idx, (idx < n)%nat -> ed_eligible st1 !!! idx = false ->
                                   alpha_at (ed_data st) idx = 0)
                   /\ forall yx, In yx pre ->
                        ed_eligible st1 !!! (fst yx * width + snd yx)%nat = true ->
                        quantized_pixel allowed (ed_data st) (fst yx * width + snd yx))
                (raster_order height width) (Some st1) Hok) as Hind.
  match type of Hind with ?A -> ?B -> ?C => assert (HC : C) end.
  { apply Hind; clear Hind.
    - intros st [= <-]. split; [exact Hl1|]. split; [reflexivity|].
      split; [exact Hz1|]. intros ? [].
    - intros pre a post s El Ha Hp st' Est'.
      destruct s as [st|]; [|discriminate].
      destruct (Hp st eq_refl) as (Hl & He & Hz & Hq).
      assert (Hb : (fst a * width + snd a < n)%nat).
      { apply (raster_cell_bound height). rewrite El. apply in_or_app. right. now left. }
      destruct a as [y x]. cbn [fst snd] in *.
      destruct (ed_step kernel width height st st' y x ltac:(lia) Ha Est')
        as (He' & Hsame & Hskip & Hqa).
      split; [destruct Hsame as [-> _]; exact Hl|].
      split; [now rewrite He'|]. split.
      + intros idx Hidx Hf. destruct (decide (idx = (y * width + x)%nat)) as [->|Hne].
        * (* the current pixel is not eligible: the body leaves the state alone *)
          rewrite Hskip by (now rewrite He). now apply Hz.
        * destruct Hsame as [_ Hsame]. unfold alpha_at. rewrite Hsame by lia. now apply Hz.
      + intros yx Hyx Hel. apply in_app_or in Hyx as [Hyx|[<-|[]]].
        * eapply same_but_pixel_quantized; [|exact Hsame|now apply Hq].
          exact (raster_distinct_index height width pre post (y, x) yx El Hyx).
        * cbn [fst snd] in *. apply Hqa. now rewrite He. }
  clear Hind. intros Eout idx Hidx.
  destruct (fold_left _ (raster_order height width) (Some st1)) as [st|] eqn:Ef;
    [|discriminate].
  injection Eout as <-. cbn [fst data].
  destruct (HC st eq_refl) as (Hl & He & Hz & Hq).
  destruct (raster_cell_of_index height width idx Hidx) as (yx & Hin & E).
  destruct (ed_eligible st1 !!! idx) eqn:Eel.
  - rewrite <- E. apply Hq; [exact Hin|now rewrite E].
  - unfold quantized_pixel. rewrite (Hz idx Hidx Eel). split; [now left|discriminate].
Qed.

End QuantizedOutput.

(** The check that some palette entry scores below [Infinity], made of every
    call of the matcher in a run of each quantizer. *)
Definition finite_score (rt : Runtime) (palette : list rgb8) (opts : Options)
    (labCache : gmap Z triple) (r g b : float) : bool :=
  has_proper_score rt labCache r g b palette (algorithm opts) opts.

Definition sq_scores_proper (rt : Runtime) (palette : list rgb8) (opts : Options)
  : gmap Z triple -> list Z -> bool :=
  sq_checked rt palette opts (finite_score rt palette opts).

Definition od_scores_proper (rt : Runtime) (palette : list rgb8) (opts : Options)
  : gmap Z triple -> list Z -> nat -> nat -> string -> float -> bool :=
  od_checked rt palette opts (finite_score rt palette opts).

Definition ed_scores_proper (rt : Runtime) (palette : list rgb8) (opts : Options)
  : gmap Z triple -> list Z -> nat -> nat -> string -> bool :=
  ed_checked rt palette opts (finite_score rt palette opts).

Section QuantizedOrBlack.

Context (rt : Runtime) (palette : list rgb8) (opts : Options).
Hypothesis palette_bytes : Forall byte_rgb palette.

Definition any_score (labCache : gmap Z triple) (r g b : float) : bool := true.

Lemma black_or_bytes : Forall byte_rgb ((0, 0, 0) :: palette).
Proof. apply Forall_cons. split; [simpl; lia|exact palette_bytes]. Qed.

Lemma any_score_black_or (labCache : gmap Z triple) (r g b : float) :
  any_score labCache r g b = true ->
  In (fst (findClosestPaletteColor rt labCache r g b (Some palette) (algorithm opts) opts))
    ((0, 0, 0) :: palette).
Proof.
  intros _.
  destruct (findClosest_in_or_black rt labCache r g b palette (algorithm opts) opts)
    as [H| ->]; [now right|now left].
Qed.

Lemma finite_score_palette (labCache : gmap Z triple) (r g b : float) :
  finite_score rt palette opts labCache r g b = true ->
  In (fst (findClosestPaletteColor rt labCache r g b (Some palette) (algorithm opts) opts))
    palette.
Proof. apply findClosest_in_palette. Qed.

Lemma sq_any_checked labCache imageData :
  sq_checked rt palette opts any_score labCache imageData = true.
Proof.
  apply run_ok_all. intros s a. unfold sq_ok, any_score. now rewrite orb_true_r.
Qed.

Lemma od_any_checked labCache imageData width height method strength :
  od_checked rt palette opts any_score labCache imageData width height method strength
  = true.
Proof.
  apply run_ok_all. intros [s|] a; [|reflexivity]. unfold od_ok, any_score. cbv zeta.
  destruct (ordered_threshold _ _ _ _ _ _); now rewrite orb_true_r.
Qed.

Lemma ed_any_checked labCache imageData width height method :
  ed_checked rt palette opts any_score labCache imageData width height method = true.
Proof.
  apply run_ok_all. intros [s|] a; [|reflexivity]. unfold ed_ok, any_score.
  now rewrite orb_true_r.
Qed.

End QuantizedOrBlack.

(** C1 (amended): on a raster of [width * height * 4] bytes and a palette
    of byte colours, every pixel that one of the three quantizers returns
    has alpha 0 or 255, and under alpha 255 it carries the colour of a
    palette entry or the matcher's fallback (0, 0, 0).  It is a palette
    entry in the run of a quantizer in which every call of the matcher found
    an entry scoring below [Infinity].  Error diffusion and ordered
    dithering are spoken of when they return. *)
Theorem C1_outputs_are_palette_or_black :
  forall (rt : Runtime) (labCache : gmap Z triple) (imageData : list Z)
         (width height : nat) (palette : list rgb8) (ed_method od_method : string)
         (strength : float) (opts : Options),
    Forall byte_rgb palette ->
    length imageData = (width * height * 4)%nat ->
    forall idx : nat, (idx < width * height)%nat ->
      (quantized_pixel ((0, 0, 0) :: palette)
         (data (fst (applySimpleQuantization rt labCache imageData width height palette opts)))
         idx
       /\ (sq_scores_proper rt palette opts labCache imageData = true ->
           quantized_pixel palette
             (data (fst (applySimpleQuantization rt labCache imageData width height palette
                           opts)))
             idx))
      /\ (forall out : Quantized * gmap Z triple,
            _applyErrorDiffusion rt labCache imageData width height palette ed_method opts
            = Some out ->
            quantized_pixel ((0, 0, 0) :: palette) (data (fst out)) idx
            /\ (ed_scores_proper rt palette opts labCache imageData width height ed_method
                = true ->
                quantized_pixel palette (data (fst out)) idx))
      /\ (forall out : Quantized * gmap Z triple,
            _applyOrderedDither rt labCache imageData width height palette od_method
              strength opts = Some out ->
            quantized_pixel ((0, 0, 0) :: palette) (data (fst out)) idx
            /\ (od_scores_proper rt palette opts labCache imageData width height od_method
                  strength = true ->
                quantized_pixel palette (data (fst out)) idx)).
Proof.
  intros rt labCache imageData width height palette ed_method od_method strength opts
    Hbytes Hlen idx Hidx.
  pose proof (black_or_bytes palette Hbytes) as Hbb.
  pose proof (any_score_black_or rt palette opts) as Hany.
  pose proof (finite_score_palette rt palette opts) as Hfin.
  split; [|split].
  - split.
    + apply (sq_quantized rt palette opts any_score _ Hbb Hany labCache imageData width
               height Hlen); [apply sq_any_checked|exact Hidx].
    + intros Hok.
      now apply (sq_quantized rt palette opts (finite_score rt palette opts) _ Hbytes Hfin
                   labCache imageData width height Hlen).
  - intros out Hout. split.
    + apply (ed_quantized rt palette opts any_score _ Hbb Hany labCache imageData width
               height ed_method out Hlen); [apply ed_any_checked|exact Hout|exact Hidx].
    + intros Hok.
      now apply (ed_quantized rt palette opts (finite_score rt palette opts) _ Hbytes Hfin
                   labCache imageData width height ed_method out Hlen).
  - intros out Hout. split.
    + apply (od_quantized rt palette opts any_score _ Hbb Hany labCache imageData width
               height od_method strength out Hlen);
        [apply od_any_checked|exact Hout|exact Hidx].
    + intros Hok.
      now apply (od_quantized rt palette opts (finite_score rt palette opts) _ Hbytes Hfin
                   labCache imageData width height od_method strength out Hlen).
Qed.

(** A 2 x 2 raster (mid grey, white, a transparent pixel, dark grey) against
    black and white. *)
Definition sample_raster : list Z :=
  [128; 128; 128; 255;  250; 250; 250; 255;  9; 9; 9; 0;  40; 40; 40; 200].

Definition black_white : list rgb8 := [(0, 0, 0); (255, 255, 255)].

Definition sample_diffused : option (Quantized * gmap Z triple) :=
  _applyErrorDiffusion RefEngine.runtime ∅ sample_raster 2 2 black_white "floyd"
    default_options.

Lemma C1_outputs_are_palette_or_black_witness :
  match sample_diffused with
  | Some out => quantized_pixel black_white (data (fst out)) 3
  | None => False
  end.
Proof.
  destruct sample_diffused as [out|] eqn:E; [|vm_compute in E; discriminate].
  refine (proj2 (proj1 (proj2 (C1_outputs_are_palette_or_black RefEngine.runtime ∅
                                 sample_raster 2 2 black_white "floyd" "bayer4" 1
                                 default_options _ _ 3%nat _)) out E) _).
  - repeat constructor; simpl; lia.
  - reflexivity.
  - lia.
  - vm_compute. reflexivity.
Defined.

(** A saturated red and a mid grey, against a palette of that grey, with a
    chroma penalty too large for binary64. *)
Definition red_and_grey : list Z := [255; 0; 0; 255;  128; 128; 128; 255].

Definition overflowing_penalty : Options := {|
  exactMatch := false;
  algorithm := "lab";
  enableChromaPenalty := true;
  chromaPenaltyWeight := 1e308%float;
  paintTransparentPixels := false;
  paintWhitePixels := true;
  transparencyThreshold := TRANSPARENCY_THRESHOLD;
  whiteThreshold := WHITE_THRESHOLD
|}.

(** C1 (as stated, fails).  With [chromaPenaltyWeight] 1e308 the one score
    of the red pixel is [Infinity], the matcher falls back to (0, 0, 0), and
    each of the three quantizers returns an opaque black pixel although
    black is not in the palette; under error diffusion the error of the
    first pixel sends the second the same way. *)
Lemma C1_overflowing_penalty_paints_black :
  data (fst (applySimpleQuantization RefEngine.runtime ∅ red_and_grey 2 1
               [(128, 128, 128)] overflowing_penalty))
  = [0; 0; 0; 255;  128; 128; 128; 255]
  /\ option_map (fun out => data (fst out))
       (_applyErrorDiffusion RefEngine.runtime ∅ red_and_grey 2 1 [(128, 128, 128)]
          "floyd" overflowing_penalty)
     = Some [0; 0; 0; 255;  0; 0; 0; 255]
  /\ option_map (fun out => data (fst out))
       (_applyOrderedDither RefEngine.runtime ∅ red_and_grey 2 1 [(128, 128, 128)]
          "bayer2" 0 overflowing_penalty)
     = Some [0; 0; 0; 255;  128; 128; 128; 255]
  /\ sq_scores_proper RefEngine.runtime [(128, 128, 128)] overflowing_penalty ∅
       red_and_grey = false.
Proof. vm_compute. repeat split; reflexivity. Qed.

(** ** The work buffer of error diffusion *)

Section WorkBuffer.

Context (rt : Runtime).
#[local] Open Scope float_scope.
Import FloatOrder.

(** The work cell hit by a kernel offset from pixel [(x, y)], if it is
    inside the raster. *)
Definition offset_cell (width height x y : nat) (o : KernelOffset) : option nat :=
  let nx := (Z.of_nat x + dx o)%Z in
  let ny := (Z.of_nat y + dy o)%Z in
  if ((nx <? 0) || (Z.of_nat width <=? nx) || (ny <? 0) || (Z.of_nat height <=? ny))%Z
  then None
  else Some (Z.to_nat (ny * Z.of_nat width + nx)).

(** The error of channel [c] (0, 1, 2 for R, G, B). *)
Definition channel_error (c : nat) (er eg eb : float) : float :=
  match c with O => er | S O => eg | _ => eb end.

Lemma diffuse_length width height eligible work nx ny er eg eb f :
  length (diffuse rt width height eligible work nx ny er eg eb f) = length work.
Proof.
  unfold diffuse. destruct (_ || _ || _ || _)%bool; [reflexivity|].
  destruct (negb _); [reflexivity|]. now rewrite !length_insert.
Qed.

(** One call of [diffuse]: only the three cells of an eligible target inside
    the raster change, each to the clamped sum of its own value and its
    share of the error. *)
Lemma diffuse_lookup width height eligible work x y o er eg eb f nidx c :
  length work = (width * height * 3)%nat -> (nidx < width * height)%nat -> (c < 3)%nat ->
  diffuse rt width height eligible work (Z.of_nat x + dx o) (Z.of_nat y + dy o) er eg eb f
    !!! (nidx * 3 + c)%nat
  = if bool_decide (offset_cell width height x y o = Some nidx) && (eligible !!! nidx)
    then diffused rt (work !!! (nidx * 3 + c)%nat) (channel_error c er eg eb) f
    else work !!! (nidx * 3 + c)%nat.
Proof.
  intros Hlen Hn Hc. unfold diffuse, offset_cell.
  destruct (_ || _ || _ || _)%bool eqn:Eb.
  { case_bool_decide; [discriminate|reflexivity]. }
  set (t := Z.to_nat _).
  case_bool_decide as Ht.
  - injection Ht as Ht. rewrite Ht. cbn [andb].
    destruct (eligible !!! nidx); cbn [negb]; [|reflexivity].
    destruct c as [|[|[|c]]]; [| | |lia].
    + rewrite Nat.add_0_r. rewrite !list_lookup_total_insert_ne by lia.
      apply list_lookup_total_insert_eq. lia.
    + rewrite list_lookup_total_insert_ne by lia.
      rewrite list_lookup_total_insert_eq by (rewrite length_insert; lia).
      now rewrite list_lookup_total_insert_ne by lia.
    + rewrite list_lookup_total_insert_eq by (rewrite !length_insert; lia).
      now rewrite !list_lookup_total_insert_ne by lia.
  - cbn [andb]. assert (Hne : t <> nidx) by congruence.
    destruct (negb _); [reflexivity|].
    rewrite !list_lookup_total_insert_ne by lia. reflexivity.
Qed.

(** Two offsets that hit the same cell of the raster are the same offset. *)
Lemma offset_cell_inj width height x y o o' nidx :
  offset_cell width height x y o = Some nidx ->
  offset_cell width height x y o' = Some nidx ->
  (dx o, dy o) = (dx o', dy o').
Proof.
  unfold offset_cell.
  destruct (_ || _ || _ || _)%bool eqn:E; [discriminate|].
  destruct (_ || _ || _ || _)%bool eqn:E' in |- *; [discriminate|].
  apply orb_false_iff in E as [E Ey2]. apply orb_false_iff in E as [E Ey1].
  apply orb_false_iff in E as [Ex1 Ex2].
  apply orb_false_iff in E' as [E' Ey2']. apply orb_false_iff in E' as [E' Ey1'].
  apply orb_false_iff in E' as [Ex1' Ex2'].
  intros [= H] [= H']. rewrite <- H' in H. clear H'.
  assert (Hz : ((Z.of_nat y + dy o) * Z.of_nat width + (Z.of_nat x + dx o)
                = (Z.of_nat y + dy o') * Z.of_nat width + (Z.of_nat x + dx o'))%Z) by nia.
  assert (Hy : (Z.of_nat y + dy o = Z.of_nat y + dy o')%Z) by nia.
  f_equal; nia.
Qed.

Lemma diffuse_all_lookup width height eligible (d : Z) (offs : list KernelOffset)
    x y er eg eb work nidx c :
  NoDup (map (fun o => (dx o, dy o)) offs) ->
  length work = (width * height * 3)%nat -> (nidx < width * height)%nat -> (c < 3)%nat ->
  diffuse_all rt width height eligible {| divisor := d; offsets := offs |} x y er eg eb work
    !!! (nidx * 3 + c)%nat
  = match List.find (fun o => bool_decide (offset_cell width height x y o = Some nidx)) offs with
    | Some o =>
        if eligible !!! nidx : bool
        then diffused rt (work !!! (nidx * 3 + c)%nat) (channel_error c er eg eb)
               (of_Z (weight o) / of_Z d)
        else work !!! (nidx * 3 + c)%nat
    | None => work !!! (nidx * 3 + c)%nat
    end.
Proof.
  unfold diffuse_all. cbn [offsets divisor].
  revert work. induction offs as [|o rest IH]; intros work Hnd Hlen Hn Hc; [reflexivity|].
  cbn [map] in Hnd. apply NoDup_cons in Hnd as [Hnotin Hnd].
  cbn [fold_left List.find].
  rewrite IH by (rewrite ?diffuse_length; assumption).
  rewrite (diffuse_lookup width height eligible work x y o er eg eb _ nidx c Hlen Hn Hc).
  destruct (bool_decide (offset_cell width height x y o = Some nidx)) eqn:Eo.
  - apply bool_decide_eq_true in Eo.
    assert (Hnone : List.find
              (fun o' => bool_decide (offset_cell width height x y o' = Some nidx)) rest = None).
    { destruct (List.find _ rest) as [o'|] eqn:Ef; [exfalso|reflexivity].
      apply find_some in Ef as [Hin Ho']. apply bool_decide_eq_true in Ho'.
      apply Hnotin. rewrite (offset_cell_inj _ _ _ _ _ _ _ Eo Ho').
      apply list_elem_of_In. apply in_map_iff. eauto. }
    rewrite Hnone. cbn [andb]. now destruct (eligible !!! nidx).
  - cbn [andb]. reflexivity.
Qed.

Lemma kernel_offsets_distinct (method : string) (kernel : Kernel) :
  _getDitherKernel method = Some kernel ->
  NoDup (map (fun o => (dx o, dy o)) (offsets kernel)).
Proof.
  unfold _getDitherKernel.
  repeat (destruct (String.eqb method _);
          [intros [= <-]; refine (bool_decide_unpack _ _); vm_compute; reflexivity|]).
  destruct (existsb _ _); [discriminate|].
  intros [= <-]; refine (bool_decide_unpack _ _); vm_compute; reflexivity.
Qed.

(** Every factor [weight / divisor] of the six kernels is a finite number
    other than zero. *)
Definition kernel_factors_ok (k : Kernel) : bool :=
  forallb (fun o => sf_finite_nz (Prim2SF (of_Z (weight o) / of_Z (divisor k)))) (offsets k).

Lemma kernel_factors_finite (method : string) (kernel : Kernel) :
  _getDitherKernel method = Some kernel -> kernel_factors_ok kernel = true.
Proof.
  unfold _getDitherKernel.
  repeat (destruct (String.eqb method _); [intros [= <-]; vm_compute; reflexivity|]).
  destruct (existsb _ _); [discriminate|].
  intros [= <-]; vm_compute; reflexivity.
Qed.

End WorkBuffer.



Section WorkRange.

Context (rt : Runtime).
Context (palette : list rgb8) (opts : Options).
Hypothesis fround_range : forall v : float, in_range v = true -> in_range (Math_fround rt v) = true.
Hypothesis palette_bytes : Forall byte_rgb palette.
#[local] Open Scope float_scope.
Import FloatOrder.

Definition is_byte (z : Z) : Prop := (0 <= z <= 255)%Z.

Lemma byte_in_range (z : Z) : is_byte z -> in_range (of_Z z) = true.
Proof.
  intros Hz.
  assert (H : forallb (fun n => in_range (of_Z (Z.of_nat n))) (seq 0 256) = true)
    by (vm_compute; reflexivity).
  rewrite forallb_forall in H. specialize (H (Z.to_nat z)).
  rewrite Z2Nat.id in H by (unfold is_byte in Hz; lia). apply H.
  apply in_seq. unfold is_byte in Hz. lia.
Qed.

Lemma bytes_lookup (d : list Z) (i : nat) : Forall is_byte d -> is_byte (d !!! i).
Proof.
  intros H. rewrite list_lookup_total_alt. destruct (d !! i) as [z|] eqn:E; simpl.
  - eapply Forall_lookup_1; eauto.
  - unfold is_byte. simpl. lia.
Qed.

(** A byte that is there reads as a number of [0, 255]. *)
Lemma read_in_range (d : list Z) (i : nat) :
  Forall is_byte d -> (i < length d)%nat -> in_range (read_number (d !! i)) = true.
Proof.
  intros H Hi. destruct (lookup_lt_is_Some_2 d i Hi) as [z Hz]. rewrite Hz. simpl.
  apply byte_in_range. eapply Forall_lookup_1; eauto.
Qed.

Lemma range_lookup (w : list float) (i : nat) :
  Forall (fun v => in_range v = true) w -> in_range (w !!! i) = true.
Proof.
  intros H. rewrite list_lookup_total_alt. destruct (w !! i) as [v|] eqn:E; simpl.
  - exact (Forall_lookup_1 _ _ _ _ H E).
  - reflexivity.
Qed.

Lemma clamped_bytes (imageData : list Z) : Forall is_byte (Uint8ClampedArray_from imageData).
Proof.
  unfold Uint8ClampedArray_from. apply Forall_fmap, Forall_forall. intros z _.
  apply clamp8_range.
Qed.

(** What a diffusion step stores is in [0, 255] when the cell and the error
    are numbers. *)
Lemma diffused_in_range (old e f : float) :
  in_range old = true -> is_nan e = false -> sf_finite_nz (Prim2SF f) = true ->
  in_range (diffused rt old e f) = true.
Proof.
  intros Hold He Hf. unfold diffused. apply fround_range, clamp_in_range.
  apply add_not_nan; [now apply in_range_real|now apply mul_not_nan].
Qed.

Lemma diffuse_range width height eligible work nx ny er eg eb f :
  Forall (fun v => in_range v = true) work ->
  is_nan er = false -> is_nan eg = false -> is_nan eb = false ->
  sf_finite_nz (Prim2SF f) = true ->
  Forall (fun v => in_range v = true)
    (diffuse rt width height eligible work nx ny er eg eb f).
Proof.
  intros Hw Hr Hg Hb Hf. unfold diffuse.
  destruct (_ || _ || _ || _)%bool; [exact Hw|].
  destruct (negb _); [exact Hw|].
  repeat (apply Forall_insert; [|apply diffused_in_range; auto; apply range_lookup]);
    repeat (apply Forall_insert; [|apply diffused_in_range; auto; apply range_lookup]);
    exact Hw.
Qed.

Lemma diffuse_all_range width height eligible kernel x y er eg eb work :
  kernel_factors_ok kernel = true ->
  Forall (fun v => in_range v = true) work ->
  is_nan er = false -> is_nan eg = false -> is_nan eb = false ->
  Forall (fun v => in_range v = true)
    (diffuse_all rt width height eligible kernel x y er eg eb work).
Proof.
  intros Hk Hw Hr Hg Hb. unfold diffuse_all, kernel_factors_ok in *.
  rewrite forallb_forall in Hk.
  assert (Hsub : forall o, In o (offsets kernel) -> In o (offsets kernel)) by auto.
  revert work Hw Hsub. generalize (offsets kernel) at 1 3 as offs.
  induction offs as [|o rest IH]; intros work Hw Hsub; [exact Hw|].
  cbn [fold_left]. apply IH; [|intros o' Ho'; apply Hsub; now right].
  apply diffuse_range; auto. apply Hk, Hsub. now left.
Qed.

Lemma closest_is_bytes labCache r g b nr ng nb c :
  findClosestPaletteColor rt labCache r g b (Some palette) (algorithm opts) opts
  = ((nr, ng, nb), c) ->
  is_byte nr /\ is_byte ng /\ is_byte nb.
Proof.
  intros E.
  pose proof (findClosest_in_or_black rt labCache r g b palette (algorithm opts) opts) as H.
  cbv zeta in H. rewrite E in H. cbn [fst] in H. destruct H as [H|[= -> -> ->]].
  - apply Forall_forall with (x := (nr, ng, nb)) in palette_bytes;
      [exact palette_bytes|now apply list_elem_of_In].
  - unfold is_byte. lia.
Qed.

Lemma ed_body_range kernel width height (st st' : EDState) (y x : nat) :
  (forall k, kernel = Some k -> kernel_factors_ok k = true) ->
  Forall (fun v => in_range v = true) (ed_work st) ->
  ed_body rt opts palette kernel width height (Some st) y x = Some st' ->
  Forall (fun v => in_range v = true) (ed_work st').
Proof.
  intros Hk Hw. unfold ed_body.
  destruct (negb _); [now intros [= <-]|].
  destruct (_ && _); [now intros [= <-]|].
  destruct (findClosestPaletteColor rt (ed_labCache st) _ _ _ (Some palette)
              (algorithm opts) opts) as [[[nr ng] nb] c] eqn:E.
  destruct kernel as [kernel|]; [|discriminate]. intros [= <-].
  cbn [ed_work].
  destruct (closest_is_bytes _ _ _ _ _ _ _ _ E) as (Hr & Hg & Hb).
  apply diffuse_all_range; auto;
    apply sub_not_nan;
    solve [apply in_range_real, range_lookup, Hw
          | apply in_range_real, byte_in_range; assumption].
Qed.

Lemma ed_init_body_range width (st : EDState) (y x : nat) :
  ((y * width + x) * 4 + 3 < length (ed_data st))%nat ->
  Forall is_byte (ed_data st) -> Forall (fun v => in_range v = true) (ed_work st) ->
  length (ed_data (ed_init_body rt opts width st y x)) = length (ed_data st)
  /\ Forall is_byte (ed_data (ed_init_body rt opts width st y x))
  /\ Forall (fun v => in_range v = true) (ed_work (ed_init_body rt opts width st y x)).
Proof.
  intros Hlen Hd Hw. unfold ed_init_body. cbv zeta. cbn [ed_data ed_work].
  destruct ((_ || _) && (_ || _)).
  - split; [reflexivity|]. split; [exact Hd|].
    repeat (apply Forall_insert; [|apply fround_range, read_in_range; [exact Hd|lia]]).
    exact Hw.
  - split; [apply length_insert|]. split.
    + apply Forall_insert; [exact Hd|]. unfold is_byte. lia.
    + repeat (apply Forall_insert; [|apply fround_range, read_in_range; [exact Hd|lia]]).
      exact Hw.
Qed.

Lemma ed_init_range labCache imageData width height :
  length imageData = (width * height * 4)%nat ->
  Forall (fun v => in_range v = true)
    (ed_work (ed_init rt labCache imageData width height opts)).
Proof.
  intros Hlen. unfold ed_init, for_yx.
  match goal with |- context [fold_left ?f ?l ?s0] =>
    pose proof (fold_left_ind f
                  (fun _ st => length (ed_data st) = (width * height * 4)%nat
                               /\ Forall is_byte (ed_data st)
                               /\ Forall (fun v => in_range v = true) (ed_work st))
                  l s0) as Hind
  end.
  apply Hind.
  - cbn [ed_data ed_work]. rewrite clamped_length.
    split; [exact Hlen|]. split; [apply clamped_bytes|].
    apply Forall_replicate. reflexivity.
  - intros pre a post s El (Hl & Hd & Hw).
    assert (Hb : (fst a * width + snd a < width * height)%nat).
    { apply (raster_cell_bound height). rewrite El. apply in_or_app. right. now left. }
    destruct (ed_init_body_range width s (fst a) (snd a)) as (Hl' & Hd' & Hw');
      [lia|assumption|assumption|].
    split; [congruence|]. split; assumption.
Qed.

Lemma ed_fold_thrown kernel width height (cells : list (nat * nat)) :
  fold_left (fun ost yx => ed_body rt opts palette kernel width height ost (fst yx) (snd yx))
    cells None = None.
Proof. induction cells as [|a l IH]; [reflexivity|exact IH]. Qed.

Lemma ed_run_range labCache imageData width height kernel (cells : list (nat * nat))
    (st : EDState) :
  length imageData = (width * height * 4)%nat ->
  (forall k, kernel = Some k -> kernel_factors_ok k = true) ->
  fold_left (fun ost yx => ed_body rt opts palette kernel width height ost (fst yx) (snd yx))
    cells (Some (ed_init rt labCache imageData width height opts)) = Some st ->
  Forall (fun v => in_range v = true) (ed_work st).
Proof.
  intros Hlen Hk. pose proof (ed_init_range labCache imageData width height Hlen) as H.
  revert H. generalize (ed_init rt labCache imageData width height opts) as s0.
  induction cells as [|a l IH]; intros s0 H; [now intros [= <-]|].
  cbn [fold_left].
  destruct (ed_body rt opts palette kernel width height (Some s0) (fst a) (snd a))
    as [s1|] eqn:E.
  - apply IH. eapply ed_body_range; eauto.
  - now rewrite ed_fold_thrown.
Qed.

(** With a kernel to go through, the scan does not throw. *)
Lemma ed_fold_runs (kernel : Kernel) width height (cells : list (nat * nat))
    (st : EDState) :
  is_Some (fold_left (fun ost yx => ed_body rt opts palette (Some kernel) width height ost
                                      (fst yx) (snd yx)) cells (Some st)).
Proof.
  revert st. induction cells as [|a l IH]; intros st; [now exists st|].
  cbn [fold_left].
  assert (Hs : is_Some (ed_body rt opts palette (Some kernel) width height (Some st)
                          (fst a) (snd a))).
  { unfold ed_body. destruct (negb _); [eauto|]. destruct (_ && _); [eauto|].
    destruct (findClosestPaletteColor _ _ _ _ _ _ _ _) as [[[nr ng] nb] c]. eauto. }
  destruct Hs as [st' ->]. apply IH.
Qed.

(** The value a diffusion step stores saturates: a sum above 255 is stored
    as 255 and one below 0 as 0. *)
Lemma diffused_saturates (old e f : float) :
  ((255 <? old + e * f) = true -> diffused rt old e f = Math_fround rt 255)
  /\ ((old + e * f <? 0) = true -> diffused rt old e f = Math_fround rt 0).
Proof.
  unfold diffused. destruct (clamp_saturates (old + e * f)) as [H1 H2].
  split; intros H; [now rewrite H1|now rewrite H2].
Qed.

End WorkRange.

(** C10: on a raster of [width * height * 4] bytes, at every point of the
    raster scan of [_applyErrorDiffusion] every cell of the work buffer lies
    in [0, 255] -- so does the triple read for the pixel about to be
    matched --, and with one of the kernels the scan gets to every such
    point.  Each call of [diffuse] keeps the buffer in [0, 255], because the
    kernel loop clamps what it stores: the cell that an offset hits
    receives the binary32 value of 255 when its old value plus its share of
    the error exceeds 255, and that of 0 when the sum is negative.
    The binary32 store is assumed to keep [0, 255] (rounding is monotone and
    0 and 255 are binary32 values); palette channels are bytes. *)
Theorem C10_work_values_stay_in_byte_range :
  forall (rt : Runtime) (labCache : gmap Z triple) (imageData : list Z)
         (width height : nat) (palette : list rgb8) (method : string) (opts : Options),
    (forall v : float, in_range v = true -> in_range (Math_fround rt v) = true) ->
    Forall byte_rgb palette ->
    length imageData = (width * height * 4)%nat ->
    let scan cells :=
      fold_left
        (fun ost yx => ed_body rt opts palette (_getDitherKernel method) width height ost
                         (fst yx) (snd yx))
        cells (Some (ed_init rt labCache imageData width height opts)) in
    (forall (pre : list (nat * nat)) (a : nat * nat) (post : list (nat * nat))
            (st : EDState),
        raster_order height width = pre ++ a :: post ->
        scan pre = Some st ->
        let base := ((fst a * width + snd a) * 3)%nat in
        Forall (fun v => in_range v = true) (ed_work st)
        /\ in_range (ed_work st !!! base) = true
        /\ in_range (ed_work st !!! (base + 1)%nat) = true
        /\ in_range (ed_work st !!! (base + 2)%nat) = true)
    /\ (forall kernel : Kernel, _getDitherKernel method = Some kernel ->
        (forall cells : list (nat * nat), is_Some (scan cells))
        /\ (forall (o : KernelOffset) (eligible : list bool) (work : list float)
                   (nx ny : Z) (er eg eb : float),
               In o (offsets kernel) ->
               Forall (fun v => in_range v = true) work ->
               is_nan er = false -> is_nan eg = false -> is_nan eb = false ->
               Forall (fun v => in_range v = true)
                 (diffuse rt width height eligible work nx ny er eg eb
                    (of_Z (weight o) / of_Z (divisor kernel))))
        /\ forall (eligible : list bool) (work : list float) (x y : nat)
                  (er eg eb : float) (nidx c : nat) (o : KernelOffset),
             length work = (width * height * 3)%nat ->
             (nidx < width * height)%nat -> (c < 3)%nat ->
             List.find (fun o => bool_decide (offset_cell width height x y o = Some nidx))
               (offsets kernel) = Some o ->
             eligible !!! nidx = true ->
             let sum :=
               (work !!! (nidx * 3 + c)%nat
                + channel_error c er eg eb * (of_Z (weight o) / of_Z (divisor kernel)))%float in
             let stored :=
               diffuse_all rt width height eligible kernel x y er eg eb work
                 !!! (nidx * 3 + c)%nat in
             ((255 <? sum)%float = true -> stored = Math_fround rt 255)
             /\ ((sum <? 0)%float = true -> stored = Math_fround rt 0)).
Proof.
  intros rt labCache imageData width height palette method opts Hfr Hbytes Hlen scan.
  split.
  - intros pre a post st _ Hst. cbv zeta.
    pose proof (ed_run_range rt palette opts Hfr Hbytes labCache imageData width height
                  (_getDitherKernel method) pre st Hlen
                  (fun k Hk => kernel_factors_finite method k Hk) Hst) as H.
    split; [exact H|].
    repeat (split; [now apply range_lookup|]). now apply range_lookup.
  - intros kernel Hk. split; [|split].
    + intros cells. unfold scan. rewrite Hk. apply ed_fold_runs.
    + intros o eligible work nx ny er eg eb Ho Hw Hr Hg Hb.
      apply (diffuse_range rt Hfr); auto.
      pose proof (kernel_factors_finite method kernel Hk) as Hf.
      unfold kernel_factors_ok in Hf. rewrite forallb_forall in Hf. now apply Hf.
    + intros eligible work x y er eg eb nidx c o Hw Hn Hc Hfind Hel. cbv zeta.
      pose proof (kernel_offsets_distinct method kernel Hk) as Hnd.
      destruct kernel as [d offs]. cbn [offsets divisor] in *.
      rewrite (diffuse_all_lookup rt width height eligible d offs x y er eg eb work nidx c
                 Hnd Hw Hn Hc), Hfind, Hel.
      apply diffused_saturates.
Qed.

(** The scan of [sample_raster] after its first pixel. *)
Definition sample_scan : option EDState :=
  fold_left
    (fun ost yx => ed_body RefEngine.runtime default_options black_white
                     (_getDitherKernel "floyd") 2 2 ost (fst yx) (snd yx))
    [(0, 0)%nat]
    (Some (ed_init RefEngine.runtime ∅ sample_raster 2 2 default_options)).

(** The red cell of the second pixel of [sample_raster] once the first has
    been dealt with; and a cell at 250 that is sent 7/16 of an error of 16
    is left at 255, not 257. *)
Lemma C10_work_values_witness :
  match sample_scan with
  | Some st => in_range (ed_work st !!! ((fst (0, 1) * 2 + snd (0, 1)) * 3)%nat) = true
  | None => False
  end
  /\ diffuse_all RefEngine.runtime 2 2 [true; true; true; true]
       {| divisor := 16; offsets := [koff 1 0 7; koff (-1) 1 3; koff 0 1 5; koff 1 1 1] |}
       0 0 16 16 16 (replicate 12 250%float) !!! (1 * 3 + 0)%nat
     = 255%float.
Proof.
  pose proof (C10_work_values_stay_in_byte_range RefEngine.runtime ∅ sample_raster 2 2
                black_white "floyd" default_options RefEngine.fround_in_range
                ltac:(repeat constructor; simpl; lia) eq_refl) as H.
  cbv zeta in H. destruct H as [Hrange Hkernel]. split.
  - unfold sample_scan.
    destruct (fold_left _ [(0, 0)%nat] _) as [st|] eqn:E; [|vm_compute in E; discriminate].
    exact (proj1 (proj2 (Hrange [(0, 0)%nat] (0, 1)%nat [(1, 0)%nat; (1, 1)%nat] st
                           eq_refl E))).
  - destruct (Hkernel _ eq_refl) as (_ & _ & Hsat).
    refine (eq_trans
              (proj1 (Hsat [true; true; true; true] (replicate 12 250%float) 0%nat 0%nat
                        16%float 16%float 16%float 1%nat 0%nat (koff 1 0 7)
                        eq_refl _ _ _ eq_refl) _) _).
    + simpl. lia.
    + lia.
    + vm_compute. reflexivity.
    + vm_compute. reflexivity.
    + vm_compute. reflexivity.
Defined.

(** Options that paint every pixel. *)
Definition paint_all : Options := {|
  exactMatch := false;
  algorithm := "lab";
  enableChromaPenalty := false;
  chromaPenaltyWeight := 0.15%float;
  paintTransparentPixels := true;
  paintWhitePixels := true;
  transparencyThreshold := TRANSPARENCY_THRESHOLD;
  whiteThreshold := WHITE_THRESHOLD
|}.

(** The length of the raster matters: on an empty raster declared 1 x 1,
    with [paintTransparentPixels] set, the bytes of the pixel read as
    [undefined]; the pixel is eligible and its work cells hold NaN when the
    matcher is called. *)
Lemma missing_bytes_give_nan_work :
  ed_work (ed_init RefEngine.runtime ∅ [] 1 1 paint_all) = [NaN; NaN; NaN]
  /\ ed_eligible (ed_init RefEngine.runtime ∅ [] 1 1 paint_all) = [true].
Proof. vm_compute. split; reflexivity. Qed.

(** ** Ordered dithering with strength 0 *)

Section OrderedZero.

Context (rt : Runtime).
Context (palette : list rgb8) (opts : Options).
#[local] Open Scope float_scope.
Import FloatOrder.

(** A threshold whose perturbation at strength 0 is a zero. *)
Definition noise_vanishes (threshold : float) : Prop :=
  (threshold - 0.5) * 64 * 0 = 0 \/ (threshold - 0.5) * 64 * 0 = neg_zero.

Lemma is_finite_shape (x : float) :
  is_finite x = true -> sf_real (Prim2SF x) = true.
Proof.
  unfold is_finite. rewrite negb_true_iff, orb_false_iff. intros [Hn Hi].
  rewrite is_nan_spec in Hn. unfold is_infinity in Hi.
  rewrite FloatAxioms.eqb_spec, abs_spec in Hi.
  destruct (Prim2SF x) as [s|s| |s m e]; simpl in *; try reflexivity; try discriminate.
Qed.

Lemma mul_zero_finite (x : float) : is_finite x = true -> x * 0 = 0 \/ x * 0 = neg_zero.
Proof.
  intros H. apply is_finite_shape in H.
  rewrite <- (SF2Prim_Prim2SF (x * 0)), mul_spec.
  change (Prim2SF 0) with (S754_zero false).
  destruct (Prim2SF x) as [[]|s| |[] m e]; simpl in *; try discriminate; auto.
Qed.

Lemma finite_noise_vanishes (threshold : float) :
  is_finite ((threshold - 0.5) * 64) = true -> noise_vanishes threshold.
Proof. apply mul_zero_finite. Qed.

(** A byte plus a zero, clamped, is the byte. *)
Lemma byte_plus_zero (z : Z) (n : float) :
  is_byte z -> n = 0 \/ n = neg_zero ->
  Math_max 0 (Math_min 255 (of_Z z + n)) = of_Z z.
Proof.
  intros Hz Hn.
  assert (H : forallb (fun k =>
                let v := of_Z (Z.of_nat k) in
                PrimFloat.Leibniz.eqb (Math_max 0 (Math_min 255 (v + 0))) v
                && PrimFloat.Leibniz.eqb (Math_max 0 (Math_min 255 (v + neg_zero))) v)
              (seq 0 256) = true) by (vm_compute; reflexivity).
  rewrite forallb_forall in H. specialize (H (Z.to_nat z)).
  rewrite Z2Nat.id in H by (unfold is_byte in Hz; lia).
  cbv zeta in H. rewrite andb_true_iff, !FloatAxioms.Leibniz.eqb_spec in H.
  destruct H as [H0 H1]; [apply in_seq; unfold is_byte in Hz; lia|].
  destruct Hn as [->| ->]; assumption.
Qed.

Lemma bayer_noise_vanishes (method : string) (m : list (list float)) (y x : nat) :
  _getBayerMatrix method = Some m ->
  noise_vanishes ((m !!! (y mod length m)%nat) !!! (x mod length m)%nat).
Proof.
  unfold _getBayerMatrix.
  destruct (String.eqb method "bayer2").
  { intros [= <-]. cbn [length].
    pose proof (Nat.mod_upper_bound y 2 ltac:(lia)) as Hy.
    pose proof (Nat.mod_upper_bound x 2 ltac:(lia)) as Hx.
    destruct (y mod 2)%nat as [|[|?]]; [| |lia];
      (destruct (x mod 2)%nat as [|[|?]]; [| |lia]);
      apply finite_noise_vanishes; vm_compute; reflexivity. }
  destruct (String.eqb method "bayer4").
  { intros [= <-]. cbn [length].
    pose proof (Nat.mod_upper_bound y 4 ltac:(lia)) as Hy.
    pose proof (Nat.mod_upper_bound x 4 ltac:(lia)) as Hx.
    destruct (y mod 4)%nat as [|[|[|[|?]]]]; [| | | |lia];
      (destruct (x mod 4)%nat as [|[|[|[|?]]]]; [| | | |lia]);
      apply finite_noise_vanishes; vm_compute; reflexivity. }
  destruct (String.eqb method "bayer8"); [|discriminate].
  intros [= <-]. cbn [length].
  pose proof (Nat.mod_upper_bound y 8 ltac:(lia)) as Hy.
  pose proof (Nat.mod_upper_bound x 8 ltac:(lia)) as Hx.
  destruct (y mod 8)%nat as [|[|[|[|[|[|[|[|?]]]]]]]]; [| | | | | | | |lia];
    (destruct (x mod 8)%nat as [|[|[|[|[|[|[|[|?]]]]]]]]; [| | | | | | | |lia]);
    apply finite_noise_vanishes; vm_compute; reflexivity.
Qed.

(** The methods [applyDithering] sends to [_applyOrderedDither]. *)
Definition is_ordered_method (method : string) : bool :=
  existsb (String.eqb method) ["bayer2"; "bayer4"; "bayer8"; "random"].

Lemma ordered_threshold_vanishes (method : string) (draws y x : nat) :
  is_ordered_method method = true ->
  is_finite ((Math_random rt draws - 0.5) * 64) = true ->
  exists threshold,
    ordered_threshold rt method (_getBayerMatrix method) draws y x = Some threshold
    /\ noise_vanishes threshold.
Proof.
  intros Hm Hr. unfold ordered_threshold.
  destruct (String.eqb method "random") eqn:Er.
  { eexists. split; [reflexivity|]. now apply finite_noise_vanishes. }
  destruct (_getBayerMatrix method) as [m|] eqn:Em.
  { eexists. split; [reflexivity|]. eapply bayer_noise_vanishes; eauto. }
  exfalso. unfold is_ordered_method, _getBayerMatrix in *. cbn [existsb] in Hm.
  rewrite Er in Hm.
  destruct (String.eqb method "bayer2"); [discriminate|].
  destruct (String.eqb method "bayer4"); [discriminate|].
  destruct (String.eqb method "bayer8"); discriminate.
Qed.

(** The two loop states agree on the output, the counter and the cache. *)
Definition states_agree (ost : option ODState) (st : SQState) : Prop :=
  exists o, ost = Some o /\ od_data o = sq_data st
            /\ od_totalValid o = sq_totalValid st /\ od_labCache o = sq_labCache st.

Lemma put_pixel_bytes (d : list Z) (i : nat) (r g b a : Z) :
  Forall is_byte d -> Forall is_byte (put_pixel d i r g b a).
Proof.
  intros H. unfold put_pixel.
  repeat (apply Forall_insert; [|apply clamp8_range]). exact H.
Qed.

Lemma sq_body_bytes (st : SQState) (k : nat) :
  Forall is_byte (sq_data st) -> Forall is_byte (sq_data (sq_body rt opts palette st k)).
Proof.
  intros H. unfold sq_body.
  destruct (negb _); cbn [sq_data].
  { apply Forall_insert; [exact H|]. unfold is_byte. lia. }
  destruct (_ && _); cbn [sq_data]; [now apply put_pixel_bytes|].
  destruct (findClosestPaletteColor _ _ _ _ _ _ _ _) as [[[nr ng] nb] c].
  cbn [sq_data]. now apply put_pixel_bytes.
Qed.

Lemma od_step_agrees (method : string) (width : nat) (o : ODState) (st : SQState)
    (y x : nat) :
  is_ordered_method method = true ->
  is_finite ((Math_random rt (od_draws o) - 0.5) * 64) = true ->
  Forall is_byte (sq_data st) ->
  od_data o = sq_data st -> od_totalValid o = sq_totalValid st ->
  od_labCache o = sq_labCache st ->
  exists o', od_body rt opts palette method 0 width (Some o) y x = Some o'
             /\ od_data o' = sq_data (sq_body rt opts palette st (y * width + x))
             /\ od_totalValid o' = sq_totalValid (sq_body rt opts palette st (y * width + x))
             /\ od_labCache o' = sq_labCache (sq_body rt opts palette st (y * width + x))
             /\ (od_draws o' <= S (od_draws o))%nat.
Proof.
  intros Hm Hr Hb Ed Et Ec. unfold od_body, sq_body. rewrite Ed, Et, Ec.
  set (d := sq_data st). set (i := ((y * width + x) * 4)%nat).
  destruct (negb _).
  { eexists. split; [reflexivity|]. cbn. repeat split; auto. }
  destruct (_ && _).
  { eexists. split; [reflexivity|]. cbn. repeat split; auto. }
  destruct (ordered_threshold_vanishes method (od_draws o) y x Hm Hr) as (th & -> & Hth).
  rewrite !byte_plus_zero by (try apply bytes_lookup; assumption).
  destruct (findClosestPaletteColor _ _ _ _ _ _ _ _) as [[[nr ng] nb] c].
  eexists. split; [reflexivity|]. cbn. repeat split; auto.
  destruct (String.eqb method "random"); lia.
Qed.

Lemma fold_left_map_fun {A B St : Type} (f : St -> B -> St) (g : A -> B) (l : list A)
    (st : St) :
  fold_left f (map g l) st = fold_left (fun s a => f s (g a)) l st.
Proof. revert st. induction l as [|a l IH]; intros st; simpl; auto. Qed.

Lemma fold_left2_ind {A S1 S2 : Type} (f1 : S1 -> A -> S1) (f2 : S2 -> A -> S2)
    (R : list A -> S1 -> S2 -> Prop) (l : list A) (s1 : S1) (s2 : S2) :
  R [] s1 s2 ->
  (forall pre a post t1 t2, l = pre ++ a :: post -> R pre t1 t2 ->
                            R (pre ++ [a]) (f1 t1 a) (f2 t2 a)) ->
  R l (fold_left f1 l s1) (fold_left f2 l s2).
Proof.
  intros H0 Hstep.
  enough (G : forall rest pre t1 t2, l = pre ++ rest -> R pre t1 t2 ->
                R (pre ++ rest) (fold_left f1 rest t1) (fold_left f2 rest t2)).
  { exact (G l [] s1 s2 eq_refl H0). }
  induction rest as [|a rest IH]; intros pre t1 t2 El Hp.
  - now rewrite app_nil_r.
  - simpl. replace (pre ++ a :: rest) with ((pre ++ [a]) ++ rest) by now rewrite <- app_assoc.
    apply IH; [now rewrite <- app_assoc|]. eapply Hstep; eauto.
Qed.

Lemma ordered_zero_is_plain (labCache : gmap Z triple) (imageData : list Z)
    (width height : nat) (method : string) :
  length imageData = (width * height * 4)%nat ->
  is_ordered_method method = true ->
  (forall k : nat, (k < width * height)%nat ->
                   is_finite ((Math_random rt k - 0.5) * 64) = true) ->
  _applyOrderedDither rt labCache imageData width height palette method 0 opts
  = Some (applySimpleQuantization rt labCache imageData width height palette opts).
Proof.
  intros Hlen Hm Hrand. unfold _applyOrderedDither, applySimpleQuantization, for_yx.
  rewrite clamped_length, Hlen, div4_pixels.
  replace (width * height)%nat with (height * width)%nat by lia.
  rewrite <- (raster_order_index height width), fold_left_map_fun.
  set (d0 := Uint8ClampedArray_from imageData).
  pose proof (fold_left2_ind
    (fun ost yx => od_body rt opts palette method 0 width ost (fst yx) (snd yx))
    (fun s yx => sq_body rt opts palette s (fst yx * width + snd yx))
    (fun pre ost st =>
       Forall is_byte (sq_data st)
       /\ exists o, ost = Some o /\ od_data o = sq_data st
                    /\ od_totalValid o = sq_totalValid st
                    /\ od_labCache o = sq_labCache st
                    /\ (od_draws o <= length pre)%nat)
    (raster_order height width)
    (Some {| od_data := d0; od_totalValid := 0; od_labCache := labCache; od_draws := 0 |})
    {| sq_data := d0; sq_totalValid := 0; sq_labCache := labCache |}) as Hind.
  destruct Hind as (_ & o & -> & Ed & Et & Ec & _).
  - split; [apply clamped_bytes|]. eexists. repeat split; auto.
  - intros pre a post t1 t2 El (Hb & o & -> & Ed & Et & Ec & Hdr).
    split; [now apply sq_body_bytes|].
    assert (Hk : (od_draws o < width * height)%nat).
    { assert (Hl : length (raster_order height width) = (height * width)%nat).
      { rewrite <- (length_map (fun yx => (fst yx * width + snd yx)%nat)),
          raster_order_index. apply length_seq. }
      rewrite El, length_app in Hl. cbn [length] in Hl. lia. }
    destruct (od_step_agrees method width o t2 (fst a) (snd a) Hm (Hrand _ Hk) Hb Ed Et Ec)
      as (o' & -> & Ed' & Et' & Ec' & Hdr').
    exists o'. repeat split; auto. rewrite length_app. cbn [length]. lia.
  - destruct (fold_left _ _ {| sq_data := d0 |}) as [fd ft fc]. cbn in *.
    now rewrite Ed, Et, Ec.
Qed.

End OrderedZero.

(** C5: for a Bayer or random method, ordered dithering at strength 0
    returns what plain quantization returns (data, count and LAB cache), on a
    raster of [width * height * 4] bytes and with random draws that are
    finite numbers. *)
Theorem C5_ordered_strength_zero_is_plain_quantization :
  forall (rt : Runtime) (labCache : gmap Z triple) (imageData : list Z)
         (width height : nat) (palette : list rgb8) (method : string) (opts : Options),
    length imageData = (width * height * 4)%nat ->
    is_ordered_method method = true ->
    (forall k : nat, (k < width * height)%nat ->
                     is_finite ((Math_random rt k - 0.5) * 64)%float = true) ->
    _applyOrderedDither rt labCache imageData width height palette method 0 opts
    = Some (applySimpleQuantization rt labCache imageData width height palette opts).
Proof.
  intros. now apply ordered_zero_is_plain.
Qed.

Lemma C5_ordered_strength_zero_witness :
  _applyOrderedDither RefEngine.runtime ∅ sample_raster 2 2 black_white "random" 0
    default_options
  = Some (applySimpleQuantization RefEngine.runtime ∅ sample_raster 2 2 black_white
            default_options).
Proof.
  refine (C5_ordered_strength_zero_is_plain_quantization RefEngine.runtime ∅ sample_raster
            2 2 black_white "random" default_options _ _ _).
  - reflexivity.
  - reflexivity.
  - intros k Hk. do 4 (destruct k as [|k]; [vm_compute; reflexivity|]). simpl in Hk. lia.
Defined.

(** ** The dominant colour of a block *)

Section DominantTheory.

Definition pixel_rgb (srcData : list Z) (p : nat) : rgb8 :=
  (srcData !!! p, srcData !!! (p + 1)%nat, srcData !!! (p + 2)%nat).

(** The [idx] computed by the block scan for a pixel of colour [c]. *)
Definition bucket (c : rgb8) : Z :=
  let '(r, g, b) := c in bor (bor (shl (sar r 4) 8) (shl (sar g 4) 4)) (sar b 4).

(** One round of the scan, on the bucket of the pixel. *)
Definition tally (acc : list Z * Z * Z) (idx : Z) : list Z * Z * Z :=
  let '(counts, bestIdx, bestCount) := acc in
  let c := ushr0 (counts !!! Z.to_nat idx + 1) in
  let counts := <[Z.to_nat idx := c]> counts in
  if bestCount <? c then (counts, idx, c) else (counts, bestIdx, bestCount).

Lemma dominant_visit_tally (srcData : list Z) (acc : list Z * Z * Z) (p : nat) :
  dominant_visit srcData acc p = tally acc (bucket (pixel_rgb srcData p)).
Proof. destruct acc as [[counts bestIdx] bestCount]. reflexivity. Qed.

(** The colour written for a block whose winning bucket is that of [c]. *)
Definition representative (c : rgb8) : rgb8 :=
  let '(r, g, b) := c in (sar r 4 * 17, sar g 4 * 17, sar b 4 * 17).

(** How many times [a] occurs in [l]. *)
Fixpoint occ {A : Type} `{EqDecision A} (l : list A) (a : A) : Z :=
  match l with
  | [] => 0
  | x :: l => (if decide (x = a) then 1 else 0) + occ l a
  end.

(** [b] is the bucket that was first to reach the count [top], which no
    bucket exceeds in the whole of [l]. *)
Definition first_to_top (l : list Z) (b top : Z) : Prop :=
  exists pre post,
    l = pre ++ b :: post
    /\ top = occ (pre ++ [b]) b
    /\ (forall b', occ l b' <= top)
    /\ (forall b', occ pre b' < top).

Definition tally_inv (l : list Z) (acc : list Z * Z * Z) : Prop :=
  let '(counts, bestIdx, bestCount) := acc in
  length counts = 4096%nat
  /\ (forall b, 0 <= b < 4096 -> counts !!! Z.to_nat b = occ l b)
  /\ ((l = [] /\ bestIdx = 0 /\ bestCount = -1) \/ first_to_top l bestIdx bestCount).

Lemma occ_app {A : Type} `{EqDecision A} (l l' : list A) (a : A) :
  occ (l ++ l') a = occ l a + occ l' a.
Proof. induction l as [|x l IH]; simpl; [reflexivity|]. rewrite IH. lia. Qed.

Lemma occ_range {A : Type} `{EqDecision A} (l : list A) (a : A) :
  0 <= occ l a <= Z.of_nat (length l).
Proof. induction l as [|x l IH]; simpl; [lia|]. destruct (decide (x = a)); lia. Qed.

Lemma occ_two {A : Type} `{EqDecision A} (l : list A) (a b : A) :
  a <> b -> occ l a + occ l b <= Z.of_nat (length l).
Proof.
  intros Hne. induction l as [|x l IH]; simpl; [lia|].
  destruct (decide (x = a)), (decide (x = b)); try lia. congruence.
Qed.

Lemma occ_map_le {A B : Type} `{EqDecision A} `{EqDecision B} (f : A -> B)
    (l : list A) (a : A) :
  occ l a <= occ (map f l) (f a).
Proof.
  induction l as [|x l IH]; simpl; [lia|].
  destruct (decide (x = a)) as [->|]; destruct (decide (f _ = f a)); try lia. congruence.
Qed.

Lemma tally_step (pre : list Z) (a : Z) (acc : list Z * Z * Z) :
  0 <= a < 4096 -> Z.of_nat (length pre) + 1 < 2 ^ 32 ->
  tally_inv pre acc -> tally_inv (pre ++ [a]) (tally acc a).
Proof.
  intros Ha Hlen. destruct acc as [[counts bestIdx] bestCount].
  intros (Hc & Hocc & Hbest). unfold tally.
  assert (Ec : ushr0 (counts !!! Z.to_nat a + 1) = occ (pre ++ [a]) a).
  { rewrite Hocc by assumption. rewrite occ_app. simpl.
    destruct (decide (a = a)); [|congruence].
    pose proof (occ_range pre a). unfold ushr0. rewrite Z.mod_small; lia. }
  rewrite Ec.
  assert (Ho : forall b, b <> a -> occ (pre ++ [a]) b = occ pre b).
  { intros b Hb. rewrite occ_app. simpl. destruct (decide (a = b)); [congruence|lia]. }
  assert (Hcounts : forall b, 0 <= b < 4096 ->
            <[Z.to_nat a := occ (pre ++ [a]) a]> counts !!! Z.to_nat b = occ (pre ++ [a]) b).
  { intros b Hb. destruct (decide (b = a)) as [->|Hne].
    - apply list_lookup_total_insert_eq. lia.
    - rewrite list_lookup_total_insert_ne by lia. rewrite Ho by assumption. auto. }
  assert (Es : occ (pre ++ [a]) a = occ pre a + 1).
  { rewrite occ_app. simpl. destruct (decide (a = a)); [lia|congruence]. }
  destruct (bestCount <? occ (pre ++ [a]) a) eqn:Elt.
  - apply Z.ltb_lt in Elt.
    split; [now rewrite length_insert|]. split; [exact Hcounts|]. right.
    exists pre, []. split; [reflexivity|]. split; [reflexivity|].
    assert (Hpre : forall b', occ pre b' < occ (pre ++ [a]) a).
    { intros b'. destruct Hbest as [(-> & _ & _)|(p & q & _ & _ & Hmax & _)].
      - simpl. destruct (decide (a = a)); [lia|congruence].
      - specialize (Hmax b'). lia. }
    split; [|exact Hpre].
    intros b'. destruct (decide (b' = a)) as [->|Hne]; [lia|].
    rewrite Ho by assumption. specialize (Hpre b'). lia.
  - apply Z.ltb_ge in Elt.
    split; [now rewrite length_insert|]. split; [exact Hcounts|]. right.
    destruct Hbest as [(-> & _ & ->)|(p & q & El & Et & Hmax & Hfirst)].
    + simpl in Elt. destruct (decide (a = a)); [lia|congruence].
    + exists p, (q ++ [a]). split; [rewrite El, <- app_assoc; reflexivity|].
      split; [exact Et|]. split; [|exact Hfirst].
      intros b'. destruct (decide (b' = a)) as [->|Hne]; [lia|].
      rewrite Ho by assumption. apply Hmax.
Qed.

Lemma tally_fold (bs : list Z) :
  Forall (fun b => 0 <= b < 4096) bs -> Z.of_nat (length bs) < 2 ^ 32 ->
  tally_inv bs (fold_left tally bs (replicate 4096 0, 0, -1)).
Proof.
  intros Hb Hlen. apply (fold_left_ind tally tally_inv).
  - split; [apply length_replicate|]. split; [|now left].
    intros b Hr. cbn [occ]. apply lookup_total_replicate_2. lia.
  - intros pre a post s El Hs. apply tally_step; [| |assumption].
    + rewrite El in Hb. apply Forall_app in Hb as [_ Hb]. now inversion Hb.
    + rewrite El, length_app in Hlen. simpl in Hlen. lia.
Qed.

(** A bucket holding more than half of the block wins. *)
Lemma majority_wins (l : list Z) (b top m : Z) :
  first_to_top l b top -> Z.of_nat (length l) < 2 * occ l m -> b = m.
Proof.
  intros (pre & post & El & Et & Hmax & _) Hm.
  destruct (decide (b = m)) as [|Hne]; [assumption|exfalso].
  pose proof (occ_two l b m Hne). specialize (Hmax m).
  assert (top <= occ l b).
  { rewrite Et, El. replace (pre ++ b :: post) with ((pre ++ [b]) ++ post)
      by now rewrite <- app_assoc.
    rewrite (occ_app (pre ++ [b])). pose proof (occ_range post b). lia. }
  lia.
Qed.

(** *** Buckets of byte colours *)

Lemma below_cases (n : nat) (P : Z -> bool) :
  forallb (fun k => P (Z.of_nat k)) (seq 0 n) = true ->
  forall z, 0 <= z < Z.of_nat n -> P z = true.
Proof.
  intros H z Hz. rewrite forallb_forall in H.
  specialize (H (Z.to_nat z)). rewrite Z2Nat.id in H by lia.
  apply H, in_seq. lia.
Qed.

Lemma sar4_nibble (v : Z) : is_byte v -> 0 <= sar v 4 < 16.
Proof.
  intros Hv. unfold sar. rewrite Z.shiftr_div_pow2 by lia.
  change (2 ^ 4) with 16. unfold is_byte in Hv.
  split; [apply Z.div_pos; lia|apply Z.div_lt_upper_bound; lia].
Qed.

Definition pack (r g b : Z) : Z := bor (bor (shl r 8) (shl g 4)) b.

Lemma pack_nibbles (r g b : Z) :
  0 <= r < 16 -> 0 <= g < 16 -> 0 <= b < 16 ->
  (0 <=? pack r g b) && (pack r g b <? 4096)
  && rgb8_eqb (bucket_color (pack r g b)) (r * 17, g * 17, b * 17) = true.
Proof.
  intros Hr Hg Hb.
  revert b Hb. apply (below_cases 16 (fun b => _)).
  revert g Hg. apply (below_cases 16 (fun g => forallb _ _)).
  revert r Hr. apply (below_cases 16 (fun r => forallb _ _)).
  vm_compute. reflexivity.
Qed.

Lemma bucket_range (c : rgb8) : byte_rgb c -> 0 <= bucket c < 4096.
Proof.
  destruct c as [[r g] b]. intros (Hr & Hg & Hb).
  pose proof (pack_nibbles _ _ _ (sar4_nibble r Hr) (sar4_nibble g Hg) (sar4_nibble b Hb)) as H.
  apply andb_true_iff in H as [H _]. apply andb_true_iff in H as [H1 H2].
  unfold bucket. fold (pack (sar r 4) (sar g 4) (sar b 4)). lia.
Qed.

Lemma bucket_color_representative (c : rgb8) :
  byte_rgb c -> bucket_color (bucket c) = representative c.
Proof.
  destruct c as [[r g] b]. intros (Hr & Hg & Hb).
  pose proof (pack_nibbles _ _ _ (sar4_nibble r Hr) (sar4_nibble g Hg) (sar4_nibble b Hb)) as H.
  apply andb_true_iff in H as [_ H]. now apply rgb8_eqb_eq in H.
Qed.

Lemma representative_bytes (c : rgb8) : byte_rgb c -> byte_rgb (representative c).
Proof.
  destruct c as [[r g] b]. intros (Hr & Hg & Hb).
  pose proof (sar4_nibble r Hr). pose proof (sar4_nibble g Hg).
  pose proof (sar4_nibble b Hb). unfold representative, byte_rgb. lia.
Qed.

(** *** The destination pixels *)

(** The byte offsets of the source block behind the destination pixel
    [(x, y)]. *)
Definition block_pixels (sw sh factor y x : nat) : list nat :=
  block_offsets sw (x * factor) (Nat.min sw (x * factor + factor))
    (y * factor) (Nat.min sh (y * factor + factor)).

Definition block_colors (srcData : list Z) (sw sh factor y x : nat) : list rgb8 :=
  map (pixel_rgb srcData) (block_pixels sw sh factor y x).

Definition block_winner (srcData : list Z) (sw sh factor y x : nat) : Z :=
  snd (fst (fold_left tally (map bucket (block_colors srcData sw sh factor y x))
              (replicate 4096 0, 0, -1))).

Lemma dominant_block_tally (srcData : list Z) (sw sh factor y x : nat) :
  dominant_block srcData sw (x * factor) (Nat.min sw (x * factor + factor))
    (y * factor) (Nat.min sh (y * factor + factor))
  = fold_left tally (map bucket (block_colors srcData sw sh factor y x))
      (replicate 4096 0, 0, -1).
Proof.
  unfold dominant_block, block_colors. fold (block_pixels sw sh factor y x).
  rewrite map_map, fold_left_map_fun.
  generalize (replicate 4096 0, 0, -1). induction (block_pixels sw sh factor y x) as [|p l IH];
    intros acc; simpl; [reflexivity|].
  now rewrite dominant_visit_tally, IH.
Qed.

Lemma dominant_body_put (srcData : list Z) (sw sh dstW factor : nat) (d : list Z)
    (y x : nat) :
  dominant_body srcData sw sh dstW factor d y x
  = let '(r, g, b) := bucket_color (block_winner srcData sw sh factor y x) in
    put_pixel d ((y * dstW + x) * 4) r g b 255.
Proof.
  unfold dominant_body, block_winner. cbv zeta. rewrite dominant_block_tally.
  destruct (fold_left tally _ _) as [[counts bestIdx] bestCount]. reflexivity.
Qed.

Lemma bucket_color_bytes (idx : Z) : byte_rgb (bucket_color idx).
Proof.
  assert (H : forall z, 0 <= Z.land z 15 * 17 <= 255).
  { intros z. change 15 with (Z.ones 4). rewrite Z.land_ones by lia.
    pose proof (Z.mod_pos_bound z (2 ^ 4) ltac:(lia)). change (2 ^ 4) with 16 in *. lia. }
  unfold bucket_color, byte_rgb. auto.
Qed.

Lemma block_length (sw sx0 sx1 sy0 sy1 : nat) :
  length (block_offsets sw sx0 sx1 sy0 sy1) = ((sy1 - sy0) * (sx1 - sx0))%nat.
Proof.
  unfold block_offsets. generalize (sy1 - sy0)%nat as n. intros n. revert sy0.
  induction n as [|n IH]; intros sy0; simpl; [reflexivity|].
  rewrite length_app, length_map, length_seq, IH. lia.
Qed.

Lemma block_colors_length (srcData : list Z) (sw sh factor y x : nat) :
  (length (block_colors srcData sw sh factor y x) <= factor * factor)%nat.
Proof.
  unfold block_colors, block_pixels. rewrite length_map, block_length. nia.
Qed.

Lemma block_colors_bytes (srcData : list Z) (sw sh factor y x : nat) :
  Forall is_byte srcData -> Forall byte_rgb (block_colors srcData sw sh factor y x).
Proof.
  intros Hb. unfold block_colors. apply Forall_forall. intros c Hc.
  apply list_elem_of_In, in_map_iff in Hc as (p & <- & _).
  unfold pixel_rgb, byte_rgb. pose proof (bytes_lookup srcData p Hb).
  pose proof (bytes_lookup srcData (p + 1) Hb). pose proof (bytes_lookup srcData (p + 2) Hb).
  unfold is_byte in *. lia.
Qed.

Lemma occ_pos_In {A : Type} `{EqDecision A} (l : list A) (a : A) : 0 < occ l a -> In a l.
Proof.
  induction l as [|x l IH]; simpl; [lia|].
  destruct (decide (x = a)); [now left|]. intros H. right. apply IH. lia.
Qed.

(** Every destination pixel holds the colour of its block's winner, under
    alpha 255. *)
Lemma resample_pixels (srcData : list Z) (sw sh dstW dstH factor : nat) :
  let out := resampleDominant srcData sw sh dstW dstH factor in
  forall y x : nat, (y < dstH)%nat -> (x < dstW)%nat ->
    rgb_at out (y * dstW + x) = bucket_color (block_winner srcData sw sh factor y x)
    /\ alpha_at out (y * dstW + x) = 255.
Proof.
  intros out y x Hy Hx.
  enough (G : length out = (dstW * dstH * 4)%nat
              /\ forall yx, In yx (raster_order dstH dstW) ->
                   rgb_at out (fst yx * dstW + snd yx)
                   = bucket_color (block_winner srcData sw sh factor (fst yx) (snd yx))
                   /\ alpha_at out (fst yx * dstW + snd yx) = 255).
  { apply (proj2 G (y, x)). now apply raster_order_In. }
  unfold out, resampleDominant, for_yx.
  apply (fold_left_ind _ (fun pre d =>
           length d = (dstW * dstH * 4)%nat
           /\ forall yx, In yx pre ->
                rgb_at d (fst yx * dstW + snd yx)
                = bucket_color (block_winner srcData sw sh factor (fst yx) (snd yx))
                /\ alpha_at d (fst yx * dstW + snd yx) = 255)).
  - split; [apply length_replicate|]. intros yx [].
  - intros pre a post d El [Hlen Hpre].
    assert (Ha : In a (raster_order dstH dstW)) by (rewrite El; apply in_or_app; right; now left).
    pose proof (raster_cell_bound _ _ _ Ha) as Hbound.
    rewrite dominant_body_put.
    pose proof (bucket_color_bytes (block_winner srcData sw sh factor (fst a) (snd a))) as Hbytes.
    destruct (bucket_color _) as [[r g] b] eqn:Ecol.
    pose proof (same_but_pixel_put (fst a * dstW + snd a) d r g b 255) as [Hl Hsame].
    split; [congruence|]. intros yx Hin. apply in_app_or in Hin as [Hin|[<-|[]]].
    + pose proof (raster_distinct_index _ _ _ _ _ _ El Hin) as Hne.
      destruct (Hpre yx Hin) as [Hrgb Halpha].
      unfold rgb_at, alpha_at in *. rewrite !Hsame by lia. auto.
    + rewrite put_pixel_rgb, put_pixel_alpha by lia.
      destruct Hbytes as (Hr & Hg & Hb). rewrite !clamp8_byte by lia.
      rewrite Ecol. auto.
Qed.

End DominantTheory.

(** C6 (amended).  The destination pixel of a block is opaque and holds
    the representative colour [(r >> 4) * 17, (g >> 4) * 17, (b >> 4) * 17]
    of the winning bucket: the bucket that was first, in scan order, to
    reach the highest count of the block.  A colour that fills more than
    half of the block therefore decides the pixel, which receives that
    colour's representative, not the colour itself; an empty block gives
    black. *)
Theorem C6_dominant_pixel_is_first_top_bucket
    (srcData : list Z) (sw sh dstW dstH factor y x : nat) :
  Forall is_byte srcData ->
  (y < dstH)%nat -> (x < dstW)%nat -> Z.of_nat (factor * factor) < 2 ^ 32 ->
  let out := resampleDominant srcData sw sh dstW dstH factor in
  let colors := block_colors srcData sw sh factor y x in
  alpha_at out (y * dstW + x) = 255
  /\ (forall c, Z.of_nat (length colors) < 2 * occ colors c ->
        rgb_at out (y * dstW + x) = representative c)
  /\ (colors <> [] ->
        exists b top, first_to_top (map bucket colors) b top
                      /\ rgb_at out (y * dstW + x) = bucket_color b)
  /\ (colors = [] -> rgb_at out (y * dstW + x) = (0, 0, 0)).
Proof.
  intros Hsrc Hy Hx Hsize out colors.
  destruct (resample_pixels srcData sw sh dstW dstH factor y x Hy Hx) as [Hrgb Halpha].
  fold out in Hrgb, Halpha. split; [exact Halpha|].
  pose proof (block_colors_bytes srcData sw sh factor y x Hsrc) as Hbytes.
  pose proof (block_colors_length srcData sw sh factor y x) as Hlen.
  fold colors in Hbytes, Hlen.
  assert (Hinv : tally_inv (map bucket colors)
                   (fold_left tally (map bucket colors) (replicate 4096 0, 0, -1))).
  { apply tally_fold.
    - apply Forall_forall. intros b Hb. apply list_elem_of_In, in_map_iff in Hb as (c & <- & Hc).
      apply bucket_range. eapply Forall_forall in Hbytes; [eassumption|now apply list_elem_of_In].
    - rewrite length_map. lia. }
  unfold block_winner in Hrgb. fold colors in Hrgb.
  destruct (fold_left tally (map bucket colors) _) as [[counts bestIdx] bestCount].
  cbn [fst snd] in Hrgb. destruct Hinv as (_ & _ & Hbest).
  split; [|split].
  - intros c Hc.
    assert (Hin : In c colors) by (apply occ_pos_In; pose proof (occ_range colors c); lia).
    assert (Hcb : byte_rgb c).
    { eapply Forall_forall in Hbytes; [eassumption|now apply list_elem_of_In]. }
    destruct Hbest as [(E & _ & _)|Htop].
    + destruct colors; [destruct Hin|discriminate].
    + rewrite Hrgb, <- (bucket_color_representative c Hcb). f_equal.
      apply (majority_wins _ _ _ _ Htop). rewrite length_map.
      pose proof (occ_map_le bucket colors c). lia.
  - intros Hne. destruct Hbest as [(E & _ & _)|Htop]; [destruct colors; [congruence|discriminate]|].
    exists bestIdx, bestCount. auto.
  - intros E. destruct Hbest as [(_ & -> & _)|(pre & post & El & _)].
    + rewrite Hrgb. reflexivity.
    + rewrite E in El. destruct pre; discriminate.
Qed.

(** A 3 x 3 block in which [(10, 20, 30)] fills five of the nine pixels,
    and a 2 x 2 block in which black and white fill two pixels each, black
    being seen first. *)
Definition majority_block : list Z :=
  [200; 0; 0; 255;    10; 20; 30; 255;   0; 200; 0; 255;
   10; 20; 30; 255;   10; 20; 30; 255;   0; 0; 200; 255;
   10; 20; 30; 255;   255; 255; 255; 255;   10; 20; 30; 255].

Definition tied_block : list Z :=
  [0; 0; 0; 255;   255; 255; 255; 255;   255; 255; 255; 255;   0; 0; 0; 255].

Lemma C6_dominant_pixel_witness :
  rgb_at (resampleDominant majority_block 3 3 1 1 3) 0 = (0, 17, 17)
  /\ alpha_at (resampleDominant majority_block 3 3 1 1 3) 0 = 255.
Proof.
  destruct (C6_dominant_pixel_is_first_top_bucket majority_block 3 3 1 1 3 0 0)
    as (Halpha & Hmajor & _).
  - unfold majority_block. repeat (constructor; [unfold is_byte; lia|]). constructor.
  - lia.
  - lia.
  - reflexivity.
  - split; [|exact Halpha]. apply (Hmajor (10, 20, 30)). vm_compute. reflexivity.
Defined.

(** C6 (as stated, fails).  In [tied_block] black is seen first and ties
    with white, and the pixel becomes white: white reached the count 2
    first.  In [majority_block] the colour [(10, 20, 30)] holds a strict
    majority, and the pixel becomes [(0, 17, 17)]. *)
Lemma C6_tie_goes_to_first_to_reach_top :
  block_colors tied_block 2 2 2 0 0
  = [(0, 0, 0); (255, 255, 255); (255, 255, 255); (0, 0, 0)]
  /\ rgb_at (resampleDominant tied_block 2 2 1 1 2) 0 = (255, 255, 255)
  /\ Z.of_nat (length (block_colors majority_block 3 3 3 0 0))
     < 2 * occ (block_colors majority_block 3 3 3 0 0) (10, 20, 30)
  /\ rgb_at (resampleDominant majority_block 3 3 1 1 3) 0 = (0, 17, 17).
Proof. vm_compute. repeat split; reflexivity. Qed.

(** ** The border counts *)

Section BorderCounts.

Fixpoint count_of (m : list (Z * Z)) (k : Z) : Z :=
  match m with
  | [] => 0
  | (k', c) :: m => if k =? k' then c else count_of m k
  end.

(** Keys in ascending order, as [for ... in] enumerates integer keys. *)
Fixpoint ascending (m : list (Z * Z)) : Prop :=
  match m with
  | [] => True
  | (k, c) :: m => (forall e, In e m -> k < fst e) /\ ascending m
  end.

Definition bumps (votes : list Z) : list (Z * Z) :=
  fold_left (fun m k => bump k m) votes [].

Lemma count_of_absent (m : list (Z * Z)) (k : Z) :
  (forall e, In e m -> k < fst e) -> count_of m k = 0.
Proof.
  induction m as [|[k' c] m IH]; intros H; simpl; [reflexivity|].
  pose proof (H (k', c) (or_introl eq_refl)) as Hk. simpl in Hk.
  destruct (k =? k') eqn:E; [apply Z.eqb_eq in E; lia|].
  apply IH. intros e He. apply H. now right.
Qed.

Lemma bump_In (k : Z) (m : list (Z * Z)) (e : Z * Z) :
  In e (bump k m) -> fst e = k \/ In e m.
Proof.
  induction m as [|[k' c] m IH]; simpl.
  - intros [<-|[]]. now left.
  - destruct (k =? k') eqn:E1.
    + apply Z.eqb_eq in E1. simpl. intros [<-|H]; [left; simpl; lia|tauto].
    + destruct (k <? k'); simpl; [intros [<-|H]; [now left|tauto]|].
      intros [H|H]; [tauto|]. destruct (IH H); tauto.
Qed.

Lemma bump_ascending (k : Z) (m : list (Z * Z)) :
  ascending m -> ascending (bump k m).
Proof.
  induction m as [|[k' c] m IH]; simpl.
  - intros _. split; [intros e []|exact I].
  - intros [Hlt Hasc]. destruct (k =? k') eqn:E1; [simpl; auto|].
    apply Z.eqb_neq in E1. destruct (k <? k') eqn:E2.
    + apply Z.ltb_lt in E2. simpl. split; [|auto].
      intros e [<-|He]; [exact E2|]. specialize (Hlt e He). lia.
    + apply Z.ltb_ge in E2. simpl. split; [|auto].
      intros e He. apply bump_In in He as [->|He]; [lia|auto].
Qed.

Lemma bump_count (k : Z) (m : list (Z * Z)) (k' : Z) :
  ascending m ->
  count_of (bump k m) k' = count_of m k' + (if decide (k = k') then 1 else 0).
Proof.
  induction m as [|[k0 c] m IH]; simpl.
  - intros _. destruct (decide (k = k')) as [->|Hne].
    + now rewrite Z.eqb_refl.
    + destruct (k' =? k) eqn:E; [apply Z.eqb_eq in E; congruence|reflexivity].
  - intros [Hlt Hasc]. destruct (k =? k0) eqn:E1.
    + apply Z.eqb_eq in E1. subst k0. simpl.
      destruct (decide (k = k')) as [->|Hne]; [now rewrite Z.eqb_refl|].
      destruct (k' =? k) eqn:E; [apply Z.eqb_eq in E; congruence|lia].
    + apply Z.eqb_neq in E1. destruct (k <? k0) eqn:E2.
      * apply Z.ltb_lt in E2. simpl.
        destruct (decide (k = k')) as [->|Hne].
        -- rewrite Z.eqb_refl. destruct (k' =? k0) eqn:E; [apply Z.eqb_eq in E; lia|].
           rewrite count_of_absent; [reflexivity|].
           intros e He. specialize (Hlt e He). lia.
        -- destruct (k' =? k) eqn:E; [apply Z.eqb_eq in E; congruence|lia].
      * simpl. destruct (k' =? k0) eqn:E.
        -- apply Z.eqb_eq in E. subst k0.
           destruct (decide (k = k')); [congruence|lia].
        -- now apply IH.
Qed.

Lemma bumps_snoc (votes : list Z) (k : Z) : bumps (votes ++ [k]) = bump k (bumps votes).
Proof. unfold bumps. now rewrite fold_left_app. Qed.

Lemma bumps_spec (votes : list Z) :
  ascending (bumps votes)
  /\ (forall k, count_of (bumps votes) k = occ votes k)
  /\ (forall e, In e (bumps votes) -> In (fst e) votes /\ snd e = occ votes (fst e)).
Proof.
  induction votes as [|k votes IH] using rev_ind.
  - split; [exact I|]. split; [reflexivity|intros e []].
  - destruct IH as (Hasc & Hcount & Hin). rewrite bumps_snoc.
    assert (Hc : forall k', count_of (bump k (bumps votes)) k' = occ (votes ++ [k]) k').
    { intros k'. rewrite bump_count, Hcount, occ_app by assumption. simpl. lia. }
    split; [now apply bump_ascending|]. split; [exact Hc|].
    intros e He.
    assert (Hfst : In (fst e) (votes ++ [k])).
    { apply bump_In in He as [->|He]; apply in_or_app; [right; now left|].
      left. now apply Hin. }
    split; [exact Hfst|].
    rewrite <- Hc. clear - He Hasc.
    pose proof (bump_ascending k _ Hasc) as Ha. revert He Ha.
    generalize (bump k (bumps votes)). intros m. induction m as [|[k0 c0] m IHm]; [intros []|].
    simpl. intros [<-|He] [Hlt Ha]; simpl; [now rewrite Z.eqb_refl|].
    destruct (fst e =? k0) eqn:E; [|auto].
    apply Z.eqb_eq in E. specialize (Hlt e He). lia.
Qed.

Lemma occ_In_pos {A : Type} `{EqDecision A} (l : list A) (a : A) : In a l -> 0 < occ l a.
Proof.
  induction l as [|x l IH]; [intros []|]. simpl. pose proof (occ_range l a) as Hr.
  destruct (decide (x = a)); [lia|]. intros [?|Hin]; [congruence|]. specialize (IH Hin). lia.
Qed.

Lemma ascending_app (m1 m2 : list (Z * Z)) (e : Z * Z) :
  ascending (m1 ++ e :: m2) -> forall e', In e' m1 -> fst e' < fst e.
Proof.
  induction m1 as [|[k c] m1 IH]; [intros _ e' []|].
  simpl. intros [Hlt Ha] e' [<-|He'].
  - simpl. apply (Hlt e). apply in_or_app. right. now left.
  - now apply IH.
Qed.

(** The winner of the count: the lowest key among those counted most. *)
Lemma best_border_spec (votes : list Z) :
  let '(bestKey, bestCnt) := best_border (bumps votes) in
  (votes = [] /\ bestKey = -1)
  \/ (In bestKey votes
      /\ (forall k, occ votes k <= occ votes bestKey)
      /\ (forall k, occ votes k = occ votes bestKey -> bestKey <= k)).
Proof.
  destruct (bumps_spec votes) as (Hasc & Hcount & Hin).
  assert (G : let '(bestKey, bestCnt) := best_border (bumps votes) in
              (bumps votes = [] /\ bestKey = -1 /\ bestCnt = -1)
              \/ (In (bestKey, bestCnt) (bumps votes)
                  /\ forall e, In e (bumps votes) ->
                       snd e <= bestCnt /\ (snd e = bestCnt -> bestKey <= fst e))).
  { unfold best_border.
    apply (fold_left_ind _ (fun pre (best : Z * Z) =>
             let '(bestKey, bestCnt) := best in
             (pre = [] /\ bestKey = -1 /\ bestCnt = -1)
             \/ (In (bestKey, bestCnt) pre
                 /\ forall e, In e pre ->
                      snd e <= bestCnt /\ (snd e = bestCnt -> bestKey <= fst e)))).
    - now left.
    - intros pre [ks c] post [bestKey bestCnt] El Hpre. cbn beta iota zeta in Hpre |- *.
      assert (Hc : 0 < c).
      { assert (He : In (ks, c) (bumps votes)) by (rewrite El; apply in_or_app; right; now left).
        destruct (Hin _ He) as [H1 H2]. simpl in H1, H2. rewrite H2. now apply occ_In_pos. }
      assert (Hlt : forall e, In e pre -> fst e < ks).
      { rewrite El in Hasc. intros e He. apply (ascending_app _ _ _ Hasc e He). }
      destruct (bestCnt <? c) eqn:E; right.
      + apply Z.ltb_lt in E. split; [apply in_or_app; right; now left|].
        intros e He. apply in_app_or in He as [He|[<-|[]]]; [|simpl; lia].
        destruct Hpre as [(-> & _ & _)|(_ & Hmax)]; [destruct He|].
        destruct (Hmax e He). lia.
      + apply Z.ltb_ge in E. destruct Hpre as [(_ & _ & ->)|(Hbest & Hmax)]; [lia|].
        split; [apply in_or_app; now left|].
        intros e He. apply in_app_or in He as [He|[<-|[]]]; [auto|]. simpl.
        split; [exact E|]. intros _. specialize (Hlt _ Hbest). simpl in Hlt. lia. }
  destruct (best_border (bumps votes)) as [bestKey bestCnt].
  destruct G as [(E & -> & _)|(Hbest & Hmax)].
  - left. split; [|reflexivity]. destruct votes as [|k votes]; [reflexivity|exfalso].
    assert (H0 : 0 < occ (k :: votes) k) by (apply occ_In_pos; now left).
    rewrite <- Hcount, E in H0. simpl in H0. lia.
  - right. destruct (Hin _ Hbest) as [H1 H2]. simpl in H1, H2. split; [exact H1|].
    assert (Hk : forall k, In k votes -> occ votes k <= bestCnt
                                         /\ (occ votes k = bestCnt -> bestKey <= k)).
    { intros k Hk. pose proof (occ_In_pos _ _ Hk) as Hpos. rewrite <- Hcount in Hpos.
      assert (He : In (k, count_of (bumps votes) k) (bumps votes)).
      { clear - Hpos. induction (bumps votes) as [|[k0 c0] m IHm]; simpl in *; [lia|].
        destruct (k =? k0) eqn:E; [apply Z.eqb_eq in E; subst; now left|]. right. auto. }
      destruct (Hmax _ He) as [Hm1 Hm2]. simpl in Hm1, Hm2. rewrite Hcount in Hm1, Hm2. auto. }
    pose proof (occ_In_pos _ _ H1) as Hpos.
    split; intros k; pose proof (occ_range votes k) as Hr;
      destruct (decide (0 < occ votes k)) as [Hp|Hn].
    + rewrite <- H2. now apply Hk, occ_pos_In.
    + lia.
    + rewrite <- H2. now apply Hk, occ_pos_In.
    + lia.
Qed.

End BorderCounts.

(** ** Regions of a raster *)

Section RegionTheory.

Context (width height : nat).

(** Cells are [(x, y)] pairs, as the flood fill queues them. *)
Definition in_grid (c : nat * nat) : Prop := (fst c < width)%nat /\ (snd c < height)%nat.

Definition cell_index (c : nat * nat) : nat := (snd c * width + fst c)%nat.

(** The neighbour of [c] in direction [d], unless it falls off the raster. *)
Definition step_to (c : nat * nat) (d : Z * Z) : option (nat * nat) :=
  let nx := Z.of_nat (fst c) + fst d in
  let ny := Z.of_nat (snd c) + snd d in
  if (nx <? 0) || (ny <? 0) || (Z.of_nat width <=? nx) || (Z.of_nat height <=? ny)
  then None
  else Some (Z.to_nat nx, Z.to_nat ny).

(** What [flood_neighbor] does with a neighbour inside the raster. *)
Definition examine (result : list Z) (key : Z) (c : nat * nat) (st : Flood) : Flood :=
  let l2 := cell_index c in
  if (fl_visited st !!! l2 : bool) then st
  else if sr_alpha result l2 <? 128 then
    {| fl_visited := <[l2 := true]> (fl_visited st); fl_queue := fl_queue st;
       fl_comp := fl_comp st; fl_border := fl_border st |}
  else
    let k2 := sr_key result l2 in
    if k2 =? key then
      {| fl_visited := <[l2 := true]> (fl_visited st);
         fl_queue := fl_queue st ++ [c];
         fl_comp := fl_comp st; fl_border := fl_border st |}
    else
      {| fl_visited := fl_visited st; fl_queue := fl_queue st;
         fl_comp := fl_comp st; fl_border := bump k2 (fl_border st) |}.

Lemma flood_neighbor_examine (result : list Z) (key : Z) (cx0 cy0 : nat) (st : Flood)
    (d : Z * Z) :
  flood_neighbor result width height key cx0 cy0 st d
  = match step_to (cx0, cy0) d with
    | None => st
    | Some c => examine result key c st
    end.
Proof.
  unfold flood_neighbor, step_to. cbn [fst snd].
  destruct (_ || _ || _ || _) eqn:E; [reflexivity|].
  apply orb_false_iff in E as [E E4]. apply orb_false_iff in E as [E E3].
  apply orb_false_iff in E as [E1 E2].
  apply Z.ltb_ge in E1, E2. apply Z.leb_gt in E3, E4.
  unfold examine, cell_index. cbn [fst snd].
  replace (Z.to_nat ((Z.of_nat cy0 + snd d) * Z.of_nat width + (Z.of_nat cx0 + fst d)))
    with (Z.to_nat (Z.of_nat cy0 + snd d) * width + Z.to_nat (Z.of_nat cx0 + fst d))%nat
    by nia.
  reflexivity.
Qed.

Lemma step_to_in_grid (c c' : nat * nat) (d : Z * Z) :
  step_to c d = Some c' -> in_grid c'.
Proof.
  unfold step_to, in_grid. destruct (_ || _ || _ || _) eqn:E; [discriminate|].
  intros [= <-]. cbn [fst snd].
  apply orb_false_iff in E as [E E4]. apply orb_false_iff in E as [E E3].
  apply orb_false_iff in E as [E1 E2].
  apply Z.ltb_ge in E1, E2. apply Z.leb_gt in E3, E4. lia.
Qed.

(** Going back: the opposite direction leads from the neighbour to the cell. *)
Lemma step_to_back (c c' : nat * nat) (d : Z * Z) :
  in_grid c -> In d neighbors -> step_to c d = Some c' ->
  exists d', In d' neighbors /\ step_to c' d' = Some c.
Proof.
  intros [Hx Hy] Hd Hs. exists (- fst d, - snd d).
  destruct c as [x y]. cbn [fst snd] in *.
  unfold step_to in *. cbn [fst snd] in *.
  destruct (_ || _ || _ || _) eqn:E in Hs; [discriminate|]. injection Hs as <-.
  apply orb_false_iff in E as [E E4]. apply orb_false_iff in E as [E E3].
  apply orb_false_iff in E as [E1 E2].
  apply Z.ltb_ge in E1, E2. apply Z.leb_gt in E3, E4.
  split.
  - unfold neighbors in *. simpl in Hd. simpl.
    destruct Hd as [<-|[<-|[<-|[<-|[]]]]]; simpl; auto.
  - cbn [fst snd]. rewrite !Z2Nat.id by lia.
    replace (Z.of_nat x + fst d + - fst d) with (Z.of_nat x) by lia.
    replace (Z.of_nat y + snd d + - snd d) with (Z.of_nat y) by lia.
    rewrite !Nat2Z.id.
    destruct (_ || _ || _ || _) eqn:E'; [|reflexivity].
    apply orb_true_iff in E' as [E'|E']; [|apply Z.leb_le in E'; lia].
    apply orb_true_iff in E' as [E'|E']; [|apply Z.leb_le in E'; lia].
    apply orb_true_iff in E' as [E'|E']; apply Z.ltb_lt in E'; lia.
Qed.

Lemma cell_index_inj (c c' : nat * nat) :
  in_grid c -> in_grid c' -> cell_index c = cell_index c' -> c = c'.
Proof.
  destruct c as [x y], c' as [x' y']. unfold in_grid, cell_index. cbn [fst snd].
  intros [Hx _] [Hx' _] E.
  pose proof (raster_index_inj width y x y' x' Hx Hx' E) as H. congruence.
Qed.

Lemma cell_index_bound (c : nat * nat) :
  in_grid c -> (cell_index c < width * height)%nat.
Proof. unfold in_grid, cell_index. intros [Hx Hy]. nia. Qed.

(** *** The flood fill *)

Definition count_false (v : list bool) : nat := length (filter (fun b => negb b) v).

Lemma count_false_insert (v : list bool) (l : nat) :
  (l < length v)%nat -> v !!! l = false ->
  (count_false (<[l := true]> v) + 1 = count_false v)%nat.
Proof.
  unfold count_false. revert l. induction v as [|b v IH]; intros l Hl Hv; simpl in *; [lia|].
  destruct l as [|l]; simpl in *.
  - subst b. rewrite !filter_cons. simpl.
    destruct (decide (negb true)) as [H|H]; [destruct H|].
    destruct (decide (negb false)) as [H'|H']; [simpl; lia|destruct H'; exact I].
  - rewrite !filter_cons. specialize (IH l ltac:(lia) Hv).
    destruct (decide (negb b)); simpl; lia.
Qed.

Section FloodFill.

Context (result : list Z) (visited0 : list bool) (key : Z) (seed : nat * nat).
Context (P : nat * nat -> Prop).
Hypothesis P_step : forall a d c,
  P a -> In d neighbors -> step_to a d = Some c ->
  visited0 !!! cell_index c = false -> 128 <= sr_alpha result (cell_index c) ->
  sr_key result (cell_index c) = key -> P c.

(** An opaque neighbour of another colour whose region is still to come. *)
Definition differing (c : nat * nat) : Prop :=
  visited0 !!! cell_index c = false
  /\ 128 <= sr_alpha result (cell_index c)
  /\ sr_key result (cell_index c) <> key.

Definition examined (st : Flood) (c : nat * nat) : Prop :=
  fl_visited st !!! cell_index c = true \/ differing c.

Definition offset_of (c : nat * nat) : nat := (cell_index c * 4)%nat.

Definition differing_b (c : nat * nat) : bool :=
  negb (visited0 !!! cell_index c)
  && negb (sr_alpha result (cell_index c) <? 128)
  && negb (sr_key result (cell_index c) =? key).

(** The keys counted in [borderColors], in the order of the counting. *)
Definition vote (c : nat * nat) : list Z :=
  if differing_b c then [sr_key result (cell_index c)] else [].

Definition votes_at (a : nat * nat) (ds : list (Z * Z)) : list Z :=
  flat_map (fun d => match step_to a d with Some c => vote c | None => [] end) ds.

Definition votes_of (cells : list (nat * nat)) : list Z :=
  flat_map (fun a => votes_at a neighbors) cells.

Lemma differing_b_spec (c : nat * nat) : differing_b c = true <-> differing c.
Proof.
  unfold differing_b, differing. rewrite !andb_true_iff, !negb_true_iff.
  rewrite Z.ltb_ge, Z.eqb_neq. tauto.
Qed.

(** The invariant of the [while] loop: [cells] are the cells taken from the
    queue so far, and the neighbours of the cells in [closed] have all
    been looked at. *)
Record flood_inv (st : Flood) (cells closed : list (nat * nat)) (votes : list Z)
  : Prop := {
  fi_length : length (fl_visited st) = (width * height)%nat;
  fi_mono : forall l, visited0 !!! l = true -> fl_visited st !!! l = true;
  fi_comp : fl_comp st = map offset_of cells;
  fi_new : forall c, in_grid c -> fl_visited st !!! cell_index c = true ->
             visited0 !!! cell_index c = true
             \/ sr_alpha result (cell_index c) < 128
             \/ In c (fl_queue st ++ cells);
  fi_found : forall c, In c (fl_queue st ++ cells) ->
               in_grid c /\ visited0 !!! cell_index c = false
               /\ fl_visited st !!! cell_index c = true
               /\ sr_key result (cell_index c) = key /\ P c;
  fi_nodup : NoDup (fl_queue st ++ cells);
  fi_seed : In seed (fl_queue st ++ cells);
  fi_closed : forall a d c, In a closed -> In d neighbors -> step_to a d = Some c ->
                examined st c;
  fi_votes : fl_border st = bumps votes
}.

Lemma not_true_false (b : bool) : b <> true -> b = false.
Proof. destruct b; congruence. Qed.

Lemma examine_inv (st : Flood) (cells closed : list (nat * nat)) (votes : list Z)
    (a : nat * nat) (d : Z * Z) (c : nat * nat) :
  flood_inv st cells closed votes -> In a cells -> In d neighbors ->
  step_to a d = Some c ->
  let st' := examine result key c st in
  flood_inv st' cells closed (votes ++ vote c)
  /\ examined st' c
  /\ (forall l, fl_visited st !!! l = true -> fl_visited st' !!! l = true)
  /\ (count_false (fl_visited st') + length (fl_queue st')
      <= count_false (fl_visited st) + length (fl_queue st))%nat.
Proof.
  intros Hinv Ha Hd Hstep. pose proof (step_to_in_grid _ _ _ Hstep) as Hgrid.
  pose proof (cell_index_bound c Hgrid) as Hbound.
  destruct Hinv as [Hlen Hmono Hcomp Hnew Hfound Hnodup Hseed Hclosed Hborder].
  unfold examine. cbv zeta.
  destruct (fl_visited st !!! cell_index c) eqn:Evis.
  { assert (Hvote : vote c = []).
    { unfold vote, differing_b.
      destruct (Hnew c Hgrid Evis) as [H|[H|H]].
      - now rewrite H.
      - apply Z.ltb_lt in H. rewrite H. now rewrite andb_false_r.
      - destruct (Hfound c H) as (_ & _ & _ & Hk & _). apply Z.eqb_eq in Hk.
        rewrite Hk. now rewrite andb_false_r. }
    rewrite Hvote, app_nil_r.
    split; [constructor; assumption|]. split; [now left|]. split; [auto|lia]. }
  assert (Hv0 : visited0 !!! cell_index c = false).
  { apply not_true_false. intros H. apply Hmono in H. congruence. }
  assert (Hgrow : forall l, fl_visited st !!! l = true ->
                            <[cell_index c := true]> (fl_visited st) !!! l = true).
  { intros l Hl. destruct (decide (l = cell_index c)) as [->|Hne].
    - apply list_lookup_total_insert_eq. lia.
    - now rewrite list_lookup_total_insert_ne by congruence. }
  assert (Hset : <[cell_index c := true]> (fl_visited st) !!! cell_index c = true).
  { apply list_lookup_total_insert_eq. lia. }
  pose proof (count_false_insert (fl_visited st) (cell_index c) ltac:(lia) Evis) as Hcount.
  destruct (sr_alpha result (cell_index c) <? 128) eqn:Ealpha.
  { assert (Hvote : vote c = []).
    { unfold vote, differing_b. rewrite Ealpha. now rewrite andb_false_r. }
    rewrite Hvote, app_nil_r.
    apply Z.ltb_lt in Ealpha. cbn [fl_visited fl_queue].
    split; [|split; [now left|split; [exact Hgrow|lia]]].
    constructor; cbn [fl_visited fl_queue fl_comp fl_border].
    - now rewrite length_insert.
    - auto.
    - assumption.
    - intros c' Hg' Hv'. destruct (decide (cell_index c' = cell_index c)) as [E|Hne].
      + right. left. now rewrite E.
      + rewrite list_lookup_total_insert_ne in Hv' by congruence. auto.
    - intros c' Hin. destruct (Hfound c' Hin) as (? & ? & ? & ? & ?). auto.
    - assumption.
    - assumption.
    - intros a' d' c' Ha' Hd' Hs'. destruct (Hclosed a' d' c' Ha' Hd' Hs') as [H|H];
        [left; auto|now right].
    - assumption. }
  apply Z.ltb_ge in Ealpha.
  destruct (sr_key result (cell_index c) =? key) eqn:Ekey.
  { assert (Hvote : vote c = []).
    { unfold vote, differing_b. rewrite Ekey. now rewrite andb_false_r. }
    rewrite Hvote, app_nil_r.
    apply Z.eqb_eq in Ekey. cbn [fl_visited fl_queue].
    assert (Hfresh : ~ In c (fl_queue st ++ cells)).
    { intros Hin. destruct (Hfound c Hin) as (_ & _ & H & _). congruence. }
    split; [|split; [now left|split; [exact Hgrow|rewrite length_app; simpl; lia]]].
    constructor; cbn [fl_visited fl_queue fl_comp fl_border].
    - now rewrite length_insert.
    - auto.
    - assumption.
    - intros c' Hg' Hv'. destruct (decide (cell_index c' = cell_index c)) as [E|Hne].
      + right. right. apply cell_index_inj in E; [|assumption|assumption]. subst c'.
        rewrite <- app_assoc. apply in_or_app. right. now left.
      + rewrite list_lookup_total_insert_ne in Hv' by congruence.
        destruct (Hnew c' Hg' Hv') as [H|[H|H]]; [tauto|tauto|].
        right. right. rewrite <- app_assoc. apply in_app_or in H as [H|H].
        * apply in_or_app. now left.
        * apply in_or_app. right. now right.
    - intros c' Hin. rewrite <- app_assoc in Hin. apply in_app_or in Hin as [Hin|[<-|Hin]].
      + destruct (Hfound c' (in_or_app _ _ _ (or_introl Hin))) as (? & ? & ? & ? & ?). auto.
      + split; [assumption|]. split; [assumption|]. split; [assumption|].
        split; [assumption|]. apply (P_step a d c); try assumption.
        destruct (Hfound a (in_or_app _ _ _ (or_intror Ha))) as (_ & _ & _ & _ & H). exact H.
      + destruct (Hfound c' (in_or_app _ _ _ (or_intror Hin))) as (? & ? & ? & ? & ?). auto.
    - rewrite <- app_assoc. simpl.
      apply NoDup_app in Hnodup as (Hq & Hqc & Hc).
      apply NoDup_app. split; [assumption|]. split.
      * intros x Hx Hx'. apply elem_of_cons in Hx' as [->|Hx'].
        -- apply Hfresh, in_or_app. left. now apply list_elem_of_In.
        -- now apply (Hqc x).
      * apply NoDup_cons. split; [|assumption].
        intros Hx. apply Hfresh, in_or_app. right. now apply list_elem_of_In.
    - rewrite <- app_assoc. apply in_app_or in Hseed as [H|H];
        apply in_or_app; [now left|right; now right].
    - intros a' d' c' Ha' Hd' Hs'. destruct (Hclosed a' d' c' Ha' Hd' Hs') as [H|H];
        [left; auto|now right].
    - assumption. }
  assert (Hvote : vote c = [sr_key result (cell_index c)]).
  { unfold vote, differing_b. rewrite Hv0, Ekey.
    apply Z.ltb_ge in Ealpha. now rewrite Ealpha. }
  rewrite Hvote.
  apply Z.eqb_neq in Ekey. cbn [fl_visited fl_queue].
  assert (Hdiff : differing c) by (unfold differing; auto).
  split; [|split; [now right|split; [auto|lia]]].
  constructor; cbn [fl_visited fl_queue fl_comp fl_border]; try assumption.
  rewrite Hborder. unfold bumps. now rewrite fold_left_app.
Qed.

Lemma examined_mono (st st' : Flood) (c : nat * nat) :
  (forall l, fl_visited st !!! l = true -> fl_visited st' !!! l = true) ->
  examined st c -> examined st' c.
Proof. intros Hm [H|H]; [left; auto|now right]. Qed.

Definition measure (st : Flood) : nat :=
  (count_false (fl_visited st) + length (fl_queue st))%nat.

(** One round of the [while] loop: the head of the queue joins [comp], and
    its four neighbours are looked at. *)
Lemma flood_round (st : Flood) (cells : list (nat * nat)) (a : nat * nat)
    (rest : list (nat * nat)) :
  flood_inv st cells cells (votes_of cells) -> fl_queue st = a :: rest ->
  let st1 := {| fl_visited := fl_visited st; fl_queue := rest;
                fl_comp := fl_comp st ++ [((snd a * width + fst a) * 4)%nat];
                fl_border := fl_border st |} in
  let st2 := fold_left (flood_neighbor result width height key (fst a) (snd a))
               neighbors st1 in
  flood_inv st2 (cells ++ [a]) (cells ++ [a]) (votes_of (cells ++ [a]))
  /\ (measure st2 + 1 <= measure st)%nat.
Proof.
  intros Hinv Hq st1 st2.
  assert (Hperm : forall c, In c (fl_queue st ++ cells) <-> In c (rest ++ cells ++ [a])).
  { intros c. rewrite Hq. simpl. rewrite !in_app_iff. simpl. tauto. }
  assert (Hinv1 : flood_inv st1 (cells ++ [a]) cells (votes_of cells)).
  { destruct Hinv as [Hlen Hmono Hcomp Hnew Hfound Hnodup Hseed Hclosed Hborder].
    constructor; cbn [st1 fl_visited fl_queue fl_comp fl_border].
    - assumption.
    - assumption.
    - rewrite Hcomp, map_app. reflexivity.
    - intros c Hg Hv. destruct (Hnew c Hg Hv) as [H|[H|H]]; [tauto|tauto|].
      right. right. now apply Hperm.
    - intros c Hin. apply Hfound. now apply Hperm.
    - rewrite Hq in Hnodup. simpl in Hnodup.
      eapply NoDup_Permutation_proper; [|exact Hnodup].
      rewrite app_assoc. symmetry. apply Permutation_cons_append.
    - now apply Hperm.
    - assumption.
    - assumption. }
  assert (Ha : In a (cells ++ [a])) by (apply in_or_app; right; now left).
  assert (Hm1 : (measure st1 + 1 = measure st)%nat).
  { unfold measure, st1. cbn [fl_visited fl_queue]. rewrite Hq. simpl. lia. }
  enough (G : flood_inv st2 (cells ++ [a]) cells (votes_of cells ++ votes_at a neighbors)
              /\ (forall d c, In d neighbors -> step_to a d = Some c -> examined st2 c)
              /\ (measure st2 <= measure st1)%nat).
  { destruct G as (G1 & G2 & G3). split; [|lia].
    destruct G1 as [Hlen Hmono Hcomp Hnew Hfound Hnodup Hseed Hclosed Hborder].
    constructor; try assumption.
    - intros a' d c Ha' Hd Hs. apply in_app_or in Ha' as [Ha'|[<-|[]]]; eauto.
    - rewrite Hborder. unfold votes_of. rewrite flat_map_app. cbn [flat_map].
      now rewrite app_nil_r. }
  unfold st2.
  apply (fold_left_ind _ (fun pre s =>
           flood_inv s (cells ++ [a]) cells (votes_of cells ++ votes_at a pre)
           /\ (forall d c, In d pre -> step_to a d = Some c -> examined s c)
           /\ (measure s <= measure st1)%nat)).
  - split; [simpl; rewrite app_nil_r; exact Hinv1|]. split; [intros d c []|lia].
  - intros pre d post s El (Hs & Hex & Hms).
    assert (Hd : In d neighbors) by (rewrite El; apply in_or_app; right; now left).
    rewrite flood_neighbor_examine. replace (fst a, snd a) with a by now destruct a.
    destruct (step_to a d) as [c|] eqn:Estep.
    + destruct (examine_inv s (cells ++ [a]) cells _ a d c Hs Ha Hd Estep)
        as (Hs' & Hc & Hgrow & Hm').
      assert (Ev : votes_at a (pre ++ [d]) = votes_at a pre ++ vote c).
      { unfold votes_at. rewrite flat_map_app. simpl. now rewrite Estep, app_nil_r. }
      rewrite Ev, app_assoc.
      split; [exact Hs'|]. split; [|unfold measure in *; lia].
      intros d' c' Hd' Hstep'. apply in_app_or in Hd' as [Hd'|[<-|[]]].
      * eapply examined_mono; [exact Hgrow|]. eauto.
      * congruence.
    + assert (Ev : votes_at a (pre ++ [d]) = votes_at a pre).
      { unfold votes_at. rewrite flat_map_app. simpl. now rewrite Estep, !app_nil_r. }
      rewrite Ev.
      split; [exact Hs|]. split; [|exact Hms].
      intros d' c' Hd' Hstep'. apply in_app_or in Hd' as [Hd'|[<-|[]]]; [eauto|congruence].
Qed.

(** The loop empties the queue within the rounds it is given. *)
Lemma flood_runs (fuel : nat) (st : Flood) (cells : list (nat * nat)) :
  flood_inv st cells cells (votes_of cells) -> (measure st <= fuel)%nat ->
  exists cells', flood_inv (flood fuel result width height key st) cells' cells'
                   (votes_of cells')
                 /\ fl_queue (flood fuel result width height key st) = [].
Proof.
  revert st cells. induction fuel as [|fuel IH]; intros st cells Hinv Hm.
  - exists cells. split; [exact Hinv|]. unfold measure in Hm. simpl.
    destruct (fl_queue st); [reflexivity|simpl in Hm; lia].
  - simpl. destruct (fl_queue st) as [|[cx0 cy0] rest] eqn:Eq.
    + exists cells. auto.
    + destruct (flood_round st cells (cx0, cy0) rest Hinv Eq) as [Hinv' Hm'].
      cbn [fst snd] in Hinv', Hm'. apply (IH _ _ Hinv'). lia.
Qed.

Hypothesis visited0_length : length visited0 = (width * height)%nat.

Lemma count_false_le (v : list bool) : (count_false v <= length v)%nat.
Proof. unfold count_false. apply length_filter. Qed.

(** The flood fill from [seed]. *)
Lemma flood_from_seed :
  in_grid seed -> visited0 !!! cell_index seed = false ->
  sr_key result (cell_index seed) = key -> P seed ->
  let fl := flood (width * height) result width height key
              {| fl_visited := <[cell_index seed := true]> visited0;
                 fl_queue := [seed]; fl_comp := []; fl_border := [] |} in
  exists cells, flood_inv fl cells cells (votes_of cells) /\ fl_queue fl = [].
Proof.
  intros Hg Hv Hk Hp fl. pose proof (cell_index_bound seed Hg) as Hb.
  apply (flood_runs _ _ []).
  - constructor; cbn [fl_visited fl_queue fl_comp fl_border].
    + now rewrite length_insert.
    + intros l Hl. destruct (decide (l = cell_index seed)) as [->|Hne]; [congruence|].
      now rewrite list_lookup_total_insert_ne by congruence.
    + reflexivity.
    + intros c Hc Hvc. destruct (decide (cell_index c = cell_index seed)) as [E|Hne].
      * right. right. left. symmetry. now apply cell_index_inj.
      * rewrite list_lookup_total_insert_ne in Hvc by congruence. now left.
    + intros c [<-|[]]. split; [assumption|]. split; [assumption|].
      split; [|split; assumption]. apply list_lookup_total_insert_eq. lia.
    + simpl. apply NoDup_singleton.
    + now left.
    + intros a d c [].
    + reflexivity.
  - unfold measure. cbn [fl_visited fl_queue].
    pose proof (count_false_insert visited0 (cell_index seed) ltac:(lia) Hv).
    pose proof (count_false_le visited0). simpl. lia.
Qed.

End FloodFill.

(** *** Regions *)

Section Regions.

Context (img : list Z).
Hypothesis img_bytes : Forall is_byte img.
Hypothesis img_length : length img = (width * height * 4)%nat.

Definition opaque (c : nat * nat) : Prop := 128 <= sr_alpha img (cell_index c).

(** Two neighbouring opaque cells of the same colour. *)
Definition linked (a b : nat * nat) : Prop :=
  (exists d, In d neighbors /\ step_to a d = Some b)
  /\ opaque a /\ opaque b
  /\ sr_key img (cell_index a) = sr_key img (cell_index b).

(** The region of a cell: what a chain of links reaches. *)
Inductive region (a : nat * nat) : nat * nat -> Prop :=
| region_refl : region a a
| region_step b c : region a b -> linked b c -> region a c.

Lemma region_trans (a b c : nat * nat) : region a b -> region b c -> region a c.
Proof.
  intros Hab Hbc. induction Hbc as [|c c' _ IH Hl]; [assumption|].
  exact (region_step a c c' IH Hl).
Qed.

Lemma region_in_grid (a b : nat * nat) : in_grid a -> region a b -> in_grid b.
Proof.
  intros Ha H. induction H as [|b c _ _ ((d & _ & Hs) & _)]; [assumption|].
  eapply step_to_in_grid; eauto.
Qed.

Lemma linked_sym (a b : nat * nat) : in_grid a -> linked a b -> linked b a.
Proof.
  intros Ha ((d & Hd & Hs) & Hoa & Hob & Hk).
  destruct (step_to_back a b d Ha Hd Hs) as (d' & Hd' & Hs').
  split; [eauto|]. split; [assumption|]. split; [assumption|]. now symmetry.
Qed.

Lemma region_sym (a b : nat * nat) : in_grid a -> region a b -> region b a.
Proof.
  intros Ha H. induction H as [|b c Hab IH Hbc]; [constructor|].
  pose proof (region_in_grid a b Ha Hab) as Hb.
  apply (region_trans c b a); [|auto].
  eapply region_step; [constructor|]. now apply linked_sym.
Qed.

Lemma region_opaque (a b : nat * nat) :
  region a b -> opaque a ->
  opaque b /\ sr_key img (cell_index b) = sr_key img (cell_index a).
Proof.
  intros H Ha. induction H as [|b c Hab IH (_ & _ & Hc & Hk)]; [auto|].
  destruct IH as [_ E]. split; [assumption|congruence].
Qed.

Lemma region_alone (a b : nat * nat) : region a b -> a = b \/ (opaque a /\ opaque b).
Proof.
  intros H. induction H as [|b c Hab IH (_ & Hb & Hc & _)]; [now left|].
  right. split; [|assumption]. destruct IH as [->|[Ha _]]; assumption.
Qed.

(** *** Pixels that keep their bytes *)

Definition same_pixel (d d' : list Z) (i : nat) : Prop :=
  forall k, (k < 4)%nat -> d' !!! (i * 4 + k)%nat = d !!! (i * 4 + k)%nat.

Lemma same_pixel_refl (d : list Z) (i : nat) : same_pixel d d i.
Proof. intros k _. reflexivity. Qed.

Lemma same_pixel_trans (d d' d'' : list Z) (i : nat) :
  same_pixel d d' i -> same_pixel d' d'' i -> same_pixel d d'' i.
Proof. intros H H' k Hk. rewrite H', H by assumption. reflexivity. Qed.

Lemma same_pixel_alpha (d d' : list Z) (i : nat) :
  same_pixel d d' i -> sr_alpha d' i = sr_alpha d i.
Proof. intros H. unfold sr_alpha. apply (H 3%nat). lia. Qed.

Lemma same_pixel_key (d d' : list Z) (i : nat) :
  same_pixel d d' i -> sr_key d' i = sr_key d i.
Proof.
  intros H. unfold sr_key. cbv zeta.
  pose proof (H 0%nat ltac:(lia)) as H0. pose proof (H 1%nat ltac:(lia)) as H1.
  pose proof (H 2%nat ltac:(lia)) as H2. rewrite Nat.add_0_r in H0.
  now rewrite H0, H1, H2.
Qed.

Lemma same_pixel_rgb (d d' : list Z) (i : nat) :
  same_pixel d d' i -> rgb_at d' i = rgb_at d i /\ alpha_at d' i = alpha_at d i.
Proof.
  intros H. unfold rgb_at, alpha_at.
  pose proof (H 0%nat ltac:(lia)) as H0. pose proof (H 1%nat ltac:(lia)) as H1.
  pose proof (H 2%nat ltac:(lia)) as H2. pose proof (H 3%nat ltac:(lia)) as H3.
  rewrite Nat.add_0_r in H0. now rewrite H0, H1, H2, H3.
Qed.

(** The colour behind a key. *)
Definition key_rgb (k : Z) : rgb8 :=
  (Z.land (Z.shiftr k 16) 255, Z.land (Z.shiftr k 8) 255, Z.land k 255).

Lemma key_rgb_pack (r g b : Z) :
  is_byte r -> is_byte g -> is_byte b ->
  key_rgb (ushr0 (bor (bor (shl r 16) (shl g 8)) b)) = (r, g, b).
Proof.
  intros Hr Hg Hb. unfold key_rgb, ushr0, bor.
  change (2 ^ 32) with (2 ^ 32). rewrite <- Z.land_ones by lia.
  rewrite !Z.shiftr_land, !Z.shiftr_lor, <- !Z.land_assoc, !Z.land_lor_distr_l.
  assert (B : forall (P : Z -> bool), forallb (fun k => P (Z.of_nat k)) (seq 0 256) = true ->
                forall z, is_byte z -> P z = true).
  { intros P HP z Hz. apply (below_cases 256 P HP). unfold is_byte in Hz. lia. }
  pose proof (B (fun z => (Z.land (Z.shiftr (shl z 16) 16) (Z.land (Z.shiftr (Z.ones 32) 16) 255) =? z)
                          && (Z.land (Z.shiftr (shl z 16) 8) (Z.land (Z.shiftr (Z.ones 32) 8) 255) =? 0)
                          && (Z.land (shl z 16) (Z.land (Z.ones 32) 255) =? 0))
                ltac:(vm_compute; reflexivity) r Hr) as H1.
  pose proof (B (fun z => (Z.land (Z.shiftr (shl z 8) 16) (Z.land (Z.shiftr (Z.ones 32) 16) 255) =? 0)
                          && (Z.land (Z.shiftr (shl z 8) 8) (Z.land (Z.shiftr (Z.ones 32) 8) 255) =? z)
                          && (Z.land (shl z 8) (Z.land (Z.ones 32) 255) =? 0))
                ltac:(vm_compute; reflexivity) g Hg) as H2.
  pose proof (B (fun z => (Z.land (Z.shiftr z 16) (Z.land (Z.shiftr (Z.ones 32) 16) 255) =? 0)
                          && (Z.land (Z.shiftr z 8) (Z.land (Z.shiftr (Z.ones 32) 8) 255) =? 0)
                          && (Z.land z (Z.land (Z.ones 32) 255) =? z))
                ltac:(vm_compute; reflexivity) b Hb) as H3.
  cbv beta in H1, H2, H3.
  rewrite !andb_true_iff, !Z.eqb_eq in H1, H2, H3.
  destruct H1 as [[-> ->] ->], H2 as [[-> ->] ->], H3 as [[-> ->] ->].
  rewrite !Z.lor_0_r, !Z.lor_0_l. reflexivity.
Qed.

(** *** Repainting a component *)

Lemma repaint_cells (nr ng nb : Z) (cells : list (nat * nat)) (result : list Z) :
  (forall c, In c cells -> in_grid c) -> length result = (width * height * 4)%nat ->
  let result' := fold_left (repaint nr ng nb) (map offset_of cells) result in
  length result' = length result
  /\ (forall i, (forall c, In c cells -> cell_index c <> i) -> same_pixel result result' i)
  /\ (forall c, In c cells ->
        rgb_at result' (cell_index c) = (clamp8 nr, clamp8 ng, clamp8 nb)
        /\ alpha_at result' (cell_index c) = 255).
Proof.
  intros Hgrid Hlen. induction cells as [|c cells IH] using rev_ind.
  - simpl. split; [reflexivity|]. split; [intros; apply same_pixel_refl|intros c []].
  - rewrite map_app, fold_left_app. cbn [map fold_left].
    destruct IH as (IH1 & IH2 & IH3).
    { intros c' Hc'. apply Hgrid, in_or_app. now left. }
    set (r1 := fold_left (repaint nr ng nb) (map offset_of cells) result) in *.
    unfold repaint, offset_of.
    pose proof (same_but_pixel_put (cell_index c) r1 nr ng nb 255) as [Hl Hsame].
    assert (Hc : in_grid c) by (apply Hgrid, in_or_app; right; now left).
    pose proof (cell_index_bound c Hc) as Hb.
    cbv zeta. split; [congruence|]. split.
    + intros i Hi. apply (same_pixel_trans _ r1).
      * apply IH2. intros c' Hc'. apply Hi, in_or_app. now left.
      * intros k Hk. apply Hsame.
        assert (cell_index c <> i) by (apply Hi, in_or_app; right; now left). lia.
    + intros c' Hc'. destruct (decide (cell_index c' = cell_index c)) as [E|Hne].
      * rewrite E. rewrite put_pixel_rgb, put_pixel_alpha by lia. auto.
      * apply in_app_or in Hc' as [Hc'|[<-|[]]]; [|congruence].
        destruct (IH3 c' Hc') as [Hrgb Halpha].
        unfold rgb_at, alpha_at in *. rewrite !Hsame by lia. auto.
Qed.

(** *** The order of the scan *)

Lemma seq_prefix_lt (l1 l2 : list nat) (x s n : nat) :
  l1 ++ x :: l2 = seq s n ->
  (forall y, In y l1 -> (y < x)%nat) /\ (forall y, In y l2 -> (x < y)%nat).
Proof.
  revert s n. induction l1 as [|z l1 IH]; intros s n E.
  - destruct n as [|n]; [discriminate|]. simpl in E. injection E as -> ->.
    split; [intros y []|]. intros y Hy. apply in_seq in Hy. lia.
  - destruct n as [|n]; [discriminate|]. simpl in E. injection E as -> E.
    destruct (IH _ _ E) as [H1 H2]. split; [|exact H2].
    intros y [<-|Hy]; [|auto].
    assert (Hx : In x (seq (S s) n)) by (rewrite <- E; apply in_or_app; right; now left).
    apply in_seq in Hx. lia.
Qed.

Lemma raster_prefix (pre post : list (nat * nat)) (a yx : nat * nat) :
  raster_order height width = pre ++ a :: post ->
  In yx pre <-> ((fst yx < height)%nat /\ (snd yx < width)%nat
                 /\ (fst yx * width + snd yx < fst a * width + snd a)%nat).
Proof.
  intros El. pose proof (raster_order_index height width) as Hidx.
  rewrite El, map_app in Hidx. cbn [map] in Hidx.
  destruct (seq_prefix_lt _ _ _ _ _ Hidx) as [Hlt Hgt].
  split.
  - intros Hin.
    assert (Hr : In yx (raster_order height width)) by (rewrite El; apply in_or_app; now left).
    destruct yx as [y' x']. apply raster_order_In in Hr. cbn [fst snd] in *.
    split; [tauto|]. split; [tauto|].
    apply (Hlt (y' * width + x')%nat).
    apply in_map_iff. exists (y', x'). auto.
  - intros (Hy & Hx & Hi).
    assert (Hr : In yx (raster_order height width)).
    { destruct yx as [y' x']. now apply raster_order_In. }
    rewrite El in Hr. apply in_app_or in Hr as [Hr|[<-|Hr]]; [assumption|lia|].
    assert (Hm : In (fst yx * width + snd yx)%nat
                    (map (fun yx => (fst yx * width + snd yx)%nat) post)).
    { apply in_map_iff. exists yx. auto. }
    apply Hgt in Hm. lia.
Qed.

(** *** What the scan leaves behind *)

Definition small (thr : Z) (c : nat * nat) : Prop :=
  exists l, (forall b, region c b -> In b l) /\ Z.of_nat (length l) < thr.

(** [s] is the cell at which the scan meets its region. *)
Definition first_cell (s : nat * nat) : Prop :=
  forall b, region s b -> (cell_index s <= cell_index b)%nat.

(** [scanned] tells of every opaque cell whether the scan has met its
    region before it arrives at [s]. *)
Definition scanned_ok (s : nat * nat) (scanned : list bool) : Prop :=
  forall b, in_grid b -> opaque b ->
    (scanned !!! cell_index b = true
     <-> exists b', region b b' /\ (cell_index b' < cell_index s)%nat).

(** The key counted most often, the lowest one among equals. *)
Definition winner (votes : list Z) (k : Z) : Prop :=
  In k votes
  /\ (forall k', occ votes k' <= occ votes k)
  /\ (forall k', occ votes k' = occ votes k -> k <= k').

Definition painted (d : list Z) (k : Z) (i : nat) : Prop :=
  rgb_at d i = key_rgb k /\ alpha_at d i = 255.

(** What becomes of the pixel [i] of a region of [size] cells with the
    border [votes]: [d0] is the raster before and [d] the raster after. *)
Definition verdict (thr : Z) (size : nat) (votes : list Z) (d0 d : list Z) (i : nat)
  : Prop :=
  if Z.of_nat size <? thr
  then (votes = [] -> same_pixel d0 d i) /\ (forall k, winner votes k -> painted d k i)
  else same_pixel d0 d i.

Definition outcome (thr : Z) (d : list Z) (c : nat * nat) : Prop :=
  forall s members scanned,
    in_grid s -> first_cell s -> region s c -> NoDup members ->
    (forall b, In b members <-> region s b) -> scanned_ok s scanned ->
    verdict thr (length members)
      (votes_of img scanned (sr_key img (cell_index s)) members) img d (cell_index c).

Lemma winner_unique (votes : list Z) (k k' : Z) : winner votes k -> winner votes k' -> k = k'.
Proof.
  intros (_ & Hmax & Hmin) (_ & Hmax' & Hmin').
  pose proof (Hmax k'). pose proof (Hmax' k).
  assert (E : occ votes k = occ votes k') by lia.
  pose proof (Hmin k' (eq_sym E)). pose proof (Hmin' k E). lia.
Qed.

Lemma occ_Permutation {A : Type} `{EqDecision A} (l l' : list A) (a : A) :
  l ≡ₚ l' -> occ l a = occ l' a.
Proof.
  induction 1 as [|x l l' _ IH|x y l|l l' l'' _ IH1 _ IH2]; simpl; try lia.
Qed.

Lemma winner_Permutation (votes votes' : list Z) (k : Z) :
  votes ≡ₚ votes' -> winner votes k -> winner votes' k.
Proof.
  intros Hp (Hin & Hmax & Hmin). split; [|split].
  - apply list_elem_of_In. rewrite <- Hp. now apply list_elem_of_In.
  - intros k'. rewrite <- !(occ_Permutation _ _ _ Hp). apply Hmax.
  - intros k'. rewrite <- !(occ_Permutation _ _ _ Hp). apply Hmin.
Qed.

Lemma painted_same (d d' : list Z) (k : Z) (i : nat) :
  same_pixel d d' i -> painted d k i -> painted d' k i.
Proof.
  intros Hs [H1 H2]. destruct (same_pixel_rgb _ _ _ Hs) as [E1 E2].
  split; congruence.
Qed.

Lemma verdict_same (thr : Z) (size : nat) (votes : list Z) (d0 d d' : list Z) (i : nat) :
  same_pixel d d' i -> verdict thr size votes d0 d i -> verdict thr size votes d0 d' i.
Proof.
  intros Hs. unfold verdict. destruct (Z.of_nat size <? thr).
  - intros [H1 H2]. split.
    + intros E. eapply same_pixel_trans; eauto.
    + intros k Hk. eapply painted_same; eauto.
  - intros H. eapply same_pixel_trans; eauto.
Qed.

Lemma outcome_same (thr : Z) (d d' : list Z) (c : nat * nat) :
  same_pixel d d' (cell_index c) -> outcome thr d c -> outcome thr d' c.
Proof.
  intros Hs Ho s members scanned H1 H2 H3 H4 H5 H6.
  eapply verdict_same; [exact Hs|]. now apply Ho.
Qed.

(** The invariant of the scan: [pre] lists the cells already passed. *)
Record simplify_inv (thr : Z) (pre : list (nat * nat)) (st : list Z * list bool)
  : Prop := {
  si_length_r : length (fst st) = (width * height * 4)%nat;
  si_length_v : length (snd st) = (width * height)%nat;
  si_fresh : forall c, in_grid c -> snd st !!! cell_index c = false ->
               same_pixel img (fst st) (cell_index c);
  si_whole : forall a b, in_grid a -> region a b ->
               snd st !!! cell_index a = snd st !!! cell_index b;
  si_done : forall yx, In yx pre -> snd st !!! (fst yx * width + snd yx)%nat = true;
  si_origin : forall c, in_grid c -> opaque c -> snd st !!! cell_index c = true ->
                exists c', region c c' /\ In (snd c', fst c') pre;
  si_transparent : forall c, in_grid c -> sr_alpha img (cell_index c) < 128 ->
                     same_pixel img (fst st) (cell_index c);
  si_large : forall c, in_grid c -> same_pixel img (fst st) (cell_index c) \/ small thr c;
  si_outcome : forall c, in_grid c -> opaque c -> snd st !!! cell_index c = true ->
                 outcome thr (fst st) c
}.

(** *** One step of the scan *)

Section ScanStep.

Context (thr : Z) (pre post : list (nat * nat)) (y x : nat).
Context (result : list Z) (visited : list bool).
Hypothesis El : raster_order height width = pre ++ (y, x) :: post.
Hypothesis Hinv : simplify_inv thr pre (result, visited).

Lemma inv_fresh (c : nat * nat) :
  in_grid c -> visited !!! cell_index c = false -> same_pixel img result (cell_index c).
Proof. exact (si_fresh _ _ _ Hinv c). Qed.

Lemma inv_whole (a b : nat * nat) :
  in_grid a -> region a b -> visited !!! cell_index a = visited !!! cell_index b.
Proof. exact (si_whole _ _ _ Hinv a b). Qed.

Lemma inv_done (c : nat * nat) : In (snd c, fst c) pre -> visited !!! cell_index c = true.
Proof. exact (si_done _ _ _ Hinv (snd c, fst c)). Qed.

Lemma inv_origin (c : nat * nat) :
  in_grid c -> opaque c -> visited !!! cell_index c = true ->
  exists c', region c c' /\ In (snd c', fst c') pre.
Proof. exact (si_origin _ _ _ Hinv c). Qed.

Lemma inv_length : length visited = (width * height)%nat.
Proof. exact (si_length_v _ _ _ Hinv). Qed.

Lemma here_in_grid : in_grid (x, y).
Proof.
  assert (H : In (y, x) (raster_order height width)) by (rewrite El; apply in_or_app; right; now left).
  apply raster_order_In in H. unfold in_grid. cbn [fst snd]. tauto.
Qed.

Lemma passed_iff (b : nat * nat) :
  in_grid b -> In (snd b, fst b) pre <-> (cell_index b < cell_index (x, y))%nat.
Proof.
  intros [Hx Hy]. rewrite (raster_prefix pre post (y, x) (snd b, fst b) El).
  unfold cell_index. cbn [fst snd]. tauto.
Qed.

Lemma visited_iff (b : nat * nat) :
  in_grid b -> opaque b ->
  visited !!! cell_index b = true
  <-> exists b', region b b' /\ (cell_index b' < cell_index (x, y))%nat.
Proof.
  intros Hb Ho. split.
  - intros Hv. destruct (inv_origin b Hb Ho Hv) as (c' & Hr & Hin).
    exists c'. split; [assumption|]. apply passed_iff; [|assumption].
    eapply region_in_grid; eauto.
  - intros (b' & Hr & Hlt). pose proof (region_in_grid _ _ Hb Hr) as Hb'.
    apply passed_iff in Hlt; [|assumption].
    rewrite (inv_whole b b' Hb Hr). now apply inv_done.
Qed.

Hypothesis Hfresh : visited !!! cell_index (x, y) = false.
Hypothesis Hopaque : 128 <= sr_alpha result (cell_index (x, y)).

Lemma here_same : same_pixel img result (cell_index (x, y)).
Proof. exact (inv_fresh (x, y) here_in_grid Hfresh). Qed.

Lemma here_opaque : opaque (x, y).
Proof. unfold opaque. rewrite <- (same_pixel_alpha _ _ _ here_same). exact Hopaque. Qed.

Lemma here_first : first_cell (x, y).
Proof.
  intros b Hr. destruct (Nat.le_gt_cases (cell_index (x, y)) (cell_index b)) as [|Hlt]; [assumption|].
  exfalso. pose proof (proj2 (visited_iff (x, y) here_in_grid here_opaque)) as H.
  rewrite H in Hfresh; [discriminate|]. eauto.
Qed.

Lemma reach_step (a : nat * nat) (d : Z * Z) (c : nat * nat) :
  region (x, y) a -> In d neighbors -> step_to a d = Some c ->
  visited !!! cell_index c = false -> 128 <= sr_alpha result (cell_index c) ->
  sr_key result (cell_index c) = sr_key result (cell_index (x, y)) ->
  region (x, y) c.
Proof.
  intros Hr Hd Hs Hv Ha Hk. pose proof (step_to_in_grid _ _ _ Hs) as Hc.
  pose proof (inv_fresh c Hc Hv) as Hsame.
  destruct (region_opaque _ _ Hr here_opaque) as [Hoa Hka].
  apply (region_step _ a c Hr). split; [eauto|]. split; [assumption|]. split.
  - unfold opaque. now rewrite <- (same_pixel_alpha _ _ _ Hsame).
  - rewrite Hka, <- (same_pixel_key _ _ _ Hsame), Hk. symmetry. apply (same_pixel_key _ _ _ here_same).
Qed.

(** What the flood fill from the cell gathers: its whole region. *)
Lemma flood_gathers :
  let fl := flood (width * height) result width height (sr_key result (cell_index (x, y)))
              {| fl_visited := <[cell_index (x, y) := true]> visited;
                 fl_queue := [(x, y)]; fl_comp := []; fl_border := [] |} in
  exists cells,
    fl_comp fl = map offset_of cells
    /\ fl_border fl
       = bumps (votes_of result visited (sr_key result (cell_index (x, y))) cells)
    /\ length (fl_visited fl) = (width * height)%nat
    /\ NoDup cells
    /\ (forall b, In b cells <-> region (x, y) b)
    /\ (forall b, In b cells ->
          in_grid b /\ visited !!! cell_index b = false
          /\ fl_visited fl !!! cell_index b = true)
    /\ (forall l, visited !!! l = true -> fl_visited fl !!! l = true)
    /\ (forall c, in_grid c -> fl_visited fl !!! cell_index c = true ->
          visited !!! cell_index c = true \/ sr_alpha img (cell_index c) < 128
          \/ In c cells).
Proof.
  intros fl.
  destruct (flood_from_seed result visited (sr_key result (cell_index (x, y))) (x, y)
              (region (x, y)) reach_step inv_length
              here_in_grid Hfresh eq_refl (region_refl _)) as (cells & Hfl & Hq).
  fold fl in Hfl, Hq.
  destruct Hfl as [Hlen Hmono Hcomp Hnew Hfound Hnodup Hseed Hclosed Hborder].
  rewrite Hq in Hnew, Hfound, Hnodup, Hseed. cbn [app] in Hnew, Hfound, Hnodup, Hseed.
  exists cells.
  split; [exact Hcomp|]. split; [exact Hborder|]. split; [exact Hlen|].
  split; [exact Hnodup|].
  assert (Hnew' : forall c, in_grid c -> fl_visited fl !!! cell_index c = true ->
            visited !!! cell_index c = true \/ sr_alpha img (cell_index c) < 128
            \/ In c cells).
  { intros c Hc Hv. destruct (visited !!! cell_index c) eqn:Ev; [now left|right].
    destruct (Hnew c Hc Hv) as [H|[H|H]]; [congruence| |now right].
    left. pose proof (inv_fresh c Hc Ev) as Hsame.
    now rewrite <- (same_pixel_alpha _ _ _ Hsame). }
  split; [|split; [|split; [exact Hmono|exact Hnew']]].
  - intros b. split; [intros Hb; now apply Hfound|].
    intros Hr. induction Hr as [|b c Hr IH Hl]; [exact Hseed|].
    destruct Hl as ((d & Hd & Hs) & Hob & Hoc & Hk).
    pose proof (step_to_in_grid _ _ _ Hs) as Hc.
    assert (Hrc : region (x, y) c).
    { apply (region_step _ b c Hr). split; [eauto|]. auto. }
    assert (Hvc : visited !!! cell_index c = false).
    { rewrite <- (inv_whole (x, y) c here_in_grid Hrc). exact Hfresh. }
    pose proof (inv_fresh c Hc Hvc) as Hsame.
    destruct (Hclosed b d c IH Hd Hs) as [Hv|(_ & _ & Hne)].
    + destruct (Hnew' c Hc Hv) as [H|[H|H]]; [congruence| |assumption].
      unfold opaque in Hoc. lia.
    + exfalso. apply Hne. rewrite (same_pixel_key _ _ _ Hsame).
      rewrite (same_pixel_key _ _ _ here_same).
      destruct (region_opaque _ _ Hrc here_opaque) as [_ E]. exact E.
  - intros b Hb. destruct (Hfound b Hb) as (H1 & H2 & H3 & _). auto.
Qed.

(** The border counted by the flood fill, told from the input alone. *)
Lemma votes_static (scanned : list bool) (cells : list (nat * nat)) :
  scanned_ok (x, y) scanned ->
  votes_of result visited (sr_key result (cell_index (x, y))) cells
  = votes_of img scanned (sr_key img (cell_index (x, y))) cells.
Proof.
  intros Hscan. unfold votes_of. apply flat_map_ext. intros a.
  unfold votes_at. apply flat_map_ext. intros d.
  destruct (step_to a d) as [b|] eqn:Hs; [|reflexivity].
  pose proof (step_to_in_grid _ _ _ Hs) as Hb.
  unfold vote, differing_b. rewrite (same_pixel_key _ _ _ here_same).
  destruct (visited !!! cell_index b) eqn:Ev.
  - cbn [negb andb].
    destruct (sr_alpha img (cell_index b) <? 128) eqn:Ea; [now rewrite andb_false_r|].
    apply Z.ltb_ge in Ea.
    assert (Hsc : scanned !!! cell_index b = true).
    { apply (Hscan b Hb Ea). now apply visited_iff. }
    now rewrite Hsc.
  - pose proof (inv_fresh b Hb Ev) as Hsame.
    rewrite (same_pixel_alpha _ _ _ Hsame), (same_pixel_key _ _ _ Hsame).
    destruct (sr_alpha img (cell_index b) <? 128) eqn:Ea; [now rewrite !andb_false_r|].
    apply Z.ltb_ge in Ea.
    assert (Hsc : scanned !!! cell_index b = false).
    { apply not_true_false. intros Ht. apply (Hscan b Hb Ea) in Ht.
      apply visited_iff in Ht; [congruence|assumption|assumption]. }
    now rewrite Hsc.
Qed.

Lemma In_cases (c : nat * nat) (cells : list (nat * nat)) : In c cells \/ ~ In c cells.
Proof.
  destruct (decide (c ∈ cells)) as [H|H]; [left|right]; now rewrite <- list_elem_of_In.
Qed.

(** The state after the region of [(x, y)] has been dealt with. *)
Lemma after_region (cells : list (nat * nat)) (seen : list bool) (result' : list Z) :
  length seen = (width * height)%nat ->
  NoDup cells ->
  (forall b, In b cells <-> region (x, y) b) ->
  (forall b, In b cells ->
     in_grid b /\ visited !!! cell_index b = false /\ seen !!! cell_index b = true) ->
  (forall l, visited !!! l = true -> seen !!! l = true) ->
  (forall c, in_grid c -> seen !!! cell_index c = true ->
     visited !!! cell_index c = true \/ sr_alpha img (cell_index c) < 128 \/ In c cells) ->
  length result' = length result ->
  (forall i, (forall c, In c cells -> cell_index c <> i) -> same_pixel result result' i) ->
  (forall c, In c cells ->
     verdict thr (length cells)
       (votes_of result visited (sr_key result (cell_index (x, y))) cells)
       result result' (cell_index c)) ->
  simplify_inv thr (pre ++ [(y, x)]) (result', seen).
Proof.
  intros Hlen Hnodup Hcells Hfound Hmono Hnew Hlen' Hframe Hverdict.
  assert (Hout : forall c, ~ In c cells -> in_grid c ->
                           same_pixel result result' (cell_index c)).
  { intros c Hc Hg. apply Hframe. intros c' Hc' E. apply Hc.
    apply cell_index_inj in E; [congruence| |assumption]. now apply Hfound. }
  assert (Hseen : forall c, in_grid c -> seen !!! cell_index c = false ->
                            visited !!! cell_index c = false /\ ~ In c cells).
  { intros c Hg Hs. split.
    - apply not_true_false. intros Hv. apply Hmono in Hv. congruence.
    - intros Hc. destruct (Hfound c Hc) as (_ & _ & H). congruence. }
  constructor; cbn [fst snd].
  - rewrite Hlen'. exact (si_length_r _ _ _ Hinv).
  - exact Hlen.
  - intros c Hg Hs. destruct (Hseen c Hg Hs) as [Hv Hc].
    apply (same_pixel_trans _ result); [now apply inv_fresh|now apply Hout].
  - assert (Hdir : forall a b, in_grid a -> region a b ->
                     seen !!! cell_index a = true -> seen !!! cell_index b = true).
    { intros a b Ha Hr Hs. pose proof (region_in_grid _ _ Ha Hr) as Hb.
      destruct (region_alone _ _ Hr) as [<-|[Hoa Hob]]; [assumption|].
      destruct (Hnew a Ha Hs) as [H|[H|H]].
      - apply Hmono. now rewrite <- (inv_whole a b Ha Hr).
      - unfold opaque in Hoa. lia.
      - apply Hcells in H. apply (Hfound b). apply Hcells.
        now apply (region_trans _ a b). }
    intros a b Ha Hr. pose proof (region_in_grid _ _ Ha Hr) as Hb.
    destruct (seen !!! cell_index a) eqn:Ea, (seen !!! cell_index b) eqn:Eb; try reflexivity.
    + rewrite (Hdir a b Ha Hr Ea) in Eb. discriminate.
    + rewrite (Hdir b a Hb (region_sym _ _ Ha Hr) Eb) in Ea. discriminate.
  - intros yx Hin. apply in_app_or in Hin as [Hin|[<-|[]]].
    + apply Hmono. exact (si_done _ _ _ Hinv yx Hin).
    + cbn [fst snd]. apply (Hfound (x, y)). apply Hcells. constructor.
  - intros c Hg Ho Hs. destruct (Hnew c Hg Hs) as [H|[H|H]].
    + destruct (inv_origin c Hg Ho H) as (c' & Hr & Hin).
      exists c'. split; [assumption|]. apply in_or_app. now left.
    + unfold opaque in Ho. lia.
    + exists (x, y). split; [|apply in_or_app; right; now left].
      apply region_sym; [apply here_in_grid|now apply Hcells].
  - intros c Hg Ha. apply (same_pixel_trans _ result).
    + exact (si_transparent _ _ _ Hinv c Hg Ha).
    + apply Hout; [|assumption]. intros Hc. apply Hcells in Hc.
      destruct (region_opaque _ _ Hc here_opaque) as [Ho _]. unfold opaque in Ho. lia.
  - intros c Hg. destruct (In_cases c cells) as [Hc|Hc].
    + specialize (Hverdict c Hc). unfold verdict in Hverdict.
      destruct (Z.of_nat (length cells) <? thr) eqn:Et.
      * right. exists cells. split; [|now apply Z.ltb_lt].
        intros b Hr. apply Hcells. apply Hcells in Hc. now apply (region_trans _ c b).
      * left. apply (same_pixel_trans _ result); [|assumption].
        apply inv_fresh; [assumption|]. now apply Hfound.
    + destruct (si_large _ _ _ Hinv c Hg) as [H|H]; [left|now right].
      apply (same_pixel_trans _ result); [exact H|now apply Hout].
  - intros c Hg Ho Hs. destruct (In_cases c cells) as [Hc|Hc].
    + intros s members scanned Hsg Hfirst Hreg Hnd Hmem Hscan.
      assert (Hrc : region (x, y) c) by now apply Hcells.
      assert (Es : s = (x, y)).
      { apply cell_index_inj; [assumption|apply here_in_grid|].
        assert (Hsx : region s (x, y)).
        { apply (region_trans _ c); [assumption|].
          apply region_sym; [apply here_in_grid|assumption]. }
        pose proof (Hfirst _ Hsx).
        pose proof (here_first s (region_sym _ _ Hsg Hsx)). lia. }
      subst s.
      assert (Hperm : cells ≡ₚ members).
      { apply NoDup_Permutation; [assumption|assumption|].
        intros b. rewrite !list_elem_of_In, Hcells, Hmem. tauto. }
      rewrite <- (Permutation_length Hperm).
      specialize (Hverdict c Hc). rewrite (votes_static scanned cells Hscan) in Hverdict.
      assert (Hvp : votes_of img scanned (sr_key img (cell_index (x, y))) cells
                    ≡ₚ votes_of img scanned (sr_key img (cell_index (x, y))) members).
      { unfold votes_of. now apply Permutation_flat_map. }
      assert (Hsame : same_pixel img result (cell_index c)).
      { apply inv_fresh; [assumption|]. now apply Hfound. }
      unfold verdict in *. destruct (Z.of_nat (length cells) <? thr).
      * destruct Hverdict as [H1 H2]. split.
        -- intros E. apply (same_pixel_trans _ result); [assumption|]. apply H1.
           rewrite E in Hvp. now apply Permutation_nil_r in Hvp.
        -- intros k Hk. apply H2. apply (winner_Permutation _ _ _ (Permutation_sym Hvp) Hk).
      * now apply (same_pixel_trans _ result).
    + assert (Hv : visited !!! cell_index c = true).
      { destruct (Hnew c Hg Hs) as [H|[H|H]]; [assumption| |contradiction].
        unfold opaque in Ho. lia. }
      apply (outcome_same _ result); [now apply Hout|].
      exact (si_outcome _ _ _ Hinv c Hg Ho Hv).
Qed.

End ScanStep.

Lemma votes_nonneg (result : list Z) (visited : list bool) (key : Z)
    (cells : list (nat * nat)) (k : Z) :
  In k (votes_of result visited key cells) -> 0 <= k.
Proof.
  unfold votes_of, votes_at. intros H.
  apply in_flat_map in H as (a & _ & H). apply in_flat_map in H as (d & _ & H).
  destruct (step_to a d) as [b|]; [|destruct H].
  unfold vote in H. destruct (differing_b _ _ _ b); [|destruct H].
  destruct H as [<-|[]]. unfold sr_key, ushr0. apply Z.mod_pos_bound. lia.
Qed.

Lemma land_255_byte (z : Z) : 0 <= Z.land z 255 <= 255.
Proof.
  change 255 with (Z.ones 8) at 1 2. rewrite Z.land_ones by lia.
  pose proof (Z.mod_pos_bound z (2 ^ 8) ltac:(lia)). change (2 ^ 8) with 256 in *. lia.
Qed.

(** The scan keeps its invariant. *)
Lemma simplify_body_inv (thr : Z) (pre post : list (nat * nat)) (y x : nat)
    (st : list Z * list bool) :
  raster_order height width = pre ++ (y, x) :: post ->
  simplify_inv thr pre st ->
  simplify_inv thr (pre ++ [(y, x)]) (simplify_body width height thr st y x).
Proof.
  intros El Hinv. destruct st as [result visited]. unfold simplify_body. cbv zeta.
  change (y * width + x)%nat with (cell_index (x, y)).
  pose proof (here_in_grid pre post y x El) as Hg.
  pose proof (cell_index_bound _ Hg) as Hb.
  destruct (visited !!! cell_index (x, y)) eqn:Hv.
  { destruct Hinv as [H1 H2 H3 H4 H5 H6 H7 H8 H9]. cbn [fst snd] in *.
    constructor; cbn [fst snd]; try assumption.
    - intros yx Hin. apply in_app_or in Hin as [Hin|[<-|[]]]; [auto|exact Hv].
    - intros c Hc Ho Hs. destruct (H6 c Hc Ho Hs) as (c' & Hr & Hin).
      exists c'. split; [assumption|apply in_or_app; now left]. }
  destruct (sr_alpha result (cell_index (x, y)) <? 128) eqn:Ha.
  { apply Z.ltb_lt in Ha.
    pose proof (inv_fresh thr pre result visited Hinv (x, y) Hg Hv) as Hsame.
    rewrite (same_pixel_alpha _ _ _ Hsame) in Ha.
    destruct Hinv as [H1 H2 H3 H4 H5 H6 H7 H8 H9]. cbn [fst snd] in *.
    assert (Hother : forall c, in_grid c -> opaque c -> cell_index c <> cell_index (x, y)).
    { intros c Hc Ho E. apply cell_index_inj in E; [|assumption|assumption]. subst c.
      unfold opaque in Ho. lia. }
    assert (Hkeep : forall c, in_grid c -> opaque c ->
              (<[cell_index (x, y) := true]> visited) !!! cell_index c
              = visited !!! cell_index c).
    { intros c Hc Ho. apply list_lookup_total_insert_ne. intros E. now apply (Hother c). }
    assert (Hgrow : forall l, visited !!! l = true ->
              (<[cell_index (x, y) := true]> visited) !!! l = true).
    { intros l Hl. destruct (decide (l = cell_index (x, y))) as [->|Hne]; [congruence|].
      now rewrite list_lookup_total_insert_ne by congruence. }
    constructor; cbn [fst snd]; try assumption.
    - now rewrite length_insert.
    - intros c Hc Hs. apply H3; [assumption|].
      apply not_true_false. intros Ht. apply Hgrow in Ht. congruence.
    - intros a b Hga Hr. pose proof (region_in_grid _ _ Hga Hr) as Hgb.
      destruct (region_alone _ _ Hr) as [<-|[Hoa Hob]]; [reflexivity|].
      rewrite !Hkeep by assumption. now apply H4.
    - intros yx Hin. apply in_app_or in Hin as [Hin|[<-|[]]]; [auto|].
      cbn [fst snd]. apply list_lookup_total_insert_eq. lia.
    - intros c Hc Ho Hs. rewrite Hkeep in Hs by assumption.
      destruct (H6 c Hc Ho Hs) as (c' & Hr & Hin).
      exists c'. split; [assumption|apply in_or_app; now left].
    - intros c Hc Ho Hs. rewrite Hkeep in Hs by assumption. now apply H9. }
  apply Z.ltb_ge in Ha.
  destruct (flood_gathers thr pre post y x result visited El Hinv Hv Ha)
    as (cells & Hcomp & Hborder & Hlen & Hnd & Hcells & Hfound & Hmono & Hnew).
  set (fl := flood _ _ _ _ _ _) in *.
  set (votes := votes_of result visited (sr_key result (cell_index (x, y))) cells) in *.
  rewrite Hcomp, Hborder, length_map.
  pose proof (best_border_spec votes) as Hbest.
  destruct (best_border (bumps votes)) as [bestKey bestCnt].
  assert (Hhere : In (x, y) cells) by (apply Hcells; constructor).
  assert (Hpos : 0 < Z.of_nat (length cells)).
  { destruct cells; [destruct Hhere|simpl; lia]. }
  assert (Hkept : (Z.of_nat (length cells) <? thr) = false \/ votes = [] ->
            simplify_inv thr (pre ++ [(y, x)]) (result, fl_visited fl)).
  { intros Hcase.
    apply (after_region thr pre post y x result visited El Hinv Hv Ha cells);
      try assumption; [reflexivity|intros; apply same_pixel_refl|].
    intros c Hc. fold votes. unfold verdict.
    destruct (Z.of_nat (length cells) <? thr); [|apply same_pixel_refl].
    destruct Hcase as [|E]; [discriminate|].
    split; [intros; apply same_pixel_refl|].
    intros k (Hk & _). rewrite E in Hk. destruct Hk. }
  destruct ((0 <? Z.of_nat (length cells)) && (Z.of_nat (length cells) <? thr)) eqn:Econd.
  - apply andb_true_iff in Econd as [_ Ethr].
    destruct (0 <=? bestKey) eqn:Ekey.
    + apply Z.leb_le in Ekey.
      destruct Hbest as [(_ & ->)|Hwin]; [lia|].
      destruct (repaint_cells (Z.land (Z.shiftr bestKey 16) 255)
                  (Z.land (Z.shiftr bestKey 8) 255) (Z.land bestKey 255) cells result)
        as (R1 & R2 & R3).
      { intros c Hc. now apply Hfound. }
      { exact (si_length_r _ _ _ Hinv). }
      apply (after_region thr pre post y x result visited El Hinv Hv Ha cells);
        try assumption.
      intros c Hc. fold votes. unfold verdict. rewrite Ethr. split.
      * intros E. destruct Hwin as (Hk & _). rewrite E in Hk. destruct Hk.
      * intros k Hk. rewrite (winner_unique votes k bestKey Hk Hwin).
        destruct (R3 c Hc) as [Hrgb Halpha]. split; [|exact Halpha].
        rewrite Hrgb. unfold key_rgb.
        now rewrite !clamp8_byte by apply land_255_byte.
    + apply Hkept. right. apply Z.leb_gt in Ekey.
      destruct Hbest as [(E & _)|(Hk & _)]; [assumption|].
      apply votes_nonneg in Hk. lia.
  - apply Hkept. left. apply andb_false_iff in Econd as [E|E]; [|assumption].
    apply Z.ltb_ge in E. lia.
Qed.

(** A counted key is the colour of the neighbour it was counted for. *)
Lemma vote_is_border_colour (scanned : list bool) (key : Z) (members : list (nat * nat))
    (k : Z) :
  In k (votes_of img scanned key members) ->
  exists a d b, In a members /\ In d neighbors /\ step_to a d = Some b
                /\ opaque b /\ sr_key img (cell_index b) <> key
                /\ rgb_at img (cell_index b) = key_rgb k.
Proof.
  unfold votes_of, votes_at. intros H.
  apply in_flat_map in H as (a & Ha & H). apply in_flat_map in H as (d & Hd & H).
  destruct (step_to a d) as [b|] eqn:Hs; [|destruct H].
  unfold vote in H. destruct (differing_b img scanned key b) eqn:E; [|destruct H].
  destruct H as [<-|[]]. apply (differing_b_spec img scanned key a) in E as (_ & Ho & Hk).
  exists a, d, b. repeat (split; [assumption|]).
  unfold sr_key. cbv zeta. rewrite key_rgb_pack by (apply bytes_lookup, img_bytes).
  reflexivity.
Qed.

Lemma simplify_inv_start (thr : Z) :
  simplify_inv thr [] (img, replicate (width * height) false).
Proof.
  assert (Hf : forall c, in_grid c ->
                         replicate (width * height) false !!! cell_index c = false).
  { intros c Hc. apply lookup_total_replicate_2. now apply cell_index_bound. }
  constructor; cbn [fst snd].
  - exact img_length.
  - apply length_replicate.
  - intros. apply same_pixel_refl.
  - intros a b Ha Hr. rewrite !Hf; [reflexivity| |assumption].
    eapply region_in_grid; eauto.
  - intros yx [].
  - intros c Hc _ H. rewrite Hf in H by assumption. discriminate.
  - intros. apply same_pixel_refl.
  - intros. left. apply same_pixel_refl.
  - intros c Hc _ H. rewrite Hf in H by assumption. discriminate.
Qed.

Lemma simplify_inv_end (thr : Z) :
  simplify_inv thr (raster_order height width)
    (for_yx height width (simplify_body width height thr)
       (img, replicate (width * height) false)).
Proof.
  unfold for_yx. apply (fold_left_ind _ (simplify_inv thr)).
  - apply simplify_inv_start.
  - intros pre [y x] post st El Hinv. cbn [fst snd]. now apply (simplify_body_inv thr pre post).
Qed.

Lemma large_not_small (thr : Z) (c : nat * nat) (members : list (nat * nat)) :
  NoDup members -> (forall b, In b members -> region c b) ->
  thr <= Z.of_nat (length members) -> ~ small thr c.
Proof.
  intros Hnd Hreg Hlen (l & Hl & Hsmall).
  assert (Hsub : members ⊆+ l).
  { apply NoDup_submseteq; [assumption|]. intros b Hb.
    apply list_elem_of_In, Hl, Hreg. now apply list_elem_of_In. }
  apply submseteq_length in Hsub. lia.
Qed.

End Regions.

End RegionTheory.

(** X19.  What [simplifyRegions] computes, for a raster of
    [width * height] pixels and a threshold [minArea >= 1]: a transparent
    pixel keeps its bytes; so does every pixel whose region (the opaque
    cells of its colour linked to it by 4-neighbour steps) has [minArea]
    cells or more.  A smaller region is dealt with when the scan meets its
    first cell [s]: the keys of its opaque neighbours of another colour are
    counted, once per adjacency, but not the neighbours whose region the
    scan has met before ([scanned]), which [if (visited[l2]) continue]
    passes over; with nothing counted the region keeps its bytes, and
    otherwise all its pixels receive the colour counted most often (the
    lowest key among equals) under alpha 255.  Every key counted is the
    colour of such a neighbour. *)
Theorem simplifyRegions_outcome (imageData : list Z) (width height : nat)
    (minArea : Z) (c : nat * nat) :
  length imageData = (width * height * 4)%nat -> 1 <= minArea ->
  in_grid width height c ->
  let img := Uint8ClampedArray_from imageData in
  let out := simplifyRegions imageData width height minArea in
  (sr_alpha img (cell_index width c) < 128 -> same_pixel img out (cell_index width c))
  /\ (forall members, NoDup members ->
        (forall b, In b members -> region width height img c b) ->
        minArea <= Z.of_nat (length members) ->
        same_pixel img out (cell_index width c))
  /\ (opaque width img c ->
      forall s members scanned,
        in_grid width height s -> first_cell width height img s ->
        region width height img s c -> NoDup members ->
        (forall b, In b members <-> region width height img s b) ->
        scanned_ok width height img s scanned ->
        verdict minArea (length members)
          (votes_of width height img scanned (sr_key img (cell_index width s)) members)
          img out (cell_index width c))
  /\ (forall scanned key members k,
        In k (votes_of width height img scanned key members) ->
        exists a d b,
          In a members /\ In d neighbors /\ step_to width height a d = Some b
          /\ opaque width img b /\ sr_key img (cell_index width b) <> key
          /\ rgb_at img (cell_index width b) = key_rgb k).
Proof.
  intros Hlen Hmin Hc img out.
  assert (Hw : (width =? 0)%nat || (height =? 0)%nat = false).
  { destruct Hc as [Hx Hy]. apply orb_false_iff.
    split; apply Nat.eqb_neq; lia. }
  assert (Eout : out = fst (for_yx height width (simplify_body width height minArea)
                              (img, replicate (width * height) false))).
  { unfold out, simplifyRegions.
    destruct (minArea <=? 0) eqn:E; [apply Z.leb_le in E; lia|].
    rewrite Hw, Z.max_r by lia. reflexivity. }
  assert (Hil : length img = (width * height * 4)%nat).
  { unfold img. now rewrite clamped_length. }
  pose proof (simplify_inv_end width height img Hil minArea) as Hinv.
  rewrite Eout. split; [|split; [|split]].
  - intros Ha. exact (si_transparent _ _ _ _ _ _ Hinv c Hc Ha).
  - intros members Hnd Hreg Hsize.
    destruct (si_large _ _ _ _ _ _ Hinv c Hc) as [H|H]; [exact H|].
    exfalso. eapply large_not_small; eassumption.
  - intros Ho.
    assert (Hv : snd (for_yx height width (simplify_body width height minArea)
                        (img, replicate (width * height) false))
                 !!! cell_index width c = true).
    { apply (si_done _ _ _ _ _ _ Hinv (snd c, fst c)).
      apply raster_order_In. destruct Hc. cbn [fst snd]. lia. }
    exact (si_outcome _ _ _ _ _ _ Hinv c Hc Ho Hv).
  - intros scanned key members k Hk.
    eapply vote_is_border_colour; first [apply clamped_bytes|exact Hil|exact Hk].
Qed.

(** Three opaque pixels of three colours in a row, and a row whose first
    two pixels share a colour. *)
Definition three_cells : list Z := [10; 10; 10; 255;  20; 20; 20; 255;  30; 30; 30; 255].

Definition pair_and_one : list Z := [10; 10; 10; 255;  10; 10; 10; 255;  30; 30; 30; 255].

(** The first pixel of [three_cells] is a region of its own, below the
    threshold 2; its one neighbour is counted, and gives it its colour. *)
Lemma simplifyRegions_outcome_witness :
  rgb_at (simplifyRegions three_cells 3 1 2) 0 = (20, 20, 20)
  /\ alpha_at (simplifyRegions three_cells 3 1 2) 0 = 255.
Proof.
  assert (Hlen : length three_cells = (3 * 1 * 4)%nat) by reflexivity.
  assert (Hgrid : in_grid 3 1 (0%nat, 0%nat)) by (unfold in_grid; simpl; lia).
  destruct (simplifyRegions_outcome three_cells 3 1 2 (0%nat, 0%nat) Hlen ltac:(lia) Hgrid)
    as (_ & _ & Hsmall & _).
  assert (Hopaque : opaque 3 (Uint8ClampedArray_from three_cells) (0%nat, 0%nat)).
  { unfold opaque. vm_compute. discriminate. }
  assert (Halone : forall b, region 3 1 (Uint8ClampedArray_from three_cells) (0%nat, 0%nat) b ->
                             b = (0%nat, 0%nat)).
  { intros b Hr. induction Hr as [|b c _ IH ((d & Hd & Hs) & _ & _ & Hk)]; [reflexivity|].
    subst b. unfold neighbors in Hd. simpl in Hd.
    destruct Hd as [<-|[<-|[<-|[<-|[]]]]]; vm_compute in Hs; try discriminate.
    injection Hs as <-. vm_compute in Hk. discriminate. }
  specialize (Hsmall Hopaque (0%nat, 0%nat) [(0%nat, 0%nat)] [false; false; false] Hgrid).
  unfold verdict in Hsmall.
  change (Z.of_nat (length [(0%nat, 0%nat)]) <? 2) with true in Hsmall.
  replace (votes_of 3 1 (Uint8ClampedArray_from three_cells) [false; false; false]
             (sr_key (Uint8ClampedArray_from three_cells) (cell_index 3 (0%nat, 0%nat)))
             [(0%nat, 0%nat)])
    with [1315860] in Hsmall by (vm_compute; reflexivity).
  destruct Hsmall as [_ Hpaint].
  - intros b _. unfold cell_index. simpl. lia.
  - constructor.
  - apply NoDup_singleton.
  - intros b. split; [intros [<-|[]]; constructor|]. intros Hr. left. symmetry. now apply Halone.
  - intros [bx by_] [Hx Hy] _. unfold cell_index. cbn [fst snd] in *. split.
    + assert (by_ = 0%nat) by lia. subst by_.
      destruct bx as [|[|[|bx]]]; [vm_compute; discriminate..|lia].
    + intros (b' & _ & Hlt). lia.
  - apply (Hpaint 1315860). split; [now left|]. split; intros k'; simpl;
      destruct (decide (1315860 = k')); lia.
Defined.

(** A speck of another colour in the middle of a uniform 3 x 3 raster. *)
Definition speck : list Z :=
  [10; 10; 10; 255;  10; 10; 10; 255;  10; 10; 10; 255;
   10; 10; 10; 255;  30; 30; 30; 255;  10; 10; 10; 255;
   10; 10; 10; 255;  10; 10; 10; 255;  10; 10; 10; 255].

(** C7 (fails on the code).  A region below the threshold is merged only
    into neighbours that the scan has not met: [if (visited[l2]) continue]
    passes over a neighbour of another colour whose region was scanned
    earlier, before [borderColors] can count it.  So the last pixel of
    [pair_and_one], a region of one cell next to a pixel of another colour,
    is not repainted under the threshold 2; nor is the speck in the middle
    of [speck], under the thresholds 2 and 5.  On [three_cells] the filter
    leaves a region of one cell behind, which a second run repaints: it is
    not idempotent. *)
Theorem C7_small_region_next_to_scanned_one_is_kept :
  simplifyRegions pair_and_one 3 1 2 = pair_and_one
  /\ simplifyRegions speck 3 3 2 = speck
  /\ simplifyRegions speck 3 3 5 = speck
  /\ simplifyRegions three_cells 3 1 2
     = [20; 20; 20; 255;  30; 30; 30; 255;  30; 30; 30; 255]
  /\ simplifyRegions (simplifyRegions three_cells 3 1 2) 3 1 2
     = [30; 30; 30; 255;  30; 30; 30; 255;  30; 30; 30; 255].
Proof. vm_compute. repeat split; reflexivity. Qed.

(** C4 (fails on the code, LUV at black): [_rgbToLuv] guards its zero
  denominator, but [_luvToRgb] divides by [13 * l] with [l = 0], so the
  round trip of (0,0,0) is (NaN, NaN, NaN) under every runtime, which is not
  within 1 of (0,0,0). *)
Theorem C4_luv_round_trip_black_is_nan :
forall rt : Runtime,
  luv_round_trip rt (0, 0, 0) = (NaN, NaN, NaN)
  /\ within_one (luv_round_trip rt (0, 0, 0)) (0, 0, 0) = false.
Proof.
intros rt. split; vm_compute; reflexivity.
Qed.

(** ** The colour resolver *)

Section ResolverFacts.

Context (rt : Runtime) (Number_toString : float -> string).

Definition as_resolved (c : PaletteEntry) : Resolved :=
  {| id := Some (entry_id c); rgb := entry_rgb c |}.

(** The nearest-colour loop answers with the entry it started from or with
    one of the entries it went through, whatever the scores are. *)
Lemma nearest_loop_answers {St : Type} (score : St -> PaletteEntry -> float * St)
    (all colors : list PaletteEntry) (best : Resolved) (bestScore : float) (st : St) :
  (forall c, In c colors -> In c all) ->
  (exists c, In c all /\ best = as_resolved c) ->
  exists c, In c all
            /\ fst (fst (nearest_loop score colors best bestScore st)) = as_resolved c.
Proof.
  revert best bestScore st. induction colors as [|c rest IH]; intros best bestScore st Hsub Hbest.
  - exact Hbest.
  - cbn [nearest_loop]. destruct (score st c) as [dist st'].
    assert (Hrest : forall c', In c' rest -> In c' all) by (intros; apply Hsub; now right).
    assert (Hc : In c all) by (apply Hsub; now left).
    destruct (dist <? bestScore)%float.
    + destruct (dist =? 0)%float.
      * exists c. split; [assumption|reflexivity].
      * apply IH; [assumption|]. exists c. split; [assumption|reflexivity].
    + now apply IH.
Qed.

Lemma nearest_from_first {St : Type} (c0 : PaletteEntry) (rest : list PaletteEntry)
    (score : St -> PaletteEntry -> float * St) (st : St) :
  exists c, In c (c0 :: rest)
            /\ fst (fst (nearest_loop score (c0 :: rest)
                           {| id := Some (entry_id c0); rgb := entry_rgb c0 |} Infinity st))
               = as_resolved c.
Proof.
  apply nearest_loop_answers; [auto|]. exists c0. split; [now left|reflexivity].
Qed.

End ResolverFacts.

(** X1.  On a cache miss in closest mode [resolveColor] answers with an
    entry of the list it is given, id and colour of the same entry, for
    every engine and whatever the scores are (NaN included); when the
    target is white and the list has a white entry, the answer is the first
    white entry of the list. *)
Theorem resolveColor_closest_is_available
    (rt : Runtime) (Number_toString : float -> string) (st : Caches) (t : rgb8)
    (c0 : PaletteEntry) (rest : list PaletteEntry) (opts : Options) :
  _colorCache st !! cacheKey Number_toString t opts = None ->
  exactMatch opts = false ->
  let colors := c0 :: rest in
  let answer := fst (resolveColor rt Number_toString st t (Some colors) opts) in
  let white c := let '(r, g, b) := entry_rgb c in isWhitePixel r g b (whiteThreshold opts) in
  (exists c, In c colors /\ answer = as_resolved c)
  /\ (white {| entry_id := 0; entry_rgb := t |} = true ->
      forall w, List.find white colors = Some w -> answer = as_resolved w).
Proof.
  intros Hmiss Hexact colors answer white. subst colors.
  unfold answer, resolveColor. cbv zeta. rewrite Hmiss, Hexact.
  destruct t as [[t0 t1] t2]. cbn [white entry_rgb].
  destruct (isWhitePixel t0 t1 t2 (whiteThreshold opts)) eqn:Ew.
  - fold white. destruct (List.find white (c0 :: rest)) as [w|] eqn:Ef.
    + cbn [fst]. split.
      * exists w. split; [|reflexivity]. now apply find_some in Ef.
      * intros _ w' [= <-]. reflexivity.
    + split; [|intros _ w [=]].
      destruct (String.eqb (algorithm opts) "legacy").
      * match goal with |- context [nearest_loop ?sc _ _ _ ?s0] =>
          destruct (nearest_from_first c0 rest sc s0) as (c & Hc & E) end.
        destruct (nearest_loop _ _ _ _ _) as [[res sc] lc] in E |- *.
        exists c. split; [exact Hc|exact E].
      * destruct (_getLab rt (_labCache st) (of_Z t0) (of_Z t1) (of_Z t2)) as [[[L a] b] lc0].
        match goal with |- context [nearest_loop ?sc _ _ _ ?s0] =>
          destruct (nearest_from_first c0 rest sc s0) as (c & Hc & E) end.
        destruct (nearest_loop _ _ _ _ _) as [[res sc] lc] in E |- *.
        exists c. split; [exact Hc|exact E].
  - split; [|discriminate].
    destruct (String.eqb (algorithm opts) "legacy").
    + match goal with |- context [nearest_loop ?sc _ _ _ ?s0] =>
          destruct (nearest_from_first c0 rest sc s0) as (c & Hc & E) end.
      destruct (nearest_loop _ _ _ _ _) as [[res sc] lc] in E |- *.
      exists c. split; [exact Hc|exact E].
    + destruct (_getLab rt (_labCache st) (of_Z t0) (of_Z t1) (of_Z t2)) as [[[L a] b] lc0].
      match goal with |- context [nearest_loop ?sc _ _ _ ?s0] =>
          destruct (nearest_from_first c0 rest sc s0) as (c & Hc & E) end.
      destruct (nearest_loop _ _ _ _ _) as [[res sc] lc] in E |- *.
      exists c. split; [exact Hc|exact E].
Qed.

Definition no_caches : Caches := {| _colorCache := ∅; _labCache := ∅ |}.

Definition three_entries : list PaletteEntry :=
  [{| entry_id := 1; entry_rgb := (0, 0, 0) |};
   {| entry_id := 2; entry_rgb := (240, 240, 240) |};
   {| entry_id := 5; entry_rgb := (255, 255, 255) |}].

Lemma resolveColor_closest_is_available_witness :
  exists c, In c three_entries
            /\ fst (resolveColor RefEngine.runtime (fun _ => "0.15") no_caches (250, 250, 250)
                      (Some three_entries) default_options)
               = as_resolved c.
Proof.
  exact (proj1 (resolveColor_closest_is_available RefEngine.runtime (fun _ => "0.15")
                  no_caches (250, 250, 250) _ _ default_options (lookup_empty _) eq_refl)).
Defined.

(** What a call leaves in the colour cache under its key. *)
Lemma resolveColor_stores (rt : Runtime) (Number_toString : float -> string)
    (st : Caches) (t : rgb8) (c0 : PaletteEntry) (rest : list PaletteEntry)
    (opts : Options) :
  Z.of_nat (size (_colorCache st)) < 20000 ->
  _colorCache (snd (resolveColor rt Number_toString st t (Some (c0 :: rest)) opts))
    !! cacheKey Number_toString t opts
  = Some (fst (resolveColor rt Number_toString st t (Some (c0 :: rest)) opts)).
Proof.
  intros Hsize. unfold resolveColor. cbv zeta.
  destruct (_colorCache st !! cacheKey Number_toString t opts) as [cached|] eqn:Hkey.
  { exact Hkey. }
  destruct (exactMatch opts).
  { cbn [fst snd _colorCache]. apply lookup_insert_eq. }
  destruct t as [[t0 t1] t2].
  match goal with
  | |- context [match ?we with Some _ => _ | None => _ end] => destruct we as [w|]
  end.
  { cbn [fst snd _colorCache]. apply lookup_insert_eq. }
  destruct (String.eqb (algorithm opts) "legacy");
    [|destruct (_getLab rt (_labCache st) (of_Z t0) (of_Z t1) (of_Z t2))
        as [[[L a] b] lc0]];
    destruct (nearest_loop _ _ _ _ _) as [[result sc] labCache];
    cbn [_colorCache _labCache];
    rewrite map_size_insert_None by exact Hkey;
    (destruct (20000 <? Z.of_nat (S (size (_colorCache st)))) eqn:E;
     [apply Z.ltb_lt in E; lia|]);
    cbn [fst snd _colorCache]; apply lookup_insert_eq.
Qed.

(** X2.  Unless the colour cache is full, a call of [resolveColor] is
    repeated by every later call with the same target and the same cache
    key: the later call returns the first answer and leaves the caches as
    they are, whatever list of colours it is given -- the key holds neither
    the list nor the white threshold. *)
Theorem resolveColor_repeats_its_answer
    (rt : Runtime) (Number_toString : float -> string) (st : Caches) (t : rgb8)
    (colors colors' : list PaletteEntry) (opts opts' : Options) :
  colors <> [] -> colors' <> [] ->
  Z.of_nat (size (_colorCache st)) < 20000 ->
  cacheKey Number_toString t opts' = cacheKey Number_toString t opts ->
  let first := resolveColor rt Number_toString st t (Some colors) opts in
  resolveColor rt Number_toString (snd first) t (Some colors') opts' = first.
Proof.
  intros Hne Hne' Hsize Hkey first.
  destruct colors as [|c0 rest]; [congruence|].
  destruct colors' as [|c0' rest']; [congruence|].
  pose proof (resolveColor_stores rt Number_toString st t c0 rest opts Hsize) as Hstored.
  fold first in Hstored.
  unfold resolveColor at 1. cbv zeta. rewrite Hkey, Hstored.
  now destruct first.
Qed.

(** The second call is given another list and another white threshold. *)
Lemma resolveColor_repeats_its_answer_witness :
  resolveColor RefEngine.runtime (fun _ => "0.15")
    (snd (resolveColor RefEngine.runtime (fun _ => "0.15") no_caches (250, 250, 250)
            (Some three_entries) default_options))
    (250, 250, 250) (Some [{| entry_id := 9; entry_rgb := (250, 250, 250) |}])
    {| exactMatch := false; algorithm := "lab"; enableChromaPenalty := false;
       chromaPenaltyWeight := 0.15%float; paintTransparentPixels := false;
       paintWhitePixels := true; transparencyThreshold := 128; whiteThreshold := 255 |}
  = resolveColor RefEngine.runtime (fun _ => "0.15") no_caches (250, 250, 250)
      (Some three_entries) default_options.
Proof.
  apply (resolveColor_repeats_its_answer RefEngine.runtime (fun _ => "0.15") no_caches
           (250, 250, 250) three_entries).
  - discriminate.
  - discriminate.
  - reflexivity.
  - reflexivity.
Defined.

(** ** The direction of error diffusion *)

(** An offset that points to a pixel later in the raster scan. *)
Definition points_forward (o : KernelOffset) : bool :=
  (0 <? dy o) || ((dy o =? 0) && (0 <? dx o)).

Lemma kernel_points_forward (method : string) (kernel : Kernel) :
  _getDitherKernel method = Some kernel ->
  forallb points_forward (offsets kernel) = true.
Proof.
  unfold _getDitherKernel.
  repeat (destruct (String.eqb method _); [intros [= <-]; vm_compute; reflexivity|]).
  destruct (existsb _ _); [discriminate|].
  intros [= <-]; vm_compute; reflexivity.
Qed.

Lemma forward_cell_is_later (width height x y : nat) (o : KernelOffset) (nidx : nat) :
  (x < width)%nat -> points_forward o = true ->
  offset_cell width height x y o = Some nidx -> (y * width + x < nidx)%nat.
Proof.
  intros Hx Hf. unfold offset_cell.
  destruct (_ || _ || _ || _) eqn:E; [discriminate|]. intros [= <-].
  apply orb_false_iff in E as [E E4]. apply orb_false_iff in E as [E E3].
  apply orb_false_iff in E as [E1 E2].
  apply Z.ltb_ge in E1, E3. apply Z.leb_gt in E2, E4.
  unfold points_forward in Hf. apply orb_true_iff in Hf as [Hf|Hf].
  - apply Z.ltb_lt in Hf. nia.
  - apply andb_true_iff in Hf as [H0 H1]. apply Z.eqb_eq in H0. apply Z.ltb_lt in H1. nia.
Qed.

(** X3.  Error diffusion pushes the error forward only: for each of the
    kernels that [_getDitherKernel] hands out, the kernel loop of the pixel
    [(x, y)] leaves alone the work cells of that pixel and of every pixel
    before it in the raster scan. *)
Theorem diffusion_moves_forward
    (rt : Runtime) (method : string) (kernel : Kernel) (width height : nat)
    (eligible : list bool) (work : list float) (x y : nat) (er eg eb : float)
    (nidx c : nat) :
  _getDitherKernel method = Some kernel ->
  length work = (width * height * 3)%nat ->
  (x < width)%nat -> (nidx <= y * width + x)%nat -> (nidx < width * height)%nat ->
  (c < 3)%nat ->
  diffuse_all rt width height eligible kernel x y er eg eb work !!! (nidx * 3 + c)%nat
  = work !!! (nidx * 3 + c)%nat.
Proof.
  intros Hk Hlen Hx Hle Hn Hc.
  pose proof (kernel_offsets_distinct method kernel Hk) as Hnd.
  pose proof (kernel_points_forward method kernel Hk) as Hfw.
  destruct kernel as [d offs]. cbn [offsets] in Hnd, Hfw.
  rewrite (diffuse_all_lookup rt width height eligible d offs x y er eg eb work nidx c
             Hnd Hlen Hn Hc).
  destruct (List.find _ offs) as [o|] eqn:Ef; [exfalso|reflexivity].
  apply find_some in Ef as [Hin Ho]. apply bool_decide_eq_true in Ho.
  rewrite forallb_forall in Hfw.
  pose proof (forward_cell_is_later width height x y o nidx Hx (Hfw o Hin) Ho). lia.
Qed.

(** The Jarvis kernel, as [_getDitherKernel] returns it. *)
Definition jarvis_kernel : Kernel :=
  {| divisor := 48;
     offsets := [koff 1 0 7; koff 2 0 5;
                 koff (-2) 1 3; koff (-1) 1 5;
                 koff 0 1 7; koff 1 1 5;
                 koff 2 1 3; koff (-2) 2 1;
                 koff (-1) 2 3; koff 0 2 5;
                 koff 1 2 3; koff 2 2 1] |}.

(** The cell of the pixel (1, 0) itself, in a 3 x 2 raster. *)
Lemma diffusion_moves_forward_witness :
  diffuse_all RefEngine.runtime 3 2 [true; true; true; true; true; true]
    jarvis_kernel 1 0 16 16 16 (replicate 18 100%float) !!! 3%nat
  = 100%float.
Proof.
  refine (eq_trans (diffusion_moves_forward RefEngine.runtime "jarvis" jarvis_kernel 3 2
                      [true; true; true; true; true; true] (replicate 18 100%float)
                      1 0 16%float 16%float 16%float 1 0 _ _ _ _ _ _) _).
  - reflexivity.
  - reflexivity.
  - lia.
  - simpl. lia.
  - simpl. lia.
  - lia.
  - reflexivity.
Defined.

(** ** The mask of the quantizers *)

Section QuantizerMask.

Context (rt : Runtime) (opts : Options) (palette : list rgb8).

(** Whether the pixel [k] of the raster [d] is eligible. *)
Definition eligible_pixel (d : list Z) (k : nat) : bool :=
  isEligible opts (d !!! (k * 4)%nat) (d !!! (k * 4 + 1)%nat) (d !!! (k * 4 + 2)%nat)
    (d !!! (k * 4 + 3)%nat).

(** The alpha byte the quantizers give the pixel [k]. *)
Definition mask_alpha (d : list Z) (k : nat) : Z :=
  if eligible_pixel d k then
    if paintTransparentPixels opts && (d !!! (k * 4 + 3)%nat <? transparencyThreshold opts)
    then 0 else 255
  else 0.

(** Whether the pixel [k] is painted as transparent when it is eligible. *)
Definition paints_transparent (d : list Z) (k : nat) : bool :=
  paintTransparentPixels opts && (d !!! (k * 4 + 3)%nat <? transparencyThreshold opts).

(** The pixel [k] of [d'] as the quantizers leave it, [d] being the input:
    its alpha; its colour when it is not eligible (kept) and when it is
    painted as transparent (all bytes 0). *)
Definition masked_pixel (d d' : list Z) (k : nat) : Prop :=
  alpha_at d' k = mask_alpha d k
  /\ (eligible_pixel d k = false -> rgb_at d' k = rgb_at d k)
  /\ (eligible_pixel d k = true -> paints_transparent d k = true ->
      rgb_at d' k = (0, 0, 0)).

Definition untouched_pixel (d d' : list Z) (k : nat) : Prop :=
  rgb_at d' k = rgb_at d k /\ alpha_at d' k = alpha_at d k.

Definition count_eligible (d : list Z) (ks : list nat) : nat :=
  length (List.filter (eligible_pixel d) ks).

Lemma count_eligible_snoc (d : list Z) (ks : list nat) (k : nat) :
  count_eligible d (ks ++ [k])
  = (count_eligible d ks + if eligible_pixel d k then 1 else 0)%nat.
Proof.
  unfold count_eligible. rewrite List.filter_app, length_app. simpl.
  now destruct (eligible_pixel d k).
Qed.

Lemma same_but_pixel_untouched (d d0 d' : list Z) (k j : nat) :
  j <> k -> same_but_pixel j d0 d' -> untouched_pixel d d0 k -> untouched_pixel d d' k.
Proof.
  intros Hne [_ Hs] [H1 H2]. unfold untouched_pixel, rgb_at, alpha_at in *.
  rewrite !Hs by lia. auto.
Qed.

Lemma same_but_pixel_masked (d d0 d' : list Z) (k j : nat) :
  j <> k -> same_but_pixel j d0 d' -> masked_pixel d d0 k -> masked_pixel d d' k.
Proof.
  intros Hne [_ Hs] (H1 & H2 & H3). unfold masked_pixel, rgb_at, alpha_at in *.
  rewrite !Hs by lia. auto.
Qed.

Lemma not_transparent_leb (a thr : Z) : negb (a <? thr) = (thr <=? a).
Proof. destruct (Z.ltb_spec a thr), (Z.leb_spec thr a); simpl; auto; lia. Qed.

(** What one pixel becomes under the three branches the quantizers share. *)
Lemma masked_not_eligible (d d0 : list Z) (k : nat) :
  (k * 4 + 3 < length d0)%nat -> untouched_pixel d d0 k -> eligible_pixel d k = false ->
  masked_pixel d (<[(k * 4 + 3)%nat := 0]> d0) k.
Proof.
  intros Hlen [Hrgb _] Hel. unfold masked_pixel, mask_alpha. rewrite Hel.
  split; [|split].
  - unfold alpha_at. now apply list_lookup_total_insert_eq.
  - intros _. rewrite <- Hrgb. unfold rgb_at.
    now rewrite !list_lookup_total_insert_ne by lia.
  - discriminate.
Qed.

Lemma masked_painted (d d0 : list Z) (k : nat) (r g b a : Z) :
  (k * 4 + 3 < length d0)%nat -> eligible_pixel d k = true ->
  clamp8 a = mask_alpha d k ->
  (paints_transparent d k = true -> (r, g, b) = (0, 0, 0)) ->
  masked_pixel d (put_pixel d0 (k * 4) r g b a) k.
Proof.
  intros Hlen Hel Ha Hblack. unfold masked_pixel.
  rewrite put_pixel_alpha, put_pixel_rgb by assumption.
  split; [exact Ha|]. split; [congruence|].
  intros _ Hp. now injection (Hblack Hp) as -> -> ->.
Qed.

(** A scan that deals with one pixel per step: [pending] holds of the
    pixels not yet visited, [done] of the visited ones, and [alive] tells
    that no exception has been thrown. *)
Lemma scan_fold {A St : Type} (ix : A -> nat) (cnt : St -> nat) (el : nat -> bool)
    (alive Inv : St -> Prop) (pending done : St -> nat -> Prop)
    (f : St -> A -> St) (n : nat) (items : list A) (st0 : St) :
  NoDup (map ix items) -> (forall a, In a items -> (ix a < n)%nat) ->
  Inv st0 -> (forall k, (k < n)%nat -> pending st0 k) ->
  (forall s a, In a items -> alive (f s a) ->
     alive s
     /\ (Inv s -> pending s (ix a) ->
         Inv (f s a) /\ done (f s a) (ix a)
         /\ cnt (f s a) = (cnt s + if el (ix a) then 1 else 0)%nat
         /\ forall k, k <> ix a ->
              (pending s k -> pending (f s a) k) /\ (done s k -> done (f s a) k))) ->
  let st := fold_left f items st0 in
  alive st ->
  Inv st
  /\ cnt st = (cnt st0 + length (List.filter el (map ix items)))%nat
  /\ (forall a, In a items -> done st (ix a))
  /\ (forall k, (k < n)%nat -> ~ In k (map ix items) -> pending st k).
Proof.
  intros Hnd Hlt Hinv0 Hun0 Hstep. cbv zeta.
  induction items as [|a items IH] using rev_ind.
  - intros _. simpl. split; [assumption|]. split; [lia|]. split; [intros a []|auto].
  - rewrite fold_left_app. cbn [fold_left]. intros Halive.
    rewrite map_app in Hnd. cbn [map] in Hnd.
    apply NoDup_app in Hnd as (Hnd & Hdis & _).
    assert (Ha : In a (items ++ [a])) by (apply in_or_app; right; now left).
    destruct (Hstep _ a Ha Halive) as [Hprev Hdo].
    destruct IH as (Hl & Hc & Hm & Hu); try assumption.
    { intros a' Ha'. apply Hlt, in_or_app. now left. }
    { intros s a' Ha'. apply Hstep, in_or_app. now left. }
    assert (Hnotin : ~ In (ix a) (map ix items)).
    { intros Hin. apply (Hdis (ix a)); [now apply list_elem_of_In|]. left. }
    destruct (Hdo Hl (Hu (ix a) (Hlt a Ha) Hnotin)) as (Hinv & Hmask & Hcnt & Hrest).
    split; [exact Hinv|]. split.
    { rewrite Hcnt, Hc, map_app. cbn [map]. rewrite List.filter_app, length_app.
      simpl. destruct (el (ix a)); simpl; lia. }
    split.
    + intros a' Ha'. apply in_app_or in Ha' as [Ha'|[<-|[]]]; [|exact Hmask].
      apply Hrest; [|now apply Hm].
      intros E. apply Hnotin. rewrite <- E. apply in_map_iff. eauto.
    + intros k Hk Hnk. apply Hrest.
      * intros E. apply Hnk. rewrite map_app. apply in_or_app. right. left. now symmetry.
      * apply Hu; [assumption|]. intros Hin. apply Hnk. rewrite map_app.
        apply in_or_app. now left.
Qed.

Lemma scan_fold_all {A St : Type} (ix : A -> nat) (cnt : St -> nat) (el : nat -> bool)
    (alive Inv : St -> Prop) (pending done : St -> nat -> Prop)
    (f : St -> A -> St) (n : nat) (items : list A) (st0 : St) :
  map ix items = seq 0 n ->
  Inv st0 -> (forall k, (k < n)%nat -> pending st0 k) ->
  (forall s a, In a items -> alive (f s a) ->
     alive s
     /\ (Inv s -> pending s (ix a) ->
         Inv (f s a) /\ done (f s a) (ix a)
         /\ cnt (f s a) = (cnt s + if el (ix a) then 1 else 0)%nat
         /\ forall k, k <> ix a ->
              (pending s k -> pending (f s a) k) /\ (done s k -> done (f s a) k))) ->
  let st := fold_left f items st0 in
  alive st ->
  Inv st
  /\ cnt st = (cnt st0 + length (List.filter el (seq 0 n)))%nat
  /\ (forall k, (k < n)%nat -> done st k).
Proof.
  intros Emap Hinv0 Hp0 Hstep st Halive.
  assert (Hin : forall a, In a items -> (ix a < n)%nat).
  { intros a Ha. apply (in_map ix) in Ha. rewrite Emap in Ha. apply in_seq in Ha. lia. }
  destruct (scan_fold ix cnt el alive Inv pending done f n items st0)
    as (H1 & H2 & H3 & _); try assumption.
  { rewrite Emap. apply NoDup_seq. }
  split; [exact H1|]. split; [now rewrite <- Emap|].
  intros k Hk. assert (Hk' : In k (map ix items)) by (rewrite Emap; apply in_seq; lia).
  apply in_map_iff in Hk' as (a & <- & Ha). now apply H3.
Qed.

Lemma untouched_reads (d d0 : list Z) (k : nat) :
  untouched_pixel d d0 k ->
  d0 !!! (k * 4)%nat = d !!! (k * 4)%nat
  /\ d0 !!! (k * 4 + 1)%nat = d !!! (k * 4 + 1)%nat
  /\ d0 !!! (k * 4 + 2)%nat = d !!! (k * 4 + 2)%nat
  /\ d0 !!! (k * 4 + 3)%nat = d !!! (k * 4 + 3)%nat.
Proof. unfold untouched_pixel, rgb_at, alpha_at. intros [[= H0 H1 H2] H3]. auto. Qed.

Lemma untouched_eligible (d d0 : list Z) (k : nat) :
  untouched_pixel d d0 k -> eligible_pixel d0 k = eligible_pixel d k.
Proof.
  intros H. apply untouched_reads in H as (H0 & H1 & H2 & H3).
  unfold eligible_pixel. now rewrite H0, H1, H2, H3.
Qed.

(** The three branches, on a pixel that still holds its input bytes. *)
Lemma masked_branches (d d0 : list Z) (k : nat) (r g b : Z) :
  (k * 4 + 3 < length d0)%nat -> untouched_pixel d d0 k ->
  let a := d0 !!! (k * 4 + 3)%nat in
  let d' :=
    if negb (eligible_pixel d0 k) then <[(k * 4 + 3)%nat := 0]> d0
    else if paintTransparentPixels opts && (a <? transparencyThreshold opts)
         then put_pixel d0 (k * 4) 0 0 0 0
         else put_pixel d0 (k * 4) r g b 255 in
  same_but_pixel k d0 d' /\ masked_pixel d d' k.
Proof.
  intros Hlen Hu. cbv zeta. rewrite (untouched_eligible d d0 k Hu).
  pose proof (untouched_reads d d0 k Hu) as (_ & _ & _ & H3). rewrite H3.
  destruct (eligible_pixel d k) eqn:Hel; cbn [negb].
  - assert (Hmask : mask_alpha d k = if paints_transparent d k then 0 else 255)
      by (unfold mask_alpha; now rewrite Hel).
    fold (paints_transparent d k). destruct (paints_transparent d k) eqn:E.
    + split; [apply same_but_pixel_put|]. apply masked_painted; auto.
    + split; [apply same_but_pixel_put|]. apply masked_painted; auto. congruence.
  - split; [apply same_but_pixel_alpha|]. now apply masked_not_eligible.
Qed.

Definition branches (d0 : list Z) (k : nat) (r g b : Z) : list Z :=
  if negb (eligible_pixel d0 k) then <[(k * 4 + 3)%nat := 0]> d0
  else if paintTransparentPixels opts
          && (d0 !!! (k * 4 + 3)%nat <? transparencyThreshold opts)
       then put_pixel d0 (k * 4) 0 0 0 0
       else put_pixel d0 (k * 4) r g b 255.

Lemma sq_body_branches (s : SQState) (k : nat) :
  exists r g b,
    sq_data (sq_body rt opts palette s k) = branches (sq_data s) k r g b
    /\ sq_totalValid (sq_body rt opts palette s k)
       = (sq_totalValid s + if eligible_pixel (sq_data s) k then 1 else 0)%nat.
Proof.
  unfold sq_body, branches, eligible_pixel, isEligible. cbv zeta.
  rewrite not_transparent_leb.
  destruct (findClosestPaletteColor _ _ _ _ _ _ _ _) as [[[nr ng] nb] lc].
  exists nr, ng, nb.
  destruct ((paintTransparentPixels opts || _) && _); cbn [negb].
  - destruct (paintTransparentPixels opts && _); cbn [sq_data sq_totalValid];
      split; auto; lia.
  - cbn [sq_data sq_totalValid]. split; auto; lia.
Qed.

Lemma od_body_branches (method : string) (strength : float) (width : nat)
    (s : ODState) (y x : nat) :
  match od_body rt opts palette method strength width (Some s) y x with
  | Some s' =>
      exists r g b,
        od_data s' = branches (od_data s) (y * width + x) r g b
        /\ od_totalValid s'
           = (od_totalValid s
              + if eligible_pixel (od_data s) (y * width + x) then 1 else 0)%nat
  | None => True
  end.
Proof.
  unfold od_body, branches, eligible_pixel, isEligible. cbv zeta.
  rewrite not_transparent_leb.
  destruct ((paintTransparentPixels opts || _) && _); cbn [negb].
  - destruct (paintTransparentPixels opts && _).
    + exists 0, 0, 0. cbn [od_data od_totalValid]. split; auto; lia.
    + destruct (ordered_threshold _ _ _ _ _ _); [|exact I].
      destruct (findClosestPaletteColor _ _ _ _ _ _ _ _) as [[[nr ng] nb] lc].
      exists nr, ng, nb. cbn [od_data od_totalValid]. split; auto; lia.
  - exists 0, 0, 0. cbn [od_data od_totalValid]. split; auto; lia.
Qed.

Lemma branches_step (d d0 : list Z) (n k : nat) (r g b : Z) :
  (k < n)%nat -> length d0 = (n * 4)%nat -> untouched_pixel d d0 k ->
  length (branches d0 k r g b) = (n * 4)%nat
  /\ masked_pixel d (branches d0 k r g b) k
  /\ forall j, j <> k ->
       (untouched_pixel d d0 j -> untouched_pixel d (branches d0 k r g b) j)
       /\ (masked_pixel d d0 j -> masked_pixel d (branches d0 k r g b) j).
Proof.
  intros Hk Hlen Hu.
  destruct (masked_branches d d0 k r g b) as [Hsame Hmask]; [lia|assumption|].
  fold (branches d0 k r g b) in Hsame, Hmask.
  split; [destruct Hsame as [E _]; congruence|]. split; [exact Hmask|].
  intros j Hj. split; intros H.
  - eapply same_but_pixel_untouched; [|exact Hsame|exact H]. congruence.
  - eapply same_but_pixel_masked; [|exact Hsame|exact H]. congruence.
Qed.

Lemma sq_mask (labCache : gmap Z triple) (imageData : list Z) (width height n : nat) :
  length imageData = (n * 4)%nat ->
  let d := Uint8ClampedArray_from imageData in
  let q := fst (applySimpleQuantization rt labCache imageData width height palette opts) in
  length (data q) = length imageData
  /\ totalValidPixels q = count_eligible d (seq 0 n)
  /\ forall k, (k < n)%nat -> masked_pixel d (data q) k.
Proof.
  intros Hlen d q. subst q. unfold applySimpleQuantization. cbv zeta. cbn [fst data totalValidPixels].
  fold d. assert (Hd : length d = (n * 4)%nat) by (unfold d; now rewrite clamped_length).
  rewrite Hd, div4_pixels.
  destruct (scan_fold_all (fun k : nat => k) sq_totalValid (eligible_pixel d)
              (fun _ => True) (fun s => length (sq_data s) = (n * 4)%nat)
              (fun s k => untouched_pixel d (sq_data s) k)
              (fun s k => masked_pixel d (sq_data s) k)
              (sq_body rt opts palette) n (seq 0 n)
              {| sq_data := d; sq_totalValid := 0; sq_labCache := labCache |})
    as (H1 & H2 & H3).
  - apply map_id.
  - exact Hd.
  - intros k _. split; reflexivity.
  - intros s k Hin _. split; [exact I|]. intros Hl Hu.
    apply in_seq in Hin.
    destruct (sq_body_branches s k) as (r & g & b & Ed & Ec). rewrite Ed, Ec.
    rewrite (untouched_eligible d _ k Hu).
    destruct (branches_step d (sq_data s) n k r g b) as (B1 & B2 & B3);
      [lia|assumption|assumption|]. auto.
  - exact I.
  - cbn [sq_data sq_totalValid] in *. split; [congruence|]. split; [exact H2|exact H3].
Qed.

Lemma od_mask (labCache : gmap Z triple) (imageData : list Z) (width height : nat)
    (method : string) (strength : float) (r : Quantized * gmap Z triple) :
  length imageData = (width * height * 4)%nat ->
  _applyOrderedDither rt labCache imageData width height palette method strength opts
  = Some r ->
  let d := Uint8ClampedArray_from imageData in
  length (data (fst r)) = length imageData
  /\ totalValidPixels (fst r) = count_eligible d (seq 0 (width * height))
  /\ forall k, (k < width * height)%nat -> masked_pixel d (data (fst r)) k.
Proof.
  intros Hlen Hrun d. unfold _applyOrderedDither, for_yx in Hrun. fold d in Hrun.
  assert (Hd : length d = (height * width * 4)%nat)
    by (unfold d; rewrite clamped_length; lia).
  replace (width * height)%nat with (height * width)%nat by lia.
  set (st0 := {| od_data := d; od_totalValid := 0; od_labCache := labCache;
                 od_draws := 0 |}) in Hrun.
  destruct (scan_fold_all (fun yx : nat * nat => (fst yx * width + snd yx)%nat)
              (fun ost => match ost with Some s => od_totalValid s | None => 0%nat end)
              (eligible_pixel d)
              (fun ost : option ODState => ost <> None)
              (fun ost => forall s, ost = Some s ->
                          length (od_data s) = (height * width * 4)%nat)
              (fun ost k => forall s, ost = Some s -> untouched_pixel d (od_data s) k)
              (fun ost k => forall s, ost = Some s -> masked_pixel d (od_data s) k)
              (fun ost yx => od_body rt opts palette method strength width ost
                               (fst yx) (snd yx))
              (height * width)%nat (raster_order height width) (Some st0))
    as (H1 & H2 & H3).
  - apply raster_order_index.
  - intros s [= <-]. exact Hd.
  - intros k _ s [= <-]. split; reflexivity.
  - intros [s|] [y x] Hin Halive; [|now destruct Halive]. split; [discriminate|].
    intros Hl Hu. cbn [fst snd] in *.
    pose proof (od_body_branches method strength width s y x) as Hb.
    destruct (od_body _ _ _ _ _ _ _ _ _) as [s'|]; [|now destruct Halive].
    destruct Hb as (cr & cg & cb & Ed & Ec).
    specialize (Hl s eq_refl). specialize (Hu s eq_refl).
    rewrite (untouched_eligible d _ _ Hu) in Ec.
    destruct (branches_step d (od_data s) (height * width) (y * width + x) cr cg cb)
      as (B1 & B2 & B3); [|assumption|assumption|].
    { apply (raster_cell_bound height width (y, x)) in Hin. cbn [fst snd] in Hin. lia. }
    split; [intros ? [= <-]; congruence|]. split; [intros ? [= <-]; congruence|].
    split; [exact Ec|]. intros k Hk. destruct (B3 k Hk) as [B4 B5].
    split; intros H ? [= <-]; rewrite Ed; [apply B4|apply B5]; now apply H.
  - destruct (fold_left _ _ _); [discriminate|discriminate].
  - destruct (fold_left _ _ _) as [st|]; [|discriminate].
    injection Hrun as <-. cbn [fst data totalValidPixels].
    split; [rewrite (H1 st eq_refl); lia|]. split; [exact H2|].
    intros k Hk. now apply H3.
Qed.

(** On a pixel that is there, the test of the "Init buffers" loop is the
    eligibility test. *)
Lemma read_eligible (d : list Z) (k : nat) :
  (k * 4 + 3 < length d)%nat ->
  (paintTransparentPixels opts
   || read_geb (d !! (k * 4 + 3)%nat) (transparencyThreshold opts))
  && (paintWhitePixels opts
      || negb (read_geb (d !! (k * 4)%nat) (whiteThreshold opts)
               && read_geb (d !! (k * 4 + 1)%nat) (whiteThreshold opts)
               && read_geb (d !! (k * 4 + 2)%nat) (whiteThreshold opts)))
  = eligible_pixel d k.
Proof.
  intros Hlen. unfold eligible_pixel, isEligible, isWhitePixel.
  rewrite !(list_lookup_lookup_total_lt d) by lia. reflexivity.
Qed.

(** A pixel after the first loop of the error diffusion. *)
Definition flagged_pixel (d : list Z) (s : EDState) (k : nat) : Prop :=
  rgb_at (ed_data s) k = rgb_at d k
  /\ alpha_at (ed_data s) k = (if eligible_pixel d k then alpha_at d k else 0)
  /\ ed_eligible s !!! k = eligible_pixel d k.

Lemma ed_init_mask (labCache : gmap Z triple) (imageData : list Z) (width height : nat) :
  length imageData = (width * height * 4)%nat ->
  let d := Uint8ClampedArray_from imageData in
  let st := ed_init rt labCache imageData width height opts in
  length (ed_data st) = (height * width * 4)%nat
  /\ ed_totalValid st = 0%nat
  /\ forall k, (k < height * width)%nat -> flagged_pixel d st k.
Proof.
  intros Hlen d. unfold ed_init, for_yx. cbv zeta. fold d.
  assert (Hd : length d = (height * width * 4)%nat)
    by (unfold d; rewrite clamped_length; lia).
  match goal with |- context [fold_left _ _ ?s0] => set (st0 := s0) end.
  destruct (scan_fold_all (fun yx : nat * nat => (fst yx * width + snd yx)%nat)
              (fun _ : EDState => 0%nat) (fun _ => false) (fun _ => True)
              (fun s => length (ed_data s) = (height * width * 4)%nat
                        /\ length (ed_eligible s) = (height * width)%nat
                        /\ ed_totalValid s = 0%nat)
              (fun s k => untouched_pixel d (ed_data s) k)
              (flagged_pixel d)
              (fun st yx => ed_init_body rt opts width st (fst yx) (snd yx))
              (height * width)%nat (raster_order height width) st0)
    as ((H1 & _ & H1') & _ & H3).
  - apply raster_order_index.
  - unfold st0. cbn [ed_data ed_eligible ed_totalValid].
    rewrite length_replicate. split; [exact Hd|]. split; [lia|reflexivity].
  - intros k _. split; reflexivity.
  - intros s [y x] Hin _. split; [exact I|]. intros (Hl & Hle & Ht) Hu.
    cbn [fst snd] in *.
    apply (raster_cell_bound height width (y, x)) in Hin. cbn [fst snd] in Hin.
    set (k := (y * width + x)%nat) in *.
    pose proof (untouched_eligible d _ k Hu) as Hel.
    unfold ed_init_body. cbv zeta. fold k.
    rewrite (read_eligible (ed_data s) k) by lia.
    rewrite Hel. cbn [ed_data ed_eligible ed_totalValid].
    assert (Hsame : same_but_pixel k (ed_data s)
                      (if eligible_pixel d k then ed_data s
                       else <[(k * 4 + 3)%nat := 0]> (ed_data s))).
    { destruct (eligible_pixel d k); [split; auto|apply same_but_pixel_alpha]. }
    split; [|split; [|split; [reflexivity|]]].
    + rewrite length_insert. destruct Hsame as [E _]. split; [congruence|auto].
    + destruct Hu as [Hrgb Ha]. unfold flagged_pixel. cbn [ed_data ed_eligible].
      split; [|split].
      * destruct (eligible_pixel d k); [exact Hrgb|].
        rewrite <- Hrgb. unfold rgb_at. now rewrite !list_lookup_total_insert_ne by lia.
      * destruct (eligible_pixel d k); [exact Ha|].
        unfold alpha_at. apply list_lookup_total_insert_eq. lia.
      * apply list_lookup_total_insert_eq. lia.
    + intros j Hj. split.
      * intros H. eapply same_but_pixel_untouched; [|exact Hsame|exact H]. congruence.
      * intros (F1 & F2 & F3). destruct Hsame as [_ Hs].
        unfold flagged_pixel, rgb_at, alpha_at in *. cbn [ed_data ed_eligible].
        rewrite !Hs by lia. rewrite list_lookup_total_insert_ne by congruence. auto.
  - exact I.
  - split; [exact H1|]. split; [exact H1'|exact H3].
Qed.

Lemma ed_body_branches (kernel : option Kernel) (width height : nat) (s : EDState)
    (y x : nat) :
  ((y * width + x) * 4 + 3 < length (ed_data s))%nat ->
  match ed_body rt opts palette kernel width height (Some s) y x with
  | Some s' =>
      ed_eligible s' = ed_eligible s
      /\ if (ed_eligible s !!! (y * width + x)%nat : bool) return Prop then
           ed_totalValid s' = S (ed_totalValid s)
           /\ exists r g b,
                ed_data s'
                = if paintTransparentPixels opts
                     && (alpha_at (ed_data s) (y * width + x) <? transparencyThreshold opts)
                  then put_pixel (ed_data s) ((y * width + x) * 4) 0 0 0 0
                  else put_pixel (ed_data s) ((y * width + x) * 4) r g b 255
         else s' = s
  | None => True
  end.
Proof.
  intros Hlen. unfold ed_body. cbv zeta.
  rewrite (list_lookup_lookup_total_lt (ed_data s)) by lia. cbn [read_ltb].
  fold (alpha_at (ed_data s) (y * width + x)).
  destruct (ed_eligible s !!! (y * width + x)%nat); cbn [negb]; [|auto].
  destruct (paintTransparentPixels opts && _).
  - cbn [ed_eligible ed_totalValid ed_data]. split; [reflexivity|].
    split; [reflexivity|]. now exists 0, 0, 0.
  - destruct (findClosestPaletteColor _ _ _ _ _ _ _ _) as [[[nr ng] nb] lc].
    destruct kernel as [kernel|]; [|exact I].
    cbn [ed_eligible ed_totalValid ed_data]. split; [reflexivity|].
    split; [reflexivity|]. now exists nr, ng, nb.
Qed.

Lemma ed_mask (labCache : gmap Z triple) (imageData : list Z) (width height : nat)
    (method : string) (out : Quantized * gmap Z triple) :
  length imageData = (width * height * 4)%nat ->
  _applyErrorDiffusion rt labCache imageData width height palette method opts = Some out ->
  let d := Uint8ClampedArray_from imageData in
  length (data (fst out)) = length imageData
  /\ totalValidPixels (fst out) = count_eligible d (seq 0 (width * height))
  /\ forall k, (k < width * height)%nat -> masked_pixel d (data (fst out)) k.
Proof.
  intros Hlen Hrun d. unfold _applyErrorDiffusion, for_yx in Hrun.
  destruct (ed_init_mask labCache imageData width height Hlen) as (I1 & I2 & I3).
  fold d in I3. set (st1 := ed_init rt labCache imageData width height opts) in *.
  replace (width * height)%nat with (height * width)%nat by lia.
  destruct (scan_fold_all (fun yx : nat * nat => (fst yx * width + snd yx)%nat)
              (fun ost => match ost with Some s => ed_totalValid s | None => 0%nat end)
              (eligible_pixel d)
              (fun ost : option EDState => ost <> None)
              (fun ost => forall s, ost = Some s ->
                          length (ed_data s) = (height * width * 4)%nat
                          /\ ed_eligible s = ed_eligible st1)
              (fun ost k => forall s, ost = Some s ->
                            rgb_at (ed_data s) k = rgb_at d k
                            /\ alpha_at (ed_data s) k
                               = if eligible_pixel d k then alpha_at d k else 0)
              (fun ost k => forall s, ost = Some s -> masked_pixel d (ed_data s) k)
              (fun ost yx => ed_body rt opts palette (_getDitherKernel method) width height
                               ost (fst yx) (snd yx))
              (height * width)%nat (raster_order height width) (Some st1))
    as (H1 & H2 & H3).
  - apply raster_order_index.
  - intros s [= <-]. split; [exact I1|reflexivity].
  - intros k Hk s [= <-]. destruct (I3 k Hk) as (F1 & F2 & _). auto.
  - intros [s|] [y x] Hin Halive; [|now destruct Halive]. split; [discriminate|].
    intros Hinv Hpend. cbn [fst snd] in *.
    destruct (Hinv s eq_refl) as (Hl & Hle). destruct (Hpend s eq_refl) as (Hrgb & Ha).
    apply (raster_cell_bound height width (y, x)) in Hin. cbn [fst snd] in Hin.
    set (k := (y * width + x)%nat) in *.
    assert (Hk : (k < height * width)%nat) by lia.
    destruct (I3 k Hk) as (_ & _ & Hflag).
    pose proof (ed_body_branches (_getDitherKernel method) width height s y x
                  ltac:(fold k; lia)) as Hb.
    destruct (ed_body _ _ _ _ _ _ _ _ _) as [s'|]; [|now destruct Halive].
    fold k in Hb. destruct Hb as (He' & Hb). rewrite Hle, Hflag in Hb.
    destruct (eligible_pixel d k) eqn:Hel.
    + destruct Hb as (Et & cr & cg & cb & Ed). rewrite Ha in Ed.
      change (paintTransparentPixels opts && (alpha_at d k <? transparencyThreshold opts))
        with (paints_transparent d k) in Ed.
      assert (Hmask : mask_alpha d k = if paints_transparent d k then 0 else 255)
        by (unfold mask_alpha, paints_transparent; now rewrite Hel).
      assert (Hput : exists pr pg pb pa,
                 ed_data s' = put_pixel (ed_data s) (k * 4) pr pg pb pa
                 /\ clamp8 pa = mask_alpha d k
                 /\ (paints_transparent d k = true -> (pr, pg, pb) = (0, 0, 0))).
      { destruct (paints_transparent d k).
        - exists 0, 0, 0, 0. rewrite Hmask. auto.
        - exists cr, cg, cb, 255. rewrite Hmask. split; [exact Ed|].
          split; [reflexivity|discriminate]. }
      destruct Hput as (pr & pg & pb & pa & Ed' & Hpa & Hblack).
      pose proof (same_but_pixel_put k (ed_data s) pr pg pb pa) as Hsame.
      rewrite <- Ed' in Hsame.
      split; [intros ? [= <-]; split; [destruct Hsame as [E _]; congruence|congruence]|].
      split; [intros ? [= <-]; rewrite Ed'; apply masked_painted;
              [lia|assumption|assumption|assumption]|].
      split; [lia|]. intros j Hj. split.
      * intros H ? [= <-]. destruct (H s eq_refl) as [J1 J2].
        destruct Hsame as [_ Hs]. unfold rgb_at, alpha_at in *. now rewrite !Hs by lia.
      * intros H ? [= <-]. eapply same_but_pixel_masked; [|exact Hsame|now apply H].
        congruence.
    + subst s'.
      split; [intros ? [= <-]; auto|].
      split; [|split; [lia|]].
      * intros ? [= <-]. unfold masked_pixel, mask_alpha. rewrite Hel.
        split; [exact Ha|]. split; [auto|discriminate].
      * intros j Hj. split; intros H ? [= <-]; now apply H.
  - destruct (fold_left _ _ _); [discriminate|discriminate].
  - destruct (fold_left _ _ _) as [st|]; [|discriminate].
    injection Hrun as <-. cbn [fst data totalValidPixels].
    destruct (H1 st eq_refl) as [H1' _].
    split; [rewrite H1'; lia|]. split; [rewrite H2, I2; reflexivity|].
    intros k Hk. now apply H3.
Qed.

End QuantizerMask.

(** What the three quantizers agree on, whatever the palette and the
    matcher do: the length of the raster, the alpha mask, the colour of the
    pixels that do not reach the matcher, and the counter. *)
Definition follows_mask (opts : Options) (imageData : list Z) (n : nat) (q : Quantized)
  : Prop :=
  let d := Uint8ClampedArray_from imageData in
  length (data q) = length imageData
  /\ totalValidPixels q = count_eligible opts d (seq 0 n)
  /\ forall k, (k < n)%nat -> masked_pixel opts d (data q) k.

(** X4.  On a raster of [width * height] pixels, plain quantization, and
    error diffusion, ordered dithering and [applyDithering] when they return
    (the first throws for a method name that the kernel table inherits, the
    second for a method without matrix), leave the same alpha mask and the
    same counter: a pixel that is not eligible keeps its colour and gets
    alpha 0; an eligible one gets alpha 255, or all four bytes 0 when
    [paintTransparentPixels] is set and its alpha is below the threshold;
    [totalValidPixels] is the number of eligible pixels. *)
Theorem quantizers_share_mask_and_count
    (rt : Runtime) (labCache : gmap Z triple) (imageData : list Z) (width height : nat)
    (palette : list rgb8) (method : string) (strength : float) (opts : Options) :
  length imageData = (width * height * 4)%nat ->
  let n := (width * height)%nat in
  follows_mask opts imageData n
    (fst (applySimpleQuantization rt labCache imageData width height palette opts))
  /\ (forall out,
        _applyErrorDiffusion rt labCache imageData width height palette method opts
        = Some out -> follows_mask opts imageData n (fst out))
  /\ (forall out,
        _applyOrderedDither rt labCache imageData width height palette method strength opts
        = Some out -> follows_mask opts imageData n (fst out))
  /\ (forall out,
        applyDithering rt labCache imageData width height palette method strength opts
        = Some out -> follows_mask opts imageData n (fst out)).
Proof.
  intros Hlen n. unfold follows_mask. cbv zeta.
  assert (Hod : forall out,
             _applyOrderedDither rt labCache imageData width height palette method strength
               opts = Some out ->
             length (data (fst out)) = length imageData
             /\ totalValidPixels (fst out)
                = count_eligible opts (Uint8ClampedArray_from imageData) (seq 0 n)
             /\ forall k, (k < n)%nat ->
                  masked_pixel opts (Uint8ClampedArray_from imageData) (data (fst out)) k).
  { intros out Hrun. eapply od_mask; eassumption. }
  assert (Hed : forall m out,
             _applyErrorDiffusion rt labCache imageData width height palette m opts
             = Some out ->
             length (data (fst out)) = length imageData
             /\ totalValidPixels (fst out)
                = count_eligible opts (Uint8ClampedArray_from imageData) (seq 0 n)
             /\ forall k, (k < n)%nat ->
                  masked_pixel opts (Uint8ClampedArray_from imageData) (data (fst out)) k).
  { intros m out Hrun. eapply ed_mask; eassumption. }
  split; [apply sq_mask; exact Hlen|]. split; [apply Hed|].
  split; [exact Hod|]. intros out. unfold applyDithering.
  destruct (existsb _ _); [apply Hed|].
  destruct (existsb _ _); [apply Hod|apply Hed].
Qed.

Definition mixed_raster : list Z :=
  [200; 10; 10; 255;  90; 90; 90; 127;  240; 240; 240; 255;  0; 0; 0; 0;
   12; 200; 30; 128;  255; 255; 255; 255].

Definition keep_white_out : Options := {|
  exactMatch := false;
  algorithm := "lab";
  enableChromaPenalty := false;
  chromaPenaltyWeight := 0.15%float;
  paintTransparentPixels := false;
  paintWhitePixels := false;
  transparencyThreshold := TRANSPARENCY_THRESHOLD;
  whiteThreshold := WHITE_THRESHOLD
|}.

Definition mixed_diffused : option (Quantized * gmap Z triple) :=
  _applyErrorDiffusion RefEngine.runtime ∅ mixed_raster 3 2 [(0, 0, 0); (255, 0, 0)]
    "atkinson" keep_white_out.

(** Under [keep_white_out] two of the six pixels of [mixed_raster] are
    eligible and the third loses its alpha; under [paint_all] the second
    pixel (90, 90, 90, 127) is painted as transparent: all its bytes are 0. *)
Lemma quantizers_share_mask_and_count_witness :
  match mixed_diffused with
  | Some out => totalValidPixels (fst out) = 2%nat
  | None => False
  end
  /\ alpha_at
       (data (fst (applySimpleQuantization RefEngine.runtime ∅ mixed_raster 3 2
                     [(0, 0, 0); (255, 0, 0)] keep_white_out))) 2 = 0
  /\ rgb_at
       (data (fst (applySimpleQuantization RefEngine.runtime ∅ mixed_raster 3 2
                     [(0, 0, 0); (255, 0, 0)] paint_all))) 1 = (0, 0, 0).
Proof.
  destruct (quantizers_share_mask_and_count RefEngine.runtime ∅ mixed_raster 3 2
              [(0, 0, 0); (255, 0, 0)] "atkinson" 1%float keep_white_out eq_refl)
    as ((_ & _ & Hsq) & Hed & _).
  destruct (quantizers_share_mask_and_count RefEngine.runtime ∅ mixed_raster 3 2
              [(0, 0, 0); (255, 0, 0)] "atkinson" 1%float paint_all eq_refl)
    as ((_ & _ & Hsq') & _).
  split; [|split].
  - unfold mixed_diffused.
    destruct (_applyErrorDiffusion _ _ _ _ _ _ _ _) as [out|] eqn:E;
      [|vm_compute in E; discriminate].
    rewrite (proj1 (proj2 (Hed out eq_refl))). vm_compute. reflexivity.
  - rewrite (proj1 (Hsq 2%nat ltac:(lia))). vm_compute. reflexivity.
  - apply (proj2 (proj2 (Hsq' 1%nat ltac:(lia)))); vm_compute; reflexivity.
Defined.

(** ** Edge erosion: what a pass does *)

(** A scan that stores [v] at the positions of the chosen items. *)
Lemma fold_writes {A : Type} (pos : A -> nat) (c : A -> bool) (v : Z)
    (items : list A) (res : list Z) :
  let out := fold_left (fun res a => if c a then <[pos a := v]> res else res) items res in
  length out = length res
  /\ forall j, (j < length res)%nat ->
       out !!! j = if existsb (fun a => c a && (pos a =? j)%nat) items then v
                   else res !!! j.
Proof.
  cbv zeta. revert res. induction items as [|a items IH]; intros res.
  - simpl. auto.
  - cbn [fold_left existsb].
    destruct (IH (if c a then <[pos a := v]> res else res)) as [Hl Hj].
    assert (Hlen : length (if c a then <[pos a := v]> res else res) = length res)
      by (destruct (c a); [apply length_insert|reflexivity]).
    split; [congruence|]. intros j Hlt. rewrite Hj by lia.
    destruct (existsb _ items); [now rewrite orb_true_r|]. rewrite orb_false_r.
    destruct (c a); cbn [andb]; [|reflexivity].
    destruct (Nat.eqb_spec (pos a) j) as [->|Hne].
    + now apply list_lookup_total_insert_eq.
    + now apply list_lookup_total_insert_ne.
Qed.

Lemma cell_unique (w y x y' x' : nat) :
  (x < w)%nat -> (x' < w)%nat -> (y * w + x = y' * w + x')%nat -> y = y' /\ x = x'.
Proof.
  intros Hx Hx' E. assert (y = y') as ->; [|lia].
  destruct (lt_eq_lt_dec y y') as [[H|H]|H]; [nia|exact H|nia].
Qed.

Lemma interior_order_In (h w y x : nat) :
  In (y, x) (interior_order h w) <-> (1 <= y /\ y + 1 < h /\ 1 <= x /\ x + 1 < w)%nat.
Proof.
  unfold interior_order. rewrite in_flat_map. split.
  - intros (y' & Hy & Hx). apply in_map_iff in Hx as (x' & [= <- <-] & Hx).
    apply in_seq in Hy, Hx. lia.
  - intros H. exists y. split; [apply in_seq; lia|].
    apply in_map_iff. exists x. split; [reflexivity|apply in_seq; lia].
Qed.

(** Whether a pass clears the alpha of the pixel [(x, y)] of [r]. *)
Definition worn (r : list Z) (width height : nat) (y x : nat) : bool :=
  (1 <=? y)%nat && (y + 1 <? height)%nat && (1 <=? x)%nat && (x + 1 <? width)%nat
  && (128 <? alpha_at r (y * width + x))
  && existsb
       (fun d : Z * Z =>
          alpha_at r (Z.to_nat ((Z.of_nat y + fst d) * Z.of_nat width + (Z.of_nat x + snd d)))
          <? 128)
       [(-1, -1); (-1, 0); (-1, 1); (0, -1); (0, 0); (0, 1); (1, -1); (1, 0); (1, 1)].

Lemma below_128_alpha (r : list Z) (width height : nat) (y x : nat) (dy dx : Z) :
  length r = (width * height * 4)%nat ->
  (1 <= y /\ y + 1 < height /\ 1 <= x /\ x + 1 < width)%nat ->
  -1 <= dy <= 1 -> -1 <= dx <= 1 ->
  below_128 r
    (Z.to_nat (((Z.of_nat y + dy) * Z.of_nat width + (Z.of_nat x + dx)) * 4 + 3))
  = (alpha_at r (Z.to_nat ((Z.of_nat y + dy) * Z.of_nat width + (Z.of_nat x + dx)))
     <? 128).
Proof.
  intros Hlen Hin Hdy Hdx. unfold below_128, alpha_at.
  set (c := (Z.of_nat y + dy) * Z.of_nat width + (Z.of_nat x + dx)).
  assert (Hc : 0 <= c < Z.of_nat (width * height)) by (unfold c; nia).
  replace (Z.to_nat (c * 4 + 3)) with (Z.to_nat c * 4 + 3)%nat by lia.
  rewrite list_lookup_total_alt.
  destruct (r !! (Z.to_nat c * 4 + 3)%nat) as [a|] eqn:E; [reflexivity|].
  apply lookup_ge_None in E. lia.
Qed.

Lemma erode_pass_spec (r : list Z) (width height : nat) :
  length r = (width * height * 4)%nat ->
  length (erode_pass width height r) = length r
  /\ forall y x, (y < height)%nat -> (x < width)%nat ->
       rgb_at (erode_pass width height r) (y * width + x) = rgb_at r (y * width + x)
       /\ alpha_at (erode_pass width height r) (y * width + x)
          = if worn r width height y x then 0 else alpha_at r (y * width + x).
Proof.
  intros Hlen. unfold erode_pass. cbv zeta.
  pose proof (fold_writes (fun yx : nat * nat => ((fst yx * width + snd yx) * 4 + 3)%nat)
                (fun yx => hasTransparentNeighbor r width (fst yx) (snd yx)
                           && (128 <? r !!! ((fst yx * width + snd yx) * 4 + 3)%nat))
                0 (interior_order height width) r) as [Hl Hj].
  cbv zeta in Hl, Hj. unfold erode_body. cbv zeta.
  split; [exact Hl|]. intros y x Hy Hx.
  assert (Hk : (y * width + x < width * height)%nat) by nia.
  assert (Hno : forall c, (c < 3)%nat ->
            existsb (fun a : nat * nat =>
                       hasTransparentNeighbor r width (fst a) (snd a)
                       && (128 <? r !!! ((fst a * width + snd a) * 4 + 3)%nat)
                       && (((fst a * width + snd a) * 4 + 3)%nat
                           =? ((y * width + x) * 4 + c)%nat)%nat)
              (interior_order height width) = false).
  { intros c Hc. apply not_true_is_false. intros E.
    apply existsb_exists in E as (a & _ & E). apply andb_prop in E as [_ E].
    apply Nat.eqb_eq in E. lia. }
  split.
  - unfold rgb_at. rewrite !Hj by lia.
    replace (y * width + x)%nat with (y * width + x + 0)%nat at 1 by lia.
    pose proof (Hno 0%nat ltac:(lia)) as H0. pose proof (Hno 1%nat ltac:(lia)) as H1.
    pose proof (Hno 2%nat ltac:(lia)) as H2.
    replace ((y * width + x) * 4 + 0)%nat with ((y * width + x) * 4)%nat in H0 by lia.
    replace ((y * width + x + 0) * 4)%nat with ((y * width + x) * 4)%nat by lia.
    now rewrite H0, H1, H2.
  - unfold alpha_at at 1. rewrite Hj by lia. fold (alpha_at r (y * width + x)).
    match goal with |- (if ?e then _ else _) = _ =>
      assert (Heq : e = worn r width height y x); [|now rewrite Heq] end.
    apply eq_true_iff_eq. rewrite existsb_exists. unfold worn. split.
    + intros ([y' x'] & Hin & E). cbn [fst snd] in E.
      apply andb_prop in E as [E Epos]. apply andb_prop in E as [Ehas Ealpha].
      apply Nat.eqb_eq in Epos. apply interior_order_In in Hin.
      destruct (cell_unique width y' x' y x) as [-> ->]; [lia|lia|lia|].
      fold (alpha_at r (y * width + x)) in Ealpha. rewrite Ealpha.
      replace (1 <=? y)%nat with true by (symmetry; apply Nat.leb_le; lia).
      replace (y + 1 <? height)%nat with true by (symmetry; apply Nat.ltb_lt; lia).
      replace (1 <=? x)%nat with true by (symmetry; apply Nat.leb_le; lia).
      replace (x + 1 <? width)%nat with true by (symmetry; apply Nat.ltb_lt; lia).
      cbn [andb]. unfold hasTransparentNeighbor in Ehas. cbn [existsb] in Ehas |- *.
      cbn [fst snd].
      rewrite !(below_128_alpha r width height y x) in Ehas by (assumption || lia).
      rewrite ?orb_false_r in Ehas. rewrite ?orb_false_r.
      rewrite <- ?orb_assoc in Ehas. rewrite <- ?orb_assoc. exact Ehas.
    + intros E. repeat (apply andb_prop in E as [E ?]).
      apply Nat.leb_le in E. 
      match goal with H : (_ <? _)%nat = true |- _ => apply Nat.ltb_lt in H end.
      match goal with H : (_ <? _)%nat = true |- _ => apply Nat.ltb_lt in H end.
      match goal with H : (_ <=? _)%nat = true |- _ => apply Nat.leb_le in H end.
      exists (y, x). split; [apply interior_order_In; lia|]. cbn [fst snd].
      rewrite Nat.eqb_refl, andb_true_r. apply andb_true_intro. split; [|assumption].
      unfold hasTransparentNeighbor. cbn [existsb].
      rewrite !(below_128_alpha r width height y x) by (assumption || lia).
      match goal with H : existsb _ _ = true |- _ => cbn [existsb fst snd] in H;
        rewrite ?orb_false_r in H; rewrite <- ?orb_assoc in H end.
      rewrite ?orb_false_r. rewrite <- ?orb_assoc. assumption.
Qed.

Lemma erode_pass_bytes (r : list Z) (width height : nat) :
  Forall is_byte r -> Forall is_byte (erode_pass width height r).
Proof.
  intros Hb. unfold erode_pass. cbv zeta. generalize r at 1 as temp. intros temp.
  revert r Hb. induction (interior_order height width) as [|a l IH]; intros r Hb.
  - exact Hb.
  - cbn [fold_left]. apply IH. unfold erode_body. cbv zeta.
    destruct (_ && _); [|exact Hb]. apply Forall_insert; [exact Hb|].
    unfold is_byte. lia.
Qed.

Lemma erode_iter_bytes (r : list Z) (width height n : nat) :
  Forall is_byte r -> Forall is_byte (Nat.iter n (erode_pass width height) r).
Proof.
  intros Hb. induction n as [|n IH]; [exact Hb|]. rewrite ?Nat.iter_succ.
  now apply erode_pass_bytes.
Qed.

Lemma clamped_of_bytes (r : list Z) : Forall is_byte r -> Uint8ClampedArray_from r = r.
Proof.
  unfold Uint8ClampedArray_from. induction 1 as [|z r Hz _ IH]; [reflexivity|].
  cbn [map]. rewrite IH. f_equal. now apply clamp8_byte.
Qed.

Lemma erodeEdges_iter (imageData : list Z) (width height : nat) (amount : Z) :
  erodeEdges imageData width height amount
  = Nat.iter (Z.to_nat amount) (erode_pass width height) (Uint8ClampedArray_from imageData).
Proof.
  unfold erodeEdges. destruct (Z.leb_spec amount 0); [|reflexivity].
  now replace (Z.to_nat amount) with 0%nat by lia.
Qed.

Lemma erodeEdges_bytes (imageData : list Z) (width height : nat) (amount : Z) :
  Forall is_byte (erodeEdges imageData width height amount).
Proof. rewrite erodeEdges_iter. apply erode_iter_bytes, clamped_bytes. Qed.

Lemma erodeEdges_length (imageData : list Z) (width height : nat) (amount : Z) :
  length imageData = (width * height * 4)%nat ->
  length (erodeEdges imageData width height amount) = length imageData.
Proof.
  intros Hlen. rewrite erodeEdges_iter.
  induction (Z.to_nat amount) as [|n IH]; [apply clamped_length|].
  rewrite ?Nat.iter_succ. rewrite <- IH. apply erode_pass_spec. congruence.
Qed.

(** X5.  Whatever the amount, [erodeEdges] keeps the length and every
    colour; the alpha of a pixel is either the one it had or 0, and it can
    only become 0 for a pixel off the border of the raster whose alpha was
    above 128. *)
Theorem erodeEdges_only_clears_inner_alpha
    (imageData : list Z) (width height : nat) (amount : Z) (y x : nat) :
  length imageData = (width * height * 4)%nat ->
  (y < height)%nat -> (x < width)%nat ->
  let d := Uint8ClampedArray_from imageData in
  let out := erodeEdges imageData width height amount in
  let k := (y * width + x)%nat in
  length out = length imageData
  /\ rgb_at out k = rgb_at d k
  /\ (alpha_at out k = alpha_at d k
      \/ (alpha_at out k = 0 /\ 128 < alpha_at d k
          /\ (1 <= y /\ y + 1 < height /\ 1 <= x /\ x + 1 < width)%nat)).
Proof.
  intros Hlen Hy Hx d out k. subst out.
  split; [now apply erodeEdges_length|].
  pose proof (fun a => erodeEdges_length imageData width height a Hlen) as Hl.
  rewrite erodeEdges_iter. setoid_rewrite erodeEdges_iter in Hl.
  assert (Hn : forall n, length (Nat.iter n (erode_pass width height) d)
                         = (width * height * 4)%nat).
  { intros n. specialize (Hl (Z.of_nat n)). rewrite Nat2Z.id in Hl. fold d in Hl.
    congruence. }
  fold d. clear Hl. induction (Z.to_nat amount) as [|n IH].
  - simpl. auto.
  - rewrite ?Nat.iter_succ.
    destruct (erode_pass_spec (Nat.iter n (erode_pass width height) d) width height
                (Hn n)) as [_ Hp].
    destruct (Hp y x Hy Hx) as [Hrgb Ha]. fold k in Hrgb, Ha.
    destruct IH as [IHrgb IHa]. split; [rewrite Hrgb; exact IHrgb|]. rewrite Ha.
    destruct (worn _ _ _ _ _) eqn:Ew; [|exact IHa].
    destruct IHa as [E|(E & Hd & Hin)]; [|right; auto].
    right. unfold worn in Ew. fold k in Ew.
    repeat (apply andb_prop in Ew as [Ew ?]).
    repeat match goal with
           | H : (_ <? _)%nat = true |- _ => apply Nat.ltb_lt in H
           | H : (_ <=? _)%nat = true |- _ => apply Nat.leb_le in H
           | H : (_ <? _) = true |- _ => apply Z.ltb_lt in H
           end.
    split; [reflexivity|]. split; [lia|lia].
Qed.

(** X6.  Each further unit of [amount] is one more pass over the previous
    result, and a pass judges every pixel on the raster as it was before
    the pass: the alpha becomes 0 exactly where the pixel is off the
    border, has alpha above 128 and one of the eight pixels around it has
    alpha below 128. *)
Theorem erodeEdges_wears_one_layer_per_unit
    (imageData : list Z) (width height : nat) (amount : Z) (y x : nat) :
  length imageData = (width * height * 4)%nat -> 0 <= amount ->
  (y < height)%nat -> (x < width)%nat ->
  let prev := erodeEdges imageData width height amount in
  let next := erodeEdges imageData width height (amount + 1) in
  alpha_at next (y * width + x)
  = if worn prev width height y x then 0 else alpha_at prev (y * width + x).
Proof.
  intros Hlen Ham Hy Hx prev next. subst prev next. rewrite !erodeEdges_iter.
  replace (Z.to_nat (amount + 1)) with (S (Z.to_nat amount)) by lia. rewrite ?Nat.iter_succ.
  rewrite <- erodeEdges_iter. apply erode_pass_spec; [|assumption|assumption].
  rewrite erodeEdges_length; assumption.
Qed.

(** X7.  Eroding by [a] and then by [b] is eroding by [a + b]. *)
Theorem erodeEdges_composes
    (imageData : list Z) (width height : nat) (a b : Z) :
  0 <= a -> 0 <= b ->
  erodeEdges (erodeEdges imageData width height a) width height b
  = erodeEdges imageData width height (a + b).
Proof.
  intros Ha Hb. rewrite (erodeEdges_iter (erodeEdges _ _ _ _)).
  rewrite clamped_of_bytes by apply erodeEdges_bytes. rewrite !erodeEdges_iter.
  replace (Z.to_nat (a + b)) with (Z.to_nat b + Z.to_nat a)%nat by lia.
  symmetry. apply Nat.iter_add.
Qed.

(** A 4 x 4 raster, opaque but for its first pixel. *)
Definition holed_raster : list Z :=
  [0; 0; 0; 0] ++ concat (replicate 15 [10; 20; 30; 255]).

Lemma erodeEdges_only_clears_inner_alpha_witness :
  rgb_at (erodeEdges holed_raster 4 4 2) 5 = (10, 20, 30).
Proof.
  exact (proj1 (proj2 (erodeEdges_only_clears_inner_alpha holed_raster 4 4 2 1 1
                         eq_refl ltac:(lia) ltac:(lia)))).
Defined.

Lemma erodeEdges_wears_one_layer_per_unit_witness :
  alpha_at (erodeEdges holed_raster 4 4 1) 5 = 0
  /\ alpha_at (erodeEdges holed_raster 4 4 1) 10 = 255
  /\ alpha_at (erodeEdges holed_raster 4 4 2) 10 = 0.
Proof.
  pose proof (erodeEdges_wears_one_layer_per_unit holed_raster 4 4 0 1 1
                eq_refl ltac:(lia) ltac:(lia) ltac:(lia)) as H0.
  pose proof (erodeEdges_wears_one_layer_per_unit holed_raster 4 4 0 2 2
                eq_refl ltac:(lia) ltac:(lia) ltac:(lia)) as H1.
  pose proof (erodeEdges_wears_one_layer_per_unit holed_raster 4 4 1 2 2
                eq_refl ltac:(lia) ltac:(lia) ltac:(lia)) as H2.
  split; [exact H0|]. split; [exact H1|exact H2].
Defined.

Lemma erodeEdges_composes_witness :
  erodeEdges (erodeEdges holed_raster 4 4 1) 4 4 1 = erodeEdges holed_raster 4 4 2.
Proof. exact (erodeEdges_composes holed_raster 4 4 1 1 ltac:(lia) ltac:(lia)). Defined.

(** ** Dilation by city-block distance *)

Section DilationTheory.

Context (on : Z -> bool) (mark : Z) (width height : nat).
Hypothesis mark_on : on mark = true.
Hypothesis zero_off : on 0 = false.

(** City-block distance between two cells. *)
Definition city_block (y x y' x' : nat) : Z :=
  Z.abs (Z.of_nat y - Z.of_nat y') + Z.abs (Z.of_nat x - Z.of_nat x').

(** Some cell of [l] within distance [n] of [(x, y)] passes the test. *)
Definition near (l : list Z) (n : Z) (y x : nat) : Prop :=
  exists y' x', (y' < height)%nat /\ (x' < width)%nat
                /\ cell_is on l (y' * width + x') = true
                /\ city_block y x y' x' <= n.

Lemma fold_left_pointwise {A St : Type} (f g : St -> A -> St) (l : list A) (s : St) :
  (forall s a, f s a = g s a) -> fold_left f l s = fold_left g l s.
Proof.
  intros H. revert s. induction l as [|a l IH]; intros s; [reflexivity|].
  cbn [fold_left]. now rewrite H, IH.
Qed.

Definition grows (l : list Z) (y x : nat) : bool :=
  cell_is on l (y * width + x)
  || ((0 <? x)%nat && cell_is on l (y * width + x - 1))
  || ((x + 1 <? width)%nat && cell_is on l (y * width + x + 1))
  || ((0 <? y)%nat && cell_is on l (y * width + x - width))
  || ((y + 1 <? height)%nat && cell_is on l (y * width + x + width)).

Lemma grow_pass_spec (l : list Z) :
  length l = (height * width)%nat ->
  length (grow_pass on mark width height l) = length l
  /\ forall y x, (y < height)%nat -> (x < width)%nat ->
       grow_pass on mark width height l !!! (y * width + x)%nat
       = if grows l y x then mark else 0.
Proof.
  intros Hlen. unfold grow_pass, for_yx.
  rewrite (fold_left_pointwise _
             (fun tmp yx => if grows l (fst yx) (snd yx)
                            then <[(fst yx * width + snd yx)%nat := mark]> tmp else tmp)).
  2:{ intros s [y x]. cbn [fst snd]. unfold grow_body, grows. cbv zeta.
      destruct (cell_is on l (y * width + x)); [reflexivity|]. cbn [orb].
      reflexivity. }
  destruct (fold_writes (fun yx : nat * nat => (fst yx * width + snd yx)%nat)
              (fun yx => grows l (fst yx) (snd yx)) mark (raster_order height width)
              (replicate (length l) 0)) as [Hl Hj].
  cbv zeta in Hl, Hj. rewrite length_replicate in Hl, Hj.
  split; [exact Hl|]. intros y x Hy Hx.
  rewrite Hj by nia. rewrite lookup_total_replicate_2 by nia.
  match goal with |- (if ?e then _ else _) = _ =>
    assert (Heq : e = grows l y x); [|now rewrite Heq] end.
  apply eq_true_iff_eq. rewrite existsb_exists. split.
  - intros ([y' x'] & Hin & E). cbn [fst snd] in E. apply andb_prop in E as [E Epos].
    apply Nat.eqb_eq in Epos. apply raster_order_In in Hin.
    destruct (cell_unique width y' x' y x) as [-> ->]; [lia|lia|lia|exact E].
  - intros E. exists (y, x). split; [now apply raster_order_In|]. cbn [fst snd].
    now rewrite E, Nat.eqb_refl.
Qed.

Lemma grows_near (l l0 : list Z) (n : Z) (y x : nat) :
  0 <= n -> (y < height)%nat -> (x < width)%nat ->
  (forall y' x', (y' < height)%nat -> (x' < width)%nat ->
     cell_is on l (y' * width + x') = true <-> near l0 n y' x') ->
  grows l y x = true <-> near l0 (n + 1) y x.
Proof.
  intros Hn Hy Hx Hl. unfold grows. rewrite !orb_true_iff, !andb_true_iff.
  rewrite !Nat.ltb_lt. split.
  - assert (G : forall y' x', (y' < height)%nat -> (x' < width)%nat ->
                  city_block y x y' x' <= 1 ->
                  cell_is on l (y' * width + x') = true -> near l0 (n + 1) y x).
    { intros y' x' Hy' Hx' Hd Hc. apply Hl in Hc as (y2 & x2 & H1 & H2 & H3 & H4);
        [|assumption|assumption].
      exists y2, x2. repeat (split; [assumption|]). unfold city_block in *. lia. }
    intros [[[[H|[H0 H]]|[H0 H]]|[H0 H]]|[H0 H]].
    + apply (G y x); auto. unfold city_block. lia.
    + apply (G y (x - 1)%nat); [assumption|lia|unfold city_block; lia|].
      now replace (y * width + (x - 1))%nat with (y * width + x - 1)%nat by lia.
    + apply (G y (x + 1)%nat); [assumption|lia|unfold city_block; lia|].
      now replace (y * width + (x + 1))%nat with (y * width + x + 1)%nat by lia.
    + apply (G (y - 1)%nat x); [lia|assumption|unfold city_block; lia|].
      now replace ((y - 1) * width + x)%nat with (y * width + x - width)%nat by nia.
    + apply (G (y + 1)%nat x); [lia|assumption|unfold city_block; lia|].
      now replace ((y + 1) * width + x)%nat with (y * width + x + width)%nat by nia.
  - intros (y2 & x2 & H1 & H2 & H3 & H4).
    assert (G : forall y' x', (y' < height)%nat -> (x' < width)%nat ->
                  city_block y' x' y2 x2 <= n -> cell_is on l (y' * width + x') = true).
    { intros y' x' Hy' Hx' Hd. apply Hl; [assumption|assumption|].
      exists y2, x2. auto. }
    unfold city_block in *.
    destruct (Z_le_gt_dec (Z.abs (Z.of_nat y - Z.of_nat y2)
                           + Z.abs (Z.of_nat x - Z.of_nat x2)) n) as [Hd|Hd].
    { left; left; left; left. apply G; assumption. }
    destruct (Nat.lt_trichotomy x x2) as [Hlt|[->|Hgt]].
    + left; left; right. split; [lia|].
      replace (y * width + x + 1)%nat with (y * width + (x + 1))%nat by lia.
      apply G; lia.
    + destruct (Nat.lt_trichotomy y y2) as [Hlt|[->|Hgt]].
      * right. split; [lia|].
        replace (y * width + x2 + width)%nat with ((y + 1) * width + x2)%nat by nia.
        apply G; lia.
      * lia.
      * left; right. split; [lia|].
        replace (y * width + x2 - width)%nat with ((y - 1) * width + x2)%nat by nia.
        apply G; lia.
    + left; left; left; right. split; [lia|].
      replace (y * width + x - 1)%nat with (y * width + (x - 1))%nat by lia.
      apply G; lia.
Qed.

Lemma near_zero (l : list Z) (y x : nat) :
  (y < height)%nat -> (x < width)%nat ->
  cell_is on l (y * width + x) = true <-> near l 0 y x.
Proof.
  intros Hy Hx. split.
  - intros H. exists y, x. unfold city_block. repeat (split; [assumption|]). lia.
  - intros (y2 & x2 & H1 & H2 & H3 & H4). unfold city_block in H4.
    assert (y2 = y) as -> by lia. assert (x2 = x) as -> by lia. exact H3.
Qed.

Lemma cell_is_total (l : list Z) (i : nat) :
  (i < length l)%nat -> cell_is on l i = on (l !!! i).
Proof.
  intros H. unfold cell_is. rewrite list_lookup_total_alt.
  destruct (l !! i) eqn:E; [reflexivity|]. apply lookup_ge_None in E. lia.
Qed.

Lemma grow_iter_spec (l : list Z) (n : nat) :
  length l = (height * width)%nat ->
  let out := Nat.iter n (grow_pass on mark width height) l in
  length out = length l
  /\ (forall y x, (y < height)%nat -> (x < width)%nat ->
        cell_is on out (y * width + x) = true <-> near l (Z.of_nat n) y x)
  /\ ((0 < n)%nat -> forall y x, (y < height)%nat -> (x < width)%nat ->
        out !!! (y * width + x)%nat = if cell_is on out (y * width + x) then mark else 0).
Proof.
  intros Hlen. cbv zeta. induction n as [|n (IH1 & IH2 & _)].
  - simpl. split; [reflexivity|]. split; [|lia]. intros y x Hy Hx. now apply near_zero.
  - rewrite Nat.iter_succ.
    destruct (grow_pass_spec (Nat.iter n (grow_pass on mark width height) l))
      as [Hl Hv]; [congruence|].
    split; [congruence|].
    assert (Hc : forall y x, (y < height)%nat -> (x < width)%nat ->
               cell_is on (grow_pass on mark width height
                             (Nat.iter n (grow_pass on mark width height) l))
                 (y * width + x)
               = grows (Nat.iter n (grow_pass on mark width height) l) y x).
    { intros y x Hy Hx. rewrite cell_is_total by (rewrite Hl, IH1, Hlen; nia).
      rewrite Hv by assumption. now destruct (grows _ y x). }
    split.
    + intros y x Hy Hx. rewrite Hc by assumption.
      replace (Z.of_nat (S n)) with (Z.of_nat n + 1) by lia.
      apply grows_near; [lia|assumption|assumption|exact IH2].
    + intros _ y x Hy Hx. rewrite Hc, Hv by assumption. reflexivity.
Qed.

End DilationTheory.

(** A scan that paints the chosen pixels. *)
Lemma fold_paints (c : nat -> bool) (r g b a : Z) (items : list nat) (data : list Z) :
  let out := fold_left (fun data i => if c i then put_pixel data (i * 4) r g b a else data)
               items data in
  length out = length data
  /\ forall k, (k * 4 + 3 < length data)%nat ->
       if existsb (fun i => c i && (i =? k)%nat) items
       then rgb_at out k = (clamp8 r, clamp8 g, clamp8 b) /\ alpha_at out k = clamp8 a
       else rgb_at out k = rgb_at data k /\ alpha_at out k = alpha_at data k.
Proof.
  cbv zeta. revert data. induction items as [|i items IH]; intros data.
  - simpl. auto.
  - cbn [fold_left existsb].
    set (data' := if c i then put_pixel data (i * 4) r g b a else data).
    assert (Hsame : same_but_pixel i data data').
    { unfold data'. destruct (c i); [apply same_but_pixel_put|apply same_but_pixel_refl]. }
    destruct (IH data') as [Hl Hk]. destruct Hsame as [Hlen Hs].
    split; [congruence|]. intros k Hlt. specialize (Hk k ltac:(lia)).
    destruct (existsb _ items); [now rewrite orb_true_r|]. rewrite orb_false_r.
    destruct Hk as [Hrgb Ha]. rewrite Hrgb, Ha.
    destruct (Nat.eqb_spec i k) as [->|Hne].
    + rewrite andb_true_r. unfold data'. destruct (c k); [|auto].
      split; [now apply put_pixel_rgb|now apply put_pixel_alpha].
    + rewrite andb_false_r. unfold rgb_at, alpha_at. now rewrite !Hs by lia.
Qed.

Lemma existsb_seq_at (c : nat -> bool) (n k : nat) :
  (k < n)%nat -> existsb (fun i => c i && (i =? k)%nat) (seq 0 n) = c k.
Proof.
  intros Hk. apply eq_true_iff_eq. rewrite existsb_exists. split.
  - intros (i & _ & E). apply andb_prop in E as [E Ei]. apply Nat.eqb_eq in Ei.
    now subst i.
  - intros E. exists k. split; [apply in_seq; lia|]. now rewrite E, Nat.eqb_refl.
Qed.

(** X8.  [_dilateEdges] clamps the thickness to 1..6.  Up to thickness 1 it
    returns the edge map as it is; from 2 on the result is binary: a cell
    is 255 when a cell above 128 lies within city-block distance
    [min(6, thickness) - 1] of it, and 0 otherwise. *)
Theorem dilateEdges_spreads_by_city_block
    (edges : list Z) (width height : nat) (thickness : Z) (y x : nat) :
  length edges = (width * height)%nat -> (y < height)%nat -> (x < width)%nat ->
  let d := Uint8ClampedArray_from edges in
  let out := _dilateEdges edges width height thickness in
  let reach := Z.min 6 thickness - 1 in
  length out = length edges
  /\ (thickness <= 1 -> out = d)
  /\ (2 <= thickness ->
      (near (fun v => 128 <? v) width height d reach y x ->
       out !!! (y * width + x)%nat = 255)
      /\ (~ near (fun v => 128 <? v) width height d reach y x ->
          out !!! (y * width + x)%nat = 0)).
Proof.
  intros Hlen Hy Hx d out reach. subst out. unfold _dilateEdges. cbv zeta. fold d.
  assert (Hd : length d = (height * width)%nat)
    by (unfold d; rewrite clamped_length; lia).
  destruct (Z.leb_spec (Z.max 1 (Z.min 6 (if thickness =? 0 then 1 else thickness)) - 1) 0)
    as [Hle|Hgt].
  - split; [now rewrite Hd, Hlen; lia|]. split; [reflexivity|].
    destruct (Z.eqb_spec thickness 0); lia.
  - assert (Ht : 2 <= thickness) by (destruct (Z.eqb_spec thickness 0); lia).
    replace (if thickness =? 0 then 1 else thickness) with thickness in *
      by (destruct (Z.eqb_spec thickness 0); [lia|reflexivity]).
    set (n := Z.to_nat (Z.max 1 (Z.min 6 thickness) - 1)).
    assert (Hn : Z.of_nat n = reach) by (unfold n, reach; lia).
    destruct (grow_iter_spec (fun v => 128 <? v) 255 width height eq_refl eq_refl d n Hd)
      as (H1 & H2 & H3).
    split; [rewrite H1, Hd, Hlen; lia|]. split; [lia|]. intros _.
    rewrite H3 by (assumption || lia). rewrite <- Hn. split.
    + intros Hnear. apply H2 in Hnear; [|assumption|assumption]. now rewrite Hnear.
    + intros Hnear.
      destruct (cell_is _ _ _) eqn:E; [|reflexivity].
      exfalso. apply Hnear. now apply H2.
Qed.

Definition one_edge : list Z :=
  [0; 0; 0; 0; 0;
   0; 0; 0; 0; 0;
   0; 0; 200; 0; 0;
   0; 0; 0; 0; 90].

Lemma dilateEdges_spreads_by_city_block_witness :
  _dilateEdges one_edge 5 4 3 !!! 4%nat = 0
  /\ _dilateEdges one_edge 5 4 3 !!! 2%nat = 255.
Proof.
  destruct (dilateEdges_spreads_by_city_block one_edge 5 4 3 0 4 eq_refl ltac:(lia)
              ltac:(lia)) as (_ & _ & Hfar).
  destruct (dilateEdges_spreads_by_city_block one_edge 5 4 3 0 2 eq_refl ltac:(lia)
              ltac:(lia)) as (_ & _ & Hclose).
  split.
  - apply (proj2 (Hfar ltac:(lia))). intros (y' & x' & Hy' & Hx' & Hc & Hdist).
    unfold city_block in Hdist.
    assert (Hcases : ((y' = 0 /\ (x' = 2 \/ x' = 3 \/ x' = 4))
                      \/ (y' = 1 /\ (x' = 3 \/ x' = 4)) \/ (y' = 2 /\ x' = 4))%nat)
      by lia.
    destruct Hcases as [[-> [->|[->| ->]]]|[[-> [->| ->]]|[-> ->]]];
      vm_compute in Hc; discriminate.
  - apply (proj1 (Hclose ltac:(lia))). exists 2%nat, 2%nat.
    split; [lia|]. split; [lia|]. split; [reflexivity|]. vm_compute. discriminate.
Defined.

(** X9.  [applyOutline] leaves every pixel with alpha 128 or more as it is;
    a pixel with alpha below 128 becomes opaque black when a pixel with
    alpha 128 or more lies within city-block distance [thickness] of it,
    and stays as it is otherwise. *)
Theorem applyOutline_paints_the_rim
    (imageData : list Z) (width height : nat) (thickness : Z) (y x : nat) :
  length imageData = (width * height * 4)%nat -> (y < height)%nat -> (x < width)%nat ->
  let d := Uint8ClampedArray_from imageData in
  let out := applyOutline imageData width height thickness in
  let k := (y * width + x)%nat in
  let rim :=
    exists y' x', (y' < height)%nat /\ (x' < width)%nat
                  /\ 128 <= alpha_at d (y' * width + x')
                  /\ city_block y x y' x' <= thickness in
  length out = length imageData
  /\ (alpha_at d k < 128 -> rim -> rgb_at out k = (0, 0, 0) /\ alpha_at out k = 255)
  /\ (128 <= alpha_at d k \/ ~ rim ->
      rgb_at out k = rgb_at d k /\ alpha_at out k = alpha_at d k).
Proof.
  intros Hlen Hy Hx d out k rim. subst out. unfold applyOutline. cbv zeta. fold d.
  assert (Hd : length d = (width * height * 4)%nat)
    by (unfold d; now rewrite clamped_length).
  assert (Hk : (k < width * height)%nat) by (unfold k; nia).
  destruct (Z.leb_spec (Z.max 0 thickness) 0) as [Hle|Hgt].
  { split; [congruence|]. split; [|auto].
    intros Ha (y' & x' & _ & _ & Ha' & Hdist). unfold city_block in Hdist.
    assert (y' = y) as -> by lia. assert (x' = x) as -> by lia. fold k in Ha'. lia. }
  set (mask := map (fun i => if cell_is (fun a => 128 <=? a) d (i * 4 + 3) then 1 else 0)
                 (seq 0 (width * height))).
  set (n := Z.to_nat (Z.max 0 thickness)).
  assert (Hn : Z.of_nat n = thickness) by (unfold n; lia).
  assert (Hml : length mask = (height * width)%nat)
    by (unfold mask; rewrite length_map, length_seq; lia).
  assert (Hmask : forall i, (i < width * height)%nat ->
            cell_is truthy mask i = (128 <=? alpha_at d i)).
  { intros i Hi. unfold cell_is at 1, mask.
    rewrite list_lookup_fmap, lookup_seq_lt by assumption.
    cbn [fmap option_fmap option_map Nat.add].
    rewrite (cell_is_total _ d) by lia. fold (alpha_at d i).
    destruct (128 <=? alpha_at d i); reflexivity. }
  destruct (grow_iter_spec truthy 1 width height eq_refl eq_refl mask n Hml)
    as (H1 & H2 & _).
  set (dilated := Nat.iter n (grow_pass truthy 1 width height) mask) in *.
  assert (Hrim : cell_is truthy dilated k = true <-> rim).
  { unfold k. rewrite H2 by assumption. rewrite Hn. unfold near, rim. split.
    - intros (y' & x' & Hy' & Hx' & Hc & Hdist). exists y', x'.
      rewrite Hmask in Hc by nia. apply Z.leb_le in Hc. auto.
    - intros (y' & x' & Hy' & Hx' & Hc & Hdist). exists y', x'.
      rewrite Hmask by nia. apply Z.leb_le in Hc. auto. }
  destruct (fold_paints (fun i => cell_is truthy dilated i && negb (cell_is truthy mask i))
              0 0 0 255 (seq 0 (length dilated)) d) as [Hl Hp].
  cbv zeta in Hl, Hp. unfold outline_body.
  split; [congruence|]. specialize (Hp k ltac:(lia)).
  rewrite existsb_seq_at in Hp by (rewrite H1, Hml; lia).
  rewrite Hmask in Hp by assumption.
  destruct (cell_is truthy dilated k) eqn:Edil.
  - destruct (Z.leb_spec 128 (alpha_at d k)) as [Hop|Htr]; cbn [andb negb] in Hp.
    + split; [lia|]. intros _. exact Hp.
    + split; [intros _ _; exact Hp|]. intros [Hop|Hno]; [lia|].
      exfalso. apply Hno. now apply Hrim.
  - cbn [andb] in Hp. split; [|intros _; exact Hp].
    intros _ Hr. apply Hrim in Hr. discriminate.
Qed.

Definition dot_raster : list Z :=
  concat (replicate 4 [7; 7; 7; 0]) ++ [200; 100; 50; 255]
  ++ concat (replicate 4 [7; 7; 7; 0]).

Lemma applyOutline_paints_the_rim_witness :
  (rgb_at (applyOutline dot_raster 3 3 1) 1 = (0, 0, 0)
   /\ alpha_at (applyOutline dot_raster 3 3 1) 1 = 255)
  /\ rgb_at (applyOutline dot_raster 3 3 1) 4 = (200, 100, 50).
Proof.
  destruct (applyOutline_paints_the_rim dot_raster 3 3 1 0 1 eq_refl ltac:(lia) ltac:(lia))
    as (_ & Hnear & _).
  destruct (applyOutline_paints_the_rim dot_raster 3 3 1 1 1 eq_refl ltac:(lia) ltac:(lia))
    as (_ & _ & Hkeep).
  split.
  - apply Hnear; [vm_compute; reflexivity|]. exists 1%nat, 1%nat.
    split; [lia|]. split; [lia|]. split; vm_compute; discriminate.
  - apply Hkeep. left. vm_compute. discriminate.
Defined.

(** ** The mode filter picks the first mode *)

(** A raster scan that stores one pixel per cell. *)
Lemma fold_puts {A : Type} (pos : A -> nat) (col : A -> Z * Z * Z * Z)
    (items : list A) (data : list Z) :
  NoDup (map pos items) ->
  let put data a :=
    let '(r, g, b, al) := col a in put_pixel data (pos a * 4) r g b al in
  let out := fold_left put items data in
  length out = length data
  /\ (forall a, In a items -> (pos a * 4 + 3 < length data)%nat ->
        let '(r, g, b, al) := col a in
        rgb_at out (pos a) = (clamp8 r, clamp8 g, clamp8 b) /\ alpha_at out (pos a) = clamp8 al)
  /\ (forall k, ~ In k (map pos items) ->
        rgb_at out k = rgb_at data k /\ alpha_at out k = alpha_at data k).
Proof.
  intros Hnd put. cbv zeta. induction items as [|a items IH] using rev_ind.
  - simpl. split; [reflexivity|]. split; [intros a []|auto].
  - rewrite fold_left_app. cbn [fold_left]. rewrite map_app in Hnd. cbn [map] in Hnd.
    apply NoDup_app in Hnd as (Hnd & Hdis & _). destruct (IH Hnd) as (Hl & Hin & Hout).
    assert (Hnot : ~ In (pos a) (map pos items)).
    { intros H. apply (Hdis (pos a)); [now apply list_elem_of_In|left]. }
    set (prev := fold_left put items data) in *.
    assert (Hsame : same_but_pixel (pos a) prev (put prev a)).
    { unfold put. destruct (col a) as [[[r g] b] al]. apply same_but_pixel_put. }
    destruct Hsame as [Hlen Hs]. split; [congruence|]. split.
    + intros a' Ha' Hlt. apply in_app_or in Ha' as [Ha'|[<-|[]]].
      * specialize (Hin a' Ha' Hlt). destruct (col a') as [[[r g] b] al].
        assert (pos a' <> pos a).
        { intros E. apply Hnot. rewrite <- E. now apply in_map. }
        unfold rgb_at, alpha_at in *. now rewrite !Hs by lia.
      * unfold put. destruct (col a) as [[[r g] b] al].
        split; [apply put_pixel_rgb|apply put_pixel_alpha]; lia.
    + intros k Hk. rewrite map_app in Hk. cbn [map] in Hk.
      assert (Hk1 : ~ In k (map pos items)) by (intros H; apply Hk, in_or_app; now left).
      assert (Hk2 : k <> pos a) by (intros ->; apply Hk, in_or_app; right; now left).
      destruct (Hout k Hk1) as [E1 E2]. rewrite <- E1, <- E2.
      unfold rgb_at, alpha_at. now rewrite !Hs by lia.
Qed.

Section ModeTheory.

Context (imageData : list Z) (width height : nat).

Definition mode_opaque (c : nat * nat) : bool :=
  128 <=? or0 (imageData !!! ((fst c * width + snd c) * 4 + 3)%nat).

Definition mode_key_of (c : nat * nat) : Z :=
  mode_key imageData ((fst c * width + snd c) * 4).

Definition mode_colour (c : nat * nat) : rgb8 :=
  let j := ((fst c * width + snd c) * 4)%nat in
  (imageData !!! j, imageData !!! (j + 1)%nat, imageData !!! (j + 2)%nat).

(** The opaque cells among [cells], in order. *)
Definition voters (cells : list (nat * nat)) : list (nat * nat) :=
  List.filter mode_opaque cells.

(** [cell] is the voter whose key was the first to reach the top count. *)
Definition first_mode (vs : list (nat * nat)) (cell : nat * nat) (top : Z) : Prop :=
  exists pre post,
    vs = pre ++ cell :: post
    /\ top = occ (map mode_key_of (pre ++ [cell])) (mode_key_of cell)
    /\ (forall k, occ (map mode_key_of vs) k <= top)
    /\ (forall k, occ (map mode_key_of pre) k < top).

Definition mode_inv (own : rgb8) (cells : list (nat * nat)) (acc : ModeState) : Prop :=
  let '(counts, best, col) := acc in
  (forall k, default 0 (counts !! k) = occ (map mode_key_of (voters cells)) k)
  /\ ((voters cells = [] /\ best = 0 /\ col = own)
      \/ exists cell, first_mode (voters cells) cell best /\ col = mode_colour cell).

Lemma occ_snoc (l : list Z) (a b : Z) :
  occ (l ++ [a]) b = occ l b + if decide (a = b) then 1 else 0.
Proof. rewrite occ_app. simpl. lia. Qed.

Lemma occ_nonneg (l : list Z) (b : Z) : 0 <= occ l b.
Proof. induction l as [|x l IH]; simpl; [lia|]. destruct (decide (x = b)); lia. Qed.

Lemma mode_visit_step (own : rgb8) (pre : list (nat * nat)) (c : nat * nat)
    (acc : ModeState) :
  mode_inv own pre acc -> mode_inv own (pre ++ [c]) (mode_visit imageData width acc c).
Proof.
  destruct acc as [[counts best] col]. intros [Hcounts Hbest].
  assert (Eop : (or0 (imageData !!! ((fst c * width + snd c) * 4 + 3)%nat) <? 128)
                = negb (mode_opaque c)).
  { unfold mode_opaque. destruct (Z.ltb_spec (or0 (imageData !!! ((fst c * width + snd c) * 4 + 3)%nat)) 128),
      (Z.leb_spec 128 (or0 (imageData !!! ((fst c * width + snd c) * 4 + 3)%nat)));
      simpl; auto; lia. }
  unfold mode_visit, mode_inv, voters. rewrite List.filter_app. cbn [List.filter].
  rewrite Eop. destruct (mode_opaque c); cbn [negb].
  2:{ rewrite app_nil_r. split; assumption. }
  -
    fold (voters pre) in *. fold (mode_key_of c). fold (mode_colour c).
    set (vs := voters pre) in *. set (key := mode_key_of c).
    rewrite map_app. cbn [map]. fold key.
    assert (Hn : default 0 (counts !! key) + 1 = occ (map mode_key_of vs ++ [key]) key).
    { rewrite Hcounts, occ_snoc. destruct (decide (key = key)); [lia|congruence]. }
    assert (Hc' : forall k, default 0 (<[key := default 0 (counts !! key) + 1]> counts !! k)
                            = occ (map mode_key_of vs ++ [key]) k).
    { intros k. destruct (decide (k = key)) as [->|Hne].
      - rewrite lookup_insert_eq. exact Hn.
      - rewrite lookup_insert_ne by congruence. rewrite Hcounts, occ_snoc.
        destruct (decide (key = k)); [congruence|lia]. }
    destruct (Z.ltb_spec best (default 0 (counts !! key) + 1)) as [Hnew|Hold].
    + split; [exact Hc'|]. right. exists c. split; [|reflexivity].
      exists vs, []. split; [reflexivity|]. rewrite map_app. cbn [map]. fold key.
      split; [exact Hn|].
      assert (Hpre : forall k, occ (map mode_key_of vs) k < default 0 (counts !! key) + 1).
      { intros k. destruct Hbest as [(E & _ & _)|(cell & (p & q & _ & _ & Hmax & _) & _)].
        - rewrite E. simpl. pose proof (occ_nonneg (map mode_key_of vs) key).
          rewrite Hcounts. lia.
        - specialize (Hmax k). lia. }
      split; [|exact Hpre]. intros k. rewrite occ_snoc.
      destruct (decide (key = k)) as [<-|Hne].
      * rewrite Hn, occ_snoc. destruct (decide (key = key)); lia.
      * specialize (Hpre k). lia.
    + split; [exact Hc'|]. right.
      destruct Hbest as [(E & -> & _)|(cell & (p & q & El & Et & Hmax & Hfirst) & Ecol)].
      { pose proof (occ_nonneg (map mode_key_of vs) key). rewrite Hcounts in Hold. lia. }
      exists cell. split; [|exact Ecol].
      exists p, (q ++ [c]). split; [rewrite El, <- app_assoc; reflexivity|].
      split; [exact Et|]. split; [|exact Hfirst].
      intros k. rewrite map_app. cbn [map]. fold key. rewrite occ_snoc. destruct (decide (key = k)) as [<-|Hne].
      * rewrite Hcounts in Hold. lia.
      * specialize (Hmax k). lia.
Qed.

Lemma mode_fold (own : rgb8) (cells : list (nat * nat)) :
  mode_inv own cells (fold_left (mode_visit imageData width) cells (∅, 0, own)).
Proof.
  apply (fold_left_ind (mode_visit imageData width) (mode_inv own)).
  - split; [|now left]. intros k. now rewrite lookup_empty.
  - intros pre a post s _ Hs. now apply mode_visit_step.
Qed.

Lemma mode_offsets_In (left right d : Z) :
  0 <= left -> 0 <= right -> In d (mode_offsets left right) <-> - left <= d <= right.
Proof.
  intros Hl Hr. unfold mode_offsets. rewrite in_map_iff. split.
  - intros (k & <- & Hk). apply in_seq in Hk. lia.
  - intros Hd. exists (Z.to_nat (d + left)). split; [lia|]. apply in_seq. lia.
Qed.

Lemma mode_window_In (left right : Z) (y x yy xx : nat) :
  0 <= left -> 0 <= right ->
  In (yy, xx) (mode_window width height left right y x)
  <-> (yy < height)%nat /\ (xx < width)%nat
      /\ - left <= Z.of_nat yy - Z.of_nat y <= right
      /\ - left <= Z.of_nat xx - Z.of_nat x <= right.
Proof.
  intros Hl Hr. unfold mode_window. rewrite in_flat_map. split.
  - intros (dy & Hdy & H). apply mode_offsets_In in Hdy; [|assumption|assumption].
    cbv zeta in H. destruct (_ || _) eqn:Ey in H; [destruct H|].
    apply in_flat_map in H as (dx & Hdx & H).
    apply mode_offsets_In in Hdx; [|assumption|assumption].
    destruct (_ || _) eqn:Ex in H; [destruct H|]. destruct H as [[= <- <-]|[]].
    apply orb_false_elim in Ey as [Ey1 Ey2]. apply orb_false_elim in Ex as [Ex1 Ex2].
    apply Z.ltb_ge in Ey1, Ex1. apply Z.leb_gt in Ey2, Ex2. lia.
  - intros (Hy & Hx & Hdy & Hdx). exists (Z.of_nat yy - Z.of_nat y).
    split; [now apply mode_offsets_In|]. cbv zeta.
    replace (_ || _) with false
      by (symmetry; apply orb_false_intro; [apply Z.ltb_ge|apply Z.leb_gt]; lia).
    apply in_flat_map. exists (Z.of_nat xx - Z.of_nat x).
    split; [now apply mode_offsets_In|].
    replace (_ || _) with false
      by (symmetry; apply orb_false_intro; [apply Z.ltb_ge|apply Z.leb_gt]; lia).
    left. f_equal; lia.
Qed.

End ModeTheory.

Lemma clamped_rgb_at (imageData : list Z) (k : nat) :
  (k * 4 + 3 < length imageData)%nat ->
  rgb_at (Uint8ClampedArray_from imageData) k
  = (clamp8 (imageData !!! (k * 4)%nat), clamp8 (imageData !!! (k * 4 + 1)%nat),
     clamp8 (imageData !!! (k * 4 + 2)%nat)).
Proof.
  intros H. unfold rgb_at, Uint8ClampedArray_from.
  change (map clamp8 imageData) with (clamp8 <$> imageData).
  now rewrite !(list_lookup_total_fmap clamp8 imageData) by lia.
Qed.

(** X10.  [applyModeFilter] copies the raster when [radius <= 1].
    Otherwise a pixel with alpha below 128 keeps its colour, and a pixel
    with alpha 128 or more gets alpha 255 and the colour of a voter of its
    window, the voters being the in-raster pixels with alpha 128 or more at
    offsets [-left .. right] in both directions: the voter whose packed
    colour was, in scan order, the first to reach the highest count. *)
Theorem applyModeFilter_picks_first_mode
    (imageData : list Z) (width height : nat) (radius : Z) (y x : nat) :
  length imageData = (width * height * 4)%nat -> (y < height)%nat -> (x < width)%nat ->
  let d := Uint8ClampedArray_from imageData in
  let out := applyModeFilter imageData width height radius in
  let k := (y * width + x)%nat in
  let n := or0 radius in
  let left := (n - 1) / 2 in
  let right := n - left - 1 in
  let vs := voters imageData width (mode_window width height left right y x) in
  (radius <= 0 \/ n <= 1 -> out = d)
  /\ (0 < radius -> 1 < n ->
      length out = length imageData
      /\ (mode_opaque imageData width (y, x) = false ->
          rgb_at out k = rgb_at d k
          /\ alpha_at out k = clamp8 (or0 (imageData !!! (k * 4 + 3)%nat)))
      /\ (mode_opaque imageData width (y, x) = true ->
          alpha_at out k = 255
          /\ exists cell top,
               first_mode imageData width vs cell top
               /\ rgb_at out k = rgb_at d (fst cell * width + snd cell))
      /\ (forall yy xx,
            In (yy, xx) vs
            <-> (yy < height)%nat /\ (xx < width)%nat
                /\ - left <= Z.of_nat yy - Z.of_nat y <= right
                /\ - left <= Z.of_nat xx - Z.of_nat x <= right
                /\ mode_opaque imageData width (yy, xx) = true)).
Proof.
  intros Hlen Hy Hx d out k n left right vs. subst out. unfold applyModeFilter.
  cbv zeta. fold d. fold n. fold left. fold right.
  replace (width =? 0)%nat with false by (symmetry; apply Nat.eqb_neq; lia).
  replace (height =? 0)%nat with false by (symmetry; apply Nat.eqb_neq; lia).
  rewrite !orb_false_r.
  destruct (Z.leb_spec radius 0) as [Hr|Hr]; [split; [reflexivity|lia]|].
  destruct (Z.leb_spec n 1) as [Hn|Hn]; [split; [reflexivity|lia]|].
  split; [lia|]. intros _ _.
  assert (Hleft : 0 <= left) by (unfold left; apply Z.div_pos; lia).
  assert (Hright : 0 <= right).
  { unfold right, left. pose proof (Z.mul_div_le (n - 1) 2 ltac:(lia)). lia. }
  set (col := fun yx : nat * nat =>
    let i := ((fst yx * width + snd yx) * 4)%nat in
    let a := or0 (imageData !!! (i + 3)%nat) in
    if a <? 128
    then (imageData !!! i, imageData !!! (i + 1)%nat, imageData !!! (i + 2)%nat, a)
    else
      let '(_, _, (bR, bG, bB)) :=
        fold_left (mode_visit imageData width)
          (mode_window width height left right (fst yx) (snd yx))
          (∅, 0, (imageData !!! i, imageData !!! (i + 1)%nat, imageData !!! (i + 2)%nat)) in
      (bR, bG, bB, 255)).
  unfold for_yx.
  rewrite (fold_left_pointwise _
             (fun data yx => let '(r, g, b, al) := col yx in
                             put_pixel data ((fst yx * width + snd yx) * 4) r g b al)).
  2:{ intros s [y' x']. unfold mode_body, col. cbn [fst snd]. cbv zeta.
      destruct (_ <? 128); [reflexivity|].
      destruct (fold_left _ _ _) as [[? ?] [[? ?] ?]]. reflexivity. }
  destruct (fold_puts (fun yx : nat * nat => (fst yx * width + snd yx)%nat) col
              (raster_order height width) d) as (Hl & Hin & _).
  { rewrite raster_order_index. apply NoDup_seq. }
  cbv zeta in Hl, Hin.
  assert (Hd : length d = length imageData) by apply clamped_length.
  split; [congruence|].
  specialize (Hin (y, x) ltac:(now apply raster_order_In)). cbn [fst snd] in Hin.
  fold k in Hin. specialize (Hin ltac:(rewrite Hd, Hlen; unfold k; nia)).
  assert (Hkk : (k * 4 + 3 < length imageData)%nat) by (rewrite Hlen; unfold k; nia).
  assert (Eop : (or0 (imageData !!! (k * 4 + 3)%nat) <? 128)
                = negb (mode_opaque imageData width (y, x))).
  { unfold mode_opaque. cbn [fst snd]. fold k.
    destruct (Z.ltb_spec (or0 (imageData !!! (k * 4 + 3)%nat)) 128),
      (Z.leb_spec 128 (or0 (imageData !!! (k * 4 + 3)%nat))); simpl; auto; lia. }
  assert (Ecol : col (y, x)
                 = if negb (mode_opaque imageData width (y, x))
                   then (imageData !!! (k * 4)%nat, imageData !!! (k * 4 + 1)%nat,
                         imageData !!! (k * 4 + 2)%nat,
                         or0 (imageData !!! (k * 4 + 3)%nat))
                   else
                     let '(_, _, (bR, bG, bB)) :=
                       fold_left (mode_visit imageData width)
                         (mode_window width height left right y x)
                         (∅, 0, (imageData !!! (k * 4)%nat,
                                 imageData !!! (k * 4 + 1)%nat,
                                 imageData !!! (k * 4 + 2)%nat)) in
                     (bR, bG, bB, 255)).
  { unfold col. cbn [fst snd]. fold k. cbv zeta. now rewrite Eop. }
  rewrite Ecol in Hin. clear Ecol.
  split; [|split].
  - intros E. rewrite E in Hin. cbn [negb] in Hin. destruct Hin as [Hrgb Ha].
    split; [|exact Ha]. rewrite Hrgb. unfold d. now rewrite clamped_rgb_at.
  - intros E. rewrite E in Hin. cbn [negb] in Hin.
    pose proof (mode_fold imageData width
                  (imageData !!! (k * 4)%nat, imageData !!! (k * 4 + 1)%nat,
                   imageData !!! (k * 4 + 2)%nat)
                  (mode_window width height left right y x)) as Hinv.
    destruct (fold_left (mode_visit imageData width) _ _) as [[counts best] [[bR bG] bB]].
    destruct Hin as [Hrgb Ha]. split; [exact Ha|].
    destruct Hinv as [_ [(Hnil & _ & _)|(cell & Hfm & Ec)]].
    + exfalso. assert (Hself : In (y, x) vs).
      { unfold vs, voters. apply filter_In. split; [|exact E].
        apply mode_window_In; [assumption|assumption|]. lia. }
      unfold vs in Hself. rewrite Hnil in Hself. destruct Hself.
    + exists cell, best. split; [exact Hfm|]. rewrite Hrgb.
      destruct Hfm as (p & q & El & _).
      assert (Hc : In cell vs) by (unfold vs; rewrite El; apply in_or_app; right; now left).
      unfold vs, voters in Hc. apply filter_In in Hc as [Hc _]. destruct cell as [cy cx].
      apply mode_window_In in Hc as (Hcy & Hcx & _); [|assumption|assumption].
      cbn [fst snd]. unfold d. rewrite clamped_rgb_at by (rewrite Hlen; nia).
      unfold mode_colour in Ec. cbn [fst snd] in Ec. now injection Ec as -> -> ->.
  - intros yy xx. unfold vs, voters. rewrite filter_In.
    rewrite mode_window_In by assumption. tauto.
Qed.

(** A row of five opaque pixels: red, blue, blue, red, red. *)
Definition five_in_a_row : list Z :=
  [200; 0; 0; 255;  0; 0; 200; 255;  0; 0; 200; 255;  200; 0; 0; 255;  200; 0; 0; 255].

Lemma applyModeFilter_picks_first_mode_witness :
  alpha_at (applyModeFilter five_in_a_row 5 1 3) (0 * 5 + 2) = 255
  /\ applyModeFilter five_in_a_row 5 1 1 = Uint8ClampedArray_from five_in_a_row.
Proof.
  pose proof (applyModeFilter_picks_first_mode five_in_a_row 5 1 3 0 2 eq_refl ltac:(lia)
                ltac:(lia)) as Hwide.
  pose proof (applyModeFilter_picks_first_mode five_in_a_row 5 1 1 0 2 eq_refl ltac:(lia)
                ltac:(lia)) as Hcopy.
  cbv zeta in Hwide, Hcopy. destruct Hwide as [_ Hwide]. destruct Hcopy as [Hcopy _].
  assert (H3 : 1 < or0 3) by (vm_compute; reflexivity).
  assert (H1 : or0 1 <= 1) by (vm_compute; discriminate).
  assert (Hop : mode_opaque five_in_a_row 5 (0%nat, 2%nat) = true)
    by (vm_compute; reflexivity).
  destruct (Hwide ltac:(lia) H3) as (_ & _ & Hmode & _).
  split; [exact (proj1 (Hmode Hop))|]. apply Hcopy. right. exact H1.
Defined.

(** ** The median of a block *)

Section MedianTheory.










End MedianTheory.








(** ** Caches, kernels and the dispatcher *)

(** X12.  The LAB cache answers by key: once [_getLab] has been called
    for a colour, a call for any colour with the same key returns the first
    colour's triple and leaves the cache as it is.  The key truncates the
    channels to 32-bit integers, so colours that differ by fractions
    share a key. *)
Theorem getLab_answers_by_key
    (rt : Runtime) (labCache : gmap Z triple) (r g b r' g' b' : float) :
  lab_key r' g' b' = lab_key r g b ->
  let first := _getLab rt labCache r g b in
  _getLab rt (snd first) r' g' b' = first.
Proof.
  intros Hkey. cbv zeta. unfold _getLab. rewrite Hkey.
  destruct (labCache !! lab_key r g b) as [v|] eqn:E; cbn [snd].
  - now rewrite E.
  - now rewrite lookup_insert_eq.
Qed.

Lemma getLab_answers_by_key_witness :
  _getLab RefEngine.runtime (snd (_getLab RefEngine.runtime ∅ 10 20 30)) 10.5 20.25 30.75
  = _getLab RefEngine.runtime ∅ 10 20 30.
Proof.
  apply (getLab_answers_by_key RefEngine.runtime ∅ 10 20 30 10.5 20.25 30.75).
  vm_compute. reflexivity.
Defined.

(** The sum of the weights of a kernel. *)
Definition weight_sum (k : Kernel) : Z := fold_right Z.add 0 (map weight (offsets k)).

(** X13.  [_getDitherKernel] hands out a kernel for every method name but
    the twelve that its table inherits from [Object.prototype], for which
    the lookup yields the inherited member.  The weights of a kernel handed
    out add up to its divisor, so the whole quantization error is passed
    on; the exception is [atkinson], whose six weights add up to 6 of 8. *)
Theorem dither_kernel_passes_whole_error (method : string) :
  match _getDitherKernel method with
  | Some kernel =>
      weight_sum kernel = (if String.eqb method "atkinson" then 6 else divisor kernel)
      /\ ~ In method Object_prototype_names
  | None => In method Object_prototype_names
  end.
Proof.
  unfold _getDitherKernel.
  destruct (String.eqb method "floyd") eqn:E1.
  { apply String.eqb_eq in E1. subst method. split; [reflexivity|].
    simpl. intuition discriminate. }
  destruct (String.eqb method "atkinson") eqn:E2.
  { apply String.eqb_eq in E2. subst method. split; [reflexivity|].
    simpl. intuition discriminate. }
  destruct (String.eqb method "jarvis") eqn:E3.
  { apply String.eqb_eq in E3. subst method. split; [reflexivity|].
    simpl. intuition discriminate. }
  destruct (String.eqb method "stucki") eqn:E4.
  { apply String.eqb_eq in E4. subst method. split; [reflexivity|].
    simpl. intuition discriminate. }
  destruct (String.eqb method "burkes") eqn:E5.
  { apply String.eqb_eq in E5. subst method. split; [reflexivity|].
    simpl. intuition discriminate. }
  destruct (String.eqb method "sierra") eqn:E6.
  { apply String.eqb_eq in E6. subst method. split; [reflexivity|].
    simpl. intuition discriminate. }
  destruct (existsb (String.eqb method) Object_prototype_names) eqn:E7.
  - apply existsb_exists in E7 as (name & Hin & E). apply String.eqb_eq in E. now subst.
  - split; [reflexivity|]. intros H.
    assert (existsb (String.eqb method) Object_prototype_names = true).
    { apply existsb_exists. exists method. split; [exact H|apply String.eqb_refl]. }
    congruence.
Qed.

Section DitherDispatch.

Context (rt : Runtime) (opts : Options) (palette : list rgb8).

Lemma od_fold_runs (method : string) (strength : float) (width : nat)
    (cells : list (nat * nat)) (st : ODState) :
  (forall draws y x,
     ordered_threshold rt method (_getBayerMatrix method) draws y x <> None) ->
  fold_left (fun ost yx => od_body rt opts palette method strength width ost
                             (fst yx) (snd yx)) cells (Some st) <> None.
Proof.
  intros Hthr. revert st. induction cells as [|[y x] cells IH]; intros st.
  - discriminate.
  - cbn [fold_left fst snd].
    assert (Hs : exists st', od_body rt opts palette method strength width (Some st) y x
                             = Some st').
    { unfold od_body. cbv zeta. destruct (negb _); [eauto|].
      destruct (_ && _); [eauto|].
      destruct (ordered_threshold _ _ _ _ _ _) as [t|] eqn:Et;
        [|now apply Hthr in Et].
      destruct (findClosestPaletteColor _ _ _ _ _ _ _ _) as [[[pr pg] pb] lc]. eauto. }
    destruct Hs as [st' ->]. apply IH.
Qed.

Lemma known_matrix (method : string) :
  existsb (String.eqb method) ["bayer2"; "bayer4"; "bayer8"; "random"] = true ->
  forall draws y x,
    ordered_threshold rt method (_getBayerMatrix method) draws y x <> None.
Proof.
  intros H draws y x. cbn [existsb] in H. rewrite orb_false_r in H.
  unfold ordered_threshold.
  destruct (String.eqb method "random") eqn:Er; [discriminate|].
  rewrite orb_false_r in H. unfold _getBayerMatrix.
  destruct (String.eqb method "bayer2"); [discriminate|].
  destruct (String.eqb method "bayer4"); [discriminate|].
  destruct (String.eqb method "bayer8"); [discriminate|]. discriminate.
Qed.

Lemma known_kernel (method : string) :
  existsb (String.eqb method)
    ["floyd"; "atkinson"; "jarvis"; "stucki"; "burkes"; "sierra"] = true ->
  is_Some (_getDitherKernel method).
Proof.
  intros H. cbn [existsb] in H. unfold _getDitherKernel.
  destruct (String.eqb method "floyd"); [eauto|].
  destruct (String.eqb method "atkinson"); [eauto|].
  destruct (String.eqb method "jarvis"); [eauto|].
  destruct (String.eqb method "stucki"); [eauto|].
  destruct (String.eqb method "burkes"); [eauto|].
  destruct (String.eqb method "sierra"); [eauto|]. discriminate.
Qed.

(** With a kernel at hand the error diffusion returns. *)
Lemma ed_runs (labCache : gmap Z triple) (imageData : list Z) (width height : nat)
    (method : string) :
  is_Some (_getDitherKernel method) ->
  is_Some (_applyErrorDiffusion rt labCache imageData width height palette method opts).
Proof.
  intros [kernel Hk]. unfold _applyErrorDiffusion, for_yx. rewrite Hk.
  destruct (ed_fold_runs rt palette opts kernel width height (raster_order height width)
              (ed_init rt labCache imageData width height opts)) as [st ->].
  eauto.
Qed.

End DitherDispatch.

(** X14.  [applyDithering] never throws: a method it does not know is
    answered with Floyd-Steinberg diffusion, it hands [_applyErrorDiffusion]
    only names of kernels, and [_applyOrderedDither] only methods that have
    a matrix or draw random thresholds. *)
Theorem applyDithering_never_throws
    (rt : Runtime) (labCache : gmap Z triple) (imageData : list Z) (width height : nat)
    (palette : list rgb8) (method : string) (strength : float) (opts : Options) :
  (exists out,
     applyDithering rt labCache imageData width height palette method strength opts
     = Some out)
  /\ (existsb (String.eqb method)
        ["floyd"; "atkinson"; "jarvis"; "stucki"; "burkes"; "sierra";
         "bayer2"; "bayer4"; "bayer8"; "random"] = false ->
      applyDithering rt labCache imageData width height palette method strength opts
      = _applyErrorDiffusion rt labCache imageData width height palette "floyd" opts).
Proof.
  unfold applyDithering.
  destruct (existsb (String.eqb method)
              ["floyd"; "atkinson"; "jarvis"; "stucki"; "burkes"; "sierra"]) eqn:Eed.
  - split.
    + destruct (ed_runs rt opts palette labCache imageData width height method
                  (known_kernel method Eed)) as [out ->]. eauto.
    + intros H.
      change ["floyd"; "atkinson"; "jarvis"; "stucki"; "burkes"; "sierra";
              "bayer2"; "bayer4"; "bayer8"; "random"]
        with (["floyd"; "atkinson"; "jarvis"; "stucki"; "burkes"; "sierra"]
              ++ ["bayer2"; "bayer4"; "bayer8"; "random"]) in H.
      rewrite existsb_app, Eed in H. discriminate.
  - destruct (existsb (String.eqb method) ["bayer2"; "bayer4"; "bayer8"; "random"]) eqn:Eod.
    + split.
      * unfold _applyOrderedDither, for_yx.
        pose proof (od_fold_runs rt opts palette method strength width
                      (raster_order height width)
                      {| od_data := Uint8ClampedArray_from imageData; od_totalValid := 0;
                         od_labCache := labCache; od_draws := 0 |}
                      (known_matrix rt method Eod)) as Hrun.
        destruct (fold_left _ _ _) as [st|]; [eauto|now destruct Hrun].
      * intros H.
        change ["floyd"; "atkinson"; "jarvis"; "stucki"; "burkes"; "sierra";
                "bayer2"; "bayer4"; "bayer8"; "random"]
          with (["floyd"; "atkinson"; "jarvis"; "stucki"; "burkes"; "sierra"]
                ++ ["bayer2"; "bayer4"; "bayer8"; "random"]) in H.
        rewrite existsb_app, Eed, Eod in H. discriminate.
    + split; [|reflexivity].
      destruct (ed_runs rt opts palette labCache imageData width height "floyd"
                  ltac:(eexists; reflexivity)) as [out ->]. eauto.
Qed.

(** ** Colour correction and posterization *)

Section CorrectionTheory.

Context (rt : Runtime) (brightness contrast saturation hue gamma : float).

Lemma correction_body_frame (result : list Z) (k : nat) :
  let out := correction_body rt brightness contrast saturation hue gamma result k in
  length out = length result
  /\ forall j, (j < k * 4 \/ k * 4 + 2 < j)%nat -> out !!! j = result !!! j.
Proof.
  cbv zeta. unfold correction_body.
  destruct (correct_colour _ _ _ _ _ _ _) as [[r g] b].
  split; [now rewrite !length_insert|]. intros j Hj.
  now rewrite !list_lookup_total_insert_ne by lia.
Qed.

Lemma correction_fold_frame (ks : list nat) (result : list Z) :
  let out := fold_left (correction_body rt brightness contrast saturation hue gamma) ks
               result in
  length out = length result
  /\ forall p, out !!! (p * 4 + 3)%nat = result !!! (p * 4 + 3)%nat.
Proof.
  cbv zeta. revert result. induction ks as [|k ks IH]; intros result; [auto|].
  cbn [fold_left]. destruct (IH (correction_body rt brightness contrast saturation hue
                                    gamma result k)) as [Hl Hp].
  destruct (correction_body_frame result k) as [Hl' Hj]. split; [congruence|].
  intros p. rewrite Hp. apply Hj. lia.
Qed.

End CorrectionTheory.

(** X15.  Whatever the five settings and the engine, [applyColorCorrection]
    keeps the length of the raster and never changes an alpha byte. *)
Theorem applyColorCorrection_keeps_alpha
    (rt : Runtime) (imageData : list Z) (brightness contrast saturation hue gamma : float)
    (p : nat) :
  let out := applyColorCorrection rt imageData brightness contrast saturation hue gamma in
  length out = length imageData
  /\ alpha_at out p = alpha_at (Uint8ClampedArray_from imageData) p.
Proof.
  cbv zeta. unfold applyColorCorrection, alpha_at.
  destruct (correction_fold_frame rt brightness contrast saturation hue gamma
              (seq 0 ((length (Uint8ClampedArray_from imageData) + 3) / 4))
              (Uint8ClampedArray_from imageData)) as [Hl Hp].
  split; [now rewrite Hl, clamped_length|apply Hp].
Qed.

Lemma stored_byte_round (v : Z) :
  is_byte v -> ToUint8Clamp (Math_round (of_Z v)) = v.
Proof.
  intros Hv.
  assert (H : forallb (fun n => ToUint8Clamp (Math_round (of_Z (Z.of_nat n))) =? Z.of_nat n)
                (seq 0 256) = true) by (vm_compute; reflexivity).
  rewrite forallb_forall in H. unfold is_byte in Hv.
  specialize (H (Z.to_nat v) ltac:(apply in_seq; lia)).
  rewrite Z2Nat.id in H by lia. now apply Z.eqb_eq in H.
Qed.

Lemma neutral_body (rt : Runtime) (brightness contrast saturation hue gamma : float)
    (result : list Z) (k : nat) :
  (brightness =? 0)%float = true -> (contrast =? 0)%float = true ->
  (saturation =? 0)%float = true -> (hue =? 0)%float = true ->
  (gamma =? 1)%float = true ->
  Forall is_byte result ->
  correction_body rt brightness contrast saturation hue gamma result k = result.
Proof.
  intros Hb Hc Hs Hh Hg Hbytes. unfold correction_body, correct_colour.
  rewrite Hb, Hc, Hs, Hh, Hg. cbn [negb]. cbv zeta.
  assert (Hput : forall (l : list Z) (j : nat),
            Forall is_byte l ->
            <[j := ToUint8Clamp (Math_round (channel l j))]> l = l).
  { intros l j Hl. unfold channel. destruct (l !! j) as [v|] eqn:E.
    - apply list_insert_id. rewrite stored_byte_round; [exact E|].
      eapply Forall_lookup_1; eauto.
    - apply list_insert_ge. now apply lookup_ge_None. }
  rewrite (Hput result (k * 4)%nat Hbytes).
  rewrite (Hput result (k * 4 + 1)%nat Hbytes).
  apply (Hput result (k * 4 + 2)%nat Hbytes).
Qed.

(** X16.  With neutral settings (brightness, contrast, saturation and hue
    equal to 0, gamma equal to 1) [applyColorCorrection] returns the raster
    as it is, whatever its length. *)
Theorem applyColorCorrection_neutral_is_identity
    (rt : Runtime) (imageData : list Z) (brightness contrast saturation hue gamma : float) :
  (brightness =? 0)%float = true -> (contrast =? 0)%float = true ->
  (saturation =? 0)%float = true -> (hue =? 0)%float = true ->
  (gamma =? 1)%float = true ->
  applyColorCorrection rt imageData brightness contrast saturation hue gamma
  = Uint8ClampedArray_from imageData.
Proof.
  intros Hb Hc Hs Hh Hg. unfold applyColorCorrection. cbv zeta.
  pose proof (clamped_bytes imageData) as Hbytes.
  induction (seq 0 ((length (Uint8ClampedArray_from imageData) + 3) / 4)) as [|k ks IH];
    [reflexivity|].
  cbn [fold_left]. now rewrite neutral_body.
Qed.

Lemma applyColorCorrection_neutral_is_identity_witness :
  applyColorCorrection RefEngine.runtime [10; 300; 30; 77; 5] 0 (-0) 0 0 1
  = Uint8ClampedArray_from [10; 300; 30; 77; 5].
Proof.
  apply applyColorCorrection_neutral_is_identity; reflexivity.
Defined.

Lemma channel_in_range (l : list Z) (j : nat) :
  (j < length l)%nat -> channel l j = of_Z (l !!! j).
Proof.
  intros H. unfold channel. rewrite list_lookup_total_alt.
  destruct (l !! j) eqn:E; [reflexivity|]. apply lookup_ge_None in E. lia.
Qed.

Lemma posterize_body_spec (step : float) (result : list Z) (k : nat) :
  let out := posterize_body step result k in
  length out = length result
  /\ forall j, (j < length result)%nat ->
       out !!! j = if (k * 4 <=? j)%nat && (j <? k * 4 + 3)%nat
                   then posterized step (of_Z (result !!! j))
                   else result !!! j.
Proof.
  cbv zeta. unfold posterize_body. cbn [fold_left]. rewrite Nat.add_0_r.
  split; [now rewrite !length_insert|]. intros j Hj.
  destruct (Nat.leb_spec (k * 4) j) as [Hlo|Hlo];
    [destruct (Nat.ltb_spec j (k * 4 + 3)) as [Hhi|Hhi]|]; cbn [andb].
  - assert (Hc : (j = k * 4 \/ j = k * 4 + 1 \/ j = k * 4 + 2)%nat) by lia.
    destruct Hc as [->|[->| ->]].
    + rewrite !list_lookup_total_insert_ne by lia.
      rewrite list_lookup_total_insert_eq by lia. now rewrite channel_in_range.
    + rewrite list_lookup_total_insert_ne by lia.
      rewrite list_lookup_total_insert_eq by (rewrite length_insert; lia).
      rewrite channel_in_range by (rewrite length_insert; lia).
      now rewrite list_lookup_total_insert_ne by lia.
    + rewrite list_lookup_total_insert_eq by (rewrite !length_insert; lia).
      rewrite channel_in_range by (rewrite !length_insert; lia).
      now rewrite !list_lookup_total_insert_ne by lia.
  - now rewrite !list_lookup_total_insert_ne by lia.
  - now rewrite !list_lookup_total_insert_ne by lia.
Qed.

Lemma posterize_fold (step : float) (result : list Z) (m : nat) :
  let out := fold_left (posterize_body step) (seq 0 m) result in
  length out = length result
  /\ forall j, (j < length result)%nat ->
       out !!! j = if (j <? m * 4)%nat && negb (j mod 4 =? 3)%nat
                   then posterized step (of_Z (result !!! j))
                   else result !!! j.
Proof.
  cbv zeta. induction m as [|m [IHl IHj]].
  - split; [reflexivity|]. intros j _. reflexivity.
  - rewrite seq_S, fold_left_app. cbn [fold_left Nat.add].
    destruct (posterize_body_spec step (fold_left (posterize_body step) (seq 0 m) result) m)
      as [Hl Hj].
    split; [congruence|]. intros j Hlt. rewrite Hj by lia. rewrite IHj by lia.
    pose proof (Nat.div_mod_eq j 4) as Hdm.
    pose proof (Nat.mod_upper_bound j 4 ltac:(lia)) as Hm.
    destruct (Nat.leb_spec (m * 4) j) as [Hlo|Hlo].
    + replace (j <? m * 4)%nat with false by (symmetry; apply Nat.ltb_ge; lia).
      cbn [andb].
      destruct (Nat.ltb_spec j (m * 4 + 3)) as [Hhi|Hhi]; cbn [andb].
      * replace (j <? S m * 4)%nat with true by (symmetry; apply Nat.ltb_lt; lia).
        replace (j mod 4 =? 3)%nat with false; [reflexivity|].
        symmetry. apply Nat.eqb_neq. lia.
      * destruct (Nat.ltb_spec j (S m * 4)) as [Hin|Hout]; cbn [andb]; [|reflexivity].
        replace (j mod 4 =? 3)%nat with true; [reflexivity|].
        symmetry. apply Nat.eqb_eq. lia.
    + cbn [andb].
      replace (j <? m * 4)%nat with true by (symmetry; apply Nat.ltb_lt; lia).
      replace (j <? S m * 4)%nat with true by (symmetry; apply Nat.ltb_lt; lia).
      reflexivity.
Qed.

(** The levels 1..256 on every byte, checked by evaluation. *)
Definition posterize_ok (n v : Z) : bool :=
  let o := posterized (256 / of_Z n)%float (of_Z v) in
  (0 <=? o) && (o <=? v) && ((v - o - 1) * n <? 256) && ((n <? 256) || (o =? v)).

Lemma posterize_cases :
  forallb (fun n => forallb (fun v => posterize_ok (Z.of_nat n + 1) (Z.of_nat v)) (seq 0 256))
    (seq 0 256) = true.
Proof. vm_compute. reflexivity. Qed.

(** X17.  For a whole number of levels from 1 to 256, [_applyPosterize]
    keeps the length and the alpha bytes, never raises a colour channel,
    and lowers it by less than [256 / levels + 1]; with 256 levels it
    returns the raster as it is. *)
Theorem applyPosterize_only_lowers
    (data : list Z) (width height : nat) (levels : Z) (p c : nat) :
  1 <= levels <= 256 -> (c < 3)%nat ->
  let d := Uint8ClampedArray_from data in
  let out := _applyPosterize data width height (of_Z levels) in
  let v := d !!! (p * 4 + c)%nat in
  let o := out !!! (p * 4 + c)%nat in
  length out = length data
  /\ alpha_at out p = alpha_at d p
  /\ 0 <= o <= v
  /\ (v - o - 1) * levels < 256
  /\ (levels = 256 -> o = v).
Proof.
  intros Hlv Hc d out v o. subst out o v. unfold _applyPosterize. cbv zeta. fold d.
  destruct (posterize_fold (256 / of_Z levels)%float d ((length d + 3) / 4)) as [Hl Hj].
  cbv zeta in Hl, Hj.
  set (out := fold_left _ _ d) in *.
  split; [unfold d in Hl; now rewrite Hl, clamped_length|].
  assert (Hout : forall j, (length d <= j)%nat -> out !!! j = 1 /\ d !!! j = 1).
  { intros j Hge. split; rewrite list_lookup_total_alt, lookup_ge_None_2
      by (rewrite ?Hl; exact Hge); reflexivity. }
  split.
  - unfold alpha_at. destruct (le_lt_dec (length d) (p * 4 + 3)) as [Hge|Hlt].
    + destruct (Hout _ Hge) as [-> ->]. reflexivity.
    + rewrite Hj by assumption.
      replace ((p * 4 + 3) mod 4 =? 3)%nat with true; [now rewrite andb_false_r|].
      symmetry. apply Nat.eqb_eq. rewrite Nat.add_comm, Nat.Div0.mod_add. reflexivity.
  - destruct (le_lt_dec (length d) (p * 4 + c)) as [Hge|Hlt].
    + destruct (Hout _ Hge) as [-> ->]. lia.
    + rewrite Hj by assumption.
      assert (Hm : ((length d + 3) / 4 * 4 > p * 4 + c)%nat).
      { pose proof (Nat.div_mod_eq (length d + 3) 4) as Hdm.
        pose proof (Nat.mod_upper_bound (length d + 3) 4 ltac:(lia)). lia. }
      replace (p * 4 + c <? (length d + 3) / 4 * 4)%nat with true
        by (symmetry; apply Nat.ltb_lt; lia).
      replace ((p * 4 + c) mod 4 =? 3)%nat with false.
      2:{ symmetry. apply Nat.eqb_neq. rewrite Nat.add_comm, Nat.Div0.mod_add.
          rewrite Nat.mod_small; lia. }
      cbn [andb negb].
      pose proof (bytes_lookup d (p * 4 + c) (clamped_bytes data)) as Hb.
      unfold is_byte in Hb. fold d in Hb.
      pose proof posterize_cases as Hall. rewrite forallb_forall in Hall.
      specialize (Hall (Z.to_nat (levels - 1)) ltac:(apply in_seq; lia)).
      rewrite forallb_forall in Hall.
      specialize (Hall (Z.to_nat (d !!! (p * 4 + c)%nat)) ltac:(apply in_seq; lia)).
      rewrite !Z2Nat.id in Hall by lia.
      replace (levels - 1 + 1) with levels in Hall by lia.
      unfold posterize_ok in Hall. cbv zeta in Hall.
      apply andb_prop in Hall as [Hall H4]. apply andb_prop in Hall as [Hall H3].
      apply andb_prop in Hall as [H1 H2].
      apply Z.leb_le in H1, H2. apply Z.ltb_lt in H3.
      split; [lia|]. split; [exact H3|]. intros ->.
      apply orb_prop in H4 as [H4|H4]; [discriminate|now apply Z.eqb_eq in H4].
Qed.

Lemma applyPosterize_only_lowers_witness :
  (200 - _applyPosterize [200; 100; 50; 255] 1 1 (of_Z 3) !!! (0 * 4 + 0)%nat - 1) * 3 < 256.
Proof.
  destruct (applyPosterize_only_lowers [200; 100; 50; 255] 1 1 3 0 0 ltac:(lia) ltac:(lia))
    as (_ & _ & _ & H & _).
  exact H.
Defined.

(** ** Buffers kept between runs *)

Section BufferTheory.

Context (rt : Runtime) (opts : Options) (width height : nat).

Lemma same_cells {A : Type} `{Inhabited A} (l1 l2 : list A) :
  length l1 = length l2 ->
  (forall j, (j < length l1)%nat -> l1 !!! j = l2 !!! j) -> l1 = l2.
Proof.
  intros Hlen Hj. apply (list_eq_same_length l1 l2 (length l1)); [congruence|reflexivity|].
  intros i x y Hi Hx Hy. apply list_lookup_total_correct in Hx, Hy.
  rewrite <- Hx, <- Hy. now apply Hj.
Qed.

Lemma insert_same_cell {A : Type} `{Inhabited A} (l1 l2 : list A) (i j : nat) (v : A) :
  length l1 = length l2 ->
  (i = j /\ (j < length l1)%nat) \/ l1 !!! j = l2 !!! j ->
  <[i := v]> l1 !!! j = <[i := v]> l2 !!! j.
Proof.
  intros Hlen [[-> Hlt]|E].
  - rewrite !list_lookup_total_insert_eq by lia. reflexivity.
  - destruct (decide (i = j)) as [->|Hne].
    + destruct (le_lt_dec (length l1) j) as [Hge|Hlt].
      * rewrite !list_insert_ge by lia. exact E.
      * rewrite !list_lookup_total_insert_eq by lia. reflexivity.
    + now rewrite !list_lookup_total_insert_ne by assumption.
Qed.

Lemma ed_state_eq (s1 s2 : EDState) :
  ed_data s1 = ed_data s2 -> ed_work s1 = ed_work s2 ->
  ed_eligible s1 = ed_eligible s2 -> ed_totalValid s1 = ed_totalValid s2 ->
  ed_labCache s1 = ed_labCache s2 -> s1 = s2.
Proof. destruct s1, s2. simpl. intros. subst. reflexivity. Qed.

(** Two runs of the first loop that differ only in the buffers they were
    handed. *)
Definition agree_on (done : list (nat * nat)) (s1 s2 : EDState) : Prop :=
  ed_data s1 = ed_data s2
  /\ ed_totalValid s1 = ed_totalValid s2
  /\ ed_labCache s1 = ed_labCache s2
  /\ length (ed_work s1) = (width * height * 3)%nat
  /\ length (ed_work s2) = (width * height * 3)%nat
  /\ length (ed_eligible s1) = (width * height)%nat
  /\ length (ed_eligible s2) = (width * height)%nat
  /\ forall yx, In yx done ->
       ed_eligible s1 !!! (fst yx * width + snd yx)%nat
       = ed_eligible s2 !!! (fst yx * width + snd yx)%nat
       /\ forall c, (c < 3)%nat ->
            ed_work s1 !!! ((fst yx * width + snd yx) * 3 + c)%nat
            = ed_work s2 !!! ((fst yx * width + snd yx) * 3 + c)%nat.

Lemma ed_init_body_agree (pre post : list (nat * nat)) (a : nat * nat) (s1 s2 : EDState) :
  raster_order height width = pre ++ a :: post ->
  agree_on pre s1 s2 ->
  agree_on (pre ++ [a]) (ed_init_body rt opts width s1 (fst a) (snd a))
    (ed_init_body rt opts width s2 (fst a) (snd a)).
Proof.
  intros El (Hd & Ht & Hc & Hw1 & Hw2 & He1 & He2 & Hcells).
  assert (Ha : (fst a * width + snd a < width * height)%nat).
  { apply raster_cell_bound. rewrite El. apply in_or_app. right. now left. }
  unfold ed_init_body, agree_on. cbv zeta. cbn [ed_data ed_work ed_eligible ed_totalValid
                                              ed_labCache].
  rewrite <- Hd. rewrite !length_insert.
  repeat (split; [reflexivity || assumption|]).
  intros yx Hin. split.
  - apply insert_same_cell; [congruence|].
    apply in_app_or in Hin as [Hin|[<-|[]]]; [right; now apply Hcells|left].
    split; [reflexivity|lia].
  - intros c Hc3.
    assert (Hold : In yx pre \/ yx = a).
    { apply in_app_or in Hin as [Hin|[<-|[]]]; auto. }
    apply insert_same_cell; [now rewrite !length_insert; congruence|].
    destruct (decide (((fst a * width + snd a) * 3 + 2)%nat
                      = ((fst yx * width + snd yx) * 3 + c)%nat)) as [E|Hne2].
    { left. split; [exact E|]. rewrite !length_insert. lia. }
    right. apply insert_same_cell; [now rewrite !length_insert; congruence|].
    destruct (decide (((fst a * width + snd a) * 3 + 1)%nat
                      = ((fst yx * width + snd yx) * 3 + c)%nat)) as [E|Hne1].
    { left. split; [exact E|]. rewrite !length_insert. lia. }
    right. apply insert_same_cell; [congruence|].
    destruct (decide (((fst a * width + snd a) * 3)%nat
                      = ((fst yx * width + snd yx) * 3 + c)%nat)) as [E|Hne0].
    { left. split; [exact E|]. lia. }
    right. destruct Hold as [Hin'| ->]; [now apply Hcells|].
    assert (c = 0 \/ c = 1 \/ c = 2)%nat as [->|[->| ->]] by lia; lia.
Qed.

Lemma ed_init_any_buffers (labCache : gmap Z triple) (imageData : list Z)
    (work1 work2 : list float) (el1 el2 : list bool) :
  length work1 = (width * height * 3)%nat -> length work2 = (width * height * 3)%nat ->
  length el1 = (width * height)%nat -> length el2 = (width * height)%nat ->
  let start work eligible :=
    {| ed_data := Uint8ClampedArray_from imageData; ed_work := work;
       ed_eligible := eligible; ed_totalValid := 0; ed_labCache := labCache |} in
  for_yx height width (ed_init_body rt opts width) (start work1 el1)
  = for_yx height width (ed_init_body rt opts width) (start work2 el2).
Proof.
  intros Hw1 Hw2 He1 He2 start. unfold for_yx.
  pose proof (fold_left2_ind
                (fun st yx => ed_init_body rt opts width st (fst yx) (snd yx))
                (fun st yx => ed_init_body rt opts width st (fst yx) (snd yx))
                agree_on (raster_order height width) (start work1 el1) (start work2 el2))
    as Hind.
  destruct Hind as (Hd & Ht & Hc & Hl1 & Hl2 & Hm1 & Hm2 & Hcells).
  - unfold agree_on, start. cbn [ed_data ed_work ed_eligible ed_totalValid ed_labCache].
    repeat (split; [reflexivity || assumption|]). intros yx [].
  - intros pre a post t1 t2 El Hagree. now apply (ed_init_body_agree pre post).
  - set (s1 := fold_left _ _ (start work1 el1)) in *.
    set (s2 := fold_left _ _ (start work2 el2)) in *.
    assert (Hwork : ed_work s1 = ed_work s2).
    { apply same_cells; [congruence|]. intros j Hj. rewrite Hl1 in Hj.
      destruct (raster_cell_of_index height width (j / 3)) as (yx & Hin & E).
      { apply Nat.Div0.div_lt_upper_bound. lia. }
      destruct (Hcells yx Hin) as [_ Hw]. specialize (Hw (j mod 3)%nat).
      rewrite E in Hw. pose proof (Nat.div_mod_eq j 3) as Hdm.
      replace (j / 3 * 3 + j mod 3)%nat with j in Hw by lia.
      apply Hw. apply Nat.mod_upper_bound. lia. }
    assert (Hel : ed_eligible s1 = ed_eligible s2).
    { apply same_cells; [congruence|]. intros j Hj. rewrite Hm1 in Hj.
      destruct (raster_cell_of_index height width j) as (yx & Hin & E); [lia|].
      destruct (Hcells yx Hin) as [He _]. now rewrite E in He. }
    apply ed_state_eq; assumption.
Qed.

End BufferTheory.

(** X18.  Reusing the dithering buffers never lets an earlier run show:
    whatever the two buffers of the instance hold, [_applyErrorDiffusion]
    returns the result and the LAB cache it returns with fresh buffers, and
    throws when it throws with fresh buffers. *)
Theorem diffusion_ignores_stale_buffers
    (rt : Runtime) (bufs : Buffers) (labCache : gmap Z triple) (imageData : list Z)
    (width height : nat) (palette : list rgb8) (method : string) (opts : Options) :
  option_map fst
    (_applyErrorDiffusion_on rt bufs labCache imageData width height palette method opts)
  = _applyErrorDiffusion rt labCache imageData width height palette method opts.
Proof.
  unfold _applyErrorDiffusion_on, _applyErrorDiffusion, ed_init, _ensureDitherBuffers.
  cbv zeta.
  match goal with
  | |- context [for_yx height width (ed_init_body rt opts width)
                  {| ed_data := _; ed_work := ?w; ed_eligible := ?e;
                     ed_totalValid := _; ed_labCache := _ |}] =>
      rewrite (ed_init_any_buffers rt opts width height labCache imageData w
                 (replicate (width * height * 3) 0%float) e
                 (replicate (width * height) false))
  end.
  - now destruct (for_yx height width (ed_body rt opts palette _ width height) _).
  - destruct (_ditherWorkBuf bufs) as [w|]; [|apply length_replicate].
    destruct (Nat.eqb_spec (length w) (width * height * 3)); [assumption|].
    apply length_replicate.
  - apply length_replicate.
  - destruct (_ditherEligibleBuf bufs) as [e|]; [|apply length_replicate].
    destruct (Nat.eqb_spec (length e) (width * height)); [assumption|].
    apply length_replicate.
  - apply length_replicate.
Qed.
